(** * cidr-to-regex: a shallow embedding of [cidrToRegex] and its correctness

    The development follows the pipeline of the TypeScript source:
    parser, range normalizer, segment pattern builders, digit-range
    compilers, pattern minimizer and regex assembler.  JavaScript strings
    are lists of 8-bit code units, [bigint] and integral [number] values
    are [Z], arrays are lists, and a thrown [Error] is the [Throw] outcome
    of a small error monad.  The regular expressions the program emits are
    given a meaning by a parser and a matcher for the fragment of the
    JavaScript pattern syntax that the program uses. *)

From Stdlib Require Import String Ascii ZArith Bool Lia Arith List.
Import ListNotations.


Local Open Scope Z_scope.

(** ** Strings *)

Module Str.

Abbreviation t := (list ascii).

Definition code (c : ascii) : Z := Z.of_N (N_of_ascii c).

Fixpoint eqb (a b : t) : bool :=
  match a, b with
  | [], [] => true
  | x :: a', y :: b' => Ascii.eqb x y && eqb a' b'
  | _, _ => false
  end.

(** [s.startsWith(p)] *)
Fixpoint startsWith (p s : t) : bool :=
  match p, s with
  | [], _ => true
  | x :: p', y :: s' => Ascii.eqb x y && startsWith p' s'
  | _ :: _, [] => false
  end.

(** [s.includes(p)] *)
Fixpoint includes (p s : t) : bool :=
  startsWith p s ||
  match s with
  | [] => false
  | _ :: s' => includes p s'
  end.

(** [parts.join(sep)] *)
Fixpoint join (sep : t) (parts : list t) : t :=
  match parts with
  | [] => []
  | [p] => p
  | p :: ps => p ++ sep ++ join sep ps
  end.

(** [s.split(sep)] for a non-empty separator: a left-to-right scan for
    non-overlapping occurrences.  [skip] counts the characters of an
    occurrence still to be passed over, [cur] is the piece being read,
    reversed. *)
Fixpoint split_go (sep : t) (skip : nat) (cur : t) (s : t) : list t :=
  match s with
  | [] => [rev cur]
  | c :: s' =>
      match skip with
      | S k => split_go sep k cur s'
      | O =>
          if startsWith sep s
          then rev cur :: split_go sep (length sep - 1) [] s'
          else split_go sep 0 (c :: cur) s'
      end
  end.

Definition split (sep s : t) : list t := split_go sep 0 [] s.

(** [(s.match(/sep/g) ?? []).length]: the number of non-overlapping
    occurrences found by a left-to-right scan. *)
Fixpoint count_go (sep : t) (skip : nat) (s : t) : nat :=
  match s with
  | [] => O
  | _ :: s' =>
      match skip with
      | S k => count_go sep k s'
      | O =>
          if startsWith sep s
          then S (count_go sep (length sep - 1) s')
          else count_go sep 0 s'
      end
  end.

Definition countMatches (sep s : t) : nat := count_go sep 0 s.

(** [s.lastIndexOf(c)] for a one-character needle; [None] stands for -1. *)
Fixpoint lastIndexOf_go (c : ascii) (i : nat) (best : option nat) (s : t)
  : option nat :=
  match s with
  | [] => best
  | x :: s' =>
      lastIndexOf_go c (S i) (if Ascii.eqb x c then Some i else best) s'
  end.

Definition lastIndexOf (c : ascii) (s : t) : option nat :=
  lastIndexOf_go c 0 None s.

(** [s.slice(from)] and [s.slice(0, to)] with indices inside the string. *)
Definition sliceFrom (from : nat) (s : t) : t := skipn from s.
Definition sliceTo (to : nat) (s : t) : t := firstn to s.

(** [c.repeat(n)] for a one-character string. *)
Definition repeat (c : ascii) (n : nat) : t := List.repeat c n.

(** [s.padStart(n, c)] for a one-character filler. *)
Definition padStart (n : nat) (c : ascii) (s : t) : t :=
  List.repeat c (n - length s) ++ s.

(** White space as [String.prototype.trim] sees it among 8-bit code
    units: TAB, LF, VT, FF, CR, space and the no-break space. *)
Definition isSpace (c : ascii) : bool :=
  let n := code c in
  ((9 <=? n) && (n <=? 13)) || (n =? 32) || (n =? 160).

Fixpoint trimStart (s : t) : t :=
  match s with
  | c :: s' => if isSpace c then trimStart s' else s
  | [] => []
  end.

Definition trim (s : t) : t := rev (trimStart (rev (trimStart s))).

(** [toLowerCase] on 8-bit code units: A-Z, and the Latin-1 capitals
    0xC0-0xDE except the multiplication sign 0xD7. *)
Definition lower (c : ascii) : ascii :=
  let n := code c in
  if ((65 <=? n) && (n <=? 90)) ||
     ((192 <=? n) && (n <=? 222) && negb (n =? 215))
  then ascii_of_N (Z.to_N (n + 32)) else c.

Definition toLowerCase (s : t) : t := map lower s.

Definition isDigit (c : ascii) : bool := (48 <=? code c) && (code c <=? 57).

(** [/^\d+$/.test(s)] *)
Definition allDigits (s : t) : bool :=
  match s with [] => false | _ => forallb isDigit s end.

End Str.

Abbreviation str := Str.t.

(** String literals are written [lit "..."]. *)
Abbreviation lit := list_ascii_of_string (only parsing).

(** ** Numbers and their text *)

Definition HEX_DIGITS : str := lit "0123456789abcdef".

(** [HEX_DIGITS[i]] inside a template string: an index outside the string
    reads [undefined], which a template prints as the word. *)
Definition hexDigitAt (i : Z) : str :=
  if i <? 0 then lit "undefined"
  else match nth_error HEX_DIGITS (Z.to_nat i) with
       | Some c => [c]
       | None => lit "undefined"
       end.

(** [HEX_DIGITS.indexOf(c)]; [None] stands for -1. *)
Fixpoint indexOf_go (c : ascii) (i : Z) (s : str) : option Z :=
  match s with
  | [] => None
  | x :: s' => if Ascii.eqb x c then Some i else indexOf_go c (i + 1) s'
  end.

Definition digitChar (d : Z) : ascii := nth (Z.to_nat d) HEX_DIGITS "?"%char.

(** [Number.prototype.toString(radix)] on a non-negative integer: the
    digits by repeated division, most significant first.  The number of
    binary digits of the value bounds the number of divisions. *)
Fixpoint toString_go (fuel : nat) (radix v : Z) (acc : str) : str :=
  let acc' := digitChar (v mod radix) :: acc in
  match fuel with
  | O => acc'
  | S f => if v / radix =? 0 then acc' else toString_go f radix (v / radix) acc'
  end.

Definition bitLength (v : Z) : nat :=
  match v with
  | Zpos p => Pos.size_nat p
  | _ => O
  end.

Definition numberToString (radix v : Z) : str :=
  toString_go (bitLength v) radix v [].

(** [String(value)] *)
Definition decimal (v : Z) : str := numberToString 10 v.

(** The value of one digit character in a radix up to 16, lower case. *)
Definition digitValue (c : ascii) : option Z := indexOf_go c 0 HEX_DIGITS.

(** [Number.parseInt(s, radix)] on a string already checked to consist of
    digits of the radix.  The exact integer is kept: the rounding of a
    JavaScript number only sets in above 2^53, and every caller rejects
    values that large (an infinite result included) through its range
    check, as it rejects the exact value here. *)
Definition parseInt (radix : Z) (s : str) : Z :=
  fold_left (fun acc c =>
               acc * radix + match digitValue c with Some d => d | None => 0 end)
            s 0.

(** ** Outcomes *)

Inductive exn : Type :=
| InvalidCIDR              (* new Error("Invalid CIDR") *)
| InvalidHexDigit          (* new Error("Invalid hex digit") *)
| InternalPatternSplit     (* new Error("Internal pattern split error") *)
| RegExpSyntax             (* SyntaxError of the RegExp constructor *)
| BudgetExhausted.         (* a loop of the model ran out of its budget *)

Inductive result (A : Type) : Type :=
| Ok (a : A)
| Throw (e : exn).

Arguments Ok {A} a.
Arguments Throw {A} e.

Definition bind {A B} (m : result A) (k : A -> result B) : result B :=
  match m with
  | Ok a => k a
  | Throw e => Throw e
  end.

Notation "x <- m ;; k" := (bind m (fun x => k))
  (at level 61, m at next level, right associativity).

Fixpoint mapM {A B} (f : A -> result B) (l : list A) : result (list B) :=
  match l with
  | [] => Ok []
  | a :: l' => b <- f a ;; bs <- mapM f l' ;; Ok (b :: bs)
  end.

(** ** Address parser *)

Inductive family : Type := IPv4 | IPv6.

Record ParsedCidr : Type := mkParsed {
  pfamily : family;
  address : Z;
  prefix : Z
}.

Definition IPV4_BITS : Z := 32.
Definition IPV6_BITS : Z := 128.

Fixpoint parseByte_go (value : Z) (part : str) : option Z :=
  match part with
  | [] => Some value
  | c :: rest =>
      let code := Str.code c in
      if (code <? 48) || (code >? 57) then None
      else
        let value' := value * 10 + (code - 48) in
        if value' >? 255 then None else parseByte_go value' rest
  end.

Definition parseByte (part : str) : option Z :=
  match part with
  | [] => None
  | _ => parseByte_go 0 part
  end.

Fixpoint parseIPv4_go (value : Z) (parts : list str) : option Z :=
  match parts with
  | [] => Some value
  | part :: rest =>
      if negb (Str.allDigits part) then None
      else match parseByte part with
           | None => None
           | Some octet => parseIPv4_go (Z.lor (Z.shiftl value 8) octet) rest
           end
  end.

Definition parseIPv4 (text : str) : option Z :=
  let parts := Str.split (lit ".") text in
  if negb (length parts =? 4)%nat then None
  else parseIPv4_go 0 parts.

(** [/^[0-9a-f]{1,4}$/.test(part)] *)
Definition isLowerHex (c : ascii) : bool :=
  Str.isDigit c || ((97 <=? Str.code c) && (Str.code c <=? 102)).

Definition isHextetText (part : str) : bool :=
  (1 <=? length part)%nat && (length part <=? 4)%nat && forallb isLowerHex part.

Fixpoint parseHextetParts (parts : list str) : option (list Z) :=
  match parts with
  | [] => Some []
  | part :: rest =>
      if negb (isHextetText part) then None
      else match parseHextetParts rest with
           | None => None
           | Some out => Some (parseInt 16 part :: out)
           end
  end.

Definition expandEmbeddedIPv4 (text : str) : str :=
  if negb (Str.includes (lit ".") text) then text
  else
    match Str.lastIndexOf ":"%char text with
    | None => []
    | Some lastColon =>
        let ipv4Part := Str.sliceFrom (lastColon + 1) text in
        match ipv4Part with
        | [] => []
        | _ =>
            if Str.includes (lit ":") ipv4Part then []
            else
              match parseIPv4 ipv4Part with
              | None => []
              | Some ipv4 =>
                  let high := numberToString 16 (Z.land (Z.shiftr ipv4 16) 65535) in
                  let low := numberToString 16 (Z.land ipv4 65535) in
                  Str.sliceTo lastColon text ++ lit ":" ++ high ++ lit ":" ++ low
              end
        end
    end.

Definition hextetsValue (hextets : list Z) : Z :=
  fold_left (fun value hextet => Z.lor (Z.shiftl value 16) hextet) hextets 0.

Definition parseIPv6 (text : str) : option Z :=
  let normalized := expandEmbeddedIPv4 (Str.toLowerCase text) in
  match normalized with
  | [] => None
  | _ =>
      let doubleColonCount := Str.countMatches (lit "::") normalized in
      if (1 <? doubleColonCount)%nat then None
      else
        let hasCompression := Str.includes (lit "::") normalized in
        let pieces :=
          if hasCompression then Str.split (lit "::") normalized
          else [normalized; []] in
        let leftRaw := nth 0 pieces [] in
        let rightRaw := nth 1 pieces [] in
        let leftParts :=
          match leftRaw with [] => [] | _ => Str.split (lit ":") leftRaw end in
        let rightParts :=
          match rightRaw with
          | [] => []
          | _ => if hasCompression then Str.split (lit ":") rightRaw else []
          end in
        if existsb (fun part => (length part =? 0)%nat) leftParts
           || existsb (fun part => (length part =? 0)%nat) rightParts
        then None
        else
          match parseHextetParts leftParts, parseHextetParts rightParts with
          | Some parsedLeft, Some parsedRight =>
              let hextets :=
                if hasCompression then
                  let fixedCount := (length parsedLeft + length parsedRight)%nat in
                  if (8 <=? fixedCount)%nat then None
                  else
                    let missing := (8 - fixedCount)%nat in
                    Some (parsedLeft ++ List.repeat 0 missing ++ parsedRight)
                else
                  if negb (length parsedLeft =? 8)%nat then None
                  else Some parsedLeft in
              match hextets with
              | None => None
              | Some hextets =>
                  if negb (length hextets =? 8)%nat then None
                  else Some (hextetsValue hextets)
              end
          | _, _ => None
          end
  end.

(** A JavaScript value as [parseCidr] can tell values apart: it only asks
    for the [typeof] tag, and reads the text of a string. *)
Inductive jsValue : Type :=
| JsUndefined
| JsNull
| JsBoolean (b : bool)
| JsNumber (n : Z)
| JsBigInt (n : Z)
| JsString (s : str)
| JsSymbol (id : nat)
| JsObject (id : nat)
| JsFunction (id : nat).

Definition typeof (v : jsValue) : str :=
  match v with
  | JsUndefined => lit "undefined"
  | JsNull => lit "object"
  | JsBoolean _ => lit "boolean"
  | JsNumber _ => lit "number"
  | JsBigInt _ => lit "bigint"
  | JsString _ => lit "string"
  | JsSymbol _ => lit "symbol"
  | JsObject _ => lit "object"
  | JsFunction _ => lit "function"
  end.

Definition parseCidrText (input : str) : result ParsedCidr :=
  let trimmed := Str.trim input in
  let parts := Str.split (lit "/") trimmed in
  match parts with
  | [addressText; prefixText] =>
      match addressText with
      | [] => Throw InvalidCIDR
      | _ =>
          if negb (Str.allDigits prefixText) then Throw InvalidCIDR
          else
            let prefix := parseInt 10 prefixText in
            if Str.includes (lit ":") addressText then
              if (prefix <? 0) || (prefix >? IPV6_BITS) then Throw InvalidCIDR
              else match parseIPv6 addressText with
                   | None => Throw InvalidCIDR
                   | Some address => Ok (mkParsed IPv6 address prefix)
                   end
            else
              if (prefix <? 0) || (prefix >? IPV4_BITS) then Throw InvalidCIDR
              else match parseIPv4 addressText with
                   | None => Throw InvalidCIDR
                   | Some address => Ok (mkParsed IPv4 address prefix)
                   end
      end
  | _ => Throw InvalidCIDR
  end.

(** [parseCidr]: the [typeof] guard, then the body on the text
    ([parseCidrText]). *)
Definition parseCidr (input : jsValue) : result ParsedCidr :=
  if negb (Str.eqb (typeof input) (lit "string")) then Throw InvalidCIDR
  else
    match input with
    | JsString text => parseCidrText text
    | _ => Throw InvalidCIDR
    end.

(** ** Range normalizer *)

Definition normalizeRange (value bits prefix : Z) : Z * Z :=
  let hostBits := bits - prefix in
  let prefixMask :=
    if prefix =? 0 then 0
    else Z.shiftl (Z.shiftl 1 prefix - 1) hostBits in
  let hostMask := if hostBits =? 0 then 0 else Z.shiftl 1 hostBits - 1 in
  let start := Z.land value prefixMask in
  let end_ := Z.lor start hostMask in
  (start, end_).

Definition ipv4ToOctets (value : Z) : list Z :=
  [ Z.land (Z.shiftr value 24) 255;
    Z.land (Z.shiftr value 16) 255;
    Z.land (Z.shiftr value 8) 255;
    Z.land value 255 ].

Definition ipv6ToHextets (value : Z) : list Z :=
  map (fun i : nat =>
         let shift := Z.of_nat ((7 - i) * 16) in
         Z.land (Z.shiftr value shift) 65535)
      (seq 0 8).

(** ** Regular expressions: the pattern syntax the program emits

    [new RegExp(source, flags)] and [RegExp.prototype.test] are part of the
    JavaScript runtime, not of the program.  They are modelled for the part
    of the pattern syntax that occurs in the program's output: literal
    characters, escaped syntax characters, character classes of single
    characters and ranges, non-capturing groups, alternation, the
    quantifiers [?] and [{n}], the assertions [^] and [$], and negative
    lookahead.  Anything else is refused as a syntax error. *)

Inductive regex : Type :=
| RChar (c : ascii)
| RClass (items : list (ascii * ascii))
| REmpty
| RSeq (a b : regex)
| RAlt (a b : regex)
| ROpt (a : regex)
| RRepeat (n : nat) (a : regex)
| RStart
| REnd
| RNot (a : regex).

Definition mkseq (terms : list regex) : regex := fold_right RSeq REmpty terms.

Fixpoint mkalt (first : regex) (others : list regex) : regex :=
  match others with
  | [] => first
  | a :: others' => RAlt first (mkalt a others')
  end.

Inductive groupKind : Type := NonCapturing | NegativeLookahead.

(** The parser reads the pattern once, left to right.  [alts] and [cur] are
    the finished alternatives and the terms of the alternative being read,
    both newest first; [stack] holds the same for the enclosing groups. *)
Record pstate : Type := mkPstate {
  stack : list (list regex * list regex * groupKind);
  alts : list regex;
  cur : list regex
}.

Inductive pmode : Type :=
| InPattern
| InClass (items : list (ascii * ascii))
| InCount (digits : str).

Definition closeAlternatives (alts cur : list regex) : regex :=
  match rev (mkseq (rev cur) :: alts) with
  | [] => REmpty
  | a :: others => mkalt a others
  end.

Definition pushTerm (r : regex) (st : pstate) : pstate :=
  mkPstate (stack st) (alts st) (r :: cur st).

Definition quantifiable (r : regex) : bool :=
  match r with
  | ROpt _ | RRepeat _ _ | RStart | REnd | RNot _ => false
  | _ => true
  end.

Definition quantify (q : regex -> regex) (st : pstate) : option pstate :=
  match cur st with
  | r :: cur' =>
      if quantifiable r then Some (mkPstate (stack st) (alts st) (q r :: cur'))
      else None
  | [] => None
  end.

Definition isSyntaxChar (c : ascii) : bool :=
  existsb (Ascii.eqb c) (lit "^$\.*+?()[]{}|/").

Fixpoint parse_go (s : str) (m : pmode) (st : pstate) : option regex :=
  match m with
  | InPattern =>
      match s with
      | [] =>
          match stack st with
          | [] => Some (closeAlternatives (alts st) (cur st))
          | _ :: _ => None
          end
      | "("%char :: "?"%char :: ":"%char :: rest =>
          parse_go rest InPattern
                   (mkPstate ((alts st, cur st, NonCapturing) :: stack st) [] [])
      | "("%char :: "?"%char :: "!"%char :: rest =>
          parse_go rest InPattern
                   (mkPstate ((alts st, cur st, NegativeLookahead) :: stack st) [] [])
      | "("%char :: _ => None
      | ")"%char :: rest =>
          match stack st with
          | [] => None
          | (alts', cur', kind) :: stack' =>
              let body := closeAlternatives (alts st) (cur st) in
              let term := match kind with
                          | NonCapturing => body
                          | NegativeLookahead => RNot body
                          end in
              parse_go rest InPattern (mkPstate stack' alts' (term :: cur'))
          end
      | "|"%char :: rest =>
          parse_go rest InPattern
                   (mkPstate (stack st) (mkseq (rev (cur st)) :: alts st) [])
      | "^"%char :: rest => parse_go rest InPattern (pushTerm RStart st)
      | "$"%char :: rest => parse_go rest InPattern (pushTerm REnd st)
      | "\"%char :: c :: rest =>
          if isSyntaxChar c then parse_go rest InPattern (pushTerm (RChar c) st)
          else None
      | "\"%char :: [] => None
      | "["%char :: "^"%char :: _ => None
      | "["%char :: rest => parse_go rest (InClass []) st
      | "?"%char :: rest =>
          match quantify ROpt st with
          | Some st' => parse_go rest InPattern st'
          | None => None
          end
      | "{"%char :: rest => parse_go rest (InCount []) st
      | "*"%char :: _ => None
      | "+"%char :: _ => None
      | "."%char :: _ => None
      | "]"%char :: _ => None
      | "}"%char :: _ => None
      | c :: rest => parse_go rest InPattern (pushTerm (RChar c) st)
      end
  | InClass items =>
      match s with
      | [] => None
      | "]"%char :: rest =>
          parse_go rest InPattern (pushTerm (RClass (rev items)) st)
      | "\"%char :: _ => None
      | a :: "-"%char :: "]"%char :: rest =>
          parse_go rest InPattern
                   (pushTerm (RClass (rev (("-"%char, "-"%char) :: (a, a) :: items))) st)
      | a :: "-"%char :: b :: rest =>
          if (Str.code a <=? Str.code b) && negb (Ascii.eqb b "\"%char)
          then parse_go rest (InClass ((a, b) :: items)) st
          else None
      | a :: rest => parse_go rest (InClass ((a, a) :: items)) st
      end
  | InCount digits =>
      match s with
      | [] => None
      | "}"%char :: rest =>
          match digits with
          | [] => None
          | _ =>
              match quantify (RRepeat (Z.to_nat (parseInt 10 (rev digits)))) st with
              | Some st' => parse_go rest InPattern st'
              | None => None
              end
          end
      | c :: rest =>
          if Str.isDigit c then parse_go rest (InCount (c :: digits)) st else None
      end
  end.

Definition parseRegex (source : str) : option regex :=
  parse_go source InPattern (mkPstate [] [] []).

(** Case folding of the [i] flag on 8-bit code units: a character and its
    upper-case form are the same. *)
Definition canon (c : ascii) : ascii :=
  let n := Str.code c in
  if ((97 <=? n) && (n <=? 122)) ||
     ((224 <=? n) && (n <=? 254) && negb (n =? 247))
  then ascii_of_N (Z.to_N (n - 32)) else c.

Definition charMatches (ignoreCase : bool) (c d : ascii) : bool :=
  Ascii.eqb c d || (ignoreCase && Ascii.eqb (canon c) (canon d)).

Definition inRange (d : ascii) (item : ascii * ascii) : bool :=
  (Str.code (fst item) <=? Str.code d) && (Str.code d <=? Str.code (snd item)).

(** With the [i] flag a class matches [d] when it holds a character with
    the same case folding: [d] itself or its other-case form. *)
Definition classMatches (ignoreCase : bool) (items : list (ascii * ascii))
           (d : ascii) : bool :=
  existsb (fun item =>
             inRange d item ||
             (ignoreCase && (inRange (canon d) item || inRange (Str.lower d) item)))
          items.

(** [n] rounds of [step] from every configuration of [cfgs]. *)
Fixpoint iterate (step : nat -> str -> list (nat * str)) (n : nat)
         (cfgs : list (nat * str)) : list (nat * str) :=
  match n with
  | O => cfgs
  | S k => iterate step k (flat_map (fun cfg => step (fst cfg) (snd cfg)) cfgs)
  end.

(** [residuals r pos s]: every way [r] can match a prefix of [s], the text
    that follows position [pos] of the input, as the position and the text
    left after the match. *)
Fixpoint residuals (ignoreCase : bool) (r : regex) (pos : nat) (s : str)
  : list (nat * str) :=
  match r with
  | RChar c =>
      match s with
      | d :: s' => if charMatches ignoreCase c d then [(S pos, s')] else []
      | [] => []
      end
  | RClass items =>
      match s with
      | d :: s' => if classMatches ignoreCase items d then [(S pos, s')] else []
      | [] => []
      end
  | REmpty => [(pos, s)]
  | RSeq a b =>
      flat_map (fun cfg => residuals ignoreCase b (fst cfg) (snd cfg))
               (residuals ignoreCase a pos s)
  | RAlt a b => residuals ignoreCase a pos s ++ residuals ignoreCase b pos s
  | ROpt a => residuals ignoreCase a pos s ++ [(pos, s)]
  | RRepeat n a => iterate (residuals ignoreCase a) n [(pos, s)]
  | RStart => if (pos =? 0)%nat then [(pos, s)] else []
  | REnd => match s with [] => [(pos, s)] | _ :: _ => [] end
  | RNot a =>
      match residuals ignoreCase a pos s with
      | [] => [(pos, s)]
      | _ :: _ => []
      end
  end.

Record RegExp : Type := mkRegExp {
  source : str;
  flags : str;
  program : regex
}.

(** [new RegExp(source, flags)] *)
Definition newRegExp (source flags : str) : result RegExp :=
  match parseRegex source with
  | Some program => Ok (mkRegExp source flags program)
  | None => Throw RegExpSyntax
  end.

Definition ignoreCase (rx : RegExp) : bool := Str.includes (lit "i") (flags rx).

(** [rx.test(input)] without the [g] and [y] flags: a match may start at
    any position of the input. *)
Definition test (rx : RegExp) (input : str) : bool :=
  existsb (fun i =>
             match residuals (ignoreCase rx) (program rx) i (skipn i input) with
             | [] => false
             | _ :: _ => true
             end)
          (seq 0 (S (length input))).

(** ** Pattern helpers *)

Definition IPV4_ANY_OCTET : str :=
  lit "(?:0|[1-9][0-9]?|1[0-9]{2}|2[0-4][0-9]|25[0-5])".
Definition IPV6_ANY_HEXTET : str := lit "[0-9a-f]{4}".

(** The elements of a list in the order of their first occurrence, as a
    [Set] or a [Map] keyed by [key] keeps them. *)
Fixpoint uniqueBy {A : Type} (key : A -> str) (seen : list str) (l : list A)
  : list A :=
  match l with
  | [] => []
  | a :: l' =>
      if existsb (Str.eqb (key a)) seen then uniqueBy key seen l'
      else a :: uniqueBy key (key a :: seen) l'
  end.

Definition uniquePatterns (parts : list str) : list str :=
  uniqueBy (fun part => part) [] parts.

Definition orPattern (parts : list str) : str :=
  match uniquePatterns parts with
  | [] => lit "(?!)"
  | [only] => only
  | unique => lit "(?:" ++ Str.join (lit "|") unique ++ lit ")"
  end.

Definition combineWithSuffix (head : str) (suffixes : list str) (separator : str)
  : list str :=
  map (fun suffix =>
         match suffix with
         | [] => head
         | _ => head ++ separator ++ suffix
         end)
      suffixes.

(** [start[i]] and [end[i]] are read for [i < start.length]; a missing
    [end[i]] is [undefined] and differs from [maxValue]. *)
Definition isFullRange (start end_ : list Z) (fromIndex : nat)
           (minValue maxValue : Z) : bool :=
  forallb (fun i =>
             match nth_error start i, nth_error end_ i with
             | Some s, Some e => (s =? minValue) && (e =? maxValue)
             | _, _ => false
             end)
          (seq fromIndex (length start - fromIndex)).

Definition ipv4AnySuffix (count : Z) : str :=
  if count <=? 0 then []
  else Str.join (lit "\.") (List.repeat IPV4_ANY_OCTET (Z.to_nat count)).

Definition ipv6AnySuffix (count : Z) : str :=
  if count <=? 0 then []
  else Str.join (lit ":") (List.repeat IPV6_ANY_HEXTET (Z.to_nat count)).

(** [array[i] = v] for an index inside the array, the only kind of write
    the program performs: its arrays have one entry per segment and every
    index written is below the segment count. *)
Fixpoint arraySet {A : Type} (i : nat) (v : A) (l : list A) : list A :=
  match l, i with
  | [], _ => []
  | _ :: l', O => v :: l'
  | x :: l', S i' => x :: arraySet i' v l'
  end.

(** [for (let i = from; i < to; i += 1) array[i] = v] *)
Definition fillFrom {A : Type} (from to : nat) (v : A) (l : list A) : list A :=
  fold_left (fun acc i => arraySet i v acc) (seq from (to - from)) l.

(** The integers from [lo] to [hi], in order. *)
Definition valuesFromTo (lo hi : Z) : list Z :=
  map (fun k => lo + Z.of_nat k) (seq 0 (Z.to_nat (hi - lo + 1))).

(** ** Digit-range compiler, decimal *)

Definition octetValuePattern (value : Z) : str := decimal value.

Definition octetRangePattern (start end_ : Z) : str :=
  if (start =? 0) && (end_ =? 255) then IPV4_ANY_OCTET
  else orPattern (map octetValuePattern (valuesFromTo start end_)).

(** ** Segment pattern builder, IPv4

    The recursion runs on [4 - index]; when nothing remains the source
    returns the single empty continuation. *)
Fixpoint buildIPv4Patterns_from (remaining : nat) (start end_ : list Z)
         (index : nat) : list str :=
  match remaining with
  | O => [[]]
  | S remaining' =>
      if isFullRange start end_ index 0 255
      then [ipv4AnySuffix (4 - Z.of_nat index)]
      else
        let low := nth index start 0 in
        let high := nth index end_ 0 in
        if low =? high then
          combineWithSuffix
            (octetRangePattern low high)
            (buildIPv4Patterns_from remaining' start end_ (index + 1))
            (lit "\.")
        else
          let firstEnd := fillFrom (index + 1) 4 255 (arraySet index low start) in
          let lowRows :=
            combineWithSuffix
              (octetRangePattern low low)
              (buildIPv4Patterns_from remaining' start firstEnd (index + 1))
              (lit "\.") in
          let middleRows :=
            if low + 1 <=? high - 1 then
              let middle := octetRangePattern (low + 1) (high - 1) in
              let suffix := ipv4AnySuffix (4 - Z.of_nat index - 1) in
              [match suffix with
               | [] => middle
               | _ => middle ++ lit "\." ++ suffix
               end]
            else [] in
          let lastStart := fillFrom (index + 1) 4 0 (arraySet index high end_) in
          let highRows :=
            combineWithSuffix
              (octetRangePattern high high)
              (buildIPv4Patterns_from remaining' lastStart end_ (index + 1))
              (lit "\.") in
          uniquePatterns (lowRows ++ middleRows ++ highRows)
  end.

Definition buildIPv4Patterns (start end_ : list Z) (index : nat) : list str :=
  buildIPv4Patterns_from (4 - index) start end_ index.

(** ** Digit-range compiler, hexadecimal *)

Definition hexWildcard (length : nat) : str :=
  match length with
  | O => []
  | 1%nat => lit "[0-9a-f]"
  | _ => lit "[0-9a-f]{" ++ decimal (Z.of_nat length) ++ lit "}"
  end.

Definition hexSegment (current segmentEnd : Z) : str :=
  if current =? segmentEnd then hexDigitAt current
  else hexDigitAt current ++ lit "-" ++ hexDigitAt segmentEnd.

(** The [while (current <= end)] loop of [hexDigitRange].  For digits up to
    15 its body runs at most twice; [budget] bounds the number of runs. *)
Fixpoint hexDigitRange_loop (budget : nat) (current end_ : Z) (parts : list str)
  : result (list str) :=
  if current <=? end_ then
    match budget with
    | O => Throw BudgetExhausted
    | S budget' =>
        if current <=? 9 then
          let segmentEnd := Z.min end_ 9 in
          hexDigitRange_loop budget' (segmentEnd + 1) end_
                             (parts ++ [hexSegment current segmentEnd])
        else
          let segmentEnd := Z.min end_ 15 in
          hexDigitRange_loop budget' (segmentEnd + 1) end_
                             (parts ++ [hexSegment current segmentEnd])
    end
  else Ok parts.

Definition hexDigitRange (start end_ : Z) : result str :=
  if start =? end_ then Ok (hexDigitAt start)
  else
    parts <- hexDigitRange_loop 2 start end_ [] ;;
    Ok (lit "[" ++ Str.join [] parts ++ lit "]").

Definition hexValue (char : ascii) : result Z :=
  match indexOf_go char 0 HEX_DIGITS with
  | Some value => Ok value
  | None => Throw InvalidHexDigit
  end.

(** [low[i]]: a read past the end is [undefined], which [hexValue] refuses. *)
Definition charAt (i : nat) (s : str) : result ascii :=
  match nth_error s i with
  | Some c => Ok c
  | None => Throw InvalidHexDigit
  end.

(** The [while] loop that finds [splitIndex]. *)
Fixpoint commonPrefixLength (low high : str) : nat :=
  match low, high with
  | a :: low', b :: high' =>
      if Ascii.eqb a b then S (commonPrefixLength low' high') else O
  | _, _ => O
  end.

(** The recursion of [hexRangeParts] is on strictly shorter tails;
    [budget] is the length of [low]. *)
Fixpoint hexRangeParts_from (budget : nat) (low high : str) : result (list str) :=
  if negb (length low =? length high)%nat then Ok []
  else if Str.eqb low high then Ok [low]
  else
    let length_ := length low in
    if Str.eqb low (Str.repeat "0" length_) && Str.eqb high (Str.repeat "f" length_)
    then Ok [hexWildcard length_]
    else
      let splitIndex := commonPrefixLength low high in
      if (splitIndex =? length_)%nat then Ok [low]
      else
        match budget with
        | O => Throw BudgetExhausted
        | S budget' =>
            let prefix := Str.sliceTo splitIndex low in
            lowChar <- charAt splitIndex low ;;
            lowDigit <- hexValue lowChar ;;
            highChar <- charAt splitIndex high ;;
            highDigit <- hexValue highChar ;;
            let suffixLength := (length_ - splitIndex - 1)%nat in
            let lowerLowTail := Str.sliceFrom (splitIndex + 1) low in
            let lowerHighTail := Str.repeat "f" suffixLength in
            lowerSuffixes <- hexRangeParts_from budget' lowerLowTail lowerHighTail ;;
            lowerParts <-
              mapM (fun suffix =>
                      d <- hexDigitRange lowDigit lowDigit ;;
                      Ok (prefix ++ d ++ suffix))
                   lowerSuffixes ;;
            middleParts <-
              (if lowDigit + 1 <=? highDigit - 1 then
                 d <- hexDigitRange (lowDigit + 1) (highDigit - 1) ;;
                 Ok [prefix ++ d ++ hexWildcard suffixLength]
               else Ok []) ;;
            let upperLowTail := Str.repeat "0" suffixLength in
            let upperHighTail := Str.sliceFrom (splitIndex + 1) high in
            upperSuffixes <- hexRangeParts_from budget' upperLowTail upperHighTail ;;
            upperParts <-
              mapM (fun suffix =>
                      d <- hexDigitRange highDigit highDigit ;;
                      Ok (prefix ++ d ++ suffix))
                   upperSuffixes ;;
            Ok (uniquePatterns (lowerParts ++ middleParts ++ upperParts))
        end.

Definition hexRangeParts (low high : str) : result (list str) :=
  hexRangeParts_from (length low) low high.

(** [hextetRangeCache]: a [Map] from the key text to the pattern.  Only
    [get] and [set] are used, so the newest binding of a key is the one
    that counts. *)
Definition Cache : Type := list (str * str).

Definition cacheGet (key : str) (cache : Cache) : option str :=
  match find (fun kv => Str.eqb (fst kv) key) cache with
  | Some kv => Some (snd kv)
  | None => None
  end.

Definition cacheSet (key value : str) (cache : Cache) : Cache :=
  (key, value) :: cache.

(** Computations that read and write the cache and may throw. *)
Definition M (A : Type) : Type := Cache -> result A * Cache.

Definition retM {A} (a : A) : M A := fun cache => (Ok a, cache).

Definition bindM {A B} (m : M A) (k : A -> M B) : M B :=
  fun cache =>
    match m cache with
    | (Ok a, cache') => k a cache'
    | (Throw e, cache') => (Throw e, cache')
    end.

Notation "x <~ m ;; k" := (bindM m (fun x => k))
  (at level 61, m at next level, right associativity).

Definition hex4 (value : Z) : str := Str.padStart 4 "0" (numberToString 16 value).

(** The body of [hextetRangePattern] below the cache lookup. *)
Definition hextetRangeCompute (start end_ : Z) : result str :=
  if (start =? 0) && (end_ =? 65535) then Ok IPV6_ANY_HEXTET
  else if start =? end_ then Ok (hex4 start)
  else
    let low := hex4 start in
    let high := hex4 end_ in
    parts <- hexRangeParts low high ;;
    Ok (orPattern parts).

Definition hextetRangeKey (start end_ : Z) : str :=
  decimal start ++ lit "-" ++ decimal end_.

Definition hextetRangePattern (start end_ : Z) : M str :=
  fun cache =>
    let key := hextetRangeKey start end_ in
    let compute :=
      match hextetRangeCompute start end_ with
      | Ok pattern => (Ok pattern, cacheSet key pattern cache)
      | Throw e => (Throw e, cache)
      end in
    match cacheGet key cache with
    | Some (c :: cached) => (Ok (c :: cached), cache)
    | Some [] => compute
    | None => compute
    end.

(** ** Segment pattern builder, IPv6 *)

Fixpoint buildIPv6Patterns_from (remaining : nat) (start end_ : list Z)
         (index : nat) : M (list str) :=
  match remaining with
  | O => retM [[]]
  | S remaining' =>
      if isFullRange start end_ index 0 65535
      then retM [ipv6AnySuffix (8 - Z.of_nat index)]
      else
        let low := nth index start 0 in
        let high := nth index end_ 0 in
        if low =? high then
          head <~ hextetRangePattern low high ;;
          suffixes <~ buildIPv6Patterns_from remaining' start end_ (index + 1) ;;
          retM (combineWithSuffix head suffixes (lit ":"))
        else
          let firstEnd := fillFrom (index + 1) 8 65535 (arraySet index low start) in
          lowHead <~ hextetRangePattern low low ;;
          lowSuffixes <~ buildIPv6Patterns_from remaining' start firstEnd (index + 1) ;;
          let lowRows := combineWithSuffix lowHead lowSuffixes (lit ":") in
          middleRows <~
            (if low + 1 <=? high - 1 then
               middle <~ hextetRangePattern (low + 1) (high - 1) ;;
               let suffix := ipv6AnySuffix (8 - Z.of_nat index - 1) in
               retM [match suffix with
                     | [] => middle
                     | _ => middle ++ lit ":" ++ suffix
                     end]
             else retM []) ;;
          let lastStart := fillFrom (index + 1) 8 0 (arraySet index high end_) in
          highHead <~ hextetRangePattern high high ;;
          highSuffixes <~ buildIPv6Patterns_from remaining' lastStart end_ (index + 1) ;;
          let highRows := combineWithSuffix highHead highSuffixes (lit ":") in
          retM (uniquePatterns (lowRows ++ middleRows ++ highRows))
  end.

Definition buildIPv6Patterns (start end_ : list Z) (index : nat) : M (list str) :=
  buildIPv6Patterns_from (8 - index) start end_ index.

(** ** Pattern minimizer *)

Definition U0000 : ascii := ascii_of_nat 0.
Definition U0001 : ascii := ascii_of_nat 1.
Definition U0002 : ascii := ascii_of_nat 2.

Definition updateDepth (char : ascii) (parenDepth : nat) : nat :=
  if Ascii.eqb char "("%char then S parenDepth
  else if Ascii.eqb char ")"%char then Nat.pred parenDepth
  else parenDepth.

(** The scan of [splitPattern].  [skip] counts the separator characters the
    jump [i += separator.length - 1] passes over; [cur] is
    [pattern.slice(start, i)], reversed. *)
Fixpoint splitPattern_go (separator : str) (skip : nat) (parenDepth : nat)
         (inCharClass escaped : bool) (cur : str) (pattern : str) : list str :=
  match pattern with
  | [] => [rev cur]
  | char :: rest =>
      match skip with
      | S skip' =>
          splitPattern_go separator skip' parenDepth inCharClass escaped cur rest
      | O =>
          if negb escaped && negb inCharClass && (parenDepth =? 0)%nat
             && Str.startsWith separator pattern
          then rev cur ::
               splitPattern_go separator (length separator - 1) parenDepth
                               inCharClass escaped [] rest
          else
            let cur' := char :: cur in
            if escaped then
              splitPattern_go separator 0 parenDepth inCharClass false cur' rest
            else if Ascii.eqb char "\"%char then
              splitPattern_go separator 0 parenDepth inCharClass true cur' rest
            else if inCharClass then
              splitPattern_go separator 0 parenDepth
                              (negb (Ascii.eqb char "]"%char)) false cur' rest
            else if Ascii.eqb char "["%char then
              splitPattern_go separator 0 parenDepth true false cur' rest
            else
              splitPattern_go separator 0 (updateDepth char parenDepth)
                              false false cur' rest
      end
  end.

Definition splitPattern (pattern separator : str) (segmentCount : nat)
  : result (list str) :=
  let parts := splitPattern_go separator 0 0 false false [] pattern in
  if negb (length parts =? segmentCount)%nat then Throw InternalPatternSplit
  else Ok parts.

Definition uniquePatternRows (rows : list (list str)) : list (list str) :=
  uniqueBy (fun row => Str.join [U0002] row) [] rows.

(** One entry of the [grouped] map: its key, the template row and the
    variants seen at the merge position.  The map keeps its entries in the
    order of insertion, so it is a list. *)
Definition Group : Type := str * (list str * list str).

Fixpoint groupInsert (key : str) (row : list str) (variant : str)
         (grouped : list Group) : list Group :=
  match grouped with
  | [] => [(key, (row, [variant]))]
  | (k, (template, variants)) :: grouped' =>
      if Str.eqb k key then (k, (template, variants ++ [variant])) :: grouped'
      else (k, (template, variants)) :: groupInsert key row variant grouped'
  end.

Definition groupKey (index : nat) (row : list str) : str :=
  Str.join [U0001] (arraySet index [U0000] row).

Definition groupRows (index : nat) (rows : list (list str)) : list Group :=
  fold_left (fun grouped row =>
               groupInsert (groupKey index row) row (nth index row []) grouped)
            rows [].

Definition mergeGroup (index : nat) (entry : Group) : list str * bool :=
  let variants := uniquePatterns (snd (snd entry)) in
  let merged :=
    match variants with
    | [only] => only
    | _ => orPattern variants
    end in
  (arraySet index merged (fst (snd entry)), (1 <? length variants)%nat).

(** The body of the [for] loop over the segment positions. *)
Definition mergeAt (index : nat) (rows : list (list str))
  : list (list str) * bool :=
  let merged := map (mergeGroup index) (groupRows index rows) in
  (uniquePatternRows (map fst merged), existsb snd merged).

(** One run of the body of the [while] loop. *)
Definition minimizePass (segmentCount : nat) (rows : list (list str))
  : list (list str) * bool :=
  fold_left (fun state index =>
               let step := mergeAt index (fst state) in
               (fst step, snd state || snd step))
            (seq 0 segmentCount) (rows, false).

(** [while (changed)]: [budget] bounds the number of passes. *)
Fixpoint minimizeLoop (budget : nat) (segmentCount : nat) (rows : list (list str))
  : result (list (list str)) :=
  match budget with
  | O => Throw BudgetExhausted
  | S budget' =>
      let pass := minimizePass segmentCount rows in
      if snd pass then minimizeLoop budget' segmentCount (fst pass)
      else Ok (fst pass)
  end.

(** The loop is given one pass per row and one more; [minimizeLoop_stable]
    shows that this budget is never used up and that a larger one gives
    the same rows. *)
Definition minimizePatternSet (patterns : list str) (separator : str)
           (segmentCount : nat) : result (list str) :=
  if (length patterns <=? 1)%nat then Ok patterns
  else
    split <- mapM (fun pattern => splitPattern pattern separator segmentCount)
                  patterns ;;
    let rows := uniquePatternRows split in
    rows' <- minimizeLoop (S (length rows)) segmentCount rows ;;
    Ok (map (Str.join separator) rows').

(** ** Regex assembler *)

Definition buildRegex (patterns : list str) (flags : str) : result RegExp :=
  newRegExp (lit "^(?:" ++ orPattern patterns ++ lit ")$") flags.

Definition liftR {A} (r : result A) : M A := fun cache => (r, cache).

Definition cidrToRegex (cidr : jsValue) : M RegExp :=
  parsed <~ liftR (parseCidr cidr) ;;
  match pfamily parsed with
  | IPv4 =>
      let range := normalizeRange (address parsed) IPV4_BITS (prefix parsed) in
      let startOctets := ipv4ToOctets (fst range) in
      let endOctets := ipv4ToOctets (snd range) in
      patterns <~ liftR (minimizePatternSet
                           (uniquePatterns (buildIPv4Patterns startOctets endOctets 0))
                           (lit "\.") 4) ;;
      liftR (buildRegex patterns [])
  | IPv6 =>
      let range := normalizeRange (address parsed) IPV6_BITS (prefix parsed) in
      let startHextets := ipv6ToHextets (fst range) in
      let endHextets := ipv6ToHextets (snd range) in
      built <~ buildIPv6Patterns startHextets endHextets 0 ;;
      patterns <~ liftR (minimizePatternSet (uniquePatterns built) (lit ":") 8) ;;
      liftR (buildRegex patterns (lit "i"))
  end.

(** ** What a pattern means

    The language of a regular expression without assertions: the strings
    it matches from their first to their last character. *)

Fixpoint repeatLang (L : str -> Prop) (n : nat) (s : str) : Prop :=
  match n with
  | O => s = []
  | S k => exists s1 s2, s = s1 ++ s2 /\ L s1 /\ repeatLang L k s2
  end.

Fixpoint lang (ignoreCase : bool) (r : regex) (s : str) : Prop :=
  match r with
  | RChar c => exists d, s = [d] /\ charMatches ignoreCase c d = true
  | RClass items => exists d, s = [d] /\ classMatches ignoreCase items d = true
  | REmpty => s = []
  | RSeq a b =>
      exists s1 s2, s = s1 ++ s2 /\ lang ignoreCase a s1 /\ lang ignoreCase b s2
  | RAlt a b => lang ignoreCase a s \/ lang ignoreCase b s
  | ROpt a => s = [] \/ lang ignoreCase a s
  | RRepeat n a => repeatLang (lang ignoreCase a) n s
  | RStart | REnd | RNot _ => False
  end.

(** No assertion occurs in the expression. *)
Fixpoint plain (r : regex) : Prop :=
  match r with
  | RChar _ | RClass _ | REmpty => True
  | RSeq a b | RAlt a b => plain a /\ plain b
  | ROpt a | RRepeat _ a => plain a
  | RStart | REnd | RNot _ => False
  end.

(** [Terms p rs]: wherever the parser meets the text [p] while it reads a
    pattern, it reads it as the sequence of terms [rs]. *)
Definition pushTerms (rs : list regex) (st : pstate) : pstate :=
  mkPstate (stack st) (alts st) (rev rs ++ cur st).

Definition Terms (p : str) (rs : list regex) : Prop :=
  forall (rest : str) (st : pstate),
    parse_go (p ++ rest) InPattern st = parse_go rest InPattern (pushTerms rs st).

Definition altOf (rs : list regex) : regex :=
  match rs with
  | [] => REmpty
  | a :: others => mkalt a others
  end.

(** The language of a pattern text, case sensitive. *)
Definition langOf (p : str) (s : str) : Prop :=
  match parseRegex p with
  | Some r => lang false r s
  | None => False
  end.

(** Characters that the parser reads as themselves. *)
Definition isPlainChar (c : ascii) : bool :=
  negb (existsb (Ascii.eqb c) (lit "^$\.*+?()[]{}|")).

(** Expressions whose characters are digits, lower-case hexadecimal
    letters, the colon or the dot, and whose classes are ranges of digits
    or of such letters: under the [i] flag they match a string exactly
    when they match its lower-case form without the flag. *)
Definition isLowerAF (c : ascii) : bool :=
  (97 <=? Str.code c) && (Str.code c <=? 102).

Definition isFoldChar (c : ascii) : bool :=
  Str.isDigit c || isLowerAF c || Ascii.eqb c ":"%char || Ascii.eqb c "."%char.

Definition isFoldItem (item : ascii * ascii) : bool :=
  (Str.isDigit (fst item) && Str.isDigit (snd item))
  || (isLowerAF (fst item) && isLowerAF (snd item)).

Fixpoint foldable (r : regex) : Prop :=
  match r with
  | RChar c => isFoldChar c = true
  | RClass items => forallb isFoldItem items = true
  | REmpty => True
  | RSeq a b | RAlt a b => foldable a /\ foldable b
  | ROpt a | RRepeat _ a => foldable a
  | RStart | REnd | RNot _ => False
  end.

(** A well-formed piece of a pattern: a sequence of terms without
    assertions, over the characters above. *)
Definition Pattern (p : str) : Prop :=
  exists rs, Terms p rs /\ plain (mkseq rs) /\ foldable (mkseq rs).

(** The scan of [splitPattern] over one fragment, started at a given
    nesting depth: [None] when the fragment holds a backslash, a control
    character used in the keys of the minimizer, a closing parenthesis
    without its opening one, or the first character of the separator
    outside every group and class. *)
Definition isKeyChar (c : ascii) : bool :=
  Ascii.eqb c U0000 || Ascii.eqb c U0001 || Ascii.eqb c U0002.

Fixpoint scanFrag (sepc : ascii) (depth : nat) (inClass : bool) (f : str)
  : option (nat * bool) :=
  match f with
  | [] => Some (depth, inClass)
  | c :: f' =>
      if Ascii.eqb c "\"%char || isKeyChar c then None
      else if inClass then scanFrag sepc depth (negb (Ascii.eqb c "]"%char)) f'
      else if (depth =? 0)%nat && Ascii.eqb c sepc then None
      else if Ascii.eqb c "["%char then scanFrag sepc depth true f'
      else if Ascii.eqb c "("%char then scanFrag sepc (S depth) false f'
      else if Ascii.eqb c ")"%char then
             match depth with
             | O => None
             | S d => scanFrag sepc d false f'
             end
      else scanFrag sepc depth false f'
  end.

Definition Splittable (sepc : ascii) (f : str) : Prop :=
  scanFrag sepc 0 false f = Some (0%nat, false).

Definition noKeyChars (f : str) : Prop := forallb (fun c => negb (isKeyChar c)) f = true.

(** One fragment of a row. *)
Definition Frag (sepc : ascii) (f : str) : Prop :=
  Pattern f /\ Splittable sepc f /\ f <> [].

(** Text that the parser reads character by character as itself. *)
Definition isLiteral (l : str) : bool :=
  forallb (fun c => isPlainChar c && isFoldChar c) l.


(** Every 8-bit character. *)
Definition allAscii : list ascii := map ascii_of_nat (seq 0 256).

(** The strings of the language of an expression without assertions, case
    sensitive. *)
Fixpoint enumRepeat (one : list str) (n : nat) : list str :=
  match n with
  | O => [[]]
  | S k => flat_map (fun x => map (app x) (enumRepeat one k)) one
  end.

Fixpoint enumLang (r : regex) : list str :=
  match r with
  | RChar c => [[c]]
  | RClass items => map (fun c => [c]) (filter (classMatches false items) allAscii)
  | REmpty => [[]]
  | RSeq a b => flat_map (fun x => map (app x) (enumLang b)) (enumLang a)
  | RAlt a b => enumLang a ++ enumLang b
  | ROpt a => [] :: enumLang a
  | RRepeat n a => enumRepeat (enumLang a) n
  | RStart | REnd | RNot _ => []
  end.

Definition sameStrings (l1 l2 : list str) : bool :=
  forallb (fun x => existsb (Str.eqb x) l2) l1
  && forallb (fun x => existsb (Str.eqb x) l1) l2.

(** The terms of [IPV4_ANY_OCTET]. *)
Definition octetWildcardTerms : list regex :=
  [altOf
     [mkseq [RChar "0"];
      mkseq [RClass [("1"%char, "9"%char)]; ROpt (RClass [("0"%char, "9"%char)])];
      mkseq [RChar "1"; RRepeat 2 (RClass [("0"%char, "9"%char)])];
      mkseq [RChar "2"; RClass [("0"%char, "4"%char)]; RClass [("0"%char, "9"%char)]];
      mkseq [RChar "2"; RChar "5"; RClass [("0"%char, "5"%char)]]]].

Definition isSplittable (sepc : ascii) (f : str) : bool :=
  match scanFrag sepc 0 false f with
  | Some (O, false) => true
  | _ => false
  end.

(** ** Rows and intervals *)

(** Lexicographic order on segment vectors. *)
Fixpoint lexle (xs ys : list Z) : Prop :=
  match xs, ys with
  | x :: xs', y :: ys' => x < y \/ (x = y /\ lexle xs' ys')
  | [], _ => True
  | _ :: _, [] => False
  end.

(** A row of [k] fragments joined by the separator. *)
Definition Row (sep : str) (sepc : ascii) (k : nat) (p : str) : Prop :=
  exists frags, length frags = k /\ p = Str.join sep frags /\ Forall (Frag sepc) frags.

(** The strings matched by some pattern of a list. *)
Definition rowsLang (ps : list str) (s : str) : Prop :=
  exists p, In p ps /\ langOf p s.

(** The text of a segment vector. *)
Definition showRow (show : Z -> str) (dot : str) (vs : list Z) : str :=
  Str.join dot (map show vs).

Definition isOctet (v : Z) : Prop := 0 <= v <= 255.
Definition isHextet (v : Z) : Prop := 0 <= v <= 65535.

(** An address in its canonical maximal form. *)
Definition canonicalIPv4 (a : Z) : str :=
  showRow decimal (lit ".") (ipv4ToOctets a).

Definition canonicalIPv6 (a : Z) : str :=
  showRow hex4 (lit ":") (ipv6ToHextets a).

(** One row of [combineWithSuffix]. *)
Definition combined (sep head suffix : str) : str :=
  match suffix with
  | [] => head
  | _ => head ++ sep ++ suffix
  end.

(** The recursion shared by [buildIPv4Patterns] and [buildIPv6Patterns],
    with the segment count, the largest segment value, the separator and
    the two fragment compilers as parameters. *)
Fixpoint buildRows (segmentCount : nat) (maxValue : Z) (sep : str)
         (anySuffix : Z -> str) (rangePattern : Z -> Z -> str)
         (remaining : nat) (start end_ : list Z) (index : nat) : list str :=
  match remaining with
  | O => [[]]
  | S remaining' =>
      if isFullRange start end_ index 0 maxValue
      then [anySuffix (Z.of_nat segmentCount - Z.of_nat index)]
      else
        let low := nth index start 0 in
        let high := nth index end_ 0 in
        if low =? high then
          combineWithSuffix
            (rangePattern low high)
            (buildRows segmentCount maxValue sep anySuffix rangePattern
                       remaining' start end_ (index + 1))
            sep
        else
          let firstEnd :=
            fillFrom (index + 1) segmentCount maxValue (arraySet index low start) in
          let lowRows :=
            combineWithSuffix
              (rangePattern low low)
              (buildRows segmentCount maxValue sep anySuffix rangePattern
                         remaining' start firstEnd (index + 1))
              sep in
          let middleRows :=
            if low + 1 <=? high - 1 then
              let middle := rangePattern (low + 1) (high - 1) in
              let suffix := anySuffix (Z.of_nat segmentCount - Z.of_nat index - 1) in
              [match suffix with
               | [] => middle
               | _ => middle ++ sep ++ suffix
               end]
            else [] in
          let lastStart :=
            fillFrom (index + 1) segmentCount 0 (arraySet index high end_) in
          let highRows :=
            combineWithSuffix
              (rangePattern high high)
              (buildRows segmentCount maxValue sep anySuffix rangePattern
                         remaining' lastStart end_ (index + 1))
              sep in
          uniquePatterns (lowRows ++ middleRows ++ highRows)
  end.

(** ** Rows in the minimizer *)

(** A fragment as the minimizer keeps it: a well-formed piece of pattern
    without the characters of the grouping keys. *)
Definition Good (f : str) : Prop :=
  Pattern f /\ noKeyChars f /\ f <> [].

Definition GoodRow (k : nat) (row : list str) : Prop :=
  length row = k /\ Forall Good row.

(** The number of variants held by the groups of a pass. *)
Definition variantCount (grouped : list Group) : nat :=
  fold_right (fun entry n => (length (snd (snd entry)) + n)%nat) 0%nat grouped.

(** The strings matched by a row, fragment by fragment. *)
Definition rowLang (dot : str) (row : list str) (s : str) : Prop :=
  exists pieces, Forall2 langOf row pieces /\ s = Str.join dot pieces.

(** What a pass has grouped so far: every group stands for rows that are
    equal outside the merge position, and every row is in a group. *)
Definition groupsSound (index : nat) (rows : list (list str)) (grouped : list Group)
  : Prop :=
  forall key template variants,
    In (key, (template, variants)) grouped ->
    key = groupKey index template /\ In template rows
    /\ forall v, In v variants ->
                 exists row, In row rows /\ groupKey index row = key
                             /\ nth index row [] = v.

Definition groupsComplete (index : nat) (rows : list (list str))
           (grouped : list Group) : Prop :=
  forall row, In row rows ->
              exists template variants,
                In (groupKey index row, (template, variants)) grouped
                /\ In (nth index row []) variants.

(** The strings matched by some row of a list. *)
Definition setLang (dot : str) (rows : list (list str)) (s : str) : Prop :=
  exists row, In row rows /\ rowLang dot row s.

(** ** The compiler after the parser *)

(** The part of [cidrToRegex] that follows the parser. *)
Definition compileParsed (parsed : ParsedCidr) : M RegExp :=
  match pfamily parsed with
  | IPv4 =>
      let range := normalizeRange (address parsed) IPV4_BITS (prefix parsed) in
      let startOctets := ipv4ToOctets (fst range) in
      let endOctets := ipv4ToOctets (snd range) in
      patterns <~ liftR (minimizePatternSet
                           (uniquePatterns (buildIPv4Patterns startOctets endOctets 0))
                           (lit "\.") 4) ;;
      liftR (buildRegex patterns [])
  | IPv6 =>
      let range := normalizeRange (address parsed) IPV6_BITS (prefix parsed) in
      let startHextets := ipv6ToHextets (fst range) in
      let endHextets := ipv6ToHextets (snd range) in
      built <~ buildIPv6Patterns startHextets endHextets 0 ;;
      patterns <~ liftR (minimizePatternSet (uniquePatterns built) (lit ":") 8) ;;
      liftR (buildRegex patterns (lit "i"))
  end.

Definition bitsOf (f : family) : Z :=
  match f with
  | IPv4 => IPV4_BITS
  | IPv6 => IPV6_BITS
  end.

(** The invariant of a Parsed Prefix. *)
Definition WellFormed (parsed : ParsedCidr) : Prop :=
  0 <= address parsed < 2 ^ bitsOf (pfamily parsed)
  /\ 0 <= prefix parsed <= bitsOf (pfamily parsed).

(** The number written by a segment vector in base [base]. *)
Definition segmentsValue (base : Z) (vs : list Z) : Z :=
  fold_left (fun acc v => acc * base + v) vs 0.

(** Checks by computation over all characters. *)
Definition charFoldCheck : bool :=
  forallb (fun c =>
             forallb (fun d =>
                        implb (isFoldChar c)
                              (Bool.eqb (charMatches true c d)
                                        (Ascii.eqb c (Str.lower d))))
                     allAscii)
          allAscii.

Definition itemFoldCheck : bool :=
  forallb (fun lo =>
             forallb (fun hi =>
                        forallb (fun d =>
                                   implb (isFoldItem (lo, hi))
                                         (Bool.eqb
                                            (inRange d (lo, hi)
                                             || (inRange (canon d) (lo, hi)
                                                 || inRange (Str.lower d) (lo, hi)))
                                            (inRange (Str.lower d) (lo, hi))))
                                allAscii)
                     HEX_DIGITS)
          HEX_DIGITS.

(** ** Hexadecimal digits *)

Definition hexDigits4 (v : Z) : list Z :=
  [ (v / 4096) mod 16; (v / 256) mod 16; (v / 16) mod 16; v mod 16 ].

(** The text of a list of digit values. *)
Definition hexText (ds : list Z) : str := map digitChar ds.

(** [P] holds for [n] consecutive integers from [v] on. *)
Fixpoint forallFrom (P : Z -> bool) (n : nat) (v : Z) : bool :=
  match n with
  | O => true
  | S k => P v && forallFrom P k (v + 1)
  end.

(** One alternative of a hextet fragment. *)
Definition Part (p : str) : Prop := Pattern p /\ Splittable ":"%char p.

(** The language of a pattern is the set of the texts of the digit lists
    that satisfy [D]. *)
Definition HexLang (L : str -> Prop) (D : list Z -> Prop) : Prop :=
  forall s, L s <-> exists ds, D ds /\ Forall (fun d => 0 <= d <= 15) ds
                               /\ s = hexText ds.

Definition digitRangeCheck (lo hi : Z) : bool :=
  match hexDigitRange lo hi with
  | Ok p =>
      match parseRegex p with
      | Some r => sameStrings (enumLang r)
                              (map (fun v => [digitChar v]) (valuesFromTo lo hi))
      | None => false
      end
  | Throw _ => false
  end.

(** ** Intervals of digit lists *)

(** The digit lists as long as [ls] that lie between [ls] and [hs]. *)
Definition between (ls hs ds : list Z) : Prop :=
  length ds = length ls /\ lexle ls ds /\ lexle ds hs.


(** ** The hextet compiler without its cache *)

(** The pattern of a hextet range, as the compiler computes it when the
    cache does not answer. *)
Definition hextetText (start end_ : Z) : str :=
  match hextetRangeCompute start end_ with
  | Ok pattern => pattern
  | Throw _ => []
  end.

(** A cache that answers, for the ranges of hextet values, only with what
    the compiler would compute. *)
Definition Coherent (cache : Cache) : Prop :=
  forall lo hi c cached,
    0 <= lo -> lo <= hi -> hi <= 65535 ->
    cacheGet (hextetRangeKey lo hi) cache = Some (c :: cached) ->
    hextetRangeCompute lo hi = Ok (c :: cached).

(** ** The statement of correctness *)

(** An address of a family in its canonical maximal form. *)
Definition canonical (f : family) (a : Z) : str :=
  match f with
  | IPv4 => canonicalIPv4 a
  | IPv6 => canonicalIPv6 a
  end.

(** What the flags of the family's expression make of an input: the IPv6
    expression ignores case. *)
Definition foldCase (f : family) (s : str) : str :=
  match f with
  | IPv4 => s
  | IPv6 => map Str.lower s
  end.

(** The Numeric Interval of a Parsed Prefix. *)
Definition intervalOf (parsed : ParsedCidr) : Z * Z :=
  normalizeRange (address parsed) (bitsOf (pfamily parsed)) (prefix parsed).

(** The canonical network form: the same prefix length, host bits zeroed. *)
Definition networkForm (parsed : ParsedCidr) : ParsedCidr :=
  mkParsed (pfamily parsed) (fst (intervalOf parsed)) (prefix parsed).


(** ** IPv6 address text, as the specification describes it *)

(** A hex digit of either case. *)
Definition isHexDigit (c : ascii) : bool :=
  Str.isDigit c
  || ((97 <=? Str.code c) && (Str.code c <=? 102))
  || ((65 <=? Str.code c) && (Str.code c <=? 70)).

(** A group of one to four digits accepted by [digit]. *)
Definition isGroupOf (digit : ascii -> bool) (g : str) : bool :=
  (1 <=? length g)%nat && (length g <=? 4)%nat && forallb digit g.

(** A group of one to four hex digits, of either case. *)
Definition isHexGroup (g : str) : bool := isGroupOf isHexDigit g.

(** An embedded IPv4 literal: a text the IPv4 address parser accepts. *)
Definition isIPv4Literal (t : str) : bool :=
  match parseIPv4 t with
  | Some _ => true
  | None => false
  end.

(** A trailing embedded IPv4 literal is written as one more text after the
    last colon, and counts as two groups. *)
Definition tailTexts (tail : option str) : list str :=
  match tail with
  | Some t => [t]
  | None => []
  end.

Definition tailCount (tail : option str) : nat :=
  match tail with
  | Some _ => 2%nat
  | None => 0%nat
  end.

Definition tailOK (tail : option str) : Prop :=
  match tail with
  | Some t => isIPv4Literal t = true
  | None => True
  end.

(** The texts that violate none of the rules: groups accepted by [group],
    joined by single colons, with at most one [::] token between a left
    and a right run of groups; eight groups without the token, fewer than
    eight with it; the last text may be an IPv4 literal. *)
Definition ValidForm (group : str -> bool) (text : str) : Prop :=
  exists (left right : list str) (tail : option str),
    Forall (fun g => group g = true) left
    /\ Forall (fun g => group g = true) right
    /\ tailOK tail
    /\ ((left = []
         /\ text = Str.join (lit ":") (right ++ tailTexts tail)
         /\ (length right + tailCount tail = 8)%nat)
        \/ (text = Str.join (lit ":") left ++ lit "::"
                   ++ Str.join (lit ":") (right ++ tailTexts tail)
            /\ (length left + length right + tailCount tail < 8)%nat)).

Definition ValidIPv6 (text : str) : Prop := ValidForm isHexGroup text.

(** The same without a trailing literal: what the address text is after
    [expandEmbeddedIPv4]. *)
Definition PlainForm (group : str -> bool) (text : str) : Prop :=
  exists left right : list str,
    Forall (fun g => group g = true) left
    /\ Forall (fun g => group g = true) right
    /\ ((left = []
         /\ text = Str.join (lit ":") right
         /\ length right = 8%nat)
        \/ (text = Str.join (lit ":") left ++ lit "::" ++ Str.join (lit ":") right
            /\ (length left + length right < 8)%nat)).

(** The cache of a module that has served a run of calls since it was
    loaded: every call leaves the cache it ends with, also when it throws. *)
Definition cacheAfter (inputs : list jsValue) : Cache :=
  fold_left (fun cache input => snd (cidrToRegex input cache)) inputs [].

(** * Properties *)

(** ** Bit arithmetic of the range normalizer *)

Lemma shiftl_one_pred (n : Z) : Z.shiftl 1 n - 1 = Z.ones n.
Proof. unfold Z.ones. lia. Qed.

Lemma testbit_above (a n m : Z) :
  0 <= a < 2 ^ n -> n <= m -> Z.testbit a m = false.
Proof.
  intros [Ha Hlt] Hnm.
  destruct (Z.eq_dec a 0) as [->|Hne]; [apply Z.bits_0|].
  apply Z.bits_above_log2; [lia|].
  assert (0 <= n) by (destruct (Z.le_gt_cases 0 n); [lia|]; rewrite Z.pow_neg_r in Hlt; lia).
  assert (Z.log2 a < n) by (apply Z.log2_lt_pow2; lia).
  lia.
Qed.

Lemma land_prefixMask (value prefix hostBits : Z) :
  0 <= prefix -> 0 <= hostBits -> 0 <= value < 2 ^ (prefix + hostBits) ->
  Z.land value (Z.shiftl (Z.ones prefix) hostBits)
  = Z.land value (Z.lnot (Z.ones hostBits)).
Proof.
  intros Hp Hh Hv.
  apply Z.bits_inj'. intros n Hn.
  rewrite !Z.land_spec, Z.lnot_spec by lia.
  destruct (Z.lt_ge_cases n hostBits) as [Hlt|Hge].
  - rewrite Z.shiftl_spec_low by lia.
    rewrite Z.ones_spec_low by lia. reflexivity.
  - rewrite Z.shiftl_spec by lia.
    rewrite (Z.ones_spec_high hostBits) by lia.
    destruct (Z.lt_ge_cases n (prefix + hostBits)) as [Hlt|Hge'].
    + rewrite Z.ones_spec_low by lia. reflexivity.
    + rewrite (testbit_above value (prefix + hostBits)) by lia.
      reflexivity.
Qed.

Lemma normalizeRange_masks (value bits prefix : Z) :
  0 <= prefix <= bits -> 0 <= value < 2 ^ bits ->
  normalizeRange value bits prefix
  = (Z.land value (Z.lnot (Z.ones (bits - prefix))),
     Z.lor (Z.land value (Z.lnot (Z.ones (bits - prefix)))) (Z.ones (bits - prefix))).
Proof.
  intros Hp Hv. unfold normalizeRange.
  assert (Hhost : (if bits - prefix =? 0 then 0 else Z.shiftl 1 (bits - prefix) - 1)
                  = Z.ones (bits - prefix)).
  { destruct (Z.eqb_spec (bits - prefix) 0) as [->|_];
      [reflexivity | apply shiftl_one_pred]. }
  rewrite Hhost.
  assert (Hstart : Z.land value
                     (if prefix =? 0 then 0
                      else Z.shiftl (Z.shiftl 1 prefix - 1) (bits - prefix))
                   = Z.land value (Z.lnot (Z.ones (bits - prefix)))).
  { destruct (Z.eqb_spec prefix 0) as [->|Hne].
    - rewrite Z.land_0_r. symmetry.
      apply Z.bits_inj'. intros n Hn.
      rewrite Z.land_spec, Z.lnot_spec, Z.bits_0 by lia.
      destruct (Z.lt_ge_cases n (bits - 0)).
      + rewrite Z.ones_spec_low by lia. apply andb_false_r.
      + rewrite (testbit_above value bits) by lia. reflexivity.
    - rewrite shiftl_one_pred. apply land_prefixMask; try lia.
      replace (prefix + (bits - prefix)) with bits by lia. exact Hv. }
  rewrite Hstart. reflexivity.
Qed.

Lemma land_lnot_ones_0 (value : Z) : Z.land value (Z.lnot (Z.ones 0)) = value.
Proof.
  change (Z.ones 0) with 0. change (Z.lnot 0) with (-1). apply Z.land_m1_r.
Qed.

Lemma land_lnot_ones_full (value bits : Z) :
  0 <= value < 2 ^ bits -> Z.land value (Z.lnot (Z.ones bits)) = 0.
Proof.
  intros Hv.
  assert (0 <= bits) by (destruct (Z.le_gt_cases 0 bits); [lia|]; rewrite Z.pow_neg_r in Hv; lia).
  apply Z.bits_inj'. intros n Hn.
  rewrite Z.land_spec, Z.lnot_spec, Z.bits_0 by lia.
  destruct (Z.lt_ge_cases n bits).
  - rewrite Z.ones_spec_low by lia. apply andb_false_r.
  - rewrite (testbit_above value bits) by lia. reflexivity.
Qed.

(** C3.  For an address that fits in [bits] bits and a prefix length in
    [0, bits], [normalizeRange] returns the address with its host bits
    cleared and that start with its host bits set, where the host mask is
    [(1 << hostBits) - 1] and [hostBits = bits - prefix].  A full-length
    prefix gives [start = end = address]; an empty prefix gives the whole
    address space.  The function is total: it returns a pair on every
    input. *)
Theorem normalizeRange_spec (value bits prefix : Z) :
  0 <= prefix <= bits ->
  0 <= value < 2 ^ bits ->
  let hostBits := bits - prefix in
  let hostMask := Z.shiftl 1 hostBits - 1 in
  let start := Z.land value (Z.lnot hostMask) in
  normalizeRange value bits prefix = (start, Z.lor start hostMask)
  /\ (prefix = bits -> normalizeRange value bits prefix = (value, value))
  /\ (prefix = 0 -> normalizeRange value bits prefix = (0, 2 ^ bits - 1)).
Proof.
  intros Hp Hv hostBits hostMask start.
  subst start hostMask hostBits.
  rewrite shiftl_one_pred.
  rewrite (normalizeRange_masks value bits prefix Hp Hv).
  split; [reflexivity|]. split.
  - intros ->. rewrite Z.sub_diag, land_lnot_ones_0.
    change (Z.ones 0) with 0. rewrite Z.lor_0_r. reflexivity.
  - intros ->. rewrite Z.sub_0_r, (land_lnot_ones_full value bits Hv).
    rewrite Z.lor_0_l, Z.ones_equiv. f_equal; lia.
Qed.

Lemma normalizeRange_spec_witness :
  0 <= 24 <= 32 /\ 0 <= 167772165 < 2 ^ 32 /\
  normalizeRange 167772165 32 24 = (167772160, 167772415).
Proof.
  split; [lia|]. split; [lia|].
  exact (proj1 (normalizeRange_spec 167772165 32 24 ltac:(lia) ltac:(lia))).
Defined.

(** ** The hexadecimal digit class *)

Lemma hexDigitRange_crossing (low high : Z) :
  0 <= low <= 9 -> 9 < high <= 15 ->
  hexDigitRange low high
  = Ok (lit "[" ++ hexSegment low 9 ++ hexSegment 10 high ++ lit "]").
Proof.
  intros Hl Hh. unfold hexDigitRange.
  destruct (Z.eqb_spec low high) as [E|_]; [lia|].
  cbn [hexDigitRange_loop].
  destruct (Z.leb_spec low high) as [_|C]; [|lia].
  destruct (Z.leb_spec low 9) as [_|C]; [|lia].
  rewrite (Z.min_r high 9) by lia.
  change (9 + 1) with 10.
  destruct (Z.leb_spec 10 high) as [_|C]; [|lia].
  destruct (Z.leb_spec 10 9) as [C|_]; [lia|].
  rewrite (Z.min_l high 15) by lia.
  destruct (Z.leb_spec (high + 1) high) as [C|_]; [lia|].
  cbn [bind app Str.join list_ascii_of_string].
  rewrite <- app_assoc. reflexivity.
Qed.

(** C4, as the code has it.  A digit span [low, high] with
    [low <= 9 < high <= 15] compiles to one bracket expression that holds
    two parts side by side, the decimal digits [low..9] and the letters
    [a..high], each part written as its single digit or as [first-last];
    digits 8 through 12 compile to [[8-9a-c]]. *)
Theorem hexDigitRange_two_parts (low high : Z) :
  0 <= low <= 9 -> 9 < high <= 15 ->
  hexDigitRange low high
  = Ok (lit "[" ++ hexSegment low 9 ++ hexSegment 10 high ++ lit "]")
  /\ hexDigitRange 8 12 = Ok (lit "[8-9a-c]").
Proof.
  intros Hl Hh. split.
  - apply hexDigitRange_crossing; assumption.
  - reflexivity.
Qed.

Lemma hexDigitRange_two_parts_witness :
  0 <= 3 <= 9 /\ 9 < 11 <= 15 /\ hexDigitRange 3 11 = Ok (lit "[3-9a-b]").
Proof.
  split; [lia|]. split; [lia|].
  exact (proj1 (hexDigitRange_two_parts 3 11 ltac:(lia) ltac:(lia))).
Defined.

(** C4 as the specification words it fails for digits 8 through 12: the
    fragment is not [[89a-c]], and it is not two bracket groups joined by
    the alternation bar. *)
Lemma hexDigitRange_8_12_counterexample :
  hexDigitRange 8 12 <> Ok (lit "[89a-c]")
  /\ ~ (exists left right : str,
           hexDigitRange 8 12
           = Ok ((lit "[" ++ left ++ lit "]") ++ lit "|" ++ (lit "[" ++ right ++ lit "]"))).
Proof.
  split.
  - discriminate.
  - intros (left & right & H).
    remember (lit "[8-9a-c]") as out eqn:Hout.
    assert (E : Ok out = hexDigitRange 8 12) by (subst out; reflexivity).
    rewrite H in E. injection E as E.
    assert (Hin : In "|"%char out).
    { rewrite E. right. apply in_or_app. right. left. reflexivity. }
    subst out. cbn in Hin.
    repeat (destruct Hin as [Hin|Hin]; [discriminate Hin|]).
    exact Hin.
Qed.

(** ** Inputs that are not strings *)

Lemma parseCidrText_error (text : str) (e : exn) :
  parseCidrText text = Throw e -> e = InvalidCIDR.
Proof.
  unfold parseCidrText.
  destruct (Str.split _ _) as [|addressText [|prefixText [|? ?]]];
    try (intros H; injection H as <-; reflexivity).
  destruct addressText; [intros H; injection H as <-; reflexivity|].
  repeat match goal with
         | |- context [if ?b then _ else _] => destruct b
         | |- context [match ?o with Some _ => _ | None => _ end] => destruct o
         end;
    intros H; try discriminate H; injection H as <-; reflexivity.
Qed.

Lemma parseCidr_error (input : jsValue) (e : exn) :
  parseCidr input = Throw e -> e = InvalidCIDR.
Proof.
  unfold parseCidr.
  destruct (negb _); [intros H; injection H as <-; reflexivity|].
  destruct input; try (intros H; injection H as <-; reflexivity).
  apply parseCidrText_error.
Qed.

(** C10.  For an input whose [typeof] is not ["string"], [cidrToRegex]
    throws the invalid-CIDR error before anything else is computed (the
    cache is left as it was), and every failure of the parser on a string
    is that same error. *)
Theorem cidrToRegex_non_string (input : jsValue) (cache : Cache) :
  typeof input <> lit "string" ->
  cidrToRegex input cache = (Throw InvalidCIDR, cache)
  /\ (forall (text : str) (e : exn),
         parseCidr (JsString text) = Throw e -> e = InvalidCIDR).
Proof.
  intros Hty. split.
  - unfold cidrToRegex, bindM, liftR, parseCidr.
    destruct input; try reflexivity.
    exfalso. apply Hty. reflexivity.
  - intros text e. apply parseCidr_error.
Qed.

Lemma cidrToRegex_non_string_witness :
  typeof (JsNumber 42) <> lit "string"
  /\ cidrToRegex (JsNumber 42) [] = (Throw InvalidCIDR, []).
Proof.
  assert (H : typeof (JsNumber 42) <> lit "string") by discriminate.
  split; [exact H|].
  exact (proj1 (cidrToRegex_non_string (JsNumber 42) [] H)).
Defined.

(** ** Strings and lists *)

Lemma Str_eqb_eq (a b : str) : Str.eqb a b = true <-> a = b.
Proof.
  revert b. induction a as [|x a IH]; intros [|y b]; cbn; split; intros H;
    try reflexivity; try discriminate.
  - apply andb_true_iff in H. destruct H as [H1 H2].
    apply Ascii.eqb_eq in H1. apply IH in H2. congruence.
  - injection H as -> ->. rewrite Ascii.eqb_refl. cbn. apply IH. reflexivity.
Qed.

Lemma Str_eqb_refl (a : str) : Str.eqb a a = true.
Proof. apply Str_eqb_eq. reflexivity. Qed.

Lemma Str_eqb_neq (a b : str) : Str.eqb a b = false <-> a <> b.
Proof.
  split.
  - intros H E. apply Str_eqb_eq in E. congruence.
  - intros H. destruct (Str.eqb a b) eqn:E; [|reflexivity].
    apply Str_eqb_eq in E. contradiction.
Qed.

Lemma existsb_Str_eqb (a : str) (l : list str) :
  existsb (Str.eqb a) l = true <-> In a l.
Proof.
  rewrite existsb_exists. split.
  - intros (x & Hx & E). apply Str_eqb_eq in E. subst. exact Hx.
  - intros H. exists a. split; [exact H | apply Str_eqb_refl].
Qed.

(** ** The matcher and the language *)

Lemma iterate_lang (step : nat -> str -> list (nat * str)) (L : str -> Prop) :
  (forall pos s p t,
      In (p, t) (step pos s) <->
      exists s1, s = s1 ++ t /\ p = (pos + length s1)%nat /\ L s1) ->
  forall n cfgs p t,
    In (p, t) (iterate step n cfgs) <->
    exists pos s s1, In (pos, s) cfgs /\ s = s1 ++ t
                     /\ p = (pos + length s1)%nat /\ repeatLang L n s1.
Proof.
  intros Hstep n. induction n as [|n IH]; intros cfgs p t; cbn [iterate repeatLang].
  - split.
    + intros H. exists p, t, []. cbn. repeat split; [exact H | lia].
    + intros (pos & s & s1 & Hin & -> & -> & ->). cbn.
      rewrite Nat.add_0_r. exact Hin.
  - rewrite IH. split.
    + intros (pos & s & s2 & Hin & -> & -> & Hrep).
      apply in_flat_map in Hin. destruct Hin as ([pos0 s0] & Hin0 & Hin).
      cbn [fst snd] in Hin. apply Hstep in Hin.
      destruct Hin as (s1 & -> & -> & HL).
      exists pos0, (s1 ++ s2 ++ t), (s1 ++ s2).
      repeat split.
      * exact Hin0.
      * rewrite app_assoc. reflexivity.
      * rewrite length_app. lia.
      * exists s1, s2. auto.
    + intros (pos & s & s12 & Hin & -> & -> & (s1 & s2 & -> & HL & Hrep)).
      exists (pos + length s1)%nat, (s2 ++ t), s2.
      repeat split.
      * apply in_flat_map. exists (pos, (s1 ++ s2) ++ t). split; [exact Hin|].
        cbn [fst snd]. apply Hstep. exists s1.
        rewrite <- app_assoc. auto.
      * rewrite length_app. lia.
      * exact Hrep.
Qed.

Lemma residuals_lang (ic : bool) (r : regex) :
  plain r ->
  forall pos s p t,
    In (p, t) (residuals ic r pos s) <->
    exists s1, s = s1 ++ t /\ p = (pos + length s1)%nat /\ lang ic r s1.
Proof.
  induction r as [c|items| |a IHa b IHb|a IHa b IHb|a IHa|n a IHa| | |a IHa];
    intros Hplain pos s p t; cbn [residuals lang]; cbn [plain] in Hplain;
    try contradiction.
  - destruct s as [|d s'].
    + split; [intros []|]. intros (s1 & E & _ & d & -> & _). discriminate E.
    + destruct (charMatches ic c d) eqn:Hm.
      * split.
        -- intros [H|[]]. injection H as <- <-. exists [d].
           repeat split; [cbn; lia|]. exists d. auto.
        -- intros (s1 & E & -> & d' & -> & Hm'). injection E as <- <-.
           left. f_equal. cbn. lia.
      * split; [intros []|].
        intros (s1 & E & _ & d' & -> & Hm'). injection E as <- <-. congruence.
  - destruct s as [|d s'].
    + split; [intros []|]. intros (s1 & E & _ & d & -> & _). discriminate E.
    + destruct (classMatches ic items d) eqn:Hm.
      * split.
        -- intros [H|[]]. injection H as <- <-. exists [d].
           repeat split; [cbn; lia|]. exists d. auto.
        -- intros (s1 & E & -> & d' & -> & Hm'). injection E as <- <-.
           left. f_equal. cbn. lia.
      * split; [intros []|].
        intros (s1 & E & _ & d' & -> & Hm'). injection E as <- <-. congruence.
  - split.
    + intros [H|[]]. injection H as <- <-. exists []. cbn. repeat split. lia.
    + intros (s1 & -> & -> & ->). left. cbn. f_equal. lia.
  - destruct Hplain as [Ha Hb]. rewrite in_flat_map. split.
    + intros ([p1 t1] & H1 & H2). cbn [fst snd] in H2.
      apply (IHa Ha) in H1. apply (IHb Hb) in H2.
      destruct H1 as (s1 & -> & -> & L1). destruct H2 as (s2 & -> & -> & L2).
      exists (s1 ++ s2). repeat split.
      * rewrite app_assoc. reflexivity.
      * rewrite length_app. lia.
      * exists s1, s2. auto.
    + intros (s12 & -> & -> & s1 & s2 & -> & L1 & L2).
      exists ((pos + length s1)%nat, s2 ++ t). split.
      * apply (IHa Ha). exists s1. rewrite <- app_assoc. auto.
      * cbn [fst snd]. apply (IHb Hb). exists s2. rewrite length_app.
        repeat split; [lia | exact L2].
  - destruct Hplain as [Ha Hb]. rewrite in_app_iff, (IHa Ha), (IHb Hb). split.
    + intros [(s1 & E & Hp & L)|(s1 & E & Hp & L)]; exists s1; auto.
    + intros (s1 & E & Hp & [L|L]); [left|right]; exists s1; auto.
  - rewrite in_app_iff, (IHa Hplain). split.
    + intros [(s1 & E & Hp & L)|[H|[]]].
      * exists s1. auto.
      * injection H as <- <-. exists []. cbn. repeat split; [lia | auto].
    + intros (s1 & E & Hp & [->|L]).
      * right. left. cbn in *. subst. f_equal. lia.
      * left. exists s1. auto.
  - rewrite (iterate_lang (residuals ic a) (lang ic a) (IHa Hplain)). split.
    + intros (pos0 & s0 & s1 & [H|[]] & E & Hp & Hrep).
      injection H as <- <-. exists s1. auto.
    + intros (s1 & E & Hp & Hrep). exists pos, s, s1. cbn. auto.
Qed.

Lemma nonempty_exists {A : Type} (l : list A) :
  match l with [] => false | _ :: _ => true end = true <-> exists x, In x l.
Proof.
  destruct l as [|x l]; split.
  - discriminate.
  - intros (x & []).
  - intros _. exists x. left. reflexivity.
  - reflexivity.
Qed.

Lemma residuals_anchored (ic : bool) (body : regex) (i : nat) (s : str) :
  plain body ->
  (exists cfg, In cfg (residuals ic (mkseq [RStart; body; REnd]) i s))
  <-> i = 0%nat /\ lang ic body s.
Proof.
  intros Hplain. cbn [mkseq fold_right residuals]. split.
  - intros (cfg & H).
    apply in_flat_map in H. destruct H as ([p0 t0] & H0 & H).
    destruct (Nat.eqb_spec i 0) as [E0|Hne]; [|destruct H0].
    destruct H0 as [H0|[]]. injection H0 as <- <-.
    split; [exact E0|].
    cbn [fst snd] in H.
    apply in_flat_map in H. destruct H as ([p1 t1] & H1 & H).
    cbn [fst snd] in H.
    apply in_flat_map in H. destruct H as ([p2 t2] & H2 & H).
    destruct t1 as [|? ?]; [|destruct H2].
    apply (residuals_lang ic body Hplain) in H1.
    destruct H1 as (s1 & -> & _ & L). rewrite app_nil_r. exact L.
  - intros [-> L]. exists (length s, []).
    apply in_flat_map. exists (0%nat, s). split; [left; reflexivity|].
    cbn [fst snd].
    apply in_flat_map. exists (length s, []). split.
    + apply (residuals_lang ic body Hplain). exists s.
      rewrite app_nil_r. auto.
    + cbn. left. reflexivity.
Qed.

(** A pattern anchored at both ends matches exactly the language of its
    body. *)
Lemma test_anchored (src fl : str) (body : regex) (input : str) :
  plain body ->
  test (mkRegExp src fl (mkseq [RStart; body; REnd])) input = true
  <-> lang (Str.includes (lit "i") fl) body input.
Proof.
  intros Hplain. unfold test, ignoreCase. cbn [program flags].
  set (ic := Str.includes _ fl).
  rewrite existsb_exists. split.
  - intros (i & _ & Hi). apply nonempty_exists in Hi.
    apply (residuals_anchored ic body i _ Hplain) in Hi.
    destruct Hi as [-> L]. exact L.
  - intros L. exists 0%nat. split; [apply in_seq; lia|].
    apply nonempty_exists.
    apply (residuals_anchored ic body 0 _ Hplain). auto.
Qed.

(** ** How the parser reads the pieces of a pattern *)

Lemma pushTerms_nil (st : pstate) : pushTerms [] st = st.
Proof. destruct st. reflexivity. Qed.

Lemma pushTerms_app (rs1 rs2 : list regex) (st : pstate) :
  pushTerms rs2 (pushTerms rs1 st) = pushTerms (rs1 ++ rs2) st.
Proof.
  unfold pushTerms. cbn. rewrite rev_app_distr, app_assoc. reflexivity.
Qed.

Lemma Terms_nil : Terms [] [].
Proof. intros rest st. rewrite pushTerms_nil. reflexivity. Qed.

Lemma Terms_app (p1 p2 : str) (rs1 rs2 : list regex) :
  Terms p1 rs1 -> Terms p2 rs2 -> Terms (p1 ++ p2) (rs1 ++ rs2).
Proof.
  intros H1 H2 rest st.
  rewrite <- app_assoc, H1, H2, pushTerms_app. reflexivity.
Qed.

Lemma Terms_plain_char (c : ascii) :
  isPlainChar c = true -> Terms [c] [RChar c].
Proof.
  intros Hc rest st.
  destruct c as [[] [] [] [] [] [] [] []];
    try discriminate Hc; reflexivity.
Qed.

Lemma Terms_literal (l : str) :
  forallb isPlainChar l = true -> Terms l (map RChar l).
Proof.
  induction l as [|c l IH]; intros H.
  - apply Terms_nil.
  - cbn [forallb] in H. apply andb_true_iff in H. destruct H as [Hc Hl].
    change (c :: l) with ([c] ++ l).
    change (map RChar ([c] ++ l)) with ([RChar c] ++ map RChar l).
    apply Terms_app; [apply Terms_plain_char; exact Hc | apply IH; exact Hl].
Qed.

Lemma Terms_escaped_dot : Terms (lit "\.") [RChar "."%char].
Proof. intros rest st. reflexivity. Qed.

Lemma mkseq_inj (rs rs' : list regex) : mkseq rs = mkseq rs' -> rs = rs'.
Proof.
  revert rs'. induction rs as [|r rs IH]; intros [|r' rs'] H; cbn in H;
    try discriminate; [reflexivity|].
  injection H as -> H. f_equal. apply IH. exact H.
Qed.

Lemma parseRegex_Terms (p : str) (rs : list regex) :
  Terms p rs -> parseRegex p = Some (mkseq rs).
Proof.
  intros H. unfold parseRegex.
  rewrite <- (app_nil_r p), H. cbn.
  unfold closeAlternatives. cbn. rewrite app_nil_r, rev_involutive. reflexivity.
Qed.

Lemma Terms_unique (p : str) (rs rs' : list regex) :
  Terms p rs -> Terms p rs' -> rs = rs'.
Proof.
  intros H H'. apply parseRegex_Terms in H. apply parseRegex_Terms in H'.
  rewrite H in H'. injection H' as H'. apply mkseq_inj. exact H'.
Qed.

Lemma langOf_Terms (p : str) (rs : list regex) (s : str) :
  Terms p rs -> (langOf p s <-> lang false (mkseq rs) s).
Proof.
  intros H. unfold langOf. rewrite (parseRegex_Terms p rs H). reflexivity.
Qed.

Lemma join_cons2 (sep p p' : str) (ps : list str) :
  Str.join sep (p :: p' :: ps) = p ++ sep ++ Str.join sep (p' :: ps).
Proof. reflexivity. Qed.

(** The alternatives of a group, read one after the other. *)
Lemma Terms_alternatives (ps : list str) (rss : list (list regex)) :
  Forall2 Terms ps rss -> ps <> [] ->
  forall rest stack0 alts0 cur0 kind done,
    parse_go (Str.join ["|"%char] ps ++ ")"%char :: rest) InPattern
             (mkPstate ((alts0, cur0, kind) :: stack0) done [])
    = parse_go rest InPattern
        (mkPstate stack0 alts0
           (match kind with
            | NonCapturing => altOf (rev done ++ map mkseq rss)
            | NegativeLookahead => RNot (altOf (rev done ++ map mkseq rss))
            end :: cur0)).
Proof.
  induction 1 as [|p rs ps rss Hp Hps IH]; intros Hne rest stack0 alts0 cur0 kind done.
  - contradiction.
  - destruct ps as [|p' ps'].
    + inversion Hps; subst. cbn [Str.join map].
      rewrite Hp. unfold pushTerms. cbn [stack alts cur].
      rewrite app_nil_r. cbn [parse_go stack alts cur].
      unfold closeAlternatives. cbn [rev].
      rewrite rev_involutive. reflexivity.
    + rewrite join_cons2, <- !app_assoc.
      rewrite Hp. unfold pushTerms. cbn [stack alts cur].
      rewrite app_nil_r.
      change (["|"%char] ++ Str.join ["|"%char] (p' :: ps') ++ ")"%char :: rest)
        with ("|"%char :: (Str.join ["|"%char] (p' :: ps') ++ ")"%char :: rest)).
      cbn [parse_go stack alts cur].
      rewrite rev_involutive.
      rewrite (IH ltac:(discriminate) rest stack0 alts0 cur0 kind (mkseq rs :: done)).
      cbn [rev map]. rewrite <- app_assoc. reflexivity.
Qed.

Lemma Terms_group (ps : list str) (rss : list (list regex)) :
  Forall2 Terms ps rss -> ps <> [] ->
  Terms (lit "(?:" ++ Str.join (lit "|") ps ++ lit ")") [altOf (map mkseq rss)].
Proof.
  intros H Hne rest st.
  change (lit "|") with ["|"%char].
  change (lit ")") with [")"%char].
  rewrite <- !app_assoc.
  change (lit "(?:" ++ Str.join ["|"%char] ps ++ [")"%char] ++ rest)
    with ("("%char :: "?"%char :: ":"%char
            :: (Str.join ["|"%char] ps ++ ")"%char :: rest)).
  cbn [parse_go].
  rewrite (Terms_alternatives ps rss H Hne rest (stack st) (alts st) (cur st)
                              NonCapturing []).
  reflexivity.
Qed.

Lemma parseRegex_anchored (body : str) (rs : list regex) :
  Terms body rs ->
  parseRegex (lit "^(?:" ++ body ++ lit ")$")
  = Some (mkseq [RStart; mkseq rs; REnd]).
Proof.
  intros H. unfold parseRegex.
  cbn [app list_ascii_of_string parse_go pushTerm stack alts cur].
  rewrite H. unfold pushTerms. cbn [stack alts cur].
  cbn [app list_ascii_of_string parse_go pushTerm stack alts cur].
  unfold closeAlternatives. cbn [rev app].
  rewrite app_nil_r, rev_involutive. reflexivity.
Qed.

(** ** Lists without repetition *)

Lemma uniqueBy_In {A : Type} (key : A -> str) (l : list A) :
  forall seen a, In a (uniqueBy key seen l) -> In a l.
Proof.
  induction l as [|x l IH]; intros seen a H; cbn in H; [exact H|].
  destruct (existsb _ seen).
  - right. exact (IH _ _ H).
  - destruct H as [->|H]; [left; reflexivity | right; exact (IH _ _ H)].
Qed.

Lemma uniqueBy_fresh {A : Type} (key : A -> str) (l : list A) :
  forall seen a, In a (uniqueBy key seen l) -> ~ In (key a) seen.
Proof.
  induction l as [|x l IH]; intros seen a H; cbn in H; [destruct H|].
  destruct (existsb _ seen) eqn:E.
  - exact (IH _ _ H).
  - destruct H as [->|H].
    + intros Hin. apply existsb_Str_eqb in Hin. congruence.
    + apply IH in H. intros Hin. apply H. right. exact Hin.
Qed.

Lemma uniqueBy_complete {A : Type} (key : A -> str) (l : list A) :
  forall seen a, In a l -> ~ In (key a) seen ->
                 exists a', In a' (uniqueBy key seen l) /\ key a' = key a.
Proof.
  induction l as [|x l IH]; intros seen a Hin Hseen; [destruct Hin|].
  cbn [uniqueBy]. destruct (existsb _ seen) eqn:E.
  - destruct Hin as [->|Hin].
    + apply existsb_Str_eqb in E. contradiction.
    + exact (IH _ _ Hin Hseen).
  - destruct Hin as [->|Hin].
    + exists a. split; [left; reflexivity | reflexivity].
    + destruct (Str.eqb (key x) (key a)) eqn:Ek.
      * apply Str_eqb_eq in Ek. exists x. split; [left; reflexivity | exact Ek].
      * apply Str_eqb_neq in Ek.
        destruct (IH (key x :: seen) a Hin) as (a' & Ha' & Hk).
        { intros [H|H]; [contradiction | contradiction]. }
        exists a'. split; [right; exact Ha' | exact Hk].
Qed.

Lemma uniqueBy_length {A : Type} (key : A -> str) (l : list A) :
  forall seen, (length (uniqueBy key seen l) <= length l)%nat.
Proof.
  induction l as [|x l IH]; intros seen; cbn; [lia|].
  destruct (existsb _ seen); [specialize (IH seen) | specialize (IH (key x :: seen))];
    cbn; lia.
Qed.

Lemma uniqueBy_keys_NoDup {A : Type} (key : A -> str) (l : list A) :
  forall seen, NoDup (map key (uniqueBy key seen l)).
Proof.
  induction l as [|x l IH]; intros seen; cbn; [constructor|].
  destruct (existsb _ seen); [apply IH|].
  cbn. constructor; [|apply IH].
  intros Hin. apply in_map_iff in Hin. destruct Hin as (a & Hk & Ha).
  apply uniqueBy_fresh in Ha. apply Ha. left. symmetry. exact Hk.
Qed.

Lemma uniquePatterns_In (parts : list str) (p : str) :
  In p (uniquePatterns parts) <-> In p parts.
Proof.
  unfold uniquePatterns. split.
  - apply uniqueBy_In.
  - intros H.
    destruct (uniqueBy_complete (fun part => part) parts [] p H) as (a & Ha & ->);
      [intros [] | exact Ha].
Qed.

Lemma uniquePatterns_length (parts : list str) :
  (length (uniquePatterns parts) <= length parts)%nat.
Proof. apply uniqueBy_length. Qed.

Lemma uniquePatterns_NoDup (parts : list str) : NoDup (uniquePatterns parts).
Proof.
  pose proof (uniqueBy_keys_NoDup (fun part : str => part) parts []) as H.
  rewrite map_id in H. exact H.
Qed.

Lemma uniquePatterns_nonempty (parts : list str) :
  parts <> [] -> uniquePatterns parts <> [].
Proof.
  destruct parts as [|p parts]; [contradiction|]. intros _ E.
  assert (H : In p (uniquePatterns (p :: parts)))
    by (apply uniquePatterns_In; left; reflexivity).
  rewrite E in H. destruct H.
Qed.

(** ** Languages of sequences and alternatives *)

Lemma lang_mkseq_app (ic : bool) (rs1 rs2 : list regex) (s : str) :
  lang ic (mkseq (rs1 ++ rs2)) s <->
  exists s1 s2, s = s1 ++ s2 /\ lang ic (mkseq rs1) s1 /\ lang ic (mkseq rs2) s2.
Proof.
  revert s. induction rs1 as [|r rs1 IH]; intros s; cbn [app mkseq fold_right lang].
  - split.
    + intros H. exists [], s. auto.
    + intros (s1 & s2 & -> & -> & H). exact H.
  - split.
    + intros (s1 & s23 & -> & Hr & H). apply IH in H.
      destruct H as (s2 & s3 & -> & H2 & H3).
      exists (s1 ++ s2), s3. rewrite app_assoc. repeat split; [|exact H3].
      exists s1, s2. auto.
    + intros (s12 & s3 & -> & (s1 & s2 & -> & Hr & H2) & H3).
      exists s1, (s2 ++ s3). rewrite app_assoc. repeat split; [exact Hr|].
      apply IH. exists s2, s3. auto.
Qed.

Lemma lang_mkseq_single (ic : bool) (r : regex) (s : str) :
  lang ic (mkseq [r]) s <-> lang ic r s.
Proof.
  cbn. split.
  - intros (s1 & s2 & -> & H & ->). rewrite app_nil_r. exact H.
  - intros H. exists s, []. rewrite app_nil_r. auto.
Qed.

Lemma lang_mkalt (ic : bool) (others : list regex) :
  forall first s,
    lang ic (mkalt first others) s <->
    exists r, In r (first :: others) /\ lang ic r s.
Proof.
  induction others as [|a others IH]; intros first s; cbn [mkalt lang].
  - split.
    + intros H. exists first. split; [left; reflexivity | exact H].
    + intros (r & [<-|[]] & H). exact H.
  - rewrite IH. split.
    + intros [H|(r & Hin & H)].
      * exists first. split; [left; reflexivity | exact H].
      * exists r. split; [right; exact Hin | exact H].
    + intros (r & [<-|Hin] & H); [left; exact H | right; exists r; auto].
Qed.

Lemma lang_altOf (ic : bool) (rs : list regex) (s : str) :
  rs <> [] ->
  (lang ic (altOf rs) s <-> exists r, In r rs /\ lang ic r s).
Proof.
  destruct rs as [|a others]; [contradiction|]. intros _. apply lang_mkalt.
Qed.

Lemma plain_mkseq (rs : list regex) : plain (mkseq rs) <-> Forall plain rs.
Proof.
  induction rs as [|r rs IH]; cbn.
  - split; [constructor | trivial].
  - rewrite IH. split.
    + intros [H1 H2]. constructor; assumption.
    + intros H. inversion H; subst. auto.
Qed.

Lemma foldable_mkseq (rs : list regex) : foldable (mkseq rs) <-> Forall foldable rs.
Proof.
  induction rs as [|r rs IH]; cbn.
  - split; [constructor | trivial].
  - rewrite IH. split.
    + intros [H1 H2]. constructor; assumption.
    + intros H. inversion H; subst. auto.
Qed.

Lemma plain_mkalt (others : list regex) :
  forall first, plain (mkalt first others) <-> Forall plain (first :: others).
Proof.
  induction others as [|a others IH]; intros first; cbn [mkalt plain].
  - split; [intros H; repeat constructor; exact H | intros H; inversion H; assumption].
  - rewrite IH. split.
    + intros [H1 H2]. constructor; assumption.
    + intros H. inversion H; subst. auto.
Qed.

Lemma foldable_mkalt (others : list regex) :
  forall first, foldable (mkalt first others) <-> Forall foldable (first :: others).
Proof.
  induction others as [|a others IH]; intros first; cbn [mkalt foldable].
  - split; [intros H; repeat constructor; exact H | intros H; inversion H; assumption].
  - rewrite IH. split.
    + intros [H1 H2]. constructor; assumption.
    + intros H. inversion H; subst. auto.
Qed.

(** ** Well-formed pieces of patterns *)

Lemma Pattern_nil : Pattern [].
Proof. exists []. split; [apply Terms_nil|]. cbn. auto. Qed.

Lemma Pattern_app (p1 p2 : str) : Pattern p1 -> Pattern p2 -> Pattern (p1 ++ p2).
Proof.
  intros (rs1 & T1 & P1 & F1) (rs2 & T2 & P2 & F2).
  exists (rs1 ++ rs2). split; [apply Terms_app; assumption|].
  rewrite plain_mkseq, foldable_mkseq in *.
  split; apply Forall_app; auto.
Qed.

Lemma langOf_app (p1 p2 s : str) :
  Pattern p1 -> Pattern p2 ->
  (langOf (p1 ++ p2) s <->
   exists s1 s2, s = s1 ++ s2 /\ langOf p1 s1 /\ langOf p2 s2).
Proof.
  intros (rs1 & T1 & _) (rs2 & T2 & _).
  rewrite (langOf_Terms _ _ s (Terms_app _ _ _ _ T1 T2)), lang_mkseq_app.
  split; intros (s1 & s2 & E & H1 & H2); exists s1, s2;
    (split; [exact E|]); split.
  - apply (langOf_Terms _ _ _ T1). exact H1.
  - apply (langOf_Terms _ _ _ T2). exact H2.
  - apply (langOf_Terms _ _ _ T1). exact H1.
  - apply (langOf_Terms _ _ _ T2). exact H2.
Qed.

Lemma langOf_nil (s : str) : langOf [] s <-> s = [].
Proof. rewrite (langOf_Terms [] [] s Terms_nil). reflexivity. Qed.

Lemma lang_literal (l s : str) : lang false (mkseq (map RChar l)) s <-> s = l.
Proof.
  revert s. induction l as [|c l IH]; intros s; cbn [map mkseq fold_right lang].
  - reflexivity.
  - split.
    + intros (s1 & s2 & -> & (d & -> & Hm) & H).
      unfold charMatches in Hm. cbn in Hm. rewrite orb_false_r in Hm.
      apply Ascii.eqb_eq in Hm. subst d.
      apply IH in H. subst. reflexivity.
    + intros ->. exists [c], l. repeat split.
      * exists c. split; [reflexivity|]. unfold charMatches.
        rewrite Ascii.eqb_refl. reflexivity.
      * apply IH. reflexivity.
Qed.

Lemma isLiteral_app (l1 l2 : str) :
  isLiteral (l1 ++ l2) = isLiteral l1 && isLiteral l2.
Proof. apply forallb_app. Qed.

Lemma Pattern_literal (l : str) : isLiteral l = true -> Pattern l.
Proof.
  intros H. unfold isLiteral in H. rewrite forallb_forall in H.
  exists (map RChar l). split; [|split].
  - apply Terms_literal. apply forallb_forall. intros c Hc.
    apply H in Hc. apply andb_true_iff in Hc. tauto.
  - apply plain_mkseq. apply Forall_forall. intros r Hr.
    apply in_map_iff in Hr. destruct Hr as (c & <- & _). exact I.
  - apply foldable_mkseq. apply Forall_forall. intros r Hr.
    apply in_map_iff in Hr. destruct Hr as (c & <- & Hc).
    apply H in Hc. apply andb_true_iff in Hc. cbn. tauto.
Qed.

Lemma langOf_literal (l s : str) :
  isLiteral l = true -> (langOf l s <-> s = l).
Proof.
  intros H. unfold isLiteral in H. rewrite forallb_forall in H.
  rewrite (langOf_Terms l (map RChar l) s).
  - apply lang_literal.
  - apply Terms_literal. apply forallb_forall. intros c Hc.
    apply H in Hc. apply andb_true_iff in Hc. tauto.
Qed.

Lemma Forall_exists_Forall2 {A B : Type} (R : A -> B -> Prop) (l : list A) :
  Forall (fun a => exists b, R a b) l -> exists l', Forall2 R l l'.
Proof.
  induction 1 as [|a l (b & Hb) _ (l' & IH)].
  - exists []. constructor.
  - exists (b :: l'). constructor; assumption.
Qed.

Lemma Forall2_In_l {A B : Type} (R : A -> B -> Prop) (l : list A) (l' : list B) :
  Forall2 R l l' -> forall a, In a l -> exists b, In b l' /\ R a b.
Proof.
  induction 1 as [|x y l l' Hxy _ IH]; intros a Ha; [destruct Ha|].
  destruct Ha as [->|Ha].
  - exists y. split; [left; reflexivity | exact Hxy].
  - destruct (IH a Ha) as (b & Hb & Hab). exists b. split; [right|]; assumption.
Qed.

Lemma Forall2_In_r {A B : Type} (R : A -> B -> Prop) (l : list A) (l' : list B) :
  Forall2 R l l' -> forall b, In b l' -> exists a, In a l /\ R a b.
Proof.
  induction 1 as [|x y l l' Hxy _ IH]; intros b Hb; [destruct Hb|].
  destruct Hb as [->|Hb].
  - exists x. split; [left; reflexivity | exact Hxy].
  - destruct (IH b Hb) as (a & Ha & Hab). exists a. split; [right|]; assumption.
Qed.

Lemma Pattern_group (ps : list str) :
  ps <> [] -> Forall Pattern ps ->
  Pattern (lit "(?:" ++ Str.join (lit "|") ps ++ lit ")")
  /\ forall s, langOf (lit "(?:" ++ Str.join (lit "|") ps ++ lit ")") s
               <-> exists p, In p ps /\ langOf p s.
Proof.
  intros Hne Hall.
  destruct (Forall_exists_Forall2
              (fun p rs => Terms p rs /\ plain (mkseq rs) /\ foldable (mkseq rs))
              ps Hall) as (rss & H2).
  assert (HT : Forall2 Terms ps rss).
  { clear Hne Hall. induction H2; constructor; tauto. }
  assert (Hne' : map mkseq rss <> []).
  { destruct ps; [contradiction|]. inversion H2; subst. discriminate. }
  pose proof (Terms_group ps rss HT Hne) as TG.
  split.
  - exists [altOf (map mkseq rss)]. split; [exact TG|].
    cbn [mkseq fold_right plain foldable].
    destruct (map mkseq rss) as [|a others] eqn:E; [contradiction|].
    cbn [altOf]. rewrite plain_mkalt, foldable_mkalt, <- E.
    repeat split; trivial; apply Forall_forall; intros r Hr;
      apply in_map_iff in Hr; destruct Hr as (rs & <- & Hrs);
      destruct (Forall2_In_r _ _ _ H2 rs Hrs) as (p & _ & T & P & F); assumption.
  - intros s. rewrite (langOf_Terms _ _ s TG), lang_mkseq_single.
    rewrite (lang_altOf false _ s Hne'). split.
    + intros (r & Hr & L). apply in_map_iff in Hr. destruct Hr as (rs & <- & Hrs).
      destruct (Forall2_In_r _ _ _ H2 rs Hrs) as (p & Hp & T & _).
      exists p. split; [exact Hp|]. apply (langOf_Terms _ _ _ T). exact L.
    + intros (p & Hp & L).
      destruct (Forall2_In_l _ _ _ H2 p Hp) as (rs & Hrs & T & _).
      exists (mkseq rs). split; [apply in_map; exact Hrs|].
      apply (langOf_Terms _ _ _ T). exact L.
Qed.

Lemma orPattern_spec (parts : list str) :
  parts <> [] -> Forall Pattern parts ->
  Pattern (orPattern parts)
  /\ forall s, langOf (orPattern parts) s <-> exists p, In p parts /\ langOf p s.
Proof.
  intros Hne Hall. unfold orPattern.
  pose proof (uniquePatterns_nonempty parts Hne) as Hu.
  pose proof (uniquePatterns_In parts) as Hin.
  assert (Hallu : Forall Pattern (uniquePatterns parts)).
  { apply Forall_forall. intros p Hp. apply Hin in Hp.
    rewrite Forall_forall in Hall. auto. }
  destruct (uniquePatterns parts) as [|only [|second more]] eqn:E.
  - contradiction.
  - split.
    + inversion Hallu; assumption.
    + intros s. split.
      * intros L. exists only. split; [apply Hin; left; reflexivity | exact L].
      * intros (p & Hp & L). apply Hin in Hp. destruct Hp as [->|[]]. exact L.
  - destruct (Pattern_group (only :: second :: more) ltac:(discriminate) Hallu)
      as [P L].
    split; [exact P|].
    intros s. rewrite L. split; intros (p & Hp & Lp); exists p; split;
      try exact Lp; apply Hin; exact Hp.
Qed.

(** ** Finite checks *)

Lemma valuesFromTo_In (lo hi v : Z) :
  In v (valuesFromTo lo hi) <-> lo <= v <= hi.
Proof.
  unfold valuesFromTo. rewrite in_map_iff. split.
  - intros (k & <- & Hk). apply in_seq in Hk. lia.
  - intros H. exists (Z.to_nat (v - lo)). split; [lia|]. apply in_seq. lia.
Qed.

Lemma forall_values (P : Z -> bool) (lo hi : Z) :
  forallb P (valuesFromTo lo hi) = true ->
  forall v, lo <= v <= hi -> P v = true.
Proof.
  intros H v Hv. rewrite forallb_forall in H. apply H.
  apply valuesFromTo_In. exact Hv.
Qed.

Lemma allAscii_In (c : ascii) : In c allAscii.
Proof.
  unfold allAscii. apply in_map_iff. exists (nat_of_ascii c). split.
  - apply ascii_nat_embedding.
  - apply in_seq. pose proof (nat_ascii_bounded c). lia.
Qed.

Lemma forall_ascii (P : ascii -> bool) :
  forallb P allAscii = true -> forall c, P c = true.
Proof.
  intros H c. rewrite forallb_forall in H. apply H. apply allAscii_In.
Qed.

Lemma sameStrings_spec (l1 l2 : list str) :
  sameStrings l1 l2 = true -> forall s, In s l1 <-> In s l2.
Proof.
  unfold sameStrings. intros H. apply andb_true_iff in H. destruct H as [H1 H2].
  rewrite forallb_forall in H1, H2.
  intros s. split; intros Hs.
  - apply existsb_Str_eqb. apply H1. exact Hs.
  - apply existsb_Str_eqb. apply H2. exact Hs.
Qed.

Lemma enumRepeat_spec (L : str -> Prop) (one : list str) :
  (forall s, L s <-> In s one) ->
  forall n s, repeatLang L n s <-> In s (enumRepeat one n).
Proof.
  intros HL n. induction n as [|n IH]; intros s; cbn [repeatLang enumRepeat].
  - split; [intros ->; left; reflexivity | intros [<-|[]]; reflexivity].
  - rewrite in_flat_map. split.
    + intros (s1 & s2 & -> & H1 & H2). exists s1. split; [apply HL; exact H1|].
      apply in_map. apply IH. exact H2.
    + intros (s1 & H1 & H2). apply in_map_iff in H2. destruct H2 as (s2 & <- & H2).
      exists s1, s2. repeat split; [apply HL; exact H1 | apply IH; exact H2].
Qed.

Lemma enumLang_spec (r : regex) :
  forall s, lang false r s <-> In s (enumLang r).
Proof.
  induction r as [c|items| |a IHa b IHb|a IHa b IHb|a IHa|n a IHa| | |a IHa];
    intros s; cbn [lang enumLang].
  - unfold charMatches. cbn. split.
    + intros (d & -> & H). rewrite orb_false_r in H. apply Ascii.eqb_eq in H.
      subst. left. reflexivity.
    + intros [<-|[]]. exists c. rewrite Ascii.eqb_refl. auto.
  - rewrite in_map_iff. split.
    + intros (d & -> & H). exists d. split; [reflexivity|].
      apply filter_In. split; [apply allAscii_In | exact H].
    + intros (d & <- & H). apply filter_In in H. exists d. tauto.
  - split; [intros ->; left; reflexivity | intros [<-|[]]; reflexivity].
  - rewrite in_flat_map. split.
    + intros (s1 & s2 & -> & H1 & H2). exists s1. split; [apply IHa; exact H1|].
      apply in_map. apply IHb. exact H2.
    + intros (s1 & H1 & H2). apply in_map_iff in H2. destruct H2 as (s2 & <- & H2).
      exists s1, s2. repeat split; [apply IHa; exact H1 | apply IHb; exact H2].
  - rewrite in_app_iff, IHa, IHb. reflexivity.
  - rewrite IHa. cbn [In]. split; (intros [H|H]; [left; symmetry; exact H | right; exact H]).
  - apply enumRepeat_spec. exact IHa.
  - tauto.
  - tauto.
  - tauto.
Qed.

(** ** The octet fragments *)

Lemma Terms_IPV4_ANY_OCTET : Terms IPV4_ANY_OCTET octetWildcardTerms.
Proof. intros rest st. reflexivity. Qed.

Lemma Pattern_IPV4_ANY_OCTET : Pattern IPV4_ANY_OCTET.
Proof.
  exists octetWildcardTerms. split; [apply Terms_IPV4_ANY_OCTET|].
  cbn. intuition.
Qed.

Lemma langOf_IPV4_ANY_OCTET (s : str) :
  langOf IPV4_ANY_OCTET s <-> exists v, 0 <= v <= 255 /\ s = decimal v.
Proof.
  rewrite (langOf_Terms _ _ s Terms_IPV4_ANY_OCTET), enumLang_spec.
  assert (H : sameStrings (enumLang (mkseq octetWildcardTerms))
                          (map decimal (valuesFromTo 0 255)) = true)
    by (vm_compute; reflexivity).
  rewrite (sameStrings_spec _ _ H s), in_map_iff.
  split; intros (v & Hv1 & Hv2); exists v.
  - apply valuesFromTo_In in Hv2. auto.
  - split; [auto | apply valuesFromTo_In; exact Hv1].
Qed.

Lemma decimal_octet_literal (v : Z) :
  0 <= v <= 255 -> isLiteral (decimal v) = true.
Proof.
  apply (forall_values (fun v => isLiteral (decimal v))). vm_compute. reflexivity.
Qed.

Lemma decimal_octet_nonempty (v : Z) : 0 <= v <= 255 -> decimal v <> [].
Proof.
  intros Hv E.
  pose proof (forall_values (fun v => negb (Str.eqb (decimal v) [])) 0 255
                            ltac:(vm_compute; reflexivity) v Hv) as H.
  cbv beta in H. rewrite E in H. discriminate H.
Qed.

Lemma decimal_octet_inj (v w : Z) :
  0 <= v <= 255 -> 0 <= w <= 255 -> decimal v = decimal w -> v = w.
Proof.
  intros Hv Hw E.
  pose proof (forall_values (fun v => parseInt 10 (decimal v) =? v) 0 255
                            ltac:(vm_compute; reflexivity)) as H.
  pose proof (H v Hv) as H1. pose proof (H w Hw) as H2.
  cbv beta in H1, H2. rewrite E in H1. apply Z.eqb_eq in H1, H2. congruence.
Qed.

(** ** Fragments under the scan of [splitPattern] *)

Lemma isSplittable_spec (sepc : ascii) (f : str) :
  isSplittable sepc f = true <-> Splittable sepc f.
Proof.
  unfold isSplittable, Splittable.
  destruct (scanFrag sepc 0 false f) as [[[|d] [|]]|]; split; intros H;
    try discriminate H; reflexivity.
Qed.

Lemma scanFrag_app (sepc : ascii) (f1 f2 : str) :
  forall depth inClass,
    scanFrag sepc depth inClass (f1 ++ f2)
    = match scanFrag sepc depth inClass f1 with
      | Some (d, ic) => scanFrag sepc d ic f2
      | None => None
      end.
Proof.
  induction f1 as [|c f1 IH]; intros depth inClass; cbn [app scanFrag].
  - reflexivity.
  - destruct (Ascii.eqb c "\"%char || isKeyChar c); [reflexivity|].
    destruct inClass; [apply IH|].
    destruct ((depth =? 0)%nat && Ascii.eqb c sepc); [reflexivity|].
    destruct (Ascii.eqb c "["%char); [apply IH|].
    destruct (Ascii.eqb c "("%char); [apply IH|].
    destruct (Ascii.eqb c ")"%char); [|apply IH].
    destruct depth; [reflexivity | apply IH].
Qed.

Lemma scanFrag_shift (sepc : ascii) (f : str) (k : nat) :
  forall depth inClass d ic,
    scanFrag sepc depth inClass f = Some (d, ic) ->
    scanFrag sepc (depth + k) inClass f = Some ((d + k)%nat, ic).
Proof.
  induction f as [|c f IH]; intros depth inClass d ic H; cbn [scanFrag] in *.
  - injection H as <- <-. reflexivity.
  - destruct (Ascii.eqb c "\"%char || isKeyChar c); [discriminate H|].
    destruct inClass; [apply IH; exact H|].
    destruct (Nat.eqb_spec depth 0) as [->|Hd]; cbn [andb] in H.
    + destruct (Ascii.eqb c sepc); [discriminate H|].
      rewrite andb_false_r.
      destruct (Ascii.eqb c "["%char); [apply (IH 0%nat); exact H|].
      destruct (Ascii.eqb c "("%char); [apply (IH 1%nat); exact H|].
      destruct (Ascii.eqb c ")"%char); [discriminate H|].
      apply (IH 0%nat); exact H.
    + destruct (Nat.eqb_spec (depth + k) 0) as [E|_]; [lia|]. cbn [andb].
      destruct (Ascii.eqb c "["%char); [apply IH; exact H|].
      destruct (Ascii.eqb c "("%char); [apply (IH (S depth)); exact H|].
      destruct (Ascii.eqb c ")"%char); [|apply IH; exact H].
      destruct depth as [|depth']; [contradiction|].
      cbn [Nat.add]. apply IH. exact H.
Qed.

Lemma Splittable_at_depth (sepc : ascii) (f : str) (depth : nat) :
  Splittable sepc f -> scanFrag sepc depth false f = Some (depth, false).
Proof.
  intros H. apply (scanFrag_shift sepc f depth) in H. exact H.
Qed.

Lemma Splittable_app (sepc : ascii) (f1 f2 : str) :
  Splittable sepc f1 -> Splittable sepc f2 -> Splittable sepc (f1 ++ f2).
Proof.
  unfold Splittable. intros H1 H2. rewrite scanFrag_app, H1. exact H2.
Qed.

Lemma scanFrag_alternatives (sepc : ascii) (ps : list str) (depth : nat) :
  Forall (Splittable sepc) ps ->
  scanFrag sepc (S depth) false (Str.join ["|"%char] ps) = Some (S depth, false).
Proof.
  induction 1 as [|p ps Hp Hps IH]; [reflexivity|].
  destruct ps as [|p' ps'].
  - cbn [Str.join]. apply Splittable_at_depth. exact Hp.
  - rewrite join_cons2, scanFrag_app, (Splittable_at_depth sepc p (S depth) Hp).
    cbn [app scanFrag]. cbn. exact IH.
Qed.

Lemma Splittable_group (sepc : ascii) (ps : list str) :
  sepc = "\"%char \/ sepc = ":"%char ->
  Forall (Splittable sepc) ps ->
  Splittable sepc (lit "(?:" ++ Str.join (lit "|") ps ++ lit ")").
Proof.
  intros Hsep H. unfold Splittable.
  change (lit "(?:") with (["("%char] ++ lit "?:").
  rewrite <- app_assoc, scanFrag_app.
  assert (E1 : scanFrag sepc 0 false ["("%char] = Some (1%nat, false))
    by (destruct Hsep as [->| ->]; reflexivity).
  rewrite E1, scanFrag_app.
  assert (E2 : scanFrag sepc 1 false (lit "?:") = Some (1%nat, false))
    by reflexivity.
  rewrite E2, scanFrag_app.
  change (lit "|") with ["|"%char].
  rewrite (scanFrag_alternatives sepc ps 0 H). reflexivity.
Qed.

Lemma Frag_orPattern (sepc : ascii) (parts : list str) :
  sepc = "\"%char \/ sepc = ":"%char ->
  parts <> [] -> Forall (Frag sepc) parts ->
  Frag sepc (orPattern parts)
  /\ forall s, langOf (orPattern parts) s <-> exists p, In p parts /\ langOf p s.
Proof.
  intros Hsep Hne Hall.
  assert (HP : Forall Pattern parts).
  { apply Forall_forall. intros p Hp. rewrite Forall_forall in Hall.
    destruct (Hall p Hp) as (P & _). exact P. }
  destruct (orPattern_spec parts Hne HP) as [P L].
  split; [|exact L].
  split; [exact P|].
  unfold orPattern in *.
  pose proof (uniquePatterns_nonempty parts Hne) as Hu.
  pose proof (uniquePatterns_In parts) as Hin.
  assert (Hallu : Forall (Frag sepc) (uniquePatterns parts)).
  { apply Forall_forall. intros p Hp. apply Hin in Hp.
    rewrite Forall_forall in Hall. auto. }
  destruct (uniquePatterns parts) as [|only [|second more]].
  - contradiction.
  - inversion Hallu as [|? ? (_ & S & N) _]; subst. split; assumption.
  - split; [|discriminate].
    apply Splittable_group; [exact Hsep|].
    apply Forall_forall. intros p Hp. rewrite Forall_forall in Hallu.
    destruct (Hallu p Hp) as (_ & S & _). exact S.
Qed.

(** ** The decimal fragments *)

Lemma decimal_octet_Frag (v : Z) : 0 <= v <= 255 -> Frag "\"%char (decimal v).
Proof.
  intros Hv. split; [|split].
  - apply Pattern_literal. apply decimal_octet_literal. exact Hv.
  - apply isSplittable_spec. revert v Hv.
    apply (forall_values (fun v => isSplittable "\"%char (decimal v))).
    vm_compute. reflexivity.
  - apply decimal_octet_nonempty. exact Hv.
Qed.

Lemma IPV4_ANY_OCTET_Frag : Frag "\"%char IPV4_ANY_OCTET.
Proof.
  split; [apply Pattern_IPV4_ANY_OCTET|]. split; [reflexivity | discriminate].
Qed.

Lemma octetRangePattern_spec (lo hi : Z) :
  0 <= lo -> lo <= hi -> hi <= 255 ->
  Frag "\"%char (octetRangePattern lo hi)
  /\ forall s, langOf (octetRangePattern lo hi) s
               <-> exists v, lo <= v <= hi /\ s = decimal v.
Proof.
  intros H0 Hle H255. unfold octetRangePattern.
  destruct ((lo =? 0) && (hi =? 255)) eqn:E.
  - apply andb_true_iff in E. destruct E as [E1 E2].
    apply Z.eqb_eq in E1, E2. subst.
    split; [apply IPV4_ANY_OCTET_Frag | apply langOf_IPV4_ANY_OCTET].
  - clear E.
    assert (Hne : map octetValuePattern (valuesFromTo lo hi) <> []).
    { intros E. assert (Hin : In (octetValuePattern lo)
                                (map octetValuePattern (valuesFromTo lo hi))).
      { apply in_map. apply valuesFromTo_In. lia. }
      rewrite E in Hin. destruct Hin. }
    assert (Hall : Forall (Frag "\"%char) (map octetValuePattern (valuesFromTo lo hi))).
    { apply Forall_forall. intros p Hp. apply in_map_iff in Hp.
      destruct Hp as (v & <- & Hv). apply valuesFromTo_In in Hv.
      apply decimal_octet_Frag. lia. }
    destruct (Frag_orPattern "\"%char _ (or_introl eq_refl) Hne Hall) as [F L].
    split; [exact F|].
    intros s. rewrite L. split.
    + intros (p & Hp & Lp). apply in_map_iff in Hp. destruct Hp as (v & <- & Hv).
      apply valuesFromTo_In in Hv. exists v. split; [exact Hv|].
      apply langOf_literal in Lp; [exact Lp|].
      apply decimal_octet_literal. lia.
    + intros (v & Hv & ->). exists (decimal v). split.
      * apply in_map_iff. exists v. split; [reflexivity|].
        apply valuesFromTo_In. exact Hv.
      * apply langOf_literal; [|reflexivity].
        apply decimal_octet_literal. lia.
Qed.

(** ** [splitPattern] on a row of fragments *)

Lemma splitPattern_go_frag (sepc : ascii) (sep' : str) (f : str) :
  forall depth inClass cur rest d ic,
    scanFrag sepc depth inClass f = Some (d, ic) ->
    splitPattern_go (sepc :: sep') 0 depth inClass false cur (f ++ rest)
    = splitPattern_go (sepc :: sep') 0 d ic false (rev f ++ cur) rest.
Proof.
  induction f as [|c f IH]; intros depth inClass cur rest d ic H;
    cbn [scanFrag] in H.
  - injection H as <- <-. reflexivity.
  - cbn [app rev]. rewrite <- app_assoc. cbn [app].
    cbn [splitPattern_go negb andb Str.startsWith].
    destruct (Ascii.eqb c "\"%char) eqn:Ebs; [discriminate H|].
    cbn [orb] in H.
    destruct (isKeyChar c); [discriminate H|].
    destruct inClass.
    + cbn [negb andb]. apply IH. exact H.
    + cbn [negb andb].
      destruct (Nat.eqb_spec depth 0) as [->|Hd]; cbn [andb] in H |- *.
      * rewrite (Ascii.eqb_sym sepc c).
        destruct (Ascii.eqb c sepc); [discriminate H|]. cbn [andb].
        destruct (Ascii.eqb c "["%char); [apply IH; exact H|].
        unfold updateDepth.
        destruct (Ascii.eqb c "("%char); [apply IH; exact H|].
        destruct (Ascii.eqb c ")"%char); [discriminate H|].
        apply IH. exact H.
      * destruct (Ascii.eqb c "["%char); [apply IH; exact H|].
        unfold updateDepth.
        destruct (Ascii.eqb c "("%char); [apply IH; exact H|].
        destruct (Ascii.eqb c ")"%char); [|apply IH; exact H].
        destruct depth as [|depth']; [contradiction|].
        cbn [Nat.pred]. apply IH. exact H.
Qed.

Lemma splitPattern_go_join (sep : str) (sepc : ascii) (frags : list str) :
  (sep = lit "\." /\ sepc = "\"%char) \/ (sep = lit ":" /\ sepc = ":"%char) ->
  Forall (Splittable sepc) frags -> frags <> [] ->
  splitPattern_go sep 0 0 false false [] (Str.join sep frags) = frags.
Proof.
  intros Hsep Hall Hne.
  assert (Hsep' : exists sep', sep = sepc :: sep'
                               /\ forall rest cur,
                                 splitPattern_go sep 0 0 false false cur (sep ++ rest)
                                 = rev cur :: splitPattern_go sep 0 0 false false [] rest).
  { destruct Hsep as [[-> ->]|[-> ->]].
    - exists ["."%char]. split; [reflexivity|]. intros rest cur. reflexivity.
    - exists []. split; [reflexivity|]. intros rest cur. reflexivity. }
  destruct Hsep' as (sep' & Esep & Hstep).
  induction Hall as [|f frags Hf Hfs IH]; [contradiction|].
  destruct frags as [|f' frags'].
  - cbn [Str.join]. rewrite <- (app_nil_r f) at 1. rewrite Esep.
    rewrite (splitPattern_go_frag sepc sep' f 0 false [] [] 0%nat false Hf).
    cbn [splitPattern_go]. rewrite app_nil_r, rev_involutive. reflexivity.
  - rewrite join_cons2.
    specialize (IH ltac:(discriminate)).
    rewrite Esep at 1.
    rewrite (splitPattern_go_frag sepc sep' f 0 false [] _ 0%nat false Hf).
    rewrite <- Esep, Hstep, app_nil_r, rev_involutive, IH. reflexivity.
Qed.

(** ** Lexicographic intervals *)

Lemma lexle_refl (xs : list Z) : lexle xs xs.
Proof. induction xs as [|x xs IH]; cbn; auto. Qed.

Lemma lexle_repeat_max (m : Z) (vs : list Z) :
  Forall (fun v => v <= m) vs -> lexle vs (repeat m (length vs)).
Proof.
  induction 1 as [|v vs Hv _ IH]; cbn; [exact I|].
  destruct (Z.eq_dec v m) as [->|Hne]; [right; auto | left; lia].
Qed.

Lemma lexle_repeat_min (m : Z) (vs : list Z) :
  Forall (fun v => m <= v) vs -> lexle (repeat m (length vs)) vs.
Proof.
  induction 1 as [|v vs Hv _ IH]; cbn; [exact I|].
  destruct (Z.eq_dec v m) as [->|Hne]; [right; auto | left; lia].
Qed.

(** ** Rows of fragments *)

Lemma rowsLang_app (l1 l2 : list str) (s : str) :
  rowsLang (l1 ++ l2) s <-> rowsLang l1 s \/ rowsLang l2 s.
Proof.
  unfold rowsLang. split.
  - intros (p & Hp & L). apply in_app_iff in Hp.
    destruct Hp; [left | right]; exists p; auto.
  - intros [(p & Hp & L)|(p & Hp & L)]; exists p; split; auto;
      apply in_app_iff; auto.
Qed.

Lemma rowsLang_unique (l : list str) (s : str) :
  rowsLang (uniquePatterns l) s <-> rowsLang l s.
Proof.
  unfold rowsLang. split; intros (p & Hp & L); exists p; split; auto;
    apply uniquePatterns_In; exact Hp.
Qed.

Lemma rowsLang_single (p s : str) : rowsLang [p] s <-> langOf p s.
Proof.
  unfold rowsLang. split.
  - intros (q & [<-|[]] & L). exact L.
  - intros L. exists p. split; [left; reflexivity | exact L].
Qed.

Lemma rowsLang_nil (s : str) : rowsLang [] s <-> False.
Proof. unfold rowsLang. split; [intros (p & [] & _) | intros []]. Qed.

Section Rows.

Variable sep : str.
Variable sepc : ascii.
Variable dot : str.
Variable show : Z -> str.

Hypothesis sep_Pattern : Pattern sep.
Hypothesis sep_lang : forall s, langOf sep s <-> s = dot.

Lemma Row_zero (p : str) : Row sep sepc 0 p <-> p = [].
Proof.
  split.
  - intros (frags & Hlen & -> & _). destruct frags; [reflexivity | discriminate].
  - intros ->. exists []. repeat split. constructor.
Qed.

Lemma join_nonempty (frags : list str) :
  frags <> [] -> Forall (fun f => f <> []) frags -> Str.join sep frags <> [].
Proof.
  intros Hne Hall. destruct frags as [|f [|f' frags]]; [contradiction| |].
  - inversion Hall; subst. assumption.
  - rewrite join_cons2. inversion Hall; subst.
    destruct f; [contradiction | discriminate].
Qed.

Lemma Row_nonempty (k : nat) (p : str) : Row sep sepc (S k) p -> p <> [].
Proof.
  intros (frags & Hlen & -> & Hall). apply join_nonempty.
  - destruct frags; [discriminate Hlen | discriminate].
  - apply Forall_forall. intros f Hf. rewrite Forall_forall in Hall.
    destruct (Hall f Hf) as (_ & _ & N). exact N.
Qed.

Lemma Row_Pattern (k : nat) (p : str) : Row sep sepc k p -> Pattern p.
Proof.
  intros (frags & _ & -> & Hall).
  induction Hall as [|f frags (P & _) _ IH]; [apply Pattern_nil|].
  destruct frags as [|f' frags'].
  - exact P.
  - rewrite join_cons2. apply Pattern_app; [exact P|].
    apply Pattern_app; [exact sep_Pattern | exact IH].
Qed.

Lemma combineWithSuffix_combined (head : str) (suffixes : list str) :
  combineWithSuffix head suffixes sep = map (combined sep head) suffixes.
Proof. reflexivity. Qed.

Lemma Row_combined (k : nat) (head suffix : str) :
  Frag sepc head -> Row sep sepc k suffix ->
  Row sep sepc (S k) (combined sep head suffix).
Proof.
  intros Hh Hs. destruct k as [|k].
  - apply Row_zero in Hs. subst. exists [head]. repeat split.
    constructor; [exact Hh | constructor].
  - pose proof (Row_nonempty k suffix Hs) as Hne.
    destruct Hs as (frags & Hlen & -> & Hall).
    exists (head :: frags). split; [cbn; lia|]. split.
    + unfold combined. destruct (Str.join sep frags) eqn:E; [contradiction|].
      rewrite <- E. destruct frags; [discriminate Hlen|]. reflexivity.
    + constructor; assumption.
Qed.

Lemma showRow_cons (v : Z) (vs : list Z) :
  vs <> [] -> showRow show dot (v :: vs) = show v ++ dot ++ showRow show dot vs.
Proof.
  intros Hne. destruct vs as [|v' vs]; [contradiction|]. reflexivity.
Qed.

Lemma langOf_combined (k : nat) (head suffix : str)
      (HV : Z -> Prop) (SV : list Z -> Prop) :
  Frag sepc head -> Row sep sepc k suffix ->
  (forall s, langOf head s <-> exists v, HV v /\ s = show v) ->
  (forall s, langOf suffix s <->
             exists vs, length vs = k /\ SV vs /\ s = showRow show dot vs) ->
  forall s, langOf (combined sep head suffix) s <->
            exists v vs, HV v /\ length vs = k /\ SV vs
                         /\ s = showRow show dot (v :: vs).
Proof.
  intros Hh Hs Lh Ls s. destruct k as [|k].
  - pose proof Hs as Hs0. apply Row_zero in Hs0. subst suffix.
    unfold combined. rewrite Lh. split.
    + intros (v & Hv & ->).
      destruct (proj1 (Ls []) (proj2 (langOf_nil []) eq_refl))
        as (vs & Hlen & Hvs & _).
      exists v, vs. destruct vs; [|discriminate Hlen]. auto.
    + intros (v & vs & Hv & Hlen & Hvs & ->).
      destruct vs; [|discriminate Hlen]. exists v. auto.
  - pose proof (Row_nonempty k suffix Hs) as Hne.
    pose proof (Row_Pattern (S k) suffix Hs) as Ps.
    destruct Hh as (Ph & _).
    unfold combined. destruct suffix as [|c suffix']; [contradiction|].
    remember (c :: suffix') as suffix.
    rewrite (langOf_app head (sep ++ suffix) s Ph (Pattern_app _ _ sep_Pattern Ps)).
    split.
    + intros (s1 & s23 & -> & L1 & L23).
      apply (langOf_app sep suffix s23 sep_Pattern Ps) in L23.
      destruct L23 as (s2 & s3 & -> & L2 & L3).
      apply sep_lang in L2. subst s2.
      apply Lh in L1. destruct L1 as (v & Hv & ->).
      apply Ls in L3. destruct L3 as (vs & Hlen & Hvs & ->).
      exists v, vs. repeat split; auto.
      rewrite showRow_cons; [reflexivity|].
      destruct vs; [discriminate Hlen | discriminate].
    + intros (v & vs & Hv & Hlen & Hvs & ->).
      exists (show v), (dot ++ showRow show dot vs). split.
      * apply showRow_cons. destruct vs; [discriminate Hlen | discriminate].
      * split; [apply Lh; exists v; auto|].
        apply (langOf_app sep suffix _ sep_Pattern Ps).
        exists dot, (showRow show dot vs). repeat split.
        -- apply sep_lang. reflexivity.
        -- apply Ls. exists vs. auto.
Qed.

Lemma rowsLang_combine (k : nat) (head : str) (suffixes : list str)
      (HV : Z -> Prop) (SV : list Z -> Prop) :
  Frag sepc head -> Forall (Row sep sepc k) suffixes ->
  (forall s, langOf head s <-> exists v, HV v /\ s = show v) ->
  (forall s, rowsLang suffixes s <->
             exists vs, length vs = k /\ SV vs /\ s = showRow show dot vs) ->
  Forall (Row sep sepc (S k)) (combineWithSuffix head suffixes sep)
  /\ forall s, rowsLang (combineWithSuffix head suffixes sep) s <->
               exists v vs, HV v /\ length vs = k /\ SV vs
                            /\ s = showRow show dot (v :: vs).
Proof.
  intros Hh Hrows Lh Ls. rewrite combineWithSuffix_combined.
  rewrite Forall_forall in Hrows. split.
  - apply Forall_forall. intros p Hp. apply in_map_iff in Hp.
    destruct Hp as (q & <- & Hq). apply Row_combined; auto.
  - intros s. unfold rowsLang. split.
    + intros (p & Hp & L). apply in_map_iff in Hp.
      destruct Hp as (q & <- & Hq).
      pose proof (langOf_combined k head q HV
                    (fun vs => langOf q (showRow show dot vs))
                    Hh (Hrows q Hq) Lh) as Hc.
      destruct (proj1 (Hc ltac:(intros s0; split;
                  [ intros L0;
                    destruct (proj1 (Ls s0) (ex_intro _ q (conj Hq L0)))
                      as (vs & Hlen & _ & ->); exists vs; auto
                  | intros (vs & _ & L0 & ->); exact L0 ]) s) L)
        as (v & vs & Hv & Hlen & Lq & ->).
      destruct (proj1 (Ls _) (ex_intro _ q (conj Hq Lq)))
        as (vs' & Hlen' & Hvs' & E).
      exists v, vs'. repeat split; auto.
      destruct vs as [|w vs].
      * destruct vs'; [reflexivity | cbn in Hlen, Hlen'; lia].
      * rewrite (showRow_cons v (w :: vs)) by discriminate.
        rewrite (showRow_cons v vs')
          by (destruct vs'; [cbn in Hlen, Hlen'; lia | discriminate]).
        rewrite E. reflexivity.
    + intros (v & vs & Hv & Hlen & Hvs & ->).
      destruct (proj2 (Ls (showRow show dot vs))
                      (ex_intro _ vs (conj Hlen (conj Hvs eq_refl))))
        as (q & Hq & Lq).
      exists (combined sep head q). split; [apply in_map; exact Hq|].
      apply (langOf_combined k head q HV
               (fun vs => langOf q (showRow show dot vs)) Hh (Hrows q Hq) Lh).
      * intros s0. split.
        -- intros L0.
           destruct (proj1 (Ls s0) (ex_intro _ q (conj Hq L0)))
             as (vs0 & Hlen0 & _ & ->). exists vs0. auto.
        -- intros (vs0 & _ & L0 & ->). exact L0.
      * exists v, vs. auto.
Qed.

End Rows.

(** ** Arrays seen from an index *)

Lemma nth_at (pre : list Z) (x : Z) (tail : list Z) :
  nth (length pre) (pre ++ x :: tail) 0 = x.
Proof.
  rewrite app_nth2 by lia. rewrite Nat.sub_diag. reflexivity.
Qed.

Lemma arraySet_at {A : Type} (pre : list A) (x y : A) (tail : list A) :
  arraySet (length pre) y (pre ++ x :: tail) = pre ++ y :: tail.
Proof.
  induction pre as [|a pre IH]; cbn; [reflexivity|]. rewrite IH. reflexivity.
Qed.

Lemma fill_fold {A : Type} (v : A) (tail : list A) :
  forall pre,
    fold_left (fun acc i => arraySet i v acc) (seq (length pre) (length tail))
              (pre ++ tail)
    = pre ++ repeat v (length tail).
Proof.
  induction tail as [|t tail IH]; intros pre; cbn [length seq fold_left repeat].
  - reflexivity.
  - rewrite arraySet_at.
    change (pre ++ v :: tail) with (pre ++ [v] ++ tail).
    change (pre ++ v :: repeat v (length tail))
      with (pre ++ [v] ++ repeat v (length tail)).
    rewrite !app_assoc.
    replace (S (length pre)) with (length (pre ++ [v]))
      by (rewrite length_app; cbn; lia).
    apply IH.
Qed.

Lemma fillFrom_at {A : Type} (n : nat) (v x : A) (pre tail : list A) :
  n = length (pre ++ x :: tail) ->
  fillFrom (length pre + 1) n v (pre ++ x :: tail)
  = pre ++ x :: repeat v (length tail).
Proof.
  intros ->. unfold fillFrom.
  change (pre ++ x :: tail) with (pre ++ [x] ++ tail).
  rewrite !app_assoc.
  replace (length pre + 1)%nat with (length (pre ++ [x]))
    by (rewrite length_app; cbn; lia).
  replace (length ((pre ++ [x]) ++ tail) - length (pre ++ [x]))%nat
    with (length tail) by (rewrite !length_app; cbn; lia).
  rewrite fill_fold, <- app_assoc. reflexivity.
Qed.

Lemma isFullRange_at (lo hi : Z) (ss : list Z) :
  forall es pre pre',
    length pre = length pre' -> length ss = length es ->
    forallb (fun i =>
               match nth_error (pre ++ ss) i, nth_error (pre' ++ es) i with
               | Some s, Some e => (s =? lo) && (e =? hi)
               | _, _ => false
               end)
            (seq (length pre) (length ss)) = true
    <-> ss = repeat lo (length ss) /\ es = repeat hi (length es).
Proof.
  induction ss as [|s0 ss IH]; intros es pre pre' Hpre Hlen.
  - destruct es; [|discriminate Hlen]. cbn. tauto.
  - destruct es as [|e0 es]; [discriminate Hlen|].
    cbn [length seq forallb repeat].
    assert (E1 : nth_error (pre ++ s0 :: ss) (length pre) = Some s0)
      by (rewrite nth_error_app2 by lia; rewrite Nat.sub_diag; reflexivity).
    assert (E2 : nth_error (pre' ++ e0 :: es) (length pre) = Some e0)
      by (rewrite Hpre, nth_error_app2 by lia; rewrite Nat.sub_diag; reflexivity).
    rewrite E1, E2. clear E1 E2.
    change (pre ++ s0 :: ss) with (pre ++ [s0] ++ ss).
    change (pre' ++ e0 :: es) with (pre' ++ [e0] ++ es).
    rewrite !app_assoc.
    replace (S (length pre)) with (length (pre ++ [s0]))
      by (rewrite length_app; cbn; lia).
    rewrite andb_true_iff, (IH es (pre ++ [s0]) (pre' ++ [e0]))
      by (rewrite ?length_app; cbn in *; lia).
    rewrite andb_true_iff, !Z.eqb_eq. cbn in Hlen.
    split.
    + intros [[-> ->] [E1 E2]]. rewrite <- E1, <- E2. auto.
    + intros [E1 E2]. injection E1 as -> E1. injection E2 as -> E2. auto.
Qed.

Lemma isFullRange_view (lo hi : Z) (pre pre' ss es : list Z) :
  length pre = length pre' -> length ss = length es ->
  isFullRange (pre ++ ss) (pre' ++ es) (length pre) lo hi = true
  <-> ss = repeat lo (length ss) /\ es = repeat hi (length es).
Proof.
  intros Hpre Hlen. unfold isFullRange.
  replace (length (pre ++ ss) - length pre)%nat with (length ss)
    by (rewrite length_app; lia).
  apply isFullRange_at; assumption.
Qed.

Lemma interval_cases (s0 e0 v : Z) (ss es vs : list Z) :
  s0 < e0 ->
  (lexle (s0 :: ss) (v :: vs) /\ lexle (v :: vs) (e0 :: es))
  <-> (v = s0 /\ lexle ss vs) \/ (s0 < v < e0) \/ (v = e0 /\ lexle vs es).
Proof. intros H. cbn. intuition lia. Qed.

Lemma interval_equal (s0 v : Z) (ss es vs : list Z) :
  (lexle (s0 :: ss) (v :: vs) /\ lexle (v :: vs) (s0 :: es))
  <-> v = s0 /\ lexle ss vs /\ lexle vs es.
Proof. cbn. intuition lia. Qed.

(** ** The segment pattern builder *)

Section Builder.

Variable segmentCount : nat.
Variable maxValue : Z.
Variable sep : str.
Variable sepc : ascii.
Variable dot : str.
Variable show : Z -> str.
Variable anySuffix : Z -> str.
Variable rangePattern : Z -> Z -> str.

Hypothesis sep_Pattern : Pattern sep.
Hypothesis sep_lang : forall s, langOf sep s <-> s = dot.
Hypothesis maxValue_nonneg : 0 <= maxValue.

Hypothesis range_spec :
  forall lo hi, 0 <= lo -> lo <= hi -> hi <= maxValue ->
    Frag sepc (rangePattern lo hi)
    /\ forall s, langOf (rangePattern lo hi) s
                 <-> exists v, lo <= v <= hi /\ s = show v.

Hypothesis any_spec :
  forall k, (k <= segmentCount)%nat ->
    Row sep sepc k (anySuffix (Z.of_nat k))
    /\ forall s, langOf (anySuffix (Z.of_nat k)) s
                 <-> exists vs, length vs = k
                                /\ Forall (fun v => 0 <= v <= maxValue) vs
                                /\ s = showRow show dot vs.

Lemma combine_nonempty (head : str) (suffixes : list str) :
  suffixes <> [] -> combineWithSuffix head suffixes sep <> [].
Proof. destruct suffixes; [contradiction | discriminate]. Qed.

Lemma Forall_seg_repeat (v : Z) (n : nat) :
  0 <= v <= maxValue -> Forall (fun v => 0 <= v <= maxValue) (repeat v n).
Proof. intros H. induction n; cbn; constructor; assumption. Qed.

Theorem buildRows_spec (remaining : nat) :
  forall pre pre' ss es,
    length pre = length pre' ->
    length ss = remaining -> length es = remaining ->
    (length pre + remaining = segmentCount)%nat ->
    Forall (fun v => 0 <= v <= maxValue) ss ->
    Forall (fun v => 0 <= v <= maxValue) es ->
    lexle ss es ->
    let ps := buildRows segmentCount maxValue sep anySuffix rangePattern
                        remaining (pre ++ ss) (pre' ++ es) (length pre) in
    Forall (Row sep sepc remaining) ps
    /\ ps <> []
    /\ forall s, rowsLang ps s
                 <-> exists vs, length vs = remaining
                                /\ Forall (fun v => 0 <= v <= maxValue) vs
                                /\ lexle ss vs /\ lexle vs es
                                /\ s = showRow show dot vs.
Proof.
  induction remaining as [|r IH];
    intros pre pre' ss es Hpre Hss Hes Hcount Sss Ses Hlex ps; subst ps.
  - destruct ss; [|discriminate Hss]. destruct es; [|discriminate Hes].
    cbn [buildRows]. split; [|split].
    + constructor; [|constructor]. apply Row_zero. reflexivity.
    + discriminate.
    + intros s. rewrite rowsLang_single, langOf_nil. split.
      * intros ->. exists []. cbn. repeat split. constructor.
      * intros (vs & Hlen & _ & _ & _ & ->). destruct vs; [reflexivity | discriminate].
  - destruct ss as [|s0 ss']; [discriminate Hss|].
    destruct es as [|e0 es']; [discriminate Hes|].
    injection Hss as Hss. injection Hes as Hes.
    pose proof (Forall_inv Sss) as Ss0. pose proof (Forall_inv_tail Sss) as Sss'.
    pose proof (Forall_inv Ses) as Se0. pose proof (Forall_inv_tail Ses) as Ses'.
    cbn beta in Ss0, Se0.
    cbn [buildRows].
    assert (Hany : Z.of_nat segmentCount - Z.of_nat (length pre)
                   = Z.of_nat (S r)) by lia.
    assert (Hany' : Z.of_nat segmentCount - Z.of_nat (length pre) - 1
                    = Z.of_nat r) by lia.
    assert (Mx : lexle ss' (repeat maxValue r)).
    { rewrite <- Hss. apply lexle_repeat_max.
      eapply Forall_impl; [|exact Sss']. cbn. intros; lia. }
    assert (Mn : lexle (repeat 0 r) es').
    { rewrite <- Hes. apply lexle_repeat_min.
      eapply Forall_impl; [|exact Ses']. cbn. intros; lia. }
    destruct (isFullRange (pre ++ s0 :: ss') (pre' ++ e0 :: es') (length pre) 0 maxValue)
      eqn:Efull.
    + apply isFullRange_view in Efull; [|assumption | cbn; lia].
      destruct Efull as [E1 E2].
      rewrite Hany.
      destruct (any_spec (S r) ltac:(lia)) as [R L].
      split; [|split].
      * constructor; [exact R | constructor].
      * discriminate.
      * intros s. rewrite rowsLang_single, L. split.
        -- intros (vs & Hlen & Hvs & ->). exists vs. repeat split; auto.
           ++ rewrite E1. cbn [length]. rewrite Hss, <- Hlen.
              apply lexle_repeat_min.
              eapply Forall_impl; [|exact Hvs]. cbn. intros; lia.
           ++ rewrite E2. cbn [length]. rewrite Hes, <- Hlen.
              apply lexle_repeat_max.
              eapply Forall_impl; [|exact Hvs]. cbn. intros; lia.
        -- intros (vs & Hlen & Hvs & _ & _ & ->). exists vs. auto.
    + clear Efull.
      rewrite nth_at.
      assert (En : nth (length pre) (pre' ++ e0 :: es') 0 = e0)
        by (rewrite Hpre; apply nth_at).
      rewrite En. clear En.
      assert (V1 : forall l : list Z, pre ++ s0 :: l = (pre ++ [s0]) ++ l)
        by (intros l; rewrite <- app_assoc; reflexivity).
      assert (V2 : forall l : list Z, pre' ++ e0 :: l = (pre' ++ [e0]) ++ l)
        by (intros l; rewrite <- app_assoc; reflexivity).
      assert (I1 : (length pre + 1)%nat = length (pre ++ [s0]))
        by (rewrite length_app; reflexivity).
      assert (Hp1 : length (pre ++ [s0]) = length (pre' ++ [e0]))
        by (rewrite !length_app; cbn; lia).
      assert (Hc1 : (length (pre ++ [s0]) + r = segmentCount)%nat)
        by (rewrite length_app; cbn; lia).
      destruct (Z.eqb_spec s0 e0) as [<-|Hne].
      * destruct (range_spec s0 s0 ltac:(lia) ltac:(lia) ltac:(lia)) as [F L].
        rewrite (V1 ss'), (V2 es'), I1.
        assert (Hlex' : lexle ss' es') by (cbn in Hlex; intuition lia).
        destruct (IH (pre ++ [s0]) (pre' ++ [s0]) ss' es' Hp1 Hss Hes Hc1
                     Sss' Ses' Hlex') as (R1 & N1 & L1).
        destruct (rowsLang_combine sep sepc dot show sep_Pattern sep_lang
                    r (rangePattern s0 s0) _
                    (fun v => s0 <= v <= s0)
                    (fun vs => Forall (fun v => 0 <= v <= maxValue) vs
                               /\ lexle ss' vs /\ lexle vs es')
                    F R1 L) as (R2 & L2).
        { intros s. rewrite L1. split; intros (vs & H); exists vs; tauto. }
        split; [exact R2|]. split; [apply combine_nonempty; exact N1|].
        intros s. rewrite L2. split.
        -- intros (v & vs & Hv & Hlen & (Hvs & Hl1 & Hl2) & ->).
           assert (v = s0) by lia. subst v.
           exists (s0 :: vs). repeat split; cbn; auto.
        -- intros (vs0 & Hlen & Hvs & Hl1 & Hl2 & ->).
           destruct vs0 as [|v vs]; [discriminate Hlen|].
           injection Hlen as Hlen. pose proof (Forall_inv_tail Hvs) as Hvs'.
           destruct (proj1 (interval_equal s0 v ss' es' vs) (conj Hl1 Hl2))
             as (-> & Hl1' & Hl2').
           exists s0, vs. repeat split; auto; lia.
      * assert (Hlt : s0 < e0) by (cbn in Hlex; intuition lia).
        rewrite arraySet_at.
        rewrite fillFrom_at by (rewrite length_app; cbn; lia).
        assert (Ea : arraySet (length pre) e0 (pre' ++ e0 :: es') = pre' ++ e0 :: es')
          by (rewrite Hpre; apply arraySet_at).
        rewrite Ea. clear Ea.
        assert (Ef : fillFrom (length pre + 1) segmentCount 0 (pre' ++ e0 :: es')
                     = pre' ++ e0 :: repeat 0 (length es')).
        { rewrite Hpre. apply fillFrom_at. rewrite length_app. cbn. lia. }
        rewrite Ef. clear Ef.
        rewrite Hany', Hss, Hes.
        rewrite (V1 ss'), (V1 (repeat maxValue r)),
                (V2 es'), (V2 (repeat 0 r)), I1.
        destruct (range_spec s0 s0 ltac:(lia) ltac:(lia) ltac:(lia)) as [Fl Ll].
        destruct (range_spec e0 e0 ltac:(lia) ltac:(lia) ltac:(lia)) as [Fh Lh].
        (* low boundary *)
        destruct (IH (pre ++ [s0]) (pre ++ [s0]) ss' (repeat maxValue r)
                     eq_refl Hss (repeat_length maxValue r) Hc1
                     Sss' (Forall_seg_repeat maxValue r ltac:(lia)) Mx)
          as (R1 & N1 & L1).
        destruct (rowsLang_combine sep sepc dot show sep_Pattern sep_lang
                    r (rangePattern s0 s0) _
                    (fun v => s0 <= v <= s0)
                    (fun vs => Forall (fun v => 0 <= v <= maxValue) vs
                               /\ lexle ss' vs
                               /\ lexle vs (repeat maxValue r))
                    Fl R1 Ll) as (R1' & L1').
        { intros s. rewrite L1. split; intros (vs & H); exists vs; tauto. }
        (* high boundary *)
        assert (Hc2 : (length (pre' ++ [e0]) + r = segmentCount)%nat)
          by (rewrite <- Hp1; exact Hc1).
        destruct (IH (pre' ++ [e0]) (pre' ++ [e0]) (repeat 0 r) es'
                     eq_refl (repeat_length 0 r) Hes Hc2
                     (Forall_seg_repeat 0 r ltac:(lia)) Ses' Mn)
          as (R3 & N3 & L3).
        rewrite <- Hp1 in R3, N3, L3.
        destruct (rowsLang_combine sep sepc dot show sep_Pattern sep_lang
                    r (rangePattern e0 e0) _
                    (fun v => e0 <= v <= e0)
                    (fun vs => Forall (fun v => 0 <= v <= maxValue) vs
                               /\ lexle (repeat 0 r) vs
                               /\ lexle vs es')
                    Fh R3 Lh) as (R3' & L3').
        { intros s. rewrite L3. split; intros (vs & H); exists vs; tauto. }
        (* middle *)
        set (middleRows :=
               if s0 + 1 <=? e0 - 1
               then [match anySuffix (Z.of_nat r) with
                     | [] => rangePattern (s0 + 1) (e0 - 1)
                     | _ :: _ => rangePattern (s0 + 1) (e0 - 1) ++ sep
                                 ++ anySuffix (Z.of_nat r)
                     end]
               else []).
        assert (HM : Forall (Row sep sepc (S r)) middleRows
                     /\ forall s, rowsLang middleRows s
                                  <-> exists v vs, s0 < v < e0 /\ length vs = r
                                        /\ Forall (fun v => 0 <= v <= maxValue) vs
                                        /\ s = showRow show dot (v :: vs)).
        { subst middleRows. destruct (Z.leb_spec (s0 + 1) (e0 - 1)) as [Hm|Hm].
          - destruct (range_spec (s0 + 1) (e0 - 1) ltac:(lia) ltac:(lia) ltac:(lia))
              as [Fm Lm].
            destruct (any_spec r ltac:(lia)) as [Ra La].
            destruct (rowsLang_combine sep sepc dot show sep_Pattern sep_lang
                    r (rangePattern (s0 + 1) (e0 - 1))
                        [anySuffix (Z.of_nat r)]
                        (fun v => s0 + 1 <= v <= e0 - 1)
                        (fun vs => Forall (fun v => 0 <= v <= maxValue) vs)
                        Fm ltac:(constructor; [exact Ra | constructor]) Lm)
              as (Rm & Lm').
            { intros s. rewrite rowsLang_single, La. reflexivity. }
            split; [exact Rm|].
            intros s. rewrite Lm'.
            split; intros (v & vs & Hv & H); exists v, vs; (split; [lia | exact H]).
          - split; [constructor|]. intros s. rewrite rowsLang_nil. split; [tauto|].
            intros (v & _ & Hv & _). lia. }
        destruct HM as (R2' & L2').
        split; [|split].
        -- apply Forall_forall. intros p Hp.
           apply (proj1 (uniquePatterns_In _ _)) in Hp.
           rewrite Forall_forall in R1', R2', R3'.
           apply in_app_iff in Hp. destruct Hp as [Hp|Hp]; [auto|].
           apply in_app_iff in Hp. destruct Hp as [Hp|Hp]; auto.
        -- apply uniquePatterns_nonempty. intros E.
           apply app_eq_nil in E. destruct E as [E _].
           revert E. apply combine_nonempty. exact N1.
        -- intros s. rewrite rowsLang_unique, !rowsLang_app, L1', L2', L3'.
           split.
           ++ intros [H|[H|H]].
              ** destruct H as (v & vs & Hv & Hlen & (Hvs & Hl1 & Hl2) & ->).
                 assert (v = s0) by lia. subst v.
                 exists (s0 :: vs). split; [cbn; lia|]. split; [constructor; auto|].
                 split; [|split; [|reflexivity]];
                   apply (interval_cases s0 e0 s0 ss' es' vs Hlt); auto.
              ** destruct H as (v & vs & Hv & Hlen & Hvs & ->).
                 exists (v :: vs). split; [cbn; lia|].
                 split; [constructor; [lia | auto]|].
                 split; [|split; [|reflexivity]];
                   apply (interval_cases s0 e0 v ss' es' vs Hlt); right; left; lia.
              ** destruct H as (v & vs & Hv & Hlen & (Hvs & Hl1 & Hl2) & ->).
                 assert (v = e0) by lia. subst v.
                 exists (e0 :: vs). split; [cbn; lia|]. split; [constructor; auto|].
                 split; [|split; [|reflexivity]];
                   apply (interval_cases s0 e0 e0 ss' es' vs Hlt); auto.
           ++ intros (vs0 & Hlen & Hvs & Hl1 & Hl2 & ->).
              destruct vs0 as [|v vs]; [discriminate Hlen|].
              injection Hlen as Hlen.
              pose proof (Forall_inv Hvs) as Hv. cbn beta in Hv.
              pose proof (Forall_inv_tail Hvs) as Hvs'.
              destruct (proj1 (interval_cases s0 e0 v ss' es' vs Hlt) (conj Hl1 Hl2))
                as [[-> Hl]|[Hm|[-> Hl]]].
              ** left. exists s0, vs. repeat split; auto; try lia.
                 rewrite <- Hlen. apply lexle_repeat_max.
                 eapply Forall_impl; [|exact Hvs']. cbn. intros; lia.
              ** right. left. exists v, vs. repeat split; auto; lia.
              ** right. right. exists e0, vs. repeat split; auto; try lia.
                 rewrite <- Hlen. apply lexle_repeat_min.
                 eapply Forall_impl; [|exact Hvs']. cbn. intros; lia.
Qed.

End Builder.

(** ** Wildcard suffixes *)

Section AnySuffix.

Variable sep : str.
Variable sepc : ascii.
Variable dot : str.
Variable show : Z -> str.
Variable maxValue : Z.
Variable anyFrag : str.

Hypothesis sep_Pattern : Pattern sep.
Hypothesis sep_lang : forall s, langOf sep s <-> s = dot.
Hypothesis any_Frag : Frag sepc anyFrag.
Hypothesis any_lang :
  forall s, langOf anyFrag s <-> exists v, 0 <= v <= maxValue /\ s = show v.

Lemma join_repeat_S (k : nat) :
  Str.join sep (repeat anyFrag (S k))
  = combined sep anyFrag (Str.join sep (repeat anyFrag k)).
Proof.
  destruct k as [|k]; [reflexivity|].
  cbn [repeat]. rewrite join_cons2. unfold combined.
  destruct (Str.join sep (anyFrag :: repeat anyFrag k)) eqn:E; [|reflexivity].
  exfalso. revert E. apply join_nonempty; [discriminate|].
  destruct any_Frag as (_ & _ & N).
  constructor; [exact N|]. apply Forall_forall. intros f Hf.
  apply repeat_spec in Hf. subst. exact N.
Qed.

Lemma anyRows_spec (k : nat) :
  Row sep sepc k (Str.join sep (repeat anyFrag k))
  /\ forall s, langOf (Str.join sep (repeat anyFrag k)) s
               <-> exists vs, length vs = k
                              /\ Forall (fun v => 0 <= v <= maxValue) vs
                              /\ s = showRow show dot vs.
Proof.
  induction k as [|k [R L]].
  - split; [apply Row_zero; reflexivity|].
    intros s. cbn [repeat Str.join]. rewrite langOf_nil. split.
    + intros ->. exists []. repeat split. constructor.
    + intros (vs & Hlen & _ & ->). destruct vs; [reflexivity | discriminate].
  - rewrite join_repeat_S. split; [apply Row_combined; assumption|].
    intros s.
    rewrite (langOf_combined sep sepc dot show sep_Pattern sep_lang k anyFrag _
               (fun v => 0 <= v <= maxValue)
               (fun vs => Forall (fun v => 0 <= v <= maxValue) vs)
               any_Frag R any_lang L).
    split.
    + intros (v & vs & Hv & Hlen & Hvs & ->). exists (v :: vs).
      split; [cbn; lia|]. split; [constructor; assumption | reflexivity].
    + intros (vs0 & Hlen & Hvs & ->). destruct vs0 as [|v vs]; [discriminate|].
      exists v, vs. injection Hlen as Hlen.
      pose proof (Forall_inv Hvs) as Hv. pose proof (Forall_inv_tail Hvs) as Hvs'.
      auto.
Qed.

End AnySuffix.

(** ** IPv4 patterns *)

Lemma Pattern_escaped_dot : Pattern (lit "\.").
Proof.
  exists [RChar "."%char]. split; [apply Terms_escaped_dot|]. cbn. auto.
Qed.

Lemma langOf_escaped_dot (s : str) : langOf (lit "\.") s <-> s = lit ".".
Proof.
  rewrite (langOf_Terms _ _ s Terms_escaped_dot).
  apply (lang_literal (lit ".")).
Qed.

Lemma ipv4AnySuffix_spec (k : nat) :
  Row (lit "\.") "\"%char k (ipv4AnySuffix (Z.of_nat k))
  /\ forall s, langOf (ipv4AnySuffix (Z.of_nat k)) s
               <-> exists vs, length vs = k
                              /\ Forall (fun v => 0 <= v <= 255) vs
                              /\ s = showRow decimal (lit ".") vs.
Proof.
  assert (E : ipv4AnySuffix (Z.of_nat k)
              = Str.join (lit "\.") (repeat IPV4_ANY_OCTET k)).
  { unfold ipv4AnySuffix. destruct (Z.leb_spec (Z.of_nat k) 0) as [H|H].
    - destruct k; [reflexivity | lia].
    - rewrite Nat2Z.id. reflexivity. }
  rewrite E.
  apply (anyRows_spec (lit "\.") "\"%char (lit ".") decimal 255 IPV4_ANY_OCTET
           Pattern_escaped_dot langOf_escaped_dot IPV4_ANY_OCTET_Frag
           langOf_IPV4_ANY_OCTET).
Qed.

Lemma buildIPv4Patterns_from_generic (remaining : nat) :
  forall start end_ index,
    buildIPv4Patterns_from remaining start end_ index
    = buildRows 4 255 (lit "\.") ipv4AnySuffix octetRangePattern
                remaining start end_ index.
Proof.
  induction remaining as [|r IH]; intros start end_ index; [reflexivity|].
  cbn [buildIPv4Patterns_from buildRows]. rewrite !IH. reflexivity.
Qed.

Lemma buildIPv4Patterns_spec (start end_ : list Z) :
  length start = 4%nat -> length end_ = 4%nat ->
  Forall (fun v => 0 <= v <= 255) start ->
  Forall (fun v => 0 <= v <= 255) end_ ->
  lexle start end_ ->
  let ps := buildIPv4Patterns start end_ 0 in
  Forall (Row (lit "\.") "\"%char 4) ps
  /\ ps <> []
  /\ forall s, rowsLang ps s
               <-> exists vs, length vs = 4%nat
                              /\ Forall (fun v => 0 <= v <= 255) vs
                              /\ lexle start vs /\ lexle vs end_
                              /\ s = showRow decimal (lit ".") vs.
Proof.
  intros Hs He Ss Se Hlex.
  unfold buildIPv4Patterns. rewrite buildIPv4Patterns_from_generic.
  apply (buildRows_spec 4 255 (lit "\.") "\"%char (lit ".") decimal
           ipv4AnySuffix octetRangePattern
           Pattern_escaped_dot langOf_escaped_dot ltac:(lia)
           octetRangePattern_spec
           (fun k _ => ipv4AnySuffix_spec k)
           4 [] [] start end_ eq_refl Hs He eq_refl Ss Se Hlex).
Qed.

(** ** The minimizer: counting rows *)

Lemma groupInsert_count (key : str) (row : list str) (v : str) (g : list Group) :
  variantCount (groupInsert key row v g) = S (variantCount g).
Proof.
  induction g as [|[k [t vs]] g IH]; cbn [groupInsert variantCount fold_right].
  - reflexivity.
  - destruct (Str.eqb k key); cbn [variantCount fold_right fst snd].
    + rewrite length_app. cbn. lia.
    + fold (variantCount (groupInsert key row v g)). rewrite IH.
      fold (variantCount g). lia.
Qed.

Lemma groupInsert_nonempty (key : str) (row : list str) (v : str) (g : list Group) :
  Forall (fun e : Group => snd (snd e) <> []) g ->
  Forall (fun e : Group => snd (snd e) <> []) (groupInsert key row v g).
Proof.
  induction 1 as [|[k [t vs]] g Hne Hg IH]; cbn [groupInsert].
  - constructor; [discriminate | constructor].
  - destruct (Str.eqb k key); constructor; auto.
    cbn. destruct vs; discriminate.
Qed.

Lemma groupRows_fold_count (index : nat) (rows : list (list str)) :
  forall g,
    Forall (fun e : Group => snd (snd e) <> []) g ->
    let g' := fold_left (fun grouped row =>
                           groupInsert (groupKey index row) row (nth index row []) grouped)
                        rows g in
    variantCount g' = (variantCount g + length rows)%nat
    /\ Forall (fun e : Group => snd (snd e) <> []) g'.
Proof.
  induction rows as [|row rows IH]; intros g Hg; cbn [fold_left length].
  - split; [lia | exact Hg].
  - destruct (IH _ (groupInsert_nonempty (groupKey index row) row
                                         (nth index row []) g Hg)) as [E N].
    split; [|exact N]. rewrite E, groupInsert_count. lia.
Qed.

Lemma groupRows_count (index : nat) (rows : list (list str)) :
  variantCount (groupRows index rows) = length rows
  /\ Forall (fun e : Group => snd (snd e) <> []) (groupRows index rows).
Proof.
  destruct (groupRows_fold_count index rows [] ltac:(constructor)) as [E N].
  split; [exact E | exact N].
Qed.

Lemma variantCount_ge (g : list Group) :
  Forall (fun e : Group => snd (snd e) <> []) g ->
  (length g <= variantCount g)%nat.
Proof.
  induction 1 as [|[k [t vs]] g Hne _ IH]; cbn [variantCount fold_right length].
  - lia.
  - fold (variantCount g). cbn [snd] in *. destruct vs; [contradiction|]. cbn. lia.
Qed.

Lemma variantCount_gt (index : nat) (g : list Group) :
  Forall (fun e : Group => snd (snd e) <> []) g ->
  existsb snd (map (mergeGroup index) g) = true ->
  (length g < variantCount g)%nat.
Proof.
  induction 1 as [|[k [t vs]] g Hne Hg IH]; cbn [map existsb]; [discriminate|].
  cbn [variantCount fold_right length]. fold (variantCount g).
  intros H. apply orb_true_iff in H. destruct H as [H|H].
  - cbn [mergeGroup snd fst] in H. apply Nat.ltb_lt in H.
    pose proof (uniquePatterns_length vs).
    pose proof (variantCount_ge g Hg). cbn [snd]. lia.
  - specialize (IH H). cbn [snd] in *. destruct vs; [contradiction|]. cbn. lia.
Qed.

Lemma mergeAt_length (index : nat) (rows : list (list str)) :
  (length (fst (mergeAt index rows)) <= length rows)%nat
  /\ (snd (mergeAt index rows) = true ->
      (length (fst (mergeAt index rows)) < length rows)%nat).
Proof.
  unfold mergeAt. cbn [fst snd].
  destruct (groupRows_count index rows) as [E N].
  pose proof (uniqueBy_length (fun row => Str.join [U0002] row)
                              (map fst (map (mergeGroup index) (groupRows index rows)))
                              []) as Hu.
  unfold uniquePatternRows. rewrite !length_map in Hu.
  pose proof (variantCount_ge _ N). split; [lia|].
  intros Hc. pose proof (variantCount_gt index _ N Hc). lia.
Qed.

Lemma minimizePass_fold_length (indices : list nat) :
  forall rows changed,
    let out := fold_left (fun state index =>
                            let step := mergeAt index (fst state) in
                            (fst step, snd state || snd step))
                         indices (rows, changed) in
    (length (fst out) <= length rows)%nat
    /\ (snd out = true -> changed = true \/ (length (fst out) < length rows)%nat).
Proof.
  induction indices as [|index indices IH]; intros rows changed; cbn [fold_left].
  - cbn. split; [lia | auto].
  - cbn [fst snd].
    destruct (mergeAt_length index rows) as [L1 L2].
    destruct (IH (fst (mergeAt index rows)) (changed || snd (mergeAt index rows)))
      as [M1 M2].
    cbn zeta in M1, M2. split; [lia|].
    intros Hc. destruct (M2 Hc) as [H|H]; [|right; lia].
    apply orb_true_iff in H. destruct H as [H|H]; [left; exact H|].
    right. specialize (L2 H). lia.
Qed.

Lemma minimizePass_length (segmentCount : nat) (rows : list (list str)) :
  (length (fst (minimizePass segmentCount rows)) <= length rows)%nat
  /\ (snd (minimizePass segmentCount rows) = true ->
      (length (fst (minimizePass segmentCount rows)) < length rows)%nat).
Proof.
  unfold minimizePass.
  destruct (minimizePass_fold_length (seq 0 segmentCount) rows false) as [M1 M2].
  cbn zeta in M1, M2. split; [exact M1|].
  intros Hc. destruct (M2 Hc) as [H|H]; [discriminate H | exact H].
Qed.

Lemma minimizeLoop_terminates (segmentCount : nat) (budget : nat) :
  forall rows,
    (length rows < budget)%nat ->
    exists rows', minimizeLoop budget segmentCount rows = Ok rows'
                  /\ (length rows' <= length rows)%nat.
Proof.
  induction budget as [|budget IH]; intros rows Hb; [lia|].
  cbn [minimizeLoop].
  destruct (minimizePass_length segmentCount rows) as [L1 L2].
  destruct (snd (minimizePass segmentCount rows)) eqn:Ec.
  - specialize (L2 eq_refl).
    destruct (IH (fst (minimizePass segmentCount rows)) ltac:(lia)) as (rows' & E & L).
    exists rows'. split; [exact E | lia].
  - exists (fst (minimizePass segmentCount rows)). split; [reflexivity | exact L1].
Qed.

Lemma minimizeLoop_stable (segmentCount : nat) (budget : nat) :
  forall rows budget',
    (length rows < budget)%nat -> (length rows < budget')%nat ->
    minimizeLoop budget' segmentCount rows = minimizeLoop budget segmentCount rows.
Proof.
  induction budget as [|budget IH]; intros rows budget' Hb Hb'; [lia|].
  destruct budget' as [|budget']; [lia|].
  cbn [minimizeLoop].
  destruct (minimizePass_length segmentCount rows) as [L1 L2].
  destruct (snd (minimizePass segmentCount rows)) eqn:Ec; [|reflexivity].
  specialize (L2 eq_refl). apply IH; lia.
Qed.

(** ** Keys of the minimizer *)

Lemma split_at_char (c : ascii) (a : str) :
  forall b r1 r2,
    ~ In c a -> ~ In c b -> a ++ c :: r1 = b ++ c :: r2 -> a = b /\ r1 = r2.
Proof.
  induction a as [|x a IH]; intros [|y b] r1 r2 Ha Hb E; cbn in E.
  - injection E as E. auto.
  - injection E as E1 E2. subst y. exfalso. apply Hb. left. reflexivity.
  - injection E as E1 E2. subst x. exfalso. apply Ha. left. reflexivity.
  - injection E as E1 E2. subst y.
    destruct (IH b r1 r2) as [-> ->]; auto.
    + intros H. apply Ha. right. exact H.
    + intros H. apply Hb. right. exact H.
Qed.

Lemma join_char_inj (c : ascii) (l1 : list str) :
  forall l2,
    length l1 = length l2 ->
    Forall (fun f => ~ In c f) l1 -> Forall (fun f => ~ In c f) l2 ->
    Str.join [c] l1 = Str.join [c] l2 -> l1 = l2.
Proof.
  induction l1 as [|a l1 IH]; intros [|b l2] Hlen H1 H2 E; try discriminate Hlen.
  - reflexivity.
  - injection Hlen as Hlen.
    pose proof (Forall_inv H1) as Ha. pose proof (Forall_inv_tail H1) as H1'.
    pose proof (Forall_inv H2) as Hb. pose proof (Forall_inv_tail H2) as H2'.
    destruct l1 as [|a' l1]; destruct l2 as [|b' l2]; try discriminate Hlen.
    + cbn in E. subst. reflexivity.
    + rewrite !join_cons2 in E. cbn [app] in E.
      destruct (split_at_char c a b _ _ Ha Hb E) as [-> E'].
      f_equal. apply IH; assumption.
Qed.

Lemma noKeyChars_not_In (f : str) (c : ascii) :
  noKeyChars f -> isKeyChar c = true -> ~ In c f.
Proof.
  unfold noKeyChars. intros H Hc Hin. rewrite forallb_forall in H.
  apply H in Hin. rewrite Hc in Hin. discriminate Hin.
Qed.

Lemma noKeyChars_app (f1 f2 : str) :
  noKeyChars (f1 ++ f2) <-> noKeyChars f1 /\ noKeyChars f2.
Proof.
  unfold noKeyChars. rewrite forallb_app, andb_true_iff. reflexivity.
Qed.

Lemma noKeyChars_join (sep : str) (ps : list str) :
  noKeyChars sep -> Forall noKeyChars ps -> noKeyChars (Str.join sep ps).
Proof.
  intros Hsep. induction 1 as [|p ps Hp Hps IH]; [reflexivity|].
  destruct ps as [|p' ps']; [exact Hp|].
  rewrite join_cons2. apply noKeyChars_app. split; [exact Hp|].
  apply noKeyChars_app. split; [exact Hsep | exact IH].
Qed.

Lemma scanFrag_noKeyChars (sepc : ascii) (f : str) :
  forall depth inClass st,
    scanFrag sepc depth inClass f = Some st -> noKeyChars f.
Proof.
  induction f as [|c f IH]; intros depth inClass st H; [reflexivity|].
  cbn [scanFrag] in H. unfold noKeyChars. cbn [forallb].
  destruct (isKeyChar c) eqn:Ek.
  - rewrite orb_true_r in H. discriminate H.
  - cbn [negb andb]. rewrite orb_false_r in H.
    destruct (Ascii.eqb c "\"%char); [discriminate H|].
    destruct inClass; [exact (IH _ _ _ H)|].
    destruct ((depth =? 0)%nat && Ascii.eqb c sepc); [discriminate H|].
    destruct (Ascii.eqb c "["%char); [exact (IH _ _ _ H)|].
    destruct (Ascii.eqb c "("%char); [exact (IH _ _ _ H)|].
    destruct (Ascii.eqb c ")"%char); [|exact (IH _ _ _ H)].
    destruct depth; [discriminate H | exact (IH _ _ _ H)].
Qed.

Lemma Frag_Good (sepc : ascii) (f : str) : Frag sepc f -> Good f.
Proof.
  intros (P & S & N). split; [exact P|]. split; [|exact N].
  exact (scanFrag_noKeyChars sepc f 0 false _ S).
Qed.

Lemma Good_orPattern (parts : list str) :
  parts <> [] -> Forall Good parts ->
  Good (orPattern parts)
  /\ forall s, langOf (orPattern parts) s <-> exists p, In p parts /\ langOf p s.
Proof.
  intros Hne Hall.
  assert (HP : Forall Pattern parts).
  { eapply Forall_impl; [|exact Hall]. intros f (P & _). exact P. }
  destruct (orPattern_spec parts Hne HP) as [P L].
  split; [|exact L]. split; [exact P|].
  unfold orPattern.
  pose proof (uniquePatterns_nonempty parts Hne) as Hu.
  assert (Hallu : Forall Good (uniquePatterns parts)).
  { apply Forall_forall. intros p Hp.
    apply (proj1 (uniquePatterns_In _ _)) in Hp.
    rewrite Forall_forall in Hall. auto. }
  destruct (uniquePatterns parts) as [|only [|second more]].
  - contradiction.
  - destruct (Forall_inv Hallu) as (_ & K & N). split; assumption.
  - split; [|discriminate].
    apply noKeyChars_app. split; [reflexivity|].
    apply noKeyChars_app. split; [|reflexivity].
    apply noKeyChars_join; [reflexivity|].
    eapply Forall_impl; [|exact Hallu]. intros f (_ & K & _). exact K.
Qed.

Lemma arraySet_length {A : Type} (i : nat) (x : A) (l : list A) :
  length (arraySet i x l) = length l.
Proof.
  revert i. induction l as [|a l IH]; intros [|i]; cbn; auto.
Qed.

Lemma arraySet_Forall {A : Type} (P : A -> Prop) (i : nat) (x : A) (l : list A) :
  P x -> Forall P l -> Forall P (arraySet i x l).
Proof.
  intros Hx H. revert i. induction H as [|a l Ha Hl IH]; intros [|i]; cbn;
    constructor; auto.
Qed.

Lemma arraySet_agree {A : Type} (d x : A) (l1 : list A) :
  forall i l2,
    (i < length l1)%nat ->
    arraySet i x l1 = arraySet i x l2 ->
    l1 = arraySet i (nth i l1 d) l2.
Proof.
  induction l1 as [|a l1 IH]; intros i l2 Hi E; [cbn in Hi; lia|].
  destruct l2 as [|b l2]; [destruct i; discriminate E|].
  destruct i as [|i]; cbn in E |- *.
  - injection E as E. subst. reflexivity.
  - injection E as E1 E2. subst. f_equal. apply IH; [cbn in Hi; lia | exact E2].
Qed.

Lemma nth_In_Forall {A : Type} (P : A -> Prop) (d : A) (l : list A) (i : nat) :
  (i < length l)%nat -> Forall P l -> P (nth i l d).
Proof.
  intros Hi H. rewrite Forall_forall in H. apply H. apply nth_In. exact Hi.
Qed.

Lemma groupKey_agree (k index : nat) (r1 r2 : list str) :
  (index < k)%nat -> GoodRow k r1 -> GoodRow k r2 ->
  groupKey index r1 = groupKey index r2 ->
  r1 = arraySet index (nth index r1 []) r2.
Proof.
  intros Hi (L1 & G1) (L2 & G2) E. unfold groupKey in E.
  apply (arraySet_agree [] [U0000]); [lia|].
  assert (K : forall r, Forall Good r ->
                        Forall (fun f => ~ In U0001 f) (arraySet index [U0000] r)).
  { intros r G. apply arraySet_Forall.
    - intros [H|[]]. discriminate H.
    - eapply Forall_impl; [|exact G].
      intros f (_ & K & _). apply noKeyChars_not_In; [exact K | reflexivity]. }
  assert (Hlen : length (arraySet index [U0000] r1)
                 = length (arraySet index [U0000] r2))
    by (rewrite !arraySet_length; lia).
  exact (join_char_inj U0001 _ _ Hlen (K r1 G1) (K r2 G2) E).
Qed.

Lemma uniquePatternRows_In (k : nat) (rows : list (list str)) (row : list str) :
  Forall (GoodRow k) rows ->
  (In row (uniquePatternRows rows) <-> In row rows).
Proof.
  intros Hall. unfold uniquePatternRows. split; [apply uniqueBy_In|].
  intros Hin.
  destruct (uniqueBy_complete (fun row => Str.join [U0002] row) rows [] row Hin)
    as (row' & Hin' & E); [intros []|].
  assert (row' = row); [|subst; exact Hin'].
  pose proof (uniqueBy_In _ _ _ _ Hin') as Hin''.
  rewrite Forall_forall in Hall.
  destruct (Hall row Hin) as (L1 & G1). destruct (Hall row' Hin'') as (L2 & G2).
  assert (K : forall r, Forall Good r -> Forall (fun f => ~ In U0002 f) r).
  { intros r G. eapply Forall_impl; [|exact G].
    intros f (_ & K & _). apply noKeyChars_not_In; [exact K | reflexivity]. }
  assert (Hlen : length row' = length row) by lia.
  exact (join_char_inj U0002 _ _ Hlen (K row' G2) (K row G1) E).
Qed.

Lemma uniquePatternRows_nonempty (rows : list (list str)) :
  rows <> [] -> uniquePatternRows rows <> [].
Proof.
  destruct rows as [|row rows]; [contradiction|]. intros _. discriminate.
Qed.

(** ** Groups *)

Lemma groupInsert_In_inv (key : str) (row : list str) (v : str) (g : list Group) :
  forall k t vs,
    In (k, (t, vs)) (groupInsert key row v g) ->
    In (k, (t, vs)) g
    \/ (k = key /\ t = row /\ vs = [v])
    \/ (k = key /\ exists vs0, In (k, (t, vs0)) g /\ vs = vs0 ++ [v]).
Proof.
  induction g as [|[k0 [t0 vs0]] g IH]; intros k t vs H; cbn [groupInsert] in H.
  - destruct H as [H|[]]. injection H as <- <- <-. right. left. auto.
  - destruct (Str.eqb k0 key) eqn:E.
    + apply Str_eqb_eq in E. subst k0.
      destruct H as [H|H].
      * injection H as <- <- <-. right. right. split; [reflexivity|].
        exists vs0. split; [left; reflexivity | reflexivity].
      * left. right. exact H.
    + destruct H as [H|H].
      * left. left. exact H.
      * destruct (IH _ _ _ H) as [H'|[H'|(Ek & vs1 & H1 & H2)]].
        -- left. right. exact H'.
        -- right. left. exact H'.
        -- right. right. split; [exact Ek|]. exists vs1. split; [right|]; assumption.
Qed.

Lemma groupInsert_new (key : str) (row : list str) (v : str) (g : list Group) :
  exists t vs, In (key, (t, vs)) (groupInsert key row v g) /\ In v vs.
Proof.
  induction g as [|[k0 [t0 vs0]] g (t & vs & H1 & H2)]; cbn [groupInsert].
  - exists row, [v]. split; left; reflexivity.
  - destruct (Str.eqb k0 key) eqn:E.
    + apply Str_eqb_eq in E. subst k0. exists t0, (vs0 ++ [v]).
      split; [left; reflexivity|]. apply in_or_app. right. left. reflexivity.
    + exists t, vs. split; [right; exact H1 | exact H2].
Qed.

Lemma groupInsert_keeps (key : str) (row : list str) (v : str) (g : list Group) :
  forall k t vs w,
    In (k, (t, vs)) g -> In w vs ->
    exists vs', In (k, (t, vs')) (groupInsert key row v g) /\ In w vs'.
Proof.
  induction g as [|[k0 [t0 vs0]] g IH]; intros k t vs w H Hw; [destruct H|].
  cbn [groupInsert]. destruct (Str.eqb k0 key) eqn:E.
  - destruct H as [H|H].
    + injection H as <- <- <-. exists (vs0 ++ [v]).
      split; [left; reflexivity | apply in_or_app; left; exact Hw].
    + exists vs. split; [right; exact H | exact Hw].
  - destruct H as [H|H].
    + injection H as <- <- <-. exists vs0. split; [left; reflexivity | exact Hw].
    + destruct (IH _ _ _ _ H Hw) as (vs' & H1 & H2).
      exists vs'. split; [right; exact H1 | exact H2].
Qed.

Lemma groupRows_fold_sound (index : nat) (rest : list (list str)) :
  forall done g,
    groupsSound index done g -> groupsComplete index done g ->
    let g' := fold_left (fun grouped row =>
                           groupInsert (groupKey index row) row (nth index row []) grouped)
                        rest g in
    groupsSound index (done ++ rest) g' /\ groupsComplete index (done ++ rest) g'.
Proof.
  induction rest as [|row rest IH]; intros done g S C; cbn [fold_left].
  - rewrite app_nil_r. auto.
  - change (done ++ row :: rest) with (done ++ [row] ++ rest).
    rewrite app_assoc. apply IH.
    + intros k t vs H.
      destruct (groupInsert_In_inv _ _ _ _ _ _ _ H)
        as [H'|[(-> & -> & ->)|(-> & vs0 & H1 & ->)]].
      * destruct (S _ _ _ H') as (Ek & Ht & Hv).
        split; [exact Ek|]. split; [apply in_or_app; left; exact Ht|].
        intros w Hw. destruct (Hv w Hw) as (r & Hr & Hr').
        exists r. split; [apply in_or_app; left; exact Hr | exact Hr'].
      * split; [reflexivity|].
        split; [apply in_or_app; right; left; reflexivity|].
        intros w [<-|[]]. exists row.
        split; [apply in_or_app; right; left; reflexivity | auto].
      * destruct (S _ _ _ H1) as (Ek & Ht & Hv).
        split; [exact Ek|]. split; [apply in_or_app; left; exact Ht|].
        intros w Hw. apply in_app_iff in Hw. destruct Hw as [Hw|[<-|[]]].
        -- destruct (Hv w Hw) as (r & Hr & Hr').
           exists r. split; [apply in_or_app; left; exact Hr | exact Hr'].
        -- exists row. split; [apply in_or_app; right; left; reflexivity | auto].
    + intros r Hr. apply in_app_iff in Hr. destruct Hr as [Hr|[<-|[]]].
      * destruct (C r Hr) as (t & vs & H1 & H2).
        destruct (groupInsert_keeps (groupKey index row) row (nth index row []) g
                                    _ _ _ _ H1 H2) as (vs' & H1' & H2').
        exists t, vs'. auto.
      * apply groupInsert_new.
Qed.

Lemma groupRows_sound (index : nat) (rows : list (list str)) :
  groupsSound index rows (groupRows index rows)
  /\ groupsComplete index rows (groupRows index rows).
Proof.
  apply (groupRows_fold_sound index rows [] []).
  - intros k t vs [].
  - intros r [].
Qed.

Lemma groupRows_nonempty (index : nat) (rows : list (list str)) :
  rows <> [] -> groupRows index rows <> [].
Proof.
  intros Hne E. destruct rows as [|row rows]; [contradiction|].
  destruct (groupRows_sound index (row :: rows)) as [_ C].
  destruct (C row (or_introl eq_refl)) as (t & vs & H & _).
  rewrite E in H. destruct H.
Qed.

(** ** The minimizer keeps the language *)

Lemma Forall2_arraySet (m : str) (V : str -> Prop) (t : list str) :
  (forall s, langOf m s <-> exists v, V v /\ langOf v s) ->
  forall i pieces,
    (i < length t)%nat ->
    (Forall2 langOf (arraySet i m t) pieces
     <-> exists v, V v /\ Forall2 langOf (arraySet i v t) pieces).
Proof.
  intros Hm. induction t as [|f t IH]; intros i pieces Hi; [cbn in Hi; lia|].
  destruct i as [|i]; cbn [arraySet].
  - split.
    + intros H. inversion H as [|? p ? ps Hp Hps]; subst.
      apply Hm in Hp. destruct Hp as (v & Hv & Lv).
      exists v. split; [exact Hv|]. constructor; assumption.
    + intros (v & Hv & H). inversion H as [|? p ? ps Hp Hps]; subst.
      constructor; [|exact Hps]. apply Hm. exists v. auto.
  - split.
    + intros H. inversion H as [|? p ? ps Hp Hps]; subst.
      apply IH in Hps; [|cbn in Hi; lia]. destruct Hps as (v & Hv & Hps).
      exists v. split; [exact Hv|]. constructor; assumption.
    + intros (v & Hv & H). inversion H as [|? p ? ps Hp Hps]; subst.
      constructor; [exact Hp|]. apply IH; [cbn in Hi; lia|]. exists v. auto.
Qed.

Lemma rowLang_arraySet (dot m : str) (V : str -> Prop) (t : list str) (i : nat) :
  (forall s, langOf m s <-> exists v, V v /\ langOf v s) ->
  (i < length t)%nat ->
  forall s, rowLang dot (arraySet i m t) s
            <-> exists v, V v /\ rowLang dot (arraySet i v t) s.
Proof.
  intros Hm Hi s. unfold rowLang. split.
  - intros (pieces & H & ->).
    apply (Forall2_arraySet m V t Hm i pieces Hi) in H.
    destruct H as (v & Hv & H). exists v. split; [exact Hv|]. exists pieces. auto.
  - intros (v & Hv & pieces & H & ->). exists pieces. split; [|reflexivity].
    apply (Forall2_arraySet m V t Hm i pieces Hi). exists v. auto.
Qed.

Lemma mergedFragment_spec (variants : list str) :
  variants <> [] -> Forall Good variants ->
  let merged := match uniquePatterns variants with
                | [only] => only
                | _ => orPattern (uniquePatterns variants)
                end in
  Good merged
  /\ forall s, langOf merged s <-> exists v, In v variants /\ langOf v s.
Proof.
  intros Hne Hall.
  pose proof (uniquePatterns_nonempty variants Hne) as Hu.
  assert (Hallu : Forall Good (uniquePatterns variants)).
  { apply Forall_forall. intros p Hp.
    apply (proj1 (uniquePatterns_In _ _)) in Hp.
    rewrite Forall_forall in Hall. auto. }
  pose proof (uniquePatterns_In variants) as Hin.
  destruct (uniquePatterns variants) as [|only [|second more]] eqn:E.
  - contradiction.
  - cbn zeta. split; [exact (Forall_inv Hallu)|].
    intros s. split.
    + intros L. exists only. split; [apply Hin; left; reflexivity | exact L].
    + intros (v & Hv & L). apply Hin in Hv. destruct Hv as [->|[]]. exact L.
  - cbn zeta. rewrite <- E in Hallu, Hu |- *.
    destruct (Good_orPattern _ Hu Hallu) as [G L].
    split; [exact G|]. intros s. rewrite L.
    split; intros (v & Hv & Lv); exists v; (split; [|exact Lv]).
    + apply uniquePatterns_In. exact Hv.
    + apply uniquePatterns_In. exact Hv.
Qed.

Lemma mergeAt_spec (dot : str) (k index : nat) (rows : list (list str)) :
  (index < k)%nat -> Forall (GoodRow k) rows ->
  Forall (GoodRow k) (fst (mergeAt index rows))
  /\ (rows <> [] -> fst (mergeAt index rows) <> [])
  /\ forall s, setLang dot (fst (mergeAt index rows)) s <-> setLang dot rows s.
Proof.
  intros Hi Hrows. unfold mergeAt. cbn [fst].
  destruct (groupRows_sound index rows) as [S C].
  destruct (groupRows_count index rows) as [_ N].
  rewrite Forall_forall in Hrows, N.
  (* every group merges into a good row with the language of its rows *)
  assert (HG : forall entry, In entry (groupRows index rows) ->
                 GoodRow k (fst (mergeGroup index entry))
                 /\ forall s, rowLang dot (fst (mergeGroup index entry)) s
                              <-> exists v, In v (snd (snd entry))
                                    /\ rowLang dot (arraySet index v (fst (snd entry))) s).
  { intros [key [template variants]] He. cbn [mergeGroup fst snd].
    destruct (S _ _ _ He) as (Ek & Ht & Hv).
    destruct (Hrows _ Ht) as (Lt & Gt).
    assert (Gv : Forall Good variants).
    { apply Forall_forall. intros v Hin. destruct (Hv v Hin) as (row & Hr & _ & <-).
      destruct (Hrows _ Hr) as (Lr & Gr).
      apply nth_In_Forall; [lia | exact Gr]. }
    destruct (mergedFragment_spec variants (N _ He) Gv) as [Gm Lm].
    cbn zeta in Gm, Lm. split.
    - split; [rewrite arraySet_length; exact Lt|].
      apply arraySet_Forall; assumption.
    - apply rowLang_arraySet; [exact Lm | lia]. }
  assert (HM : Forall (GoodRow k)
                      (map fst (map (mergeGroup index) (groupRows index rows)))).
  { apply Forall_forall. intros row Hr. apply in_map_iff in Hr.
    destruct Hr as (x & <- & Hx). apply in_map_iff in Hx.
    destruct Hx as (entry & <- & He). apply HG. exact He. }
  split; [|split].
  - apply Forall_forall. intros row Hr.
    apply (uniquePatternRows_In k _ row HM) in Hr.
    rewrite Forall_forall in HM. auto.
  - intros Hne. apply uniquePatternRows_nonempty.
    pose proof (groupRows_nonempty index rows Hne) as Hg.
    destruct (groupRows index rows); [contradiction | discriminate].
  - intros s. unfold setLang. split.
    + intros (row & Hr & L).
      apply (uniquePatternRows_In k _ row HM) in Hr.
      apply in_map_iff in Hr. destruct Hr as (x & <- & Hx).
      apply in_map_iff in Hx. destruct Hx as ([key [template variants]] & <- & He).
      apply (HG _ He) in L. cbn [fst snd] in L. destruct L as (v & Hv & L).
      destruct (S _ _ _ He) as (Ek & Ht & Hvs).
      destruct (Hvs v Hv) as (row & Hr & Ekey & <-).
      exists row. split; [exact Hr|].
      rewrite (groupKey_agree k index row template Hi (Hrows _ Hr) (Hrows _ Ht)
                              ltac:(congruence)).
      exact L.
    + intros (row & Hr & L).
      destruct (C row Hr) as (template & variants & He & Hv).
      destruct (S _ _ _ He) as (Ek & Ht & _).
      exists (fst (mergeGroup index (groupKey index row, (template, variants)))).
      split.
      * apply (uniquePatternRows_In k _ _ HM).
        apply in_map. apply in_map. exact He.
      * apply (HG _ He). cbn [fst snd]. exists (nth index row []).
        split; [exact Hv|].
        rewrite <- (groupKey_agree k index row template Hi (Hrows _ Hr) (Hrows _ Ht) Ek).
        exact L.
Qed.

Lemma minimizePass_fold_spec (dot : str) (k : nat) (indices : list nat) :
  Forall (fun index => (index < k)%nat) indices ->
  forall rows changed,
    Forall (GoodRow k) rows ->
    let out := fold_left (fun state index =>
                            let step := mergeAt index (fst state) in
                            (fst step, snd state || snd step))
                         indices (rows, changed) in
    Forall (GoodRow k) (fst out)
    /\ (rows <> [] -> fst out <> [])
    /\ forall s, setLang dot (fst out) s <-> setLang dot rows s.
Proof.
  induction 1 as [|index indices Hi _ IH]; intros rows changed Hrows; cbn [fold_left].
  - cbn. split; [exact Hrows|]. split; [auto | reflexivity].
  - cbn [fst snd].
    destruct (mergeAt_spec dot k index rows Hi Hrows) as (G1 & N1 & L1).
    destruct (IH (fst (mergeAt index rows)) (changed || snd (mergeAt index rows)) G1)
      as (G2 & N2 & L2).
    cbn zeta in G2, N2, L2. split; [exact G2|]. split; [auto|].
    intros s. rewrite L2. apply L1.
Qed.

Lemma minimizePass_spec (dot : str) (k : nat) (rows : list (list str)) :
  Forall (GoodRow k) rows ->
  Forall (GoodRow k) (fst (minimizePass k rows))
  /\ (rows <> [] -> fst (minimizePass k rows) <> [])
  /\ forall s, setLang dot (fst (minimizePass k rows)) s <-> setLang dot rows s.
Proof.
  intros Hrows. unfold minimizePass.
  apply (minimizePass_fold_spec dot k (seq 0 k)); [|exact Hrows].
  apply Forall_forall. intros i Hi. apply in_seq in Hi. lia.
Qed.

Lemma minimizeLoop_spec (dot : str) (k : nat) (budget : nat) :
  forall rows,
    (length rows < budget)%nat -> Forall (GoodRow k) rows ->
    exists rows',
      minimizeLoop budget k rows = Ok rows'
      /\ Forall (GoodRow k) rows'
      /\ (rows <> [] -> rows' <> [])
      /\ (length rows' <= length rows)%nat
      /\ forall s, setLang dot rows' s <-> setLang dot rows s.
Proof.
  induction budget as [|budget IH]; intros rows Hb Hrows; [lia|].
  cbn [minimizeLoop].
  destruct (minimizePass_length k rows) as [L1 L2].
  destruct (minimizePass_spec dot k rows Hrows) as (G & N & L).
  destruct (snd (minimizePass k rows)) eqn:Ec.
  - specialize (L2 eq_refl).
    destruct (IH (fst (minimizePass k rows)) ltac:(lia) G)
      as (rows' & E & G' & N' & Len & L').
    exists rows'. split; [exact E|]. split; [exact G'|]. split; [auto|].
    split; [lia|]. intros s. rewrite L'. apply L.
  - exists (fst (minimizePass k rows)). auto.
Qed.

(** ** From rows to patterns and to the regular expression *)

Section JoinRows.

Variable sep : str.
Variable sepc : ascii.
Variable dot : str.

Hypothesis sep_Pattern : Pattern sep.
Hypothesis sep_lang : forall s, langOf sep s <-> s = dot.
Hypothesis sep_pair :
  (sep = lit "\." /\ sepc = "\"%char) \/ (sep = lit ":" /\ sepc = ":"%char).

Lemma Pattern_join (row : list str) :
  Forall Pattern row -> Pattern (Str.join sep row).
Proof.
  induction 1 as [|f row P _ IH]; [apply Pattern_nil|].
  destruct row as [|f' row']; [exact P|].
  rewrite join_cons2. apply Pattern_app; [exact P|].
  apply Pattern_app; [exact sep_Pattern | exact IH].
Qed.

Lemma langOf_join (row : list str) :
  Forall Pattern row ->
  forall s, langOf (Str.join sep row) s <-> rowLang dot row s.
Proof.
  induction 1 as [|f row P Hrow IH]; intros s.
  - cbn [Str.join]. rewrite langOf_nil. unfold rowLang. split.
    + intros ->. exists []. split; [constructor | reflexivity].
    + intros (pieces & H & ->). inversion H. reflexivity.
  - destruct row as [|f' row'].
    + cbn [Str.join]. unfold rowLang. split.
      * intros L. exists [s]. split; [|reflexivity].
        constructor; [exact L | constructor].
      * intros (pieces & H & ->).
        inversion H as [|? p ? ps Hp Hps]; subst. inversion Hps; subst. exact Hp.
    + rewrite join_cons2.
      rewrite (langOf_app f _ s P (Pattern_app _ _ sep_Pattern (Pattern_join _ Hrow))).
      unfold rowLang. split.
      * intros (s1 & s23 & -> & L1 & L23).
        apply (langOf_app sep _ s23 sep_Pattern (Pattern_join _ Hrow)) in L23.
        destruct L23 as (s2 & s3 & -> & L2 & L3).
        apply sep_lang in L2. subst s2.
        apply IH in L3. destruct L3 as (ps & Hps & ->).
        exists (s1 :: ps). split; [constructor; assumption|].
        inversion Hps; subst. reflexivity.
      * intros (pieces & H & ->).
        inversion H as [|? p ? ps Hp Hps]; subst.
        exists p, (dot ++ Str.join dot ps). split.
        -- inversion Hps; subst. reflexivity.
        -- split; [exact Hp|].
           apply (langOf_app sep _ _ sep_Pattern (Pattern_join _ Hrow)).
           exists dot, (Str.join dot ps). repeat split.
           ++ apply sep_lang. reflexivity.
           ++ apply IH. exists ps. auto.
Qed.

Lemma GoodRow_Patterns (k : nat) (row : list str) :
  GoodRow k row -> Forall Pattern row.
Proof.
  intros (_ & G). eapply Forall_impl; [|exact G]. intros f (P & _). exact P.
Qed.

Lemma rowsLang_join (k : nat) (rows : list (list str)) :
  Forall (GoodRow k) rows ->
  forall s, rowsLang (map (Str.join sep) rows) s <-> setLang dot rows s.
Proof.
  intros Hrows s. rewrite Forall_forall in Hrows. unfold rowsLang, setLang. split.
  - intros (p & Hp & L). apply in_map_iff in Hp. destruct Hp as (row & <- & Hr).
    exists row. split; [exact Hr|].
    apply langOf_join; [|exact L]. apply (GoodRow_Patterns k). auto.
  - intros (row & Hr & L). exists (Str.join sep row).
    split; [apply in_map; exact Hr|].
    apply langOf_join; [|exact L]. apply (GoodRow_Patterns k). auto.
Qed.

Lemma splitPattern_Row (k : nat) (p : str) :
  (0 < k)%nat -> Row sep sepc k p ->
  exists frags, splitPattern p sep k = Ok frags
                /\ Str.join sep frags = p /\ GoodRow k frags.
Proof.
  intros Hk (frags & Hlen & -> & Hall). exists frags.
  unfold splitPattern.
  rewrite (splitPattern_go_join sep sepc frags sep_pair).
  - rewrite Hlen, Nat.eqb_refl. cbn. repeat split; [exact Hlen|].
    eapply Forall_impl; [|exact Hall]. apply Frag_Good.
  - eapply Forall_impl; [|exact Hall]. intros f (_ & S & _). exact S.
  - destruct frags; [cbn in Hlen; lia | discriminate].
Qed.

Lemma mapM_splitPattern (k : nat) (patterns : list str) :
  (0 < k)%nat -> Forall (Row sep sepc k) patterns ->
  exists rows,
    mapM (fun pattern => splitPattern pattern sep k) patterns = Ok rows
    /\ map (Str.join sep) rows = patterns
    /\ Forall (GoodRow k) rows.
Proof.
  intros Hk. induction 1 as [|p patterns Hp _ (rows & E & J & G)].
  - exists []. repeat split. constructor.
  - destruct (splitPattern_Row k p Hk Hp) as (frags & E1 & J1 & G1).
    exists (frags :: rows). cbn [mapM]. rewrite E1. cbn [bind]. rewrite E.
    cbn [bind map]. rewrite J1, J. repeat split. constructor; assumption.
Qed.

Lemma minimizePatternSet_spec (k : nat) (patterns : list str) :
  (0 < k)%nat -> Forall (Row sep sepc k) patterns ->
  exists out,
    minimizePatternSet patterns sep k = Ok out
    /\ Forall Pattern out
    /\ (patterns <> [] -> out <> [])
    /\ (length out <= length patterns)%nat
    /\ forall s, rowsLang out s <-> rowsLang patterns s.
Proof.
  intros Hk Hrows. unfold minimizePatternSet.
  destruct (length patterns <=? 1)%nat.
  - exists patterns. split; [reflexivity|]. split.
    + eapply Forall_impl; [|exact Hrows].
      intros p Hp. exact (Row_Pattern sep sepc sep_Pattern k p Hp).
    + split; [auto|]. split; [lia | reflexivity].
  - destruct (mapM_splitPattern k patterns Hk Hrows) as (rows & E & J & G).
    rewrite E. cbn [bind].
    assert (Gu : Forall (GoodRow k) (uniquePatternRows rows)).
    { apply Forall_forall. intros row Hr.
      apply (uniquePatternRows_In k rows row G) in Hr.
      rewrite Forall_forall in G. auto. }
    destruct (minimizeLoop_spec dot k (S (length (uniquePatternRows rows)))
                                (uniquePatternRows rows) ltac:(lia) Gu)
      as (rows' & E' & G' & N' & Len & L').
    rewrite E'. cbn [bind].
    exists (map (Str.join sep) rows'). split; [reflexivity|]. split; [|split; [|split]].
    + apply Forall_forall. intros p Hp. apply in_map_iff in Hp.
      destruct Hp as (row & <- & Hr). apply Pattern_join.
      rewrite Forall_forall in G'. apply (GoodRow_Patterns k). auto.
    + intros Hne E0. apply map_eq_nil in E0. revert E0. apply N'.
      apply uniquePatternRows_nonempty. intros ->. cbn in J. congruence.
    + rewrite length_map.
      pose proof (uniqueBy_length (fun row => Str.join [U0002] row) rows []) as Hu.
      unfold uniquePatternRows in Len.
      rewrite <- J, length_map. lia.
    + intros s. rewrite (rowsLang_join k rows' G'), L'.
      rewrite <- J, (rowsLang_join k rows G). unfold setLang.
      split; intros (row & Hr & L); exists row; (split; [|exact L]);
        apply (uniquePatternRows_In k rows row G); exact Hr.
Qed.

End JoinRows.

(** ** The [i] flag *)

Lemma charMatches_fold (c d : ascii) :
  isFoldChar c = true ->
  charMatches true c d = charMatches false c (Str.lower d).
Proof.
  intros Hc.
  assert (H : charFoldCheck = true) by (vm_compute; reflexivity).
  unfold charFoldCheck in H.
  pose proof (forall_ascii _ H c) as H1. cbv beta in H1.
  pose proof (forall_ascii _ H1 d) as H2. cbv beta in H2.
  rewrite Hc in H2. cbn [implb] in H2. apply Bool.eqb_prop in H2.
  rewrite H2. unfold charMatches. cbn. rewrite orb_false_r. reflexivity.
Qed.

Lemma foldItem_hex (c : ascii) :
  Str.isDigit c || isLowerAF c = true -> In c HEX_DIGITS.
Proof.
  intros H.
  pose proof (forall_ascii
                (fun c => implb (Str.isDigit c || isLowerAF c)
                                (existsb (Ascii.eqb c) HEX_DIGITS))
                ltac:(vm_compute; reflexivity) c) as Hc.
  cbv beta in Hc. rewrite H in Hc. cbn [implb] in Hc.
  apply existsb_exists in Hc. destruct Hc as (x & Hx & E).
  apply Ascii.eqb_eq in E. subst. exact Hx.
Qed.

Lemma inRange_fold (item : ascii * ascii) (d : ascii) :
  isFoldItem item = true ->
  inRange d item || (true && (inRange (canon d) item || inRange (Str.lower d) item))
  = inRange (Str.lower d) item || (false && (inRange (canon (Str.lower d)) item
                                            || inRange (Str.lower (Str.lower d)) item)).
Proof.
  intros Hi. destruct item as [lo hi].
  unfold isFoldItem in Hi. cbn [fst snd] in Hi.
  assert (Hlo : In lo HEX_DIGITS).
  { apply foldItem_hex.
    destruct (Str.isDigit lo), (isLowerAF lo), (Str.isDigit hi), (isLowerAF hi);
      cbn in Hi |- *; congruence. }
  assert (Hhi : In hi HEX_DIGITS).
  { apply foldItem_hex.
    destruct (Str.isDigit lo), (isLowerAF lo), (Str.isDigit hi), (isLowerAF hi);
      cbn in Hi |- *; congruence. }
  assert (Hi' : isFoldItem (lo, hi) = true) by exact Hi.
  assert (H : itemFoldCheck = true) by (vm_compute; reflexivity).
  unfold itemFoldCheck in H. rewrite forallb_forall in H.
  pose proof (H lo Hlo) as H1. cbv beta in H1. rewrite forallb_forall in H1.
  pose proof (H1 hi Hhi) as H2. cbv beta in H2.
  pose proof (forall_ascii _ H2 d) as H3. cbv beta in H3.
  rewrite Hi' in H3. cbn [implb] in H3. apply Bool.eqb_prop in H3.
  cbn [andb]. rewrite orb_false_r. exact H3.
Qed.

Lemma classMatches_fold (items : list (ascii * ascii)) (d : ascii) :
  forallb isFoldItem items = true ->
  classMatches true items d = classMatches false items (Str.lower d).
Proof.
  induction items as [|item items IH]; intros H; [reflexivity|].
  cbn [forallb] in H. apply andb_true_iff in H. destruct H as [Hi Hs].
  unfold classMatches in *. cbn [existsb].
  rewrite (IH Hs), (inRange_fold item d Hi). reflexivity.
Qed.

Lemma repeatLang_fold (L1 L2 : str -> Prop) (f : ascii -> ascii) :
  (forall s, L1 s <-> L2 (map f s)) ->
  forall n s, repeatLang L1 n s <-> repeatLang L2 n (map f s).
Proof.
  intros HL n. induction n as [|n IH]; intros s; cbn [repeatLang].
  - split; [intros ->; reflexivity|]. intros H. apply map_eq_nil in H. exact H.
  - split.
    + intros (s1 & s2 & -> & H1 & H2). exists (map f s1), (map f s2).
      rewrite map_app. repeat split; [apply HL; exact H1 | apply IH; exact H2].
    + intros (t1 & t2 & E & H1 & H2).
      apply map_eq_app in E. destruct E as (s1 & s2 & -> & <- & <-).
      exists s1, s2. repeat split; [apply HL; exact H1 | apply IH; exact H2].
Qed.

Lemma lang_fold (r : regex) :
  foldable r ->
  forall s, lang true r s <-> lang false r (map Str.lower s).
Proof.
  induction r as [c|items| |a IHa b IHb|a IHa b IHb|a IHa|n a IHa| | |a IHa];
    cbn [foldable lang]; intros F s; try contradiction.
  - split.
    + intros (d & -> & H). exists (Str.lower d). split; [reflexivity|].
      rewrite <- charMatches_fold; assumption.
    + intros (d' & E & H). destruct s as [|d [|? ?]]; try discriminate E.
      injection E as <-. exists d. split; [reflexivity|].
      rewrite charMatches_fold; assumption.
  - split.
    + intros (d & -> & H). exists (Str.lower d). split; [reflexivity|].
      rewrite <- classMatches_fold; assumption.
    + intros (d' & E & H). destruct s as [|d [|? ?]]; try discriminate E.
      injection E as <-. exists d. split; [reflexivity|].
      rewrite classMatches_fold; assumption.
  - split; [intros ->; reflexivity|]. intros H. apply map_eq_nil in H. exact H.
  - destruct F as [Fa Fb]. split.
    + intros (s1 & s2 & -> & H1 & H2). exists (map Str.lower s1), (map Str.lower s2).
      rewrite map_app. repeat split; [apply IHa | apply IHb]; assumption.
    + intros (t1 & t2 & E & H1 & H2).
      apply map_eq_app in E. destruct E as (s1 & s2 & -> & <- & <-).
      exists s1, s2. repeat split; [apply IHa | apply IHb]; assumption.
  - destruct F as [Fa Fb]. rewrite (IHa Fa), (IHb Fb). reflexivity.
  - rewrite (IHa F). split; (intros [H|H]; [left | right; exact H]).
    + subst. reflexivity.
    + apply map_eq_nil in H. exact H.
  - apply repeatLang_fold. apply IHa. exact F.
Qed.

(** ** The assembled regular expression *)

Lemma buildRegex_spec (patterns : list str) (fl : str) :
  patterns <> [] -> Forall Pattern patterns ->
  exists rs,
    buildRegex patterns fl
    = Ok (mkRegExp (lit "^(?:" ++ orPattern patterns ++ lit ")$") fl
                   (mkseq [RStart; mkseq rs; REnd]))
    /\ plain (mkseq rs) /\ foldable (mkseq rs)
    /\ forall s, lang false (mkseq rs) s <-> rowsLang patterns s.
Proof.
  intros Hne Hall.
  destruct (orPattern_spec patterns Hne Hall) as [(rs & T & P & F) L].
  exists rs. split; [|split; [exact P | split; [exact F|]]].
  - unfold buildRegex, newRegExp. rewrite (parseRegex_anchored _ rs T). reflexivity.
  - intros s. rewrite <- (langOf_Terms _ rs s T). apply L.
Qed.

Lemma buildRegex_test (patterns : list str) (fl : str) :
  patterns <> [] -> Forall Pattern patterns ->
  exists rx,
    buildRegex patterns fl = Ok rx
    /\ source rx = lit "^(?:" ++ orPattern patterns ++ lit ")$"
    /\ flags rx = fl
    /\ forall s, test rx s = true
                 <-> rowsLang patterns
                              (if Str.includes (lit "i") fl then map Str.lower s else s).
Proof.
  intros Hne Hall.
  destruct (buildRegex_spec patterns fl Hne Hall) as (rs & E & P & F & L).
  eexists. split; [exact E|]. split; [reflexivity|]. split; [reflexivity|].
  intros s. rewrite (test_anchored _ fl (mkseq rs) s P).
  destruct (Str.includes (lit "i") fl).
  - rewrite (lang_fold _ F). apply L.
  - apply L.
Qed.

(** ** Segment vectors and numbers *)

Lemma segmentsValue_fold (base : Z) (vs : list Z) :
  forall acc,
    fold_left (fun acc v => acc * base + v) vs acc
    = acc * base ^ Z.of_nat (length vs) + segmentsValue base vs.
Proof.
  unfold segmentsValue.
  induction vs as [|v vs IH]; intros acc; cbn [fold_left length].
  - cbn. lia.
  - rewrite IH, (IH (0 * base + v)), Nat2Z.inj_succ, Z.pow_succ_r by lia. ring.
Qed.

Lemma segmentsValue_cons (base v : Z) (vs : list Z) :
  segmentsValue base (v :: vs)
  = v * base ^ Z.of_nat (length vs) + segmentsValue base vs.
Proof.
  unfold segmentsValue at 1. cbn [fold_left]. rewrite segmentsValue_fold. ring.
Qed.

Lemma segmentsValue_bounds (base : Z) (vs : list Z) :
  0 < base -> Forall (fun v => 0 <= v <= base - 1) vs ->
  0 <= segmentsValue base vs < base ^ Z.of_nat (length vs).
Proof.
  intros Hb. induction 1 as [|v vs Hv _ IH].
  - cbn. lia.
  - rewrite segmentsValue_cons. cbn [length].
    rewrite Nat2Z.inj_succ, Z.pow_succ_r by lia.
    assert (0 < base ^ Z.of_nat (length vs)) by (apply Z.pow_pos_nonneg; lia).
    nia.
Qed.

Lemma lexle_value (base : Z) (xs : list Z) :
  0 < base ->
  forall ys,
    length xs = length ys ->
    Forall (fun v => 0 <= v <= base - 1) xs ->
    Forall (fun v => 0 <= v <= base - 1) ys ->
    (lexle xs ys <-> segmentsValue base xs <= segmentsValue base ys).
Proof.
  intros Hb. induction xs as [|x xs IH]; intros [|y ys] Hlen Hx Hy;
    try discriminate Hlen.
  - cbn. split; [lia | trivial].
  - injection Hlen as Hlen.
    pose proof (Forall_inv Hx) as Hx0. pose proof (Forall_inv_tail Hx) as Hxs.
    pose proof (Forall_inv Hy) as Hy0. pose proof (Forall_inv_tail Hy) as Hys.
    cbn beta in Hx0, Hy0.
    rewrite !segmentsValue_cons, <- Hlen. cbn [lexle].
    pose proof (segmentsValue_bounds base xs Hb Hxs) as Bx.
    pose proof (segmentsValue_bounds base ys Hb Hys) as By.
    rewrite <- Hlen in By.
    specialize (IH ys Hlen Hxs Hys).
    assert (0 < base ^ Z.of_nat (length xs)) by (apply Z.pow_pos_nonneg; lia).
    split.
    + intros [Hlt|[-> Hl]]; [nia|]. apply IH in Hl. nia.
    + intros Hle.
      destruct (Z.lt_trichotomy x y) as [Hlt|[->|Hgt]].
      * left. exact Hlt.
      * right. split; [reflexivity|]. apply IH. nia.
      * exfalso. nia.
Qed.

Lemma land_255 (x : Z) : Z.land x 255 = x mod 256.
Proof. change 255 with (Z.ones 8). rewrite Z.land_ones by lia. reflexivity. Qed.

Lemma land_65535 (x : Z) : Z.land x 65535 = x mod 65536.
Proof. change 65535 with (Z.ones 16). rewrite Z.land_ones by lia. reflexivity. Qed.

Lemma ipv4ToOctets_div (a : Z) :
  ipv4ToOctets a
  = [ (a / 16777216) mod 256; (a / 65536) mod 256; (a / 256) mod 256; a mod 256 ].
Proof.
  unfold ipv4ToOctets. rewrite !land_255, !Z.shiftr_div_pow2 by lia. reflexivity.
Qed.

Lemma ipv4ToOctets_octets (a : Z) :
  length (ipv4ToOctets a) = 4%nat /\ Forall (fun v => 0 <= v <= 255) (ipv4ToOctets a).
Proof.
  rewrite ipv4ToOctets_div. split; [reflexivity|].
  assert (B : forall x, 0 <= x mod 256 <= 255)
    by (intros x; pose proof (Z.mod_pos_bound x 256 ltac:(lia)); lia).
  repeat (constructor; [apply B|]). constructor.
Qed.

Lemma ipv4ToOctets_value (a : Z) :
  0 <= a < 2 ^ 32 -> segmentsValue 256 (ipv4ToOctets a) = a.
Proof.
  intros Ha. rewrite ipv4ToOctets_div. unfold segmentsValue. cbn [fold_left].
  change (2 ^ 32) with 4294967296 in Ha.
  Z.div_mod_to_equations. lia.
Qed.

Lemma ipv4ToOctets_of_value (vs : list Z) :
  length vs = 4%nat -> Forall (fun v => 0 <= v <= 255) vs ->
  ipv4ToOctets (segmentsValue 256 vs) = vs
  /\ 0 <= segmentsValue 256 vs < 2 ^ 32.
Proof.
  intros Hlen Hvs.
  destruct vs as [|a [|b [|c [|d [|? ?]]]]]; try discriminate Hlen.
  pose proof (Forall_inv Hvs) as Ha. apply Forall_inv_tail in Hvs.
  pose proof (Forall_inv Hvs) as Hb. apply Forall_inv_tail in Hvs.
  pose proof (Forall_inv Hvs) as Hc. apply Forall_inv_tail in Hvs.
  pose proof (Forall_inv Hvs) as Hd. cbn beta in Ha, Hb, Hc, Hd.
  rewrite ipv4ToOctets_div. unfold segmentsValue. cbn [fold_left].
  change (2 ^ 32) with 4294967296.
  split; [|lia].
  repeat f_equal; Z.div_mod_to_equations; lia.
Qed.

(** ** The interval of a prefix *)

Lemma normalizeRange_bounds (value bits prefix : Z) :
  0 <= prefix <= bits -> 0 <= value < 2 ^ bits ->
  0 <= fst (normalizeRange value bits prefix)
  /\ fst (normalizeRange value bits prefix) <= snd (normalizeRange value bits prefix)
  /\ snd (normalizeRange value bits prefix) < 2 ^ bits.
Proof.
  intros Hp Hv. rewrite (normalizeRange_masks value bits prefix Hp Hv). cbn [fst snd].
  set (h := bits - prefix).
  set (start := Z.land value (Z.lnot (Z.ones h))).
  assert (Hh : 0 <= h) by (subst h; lia).
  assert (Hs0 : 0 <= start) by (apply Z.land_nonneg; left; lia).
  assert (Hones : 0 <= Z.ones h) by (rewrite Z.ones_equiv; pose proof (Z.pow_pos_nonneg 2 h); lia).
  assert (Hdisj : Z.land start (Z.ones h) = 0).
  { subst start. rewrite <- Z.land_assoc.
    rewrite (Z.land_comm (Z.lnot (Z.ones h))), Z.land_lnot_diag. apply Z.land_0_r. }
  assert (Hsum : Z.lor start (Z.ones h) = start + Z.ones h).
  { rewrite <- Z.lxor_lor by exact Hdisj. symmetry. apply Z.add_nocarry_lxor. exact Hdisj. }
  split; [exact Hs0|]. split; [rewrite Hsum; lia|].
  assert (Hlt : forall n, bits <= n -> Z.testbit (Z.lor start (Z.ones h)) n = false).
  { intros n Hn. rewrite Z.lor_spec. subst start.
    rewrite Z.land_spec, (testbit_above value bits n Hv Hn).
    rewrite Z.ones_spec_high by (subst h; lia). reflexivity. }
  assert (Hnn : 0 <= Z.lor start (Z.ones h)) by (apply Z.lor_nonneg; lia).
  destruct (Z.eq_dec (Z.lor start (Z.ones h)) 0) as [E|Hne].
  - rewrite E. apply Z.pow_pos_nonneg; lia.
  - apply Z.log2_lt_pow2; [lia|].
    destruct (Z.lt_ge_cases (Z.log2 (Z.lor start (Z.ones h))) bits) as [H|H]; [exact H|].
    pose proof (Z.bit_log2 (Z.lor start (Z.ones h)) ltac:(lia)) as Hb.
    rewrite (Hlt _ H) in Hb. discriminate Hb.
Qed.

(** ** Canonical IPv4 text *)

Lemma decimal_octet_no_dot (v : Z) : 0 <= v <= 255 -> ~ In "."%char (decimal v).
Proof.
  intros Hv Hin.
  pose proof (forall_values (fun v => negb (existsb (Ascii.eqb "."%char) (decimal v)))
                            0 255 ltac:(vm_compute; reflexivity) v Hv) as H.
  cbv beta in H. apply negb_true_iff in H.
  assert (H' : existsb (Ascii.eqb "."%char) (decimal v) = true).
  { apply existsb_exists. exists "."%char. split; [exact Hin | reflexivity]. }
  congruence.
Qed.

Lemma map_show_inj' {B : Type} (show : Z -> B) (P : Z -> Prop) :
  (forall v w, P v -> P w -> show v = show w -> v = w) ->
  forall vs ws, Forall P vs -> Forall P ws -> map show vs = map show ws -> vs = ws.
Proof.
  intros Hinj vs. induction vs as [|v vs IH]; intros [|w ws] Hv Hw E;
    try discriminate E; [reflexivity|].
  injection E as E1 E2.
  f_equal.
  - apply Hinj; [exact (Forall_inv Hv) | exact (Forall_inv Hw) | exact E1].
  - apply IH; [exact (Forall_inv_tail Hv) | exact (Forall_inv_tail Hw) | exact E2].
Qed.

Lemma map_show_inj (show : Z -> str) (P : Z -> Prop) :
  (forall v w, P v -> P w -> show v = show w -> v = w) ->
  forall vs ws, Forall P vs -> Forall P ws -> map show vs = map show ws -> vs = ws.
Proof. apply map_show_inj'. Qed.

Lemma showRow_inj (show : Z -> str) (c : ascii) (P : Z -> Prop) :
  (forall v w, P v -> P w -> show v = show w -> v = w) ->
  (forall v, P v -> ~ In c (show v)) ->
  forall vs ws,
    length vs = length ws -> Forall P vs -> Forall P ws ->
    showRow show [c] vs = showRow show [c] ws -> vs = ws.
Proof.
  intros Hinj Hc vs ws Hlen Hv Hw E. unfold showRow in E.
  apply (map_show_inj show P Hinj vs ws Hv Hw).
  apply (join_char_inj c); [rewrite !length_map; exact Hlen | | | exact E];
    apply Forall_forall; intros f Hf; apply in_map_iff in Hf;
    destruct Hf as (v & <- & Hin); apply Hc;
    [rewrite Forall_forall in Hv | rewrite Forall_forall in Hw]; auto.
Qed.

Lemma canonicalIPv4_inj (a a' : Z) :
  0 <= a < 2 ^ 32 -> 0 <= a' < 2 ^ 32 ->
  canonicalIPv4 a = canonicalIPv4 a' -> a = a'.
Proof.
  intros Ha Ha' E. unfold canonicalIPv4 in E.
  destruct (ipv4ToOctets_octets a) as [L O].
  destruct (ipv4ToOctets_octets a') as [L' O'].
  apply (showRow_inj decimal "."%char (fun v => 0 <= v <= 255)
                     decimal_octet_inj decimal_octet_no_dot
                     (ipv4ToOctets a) (ipv4ToOctets a')
                     (eq_trans L (eq_sym L')) O O') in E.
  rewrite <- (ipv4ToOctets_value a Ha), <- (ipv4ToOctets_value a' Ha'), E.
  reflexivity.
Qed.

(** ** IPv4: what the compiled expression matches *)

Lemma ipv4_interval_rows (start end_ : Z) (s : str) :
  0 <= start -> start <= end_ -> end_ < 2 ^ 32 ->
  (exists vs, length vs = 4%nat /\ Forall (fun v => 0 <= v <= 255) vs
              /\ lexle (ipv4ToOctets start) vs /\ lexle vs (ipv4ToOctets end_)
              /\ s = showRow decimal (lit ".") vs)
  <-> exists a, start <= a <= end_ /\ s = canonicalIPv4 a.
Proof.
  intros H0 Hle Hlt.
  destruct (ipv4ToOctets_octets start) as [Ls Os].
  destruct (ipv4ToOctets_octets end_) as [Le Oe].
  split.
  - intros (vs & Hlen & Hvs & Hl1 & Hl2 & ->).
    destruct (ipv4ToOctets_of_value vs Hlen Hvs) as [E B].
    exists (segmentsValue 256 vs). split.
    + apply (lexle_value 256) in Hl1; [|lia | congruence | assumption | assumption].
      apply (lexle_value 256) in Hl2; [|lia | congruence | assumption | assumption].
      rewrite ipv4ToOctets_value in Hl1, Hl2 by lia. lia.
    + unfold canonicalIPv4. rewrite E. reflexivity.
  - intros (a & Ha & ->).
    destruct (ipv4ToOctets_octets a) as [La Oa].
    exists (ipv4ToOctets a). split; [exact La|]. split; [exact Oa|].
    split; [|split; [|reflexivity]];
      apply (lexle_value 256); try lia; try congruence; try assumption;
      rewrite !ipv4ToOctets_value by lia; lia.
Qed.

Lemma compileRange_IPv4 (start end_ : Z) (cache : Cache) :
  0 <= start -> start <= end_ -> end_ < 2 ^ 32 ->
  exists rx,
    (patterns <~ liftR (minimizePatternSet
                          (uniquePatterns
                             (buildIPv4Patterns (ipv4ToOctets start)
                                                (ipv4ToOctets end_) 0))
                          (lit "\.") 4) ;;
     liftR (buildRegex patterns [])) cache = (Ok rx, cache)
    /\ flags rx = []
    /\ forall s, test rx s = true
                 <-> exists a, start <= a <= end_ /\ s = canonicalIPv4 a.
Proof.
  intros B0 B1 B2.
  destruct (ipv4ToOctets_octets start) as [Ls Os].
  destruct (ipv4ToOctets_octets end_) as [Le Oe].
  assert (Hlex : lexle (ipv4ToOctets start) (ipv4ToOctets end_)).
  { apply (lexle_value 256 _ ltac:(lia) _ (eq_trans Ls (eq_sym Le)) Os Oe).
    rewrite !ipv4ToOctets_value by lia. exact B1. }
  destruct (buildIPv4Patterns_spec _ _ Ls Le Os Oe Hlex) as (R & N & L).
  remember (buildIPv4Patterns (ipv4ToOctets start) (ipv4ToOctets end_) 0) as ps
    eqn:Eps.
  assert (Ru : Forall (Row (lit "\.") "\"%char 4) (uniquePatterns ps)).
  { apply Forall_forall. intros p Hp'.
    apply (proj1 (uniquePatterns_In _ _)) in Hp'.
    rewrite Forall_forall in R. exact (R p Hp'). }
  assert (H04 : (0 < 4)%nat) by lia.
  destruct (minimizePatternSet_spec (lit "\.") "\"%char (lit ".")
              Pattern_escaped_dot langOf_escaped_dot
              (or_introl (conj eq_refl eq_refl)) 4 (uniquePatterns ps)
              H04 Ru) as (out & E & Po & No & _ & Lo).
  destruct (buildRegex_test out [] (No (uniquePatterns_nonempty ps N)) Po)
    as (rx & Erx & _ & Hfl & Lrx).
  exists rx. unfold bindM, liftR. rewrite E, Erx.
  split; [reflexivity|]. split; [exact Hfl|].
  intros s. rewrite Lrx.
  change (Str.includes (lit "i") []) with false. cbv iota.
  rewrite Lo, rowsLang_unique, L.
  apply ipv4_interval_rows; assumption.
Qed.

Lemma compileParsed_IPv4 (addr plen : Z) (cache : Cache) :
  0 <= addr < 2 ^ 32 -> 0 <= plen <= 32 ->
  exists rx,
    compileParsed (mkParsed IPv4 addr plen) cache = (Ok rx, cache)
    /\ flags rx = []
    /\ forall s, test rx s = true
                 <-> exists a, fst (normalizeRange addr 32 plen) <= a
                                 <= snd (normalizeRange addr 32 plen)
                               /\ s = canonicalIPv4 a.
Proof.
  intros Ha Hp.
  destruct (normalizeRange_bounds addr 32 plen Hp Ha) as (B0 & B1 & B2).
  exact (compileRange_IPv4 _ _ cache B0 B1 B2).
Qed.

(** ** Hexadecimal digits and their text *)

Lemma forallFrom_spec (P : Z -> bool) (n : nat) :
  forall v, forallFrom P n v = true ->
            forall w, v <= w < v + Z.of_nat n -> P w = true.
Proof.
  induction n as [|n IH]; intros v H w Hw; [lia|].
  cbn [forallFrom] in H. apply andb_true_iff in H. destruct H as [H1 H2].
  destruct (Z.eq_dec w v) as [->|Hne]; [exact H1|].
  apply (IH (v + 1) H2). lia.
Qed.

Lemma forall_hextets (P : Z -> bool) :
  forallFrom P (Z.to_nat 65536) 0 = true ->
  forall v, 0 <= v <= 65535 -> P v = true.
Proof.
  intros H v Hv. apply (forallFrom_spec P _ 0 H). lia.
Qed.

Ltac digit_cases d H :=
  let E := fresh "E" in
  assert (E : d = 0 \/ d = 1 \/ d = 2 \/ d = 3 \/ d = 4 \/ d = 5 \/ d = 6 \/ d = 7
              \/ d = 8 \/ d = 9 \/ d = 10 \/ d = 11 \/ d = 12 \/ d = 13 \/ d = 14
              \/ d = 15) by lia;
  clear H;
  destruct E as [E|[E|[E|[E|[E|[E|[E|[E|[E|[E|[E|[E|[E|[E|[E|E]]]]]]]]]]]]]]];
  subst d.

Lemma hex4_digits (v : Z) : 0 <= v <= 65535 -> hex4 v = hexText (hexDigits4 v).
Proof.
  intros Hv. apply Str_eqb_eq. revert v Hv.
  apply (forall_hextets (fun v => Str.eqb (hex4 v) (hexText (hexDigits4 v)))).
  vm_compute. reflexivity.
Qed.

Lemma hexDigits4_digits (v : Z) :
  length (hexDigits4 v) = 4%nat /\ Forall (fun d => 0 <= d <= 15) (hexDigits4 v).
Proof.
  split; [reflexivity|].
  assert (B : forall x, 0 <= x mod 16 <= 15)
    by (intros x; pose proof (Z.mod_pos_bound x 16 ltac:(lia)); lia).
  unfold hexDigits4. repeat (constructor; [apply B|]). constructor.
Qed.

Lemma hexDigits4_value (v : Z) :
  0 <= v <= 65535 -> segmentsValue 16 (hexDigits4 v) = v.
Proof.
  intros Hv. unfold hexDigits4, segmentsValue. cbn [fold_left].
  Z.div_mod_to_equations. lia.
Qed.

Lemma hexDigits4_of_value (ds : list Z) :
  length ds = 4%nat -> Forall (fun d => 0 <= d <= 15) ds ->
  hexDigits4 (segmentsValue 16 ds) = ds /\ 0 <= segmentsValue 16 ds <= 65535.
Proof.
  intros Hlen Hds.
  destruct ds as [|a [|b [|c [|d [|? ?]]]]]; try discriminate Hlen.
  pose proof (Forall_inv Hds) as Ha. apply Forall_inv_tail in Hds.
  pose proof (Forall_inv Hds) as Hb. apply Forall_inv_tail in Hds.
  pose proof (Forall_inv Hds) as Hc. apply Forall_inv_tail in Hds.
  pose proof (Forall_inv Hds) as Hd. cbn beta in Ha, Hb, Hc, Hd.
  unfold hexDigits4, segmentsValue. cbn [fold_left].
  split; [|lia].
  repeat f_equal; Z.div_mod_to_equations; lia.
Qed.

Lemma digitChar_inj (d e : Z) :
  0 <= d <= 15 -> 0 <= e <= 15 -> digitChar d = digitChar e -> d = e.
Proof.
  intros Hd He. digit_cases d Hd; digit_cases e He; intros E;
    try reflexivity; discriminate E.
Qed.

Lemma hexText_inj (ds es : list Z) :
  Forall (fun d => 0 <= d <= 15) ds -> Forall (fun d => 0 <= d <= 15) es ->
  hexText ds = hexText es -> ds = es.
Proof.
  apply (map_show_inj' digitChar (fun d => 0 <= d <= 15) digitChar_inj).
Qed.

(** ** Pieces of hextet patterns *)

Lemma Part_nil : Part [].
Proof. split; [apply Pattern_nil | reflexivity]. Qed.

Lemma Part_app (p1 p2 : str) : Part p1 -> Part p2 -> Part (p1 ++ p2).
Proof.
  intros (P1 & S1) (P2 & S2).
  split; [apply Pattern_app | apply Splittable_app]; assumption.
Qed.

Lemma digitChar_literal (d : Z) :
  0 <= d <= 15 ->
  isLiteral [digitChar d] = true /\ Splittable ":"%char [digitChar d].
Proof. intros Hd. digit_cases d Hd; split; reflexivity. Qed.

Lemma hexText_literal (ds : list Z) :
  Forall (fun d => 0 <= d <= 15) ds ->
  isLiteral (hexText ds) = true /\ Splittable ":"%char (hexText ds).
Proof.
  induction 1 as [|d ds Hd _ [IH1 IH2]]; [split; reflexivity|].
  destruct (digitChar_literal d Hd) as [L S].
  change (hexText (d :: ds)) with ([digitChar d] ++ hexText ds). split.
  - rewrite isLiteral_app, L, IH1. reflexivity.
  - apply Splittable_app; assumption.
Qed.

Lemma Part_hexText (ds : list Z) :
  Forall (fun d => 0 <= d <= 15) ds -> Part (hexText ds).
Proof.
  intros H. destruct (hexText_literal ds H) as [L S].
  split; [apply Pattern_literal; exact L | exact S].
Qed.

Lemma HexLang_hexText (pre : list Z) :
  Forall (fun d => 0 <= d <= 15) pre ->
  HexLang (langOf (hexText pre)) (fun ds => ds = pre).
Proof.
  intros H s. destruct (hexText_literal pre H) as [L _].
  rewrite (langOf_literal _ s L). split.
  - intros ->. exists pre. auto.
  - intros (ds & -> & _ & ->). reflexivity.
Qed.

Lemma HexLang_app (p1 p2 : str) (D1 D2 : list Z -> Prop) :
  Pattern p1 -> Pattern p2 ->
  HexLang (langOf p1) D1 -> HexLang (langOf p2) D2 ->
  HexLang (langOf (p1 ++ p2))
          (fun ds => exists d1 d2, ds = d1 ++ d2 /\ D1 d1 /\ D2 d2).
Proof.
  intros P1 P2 H1 H2 s. rewrite (langOf_app p1 p2 s P1 P2). split.
  - intros (s1 & s2 & -> & L1 & L2).
    apply H1 in L1. destruct L1 as (d1 & Hd1 & F1 & ->).
    apply H2 in L2. destruct L2 as (d2 & Hd2 & F2 & ->).
    exists (d1 ++ d2). split; [exists d1, d2; auto|].
    split; [apply Forall_app; auto|]. unfold hexText. rewrite map_app. reflexivity.
  - intros (ds & (d1 & d2 & -> & Hd1 & Hd2) & F & ->).
    apply Forall_app in F. destruct F as [F1 F2].
    exists (hexText d1), (hexText d2). split.
    + unfold hexText. rewrite map_app. reflexivity.
    + split; [apply H1; exists d1; auto | apply H2; exists d2; auto].
Qed.

(** ** The digit class *)

Lemma digit_strings (lo hi : Z) (s : str) :
  0 <= lo -> hi <= 15 ->
  (In s (map (fun v => [digitChar v]) (valuesFromTo lo hi))
   <-> exists ds, (exists v, lo <= v <= hi /\ ds = [v])
                  /\ Forall (fun d => 0 <= d <= 15) ds /\ s = hexText ds).
Proof.
  intros Hlo Hhi. rewrite in_map_iff. split.
  - intros (v & <- & Hv). apply valuesFromTo_In in Hv.
    exists [v]. split; [exists v; auto|]. split; [|reflexivity].
    constructor; [lia | constructor].
  - intros (ds & (v & Hv & ->) & _ & ->). exists v. split; [reflexivity|].
    apply valuesFromTo_In. exact Hv.
Qed.

Ltac solve_digit_range :=
  match goal with
  | |- exists p, hexDigitRange ?lo ?hi = Ok p /\ _ =>
      let out := eval vm_compute in (hexDigitRange lo hi) in
      match out with
      | Ok ?p =>
          let parsed := eval vm_compute in (parseRegex p) in
          match parsed with
          | Some (RSeq ?r REmpty) =>
              assert (T : Terms p [r]) by (intros rest st; reflexivity);
              exists p; split; [reflexivity|];
              split;
              [ split;
                [ exists [r]; split; [exact T|]; cbn; intuition
                | reflexivity ]
              | split;
                [ discriminate
                | intros s;
                  rewrite (langOf_Terms p [r] s T), enumLang_spec;
                  rewrite (sameStrings_spec
                             (enumLang (mkseq [r]))
                             (map (fun v => [digitChar v]) (valuesFromTo lo hi))
                             ltac:(vm_compute; reflexivity) s);
                  apply digit_strings; lia ] ]
          end
      end
  end.

Lemma hexDigitRange_spec (lo hi : Z) :
  0 <= lo -> lo <= hi -> hi <= 15 ->
  exists p,
    hexDigitRange lo hi = Ok p
    /\ Part p /\ p <> []
    /\ HexLang (langOf p) (fun ds => exists v, lo <= v <= hi /\ ds = [v]).
Proof.
  intros H0 Hle H15.
  assert (Hlo : 0 <= lo <= 15) by lia.
  assert (Hhi : 0 <= hi <= 15) by lia.
  revert Hle. clear H0 H15.
  digit_cases lo Hlo; digit_cases hi Hhi; intros Hle;
    try (exfalso; lia); unfold HexLang; solve_digit_range.
Qed.

Lemma hexDigitRange_single (d : Z) :
  0 <= d <= 15 -> hexDigitRange d d = Ok [digitChar d].
Proof. intros Hd. digit_cases d Hd; reflexivity. Qed.

Lemma hexValue_digitChar (d : Z) :
  0 <= d <= 15 -> hexValue (digitChar d) = Ok d.
Proof. intros Hd. digit_cases d Hd; reflexivity. Qed.

(** ** The hexadecimal wildcard *)

Lemma hexClass_lang (s : str) :
  lang false (RClass [("0"%char, "9"%char); ("a"%char, "f"%char)]) s
  <-> exists d, 0 <= d <= 15 /\ s = [digitChar d].
Proof.
  rewrite enumLang_spec.
  rewrite (sameStrings_spec
             (enumLang (RClass [("0"%char, "9"%char); ("a"%char, "f"%char)]))
             (map (fun v => [digitChar v]) (valuesFromTo 0 15))
             ltac:(vm_compute; reflexivity) s).
  rewrite in_map_iff. split.
  - intros (v & <- & Hv). apply valuesFromTo_In in Hv. exists v. auto.
  - intros (v & Hv & ->). exists v. split; [reflexivity|].
    apply valuesFromTo_In. exact Hv.
Qed.

Lemma hexClass_repeat (n : nat) :
  forall s,
    repeatLang (lang false (RClass [("0"%char, "9"%char); ("a"%char, "f"%char)])) n s
    <-> exists ds, length ds = n /\ Forall (fun d => 0 <= d <= 15) ds
                   /\ s = hexText ds.
Proof.
  induction n as [|n IH]; intros s; cbn [repeatLang].
  - split.
    + intros ->. exists []. repeat split. constructor.
    + intros (ds & Hlen & _ & ->). destruct ds; [reflexivity | discriminate].
  - split.
    + intros (s1 & s2 & -> & H1 & H2).
      apply hexClass_lang in H1. destruct H1 as (d & Hd & ->).
      apply IH in H2. destruct H2 as (ds & Hlen & F & ->).
      exists (d :: ds). split; [cbn; lia|]. split; [constructor; auto | reflexivity].
    + intros (ds & Hlen & F & ->). destruct ds as [|d ds]; [discriminate|].
      exists [digitChar d], (hexText ds). split; [reflexivity|]. split.
      * apply hexClass_lang. exists d. split; [exact (Forall_inv F) | reflexivity].
      * apply IH. exists ds. injection Hlen as Hlen.
        split; [exact Hlen|]. split; [exact (Forall_inv_tail F) | reflexivity].
Qed.

Lemma hexWildcard_spec (n : nat) :
  (n <= 4)%nat ->
  Part (hexWildcard n)
  /\ HexLang (langOf (hexWildcard n)) (fun ds => length ds = n).
Proof.
  intros Hn.
  destruct n as [|[|n]].
  - split; [apply Part_nil|]. intros s. cbn [hexWildcard]. rewrite langOf_nil.
    split.
    + intros ->. exists []. repeat split. constructor.
    + intros (ds & Hlen & _ & ->). destruct ds; [reflexivity | discriminate].
  - assert (T : Terms (hexWildcard 1)
                      [RClass [("0"%char, "9"%char); ("a"%char, "f"%char)]])
      by (intros rest st; reflexivity).
    split.
    + split; [|reflexivity]. eexists. split; [exact T|]. cbn. intuition.
    + intros s. rewrite (langOf_Terms _ _ s T), lang_mkseq_single.
      rewrite <- (hexClass_repeat 1 s). cbn [repeatLang]. split.
      * intros H. exists s, []. rewrite app_nil_r. auto.
      * intros (s1 & s2 & -> & H & ->). rewrite app_nil_r. exact H.
  - assert (T : Terms (hexWildcard (S (S n)))
                      [RRepeat (S (S n))
                               (RClass [("0"%char, "9"%char); ("a"%char, "f"%char)])]).
    { destruct n as [|[|[|n]]]; [| | |lia]; intros rest st; reflexivity. }
    split.
    + split.
      * eexists. split; [exact T|]. cbn. intuition.
      * destruct n as [|[|[|n]]]; [| | |lia]; reflexivity.
    + intros s. rewrite (langOf_Terms _ _ s T), lang_mkseq_single.
      cbn [lang]. apply hexClass_repeat.
Qed.

(** ** The hextet range splitter *)

Lemma hexText_length (ds : list Z) : length (hexText ds) = length ds.
Proof. apply length_map. Qed.

Lemma hexText_app (xs ys : list Z) : hexText (xs ++ ys) = hexText xs ++ hexText ys.
Proof. apply map_app. Qed.

Lemma hexText_repeat (d : Z) (n : nat) :
  hexText (repeat d n) = Str.repeat (digitChar d) n.
Proof. unfold hexText, Str.repeat. apply map_repeat. Qed.

Lemma Forall_digit_repeat (d : Z) (n : nat) :
  0 <= d <= 15 -> Forall (fun d => 0 <= d <= 15) (repeat d n).
Proof. intros H. induction n; cbn; constructor; auto. Qed.

Lemma lexle_antisym (xs : list Z) :
  forall ys, length xs = length ys -> lexle xs ys -> lexle ys xs -> xs = ys.
Proof.
  induction xs as [|x xs IH]; intros [|y ys] Hlen H1 H2; try discriminate;
    [reflexivity|].
  cbn in H1, H2. injection Hlen as Hlen.
  destruct H1 as [H1 | [-> H1]]; destruct H2 as [H2 | [E H2]]; try lia.
  f_equal. apply IH; assumption.
Qed.

Lemma commonPrefix_split (ls : list Z) :
  forall hs,
    Forall (fun d => 0 <= d <= 15) ls -> Forall (fun d => 0 <= d <= 15) hs ->
    length ls = length hs -> ls <> hs ->
    exists pre l lt h ht,
      ls = pre ++ l :: lt /\ hs = pre ++ h :: ht /\ l <> h
      /\ commonPrefixLength (hexText ls) (hexText hs) = length pre
      /\ length lt = length ht.
Proof.
  induction ls as [|l ls IH]; intros [|h hs] Fl Fh Hlen Hne; try discriminate;
    [congruence|].
  injection Hlen as Hlen.
  destruct (Z.eq_dec l h) as [->|Hlh].
  - destruct (IH hs (Forall_inv_tail Fl) (Forall_inv_tail Fh) Hlen)
      as (pre & l' & lt & h' & ht & -> & -> & Hne' & Hc & Hl).
    { congruence. }
    exists (h :: pre), l', lt, h', ht. repeat split; auto.
    cbn [hexText map commonPrefixLength]. rewrite Ascii.eqb_refl.
    cbn [length]. f_equal. exact Hc.
  - exists [], l, ls, h, hs. repeat split; auto.
    cbn [hexText map commonPrefixLength].
    destruct (Ascii.eqb (digitChar l) (digitChar h)) eqn:E; [|reflexivity].
    apply Ascii.eqb_eq in E.
    apply (digitChar_inj l h (Forall_inv Fl) (Forall_inv Fh)) in E. contradiction.
Qed.

Lemma interval_prefix (pre : list Z) :
  forall xs ys ds,
    (lexle (pre ++ xs) ds /\ lexle ds (pre ++ ys) /\ length ds = length (pre ++ xs))
    <-> exists dt, ds = pre ++ dt /\ lexle xs dt /\ lexle dt ys
                   /\ length dt = length xs.
Proof.
  induction pre as [|p pre IH]; intros xs ys ds.
  - cbn [app]. split.
    + intros (H1 & H2 & H3). exists ds. auto.
    + intros (dt & -> & H1 & H2 & H3). auto.
  - cbn [app]. split.
    + intros (H1 & H2 & H3). destruct ds as [|d ds]; [discriminate|].
      destruct (proj1 (interval_equal p d (pre ++ xs) (pre ++ ys) ds) (conj H1 H2))
        as (-> & A & B).
      injection H3 as H3.
      destruct (proj1 (IH xs ys ds) (conj A (conj B H3))) as (dt & -> & C).
      exists dt. split; [reflexivity | exact C].
    + intros (dt & -> & H1 & H2 & H3). cbn [app].
      destruct (proj2 (IH xs ys (pre ++ dt))) as (A & B & C).
      { exists dt. auto. }
      destruct (proj2 (interval_equal p p (pre ++ xs) (pre ++ ys) (pre ++ dt)))
        as [D E]; [auto|].
      split; [exact D|]. split; [exact E|]. cbn [length]. f_equal. exact C.
Qed.

Lemma firstn_hexText (pre : list Z) (x : str) :
  firstn (length pre) (hexText pre ++ x) = hexText pre.
Proof.
  rewrite <- (hexText_length pre), firstn_app, firstn_all, Nat.sub_diag.
  cbn [firstn]. apply app_nil_r.
Qed.

Lemma skipn_hexText (pre : list Z) (c : ascii) (x : str) :
  skipn (length pre + 1) (hexText pre ++ c :: x) = x.
Proof.
  rewrite <- (hexText_length pre).
  induction (hexText pre) as [|a l IH]; [reflexivity | exact IH].
Qed.

Lemma nth_hexText (pre : list Z) (c : ascii) (x : str) :
  nth_error (hexText pre ++ c :: x) (length pre) = Some c.
Proof.
  rewrite <- (hexText_length pre).
  induction (hexText pre) as [|a l IH]; [reflexivity | exact IH].
Qed.

Lemma mapM_total {A B : Type} (f : A -> result B) (g : A -> B) (l : list A) :
  (forall a, f a = Ok (g a)) -> mapM f l = Ok (map g l).
Proof.
  intros H. induction l as [|a l IH]; [reflexivity|].
  cbn [mapM map]. rewrite H. cbn [bind]. rewrite IH. reflexivity.
Qed.

Lemma rowsLang_map_prefix (a : str) (sufs : list str) (s : str) :
  Pattern a -> Forall Pattern sufs ->
  (rowsLang (map (fun suffix => a ++ suffix) sufs) s
   <-> exists s1 s2, s = s1 ++ s2 /\ langOf a s1 /\ rowsLang sufs s2).
Proof.
  intros Pa Ps. unfold rowsLang. split.
  - intros (p & Hin & L). apply in_map_iff in Hin. destruct Hin as (suf & <- & Hin).
    assert (Psuf : Pattern suf) by (exact (proj1 (Forall_forall _ _) Ps suf Hin)).
    apply (langOf_app a suf s Pa Psuf) in L.
    destruct L as (s1 & s2 & -> & L1 & L2).
    exists s1, s2. split; [reflexivity|]. split; [exact L1|]. exists suf. auto.
  - intros (s1 & s2 & -> & L1 & suf & Hin & L2).
    assert (Psuf : Pattern suf) by (exact (proj1 (Forall_forall _ _) Ps suf Hin)).
    exists (a ++ suf). split.
    + apply in_map_iff. exists suf. auto.
    + apply (langOf_app a suf (s1 ++ s2) Pa Psuf). exists s1, s2. auto.
Qed.

Lemma HexLang_iff (L : str -> Prop) (D1 D2 : list Z -> Prop) :
  (forall ds, D1 ds <-> D2 ds) -> HexLang L D1 -> HexLang L D2.
Proof.
  intros E H s. rewrite (H s). split; intros (ds & Hd & R); exists ds;
    (split; [apply E; exact Hd | exact R]).
Qed.

Lemma HexLang_prefix (a : str) (sufs : list str) (Da Ds : list Z -> Prop) :
  Pattern a -> Forall Pattern sufs ->
  HexLang (langOf a) Da -> HexLang (rowsLang sufs) Ds ->
  HexLang (rowsLang (map (fun suffix => a ++ suffix) sufs))
          (fun ds => exists d1 d2, ds = d1 ++ d2 /\ Da d1 /\ Ds d2).
Proof.
  intros Pa Ps Ha Hs s. rewrite (rowsLang_map_prefix a sufs s Pa Ps). split.
  - intros (s1 & s2 & -> & L1 & L2).
    apply Ha in L1. destruct L1 as (d1 & Hd1 & F1 & ->).
    apply Hs in L2. destruct L2 as (d2 & Hd2 & F2 & ->).
    exists (d1 ++ d2). split; [exists d1, d2; auto|].
    split; [apply Forall_app; auto | symmetry; apply hexText_app].
  - intros (ds & (d1 & d2 & -> & Hd1 & Hd2) & F & ->).
    apply Forall_app in F. destruct F as [F1 F2].
    exists (hexText d1), (hexText d2). split; [apply hexText_app|].
    split; [apply Ha; exists d1; auto | apply Hs; exists d2; auto].
Qed.

Lemma HexLang_or (l1 l2 : list str) (D1 D2 : list Z -> Prop) :
  HexLang (rowsLang l1) D1 -> HexLang (rowsLang l2) D2 ->
  HexLang (rowsLang (l1 ++ l2)) (fun ds => D1 ds \/ D2 ds).
Proof.
  intros H1 H2 s. rewrite rowsLang_app, (H1 s), (H2 s). split.
  - intros [(ds & Hd & R) | (ds & Hd & R)]; exists ds; auto.
  - intros (ds & [Hd | Hd] & R); [left | right]; exists ds; auto.
Qed.

Lemma HexLang_none : HexLang (rowsLang []) (fun _ => False).
Proof.
  intros s. rewrite rowsLang_nil. split; [contradiction|].
  intros (ds & [] & _).
Qed.

Lemma between_same (ls ds : list Z) : between ls ls ds <-> ds = ls.
Proof.
  unfold between. split.
  - intros (Hlen & H1 & H2). symmetry. apply lexle_antisym; auto.
  - intros ->. repeat split; apply lexle_refl.
Qed.

Lemma between_all (n : nat) (ds : list Z) :
  Forall (fun d => 0 <= d <= 15) ds ->
  (between (repeat 0 n) (repeat 15 n) ds <-> length ds = n).
Proof.
  intros F. unfold between. rewrite repeat_length. split; [tauto|].
  intros <-. split; [reflexivity|]. split.
  - apply lexle_repeat_min. eapply Forall_impl; [|exact F]. cbn. lia.
  - apply lexle_repeat_max. eapply Forall_impl; [|exact F]. cbn. lia.
Qed.

Lemma between_split (pre lt ht ds : list Z) (l h : Z) :
  l < h -> length lt = length ht ->
  Forall (fun d => 0 <= d <= 15) ds ->
  (between (pre ++ l :: lt) (pre ++ h :: ht) ds
   <-> (exists d1 d2, ds = d1 ++ d2
          /\ (exists e1 e2, d1 = e1 ++ e2 /\ e1 = pre
                            /\ exists v, l <= v <= l /\ e2 = [v])
          /\ between lt (repeat 15 (length lt)) d2)
       \/ ((l + 1 <= h - 1)
           /\ exists d1 d2, ds = d1 ++ d2
                /\ (exists e1 e2, d1 = e1 ++ e2 /\ e1 = pre
                                  /\ exists v, l + 1 <= v <= h - 1 /\ e2 = [v])
                /\ length d2 = length lt)
       \/ (exists d1 d2, ds = d1 ++ d2
             /\ (exists e1 e2, d1 = e1 ++ e2 /\ e1 = pre
                               /\ exists v, h <= v <= h /\ e2 = [v])
             /\ between (repeat 0 (length lt)) ht d2)).
Proof.
  intros Hlh Hlen F. unfold between.
  rewrite !repeat_length.
  assert (I := interval_prefix pre (l :: lt) (h :: ht) ds).
  split.
  - intros (L & A & B).
    destruct (proj1 I (conj A (conj B L))) as (dt & -> & C & D & E).
    destruct dt as [|v dt]; [discriminate|]. injection E as E.
    apply Forall_app in F. destruct F as [_ F].
    assert (Fdt := Forall_inv_tail F).
    destruct (proj1 (interval_cases l h v lt ht dt Hlh) (conj C D))
      as [[-> Hc] | [Hc | [-> Hc]]].
    + left. exists (pre ++ [l]), dt. rewrite <- app_assoc. split; [reflexivity|].
      split; [exists pre, [l]; repeat split; exists l; split; [lia|reflexivity]|].
      split; [exact E|]. split; [exact Hc|].
      rewrite <- E. apply lexle_repeat_max. eapply Forall_impl; [|exact Fdt].
      cbn. lia.
    + right. left. split; [lia|]. exists (pre ++ [v]), dt.
      rewrite <- app_assoc. split; [reflexivity|].
      split; [exists pre, [v]; repeat split; exists v; split; [lia|reflexivity]|].
      exact E.
    + right. right. exists (pre ++ [h]), dt. rewrite <- app_assoc.
      split; [reflexivity|].
      split; [exists pre, [h]; repeat split; exists h; split; [lia|reflexivity]|].
      split; [exact E|]. split; [|exact Hc].
      rewrite <- E. apply lexle_repeat_min. eapply Forall_impl; [|exact Fdt].
      cbn. lia.
  - intros H.
    assert (G : exists v dt, ds = pre ++ v :: dt /\ length dt = length lt
                /\ ((v = l /\ lexle lt dt) \/ (l < v < h) \/ (v = h /\ lexle dt ht))).
    { destruct H as [H | [[Hm H] | H]];
        destruct H as (d1 & d2 & -> & (e1 & e2 & -> & -> & v & Hv & ->) & R);
        exists v, d2; rewrite <- app_assoc; (split; [reflexivity|]).
      - destruct R as (R1 & R2 & _). split; [exact R1|]. left.
        split; [lia | exact R2].
      - split; [exact R|]. right. left. lia.
      - destruct R as (R1 & _ & R2). split; [exact R1|]. right. right.
        split; [lia | exact R2]. }
    destruct G as (v & dt & -> & E & C).
    apply (proj2 (interval_cases l h v lt ht dt Hlh)) in C. destruct C as [C D].
    destruct (proj2 I) as (A & B & L).
    { exists (v :: dt). repeat split; auto. cbn [length]. f_equal. exact E. }
    auto.
Qed.

Lemma hexRangeParts_from_spec (budget : nat) :
  forall ls hs,
    length ls = length hs -> (length ls <= budget)%nat -> (length ls <= 4)%nat ->
    Forall (fun d => 0 <= d <= 15) ls -> Forall (fun d => 0 <= d <= 15) hs ->
    lexle ls hs ->
    exists parts,
      hexRangeParts_from budget (hexText ls) (hexText hs) = Ok parts
      /\ parts <> []
      /\ Forall Part parts
      /\ HexLang (rowsLang parts) (between ls hs).
Proof.
  induction budget as [|budget IH]; intros ls hs Hlen Hb H4 Fl Fh Hle.
  - destruct ls; [|cbn in Hb; lia]. destruct hs; [|discriminate].
    exists [[]]. split; [reflexivity|]. split; [discriminate|].
    split; [constructor; [apply Part_nil | constructor]|].
    intros s. rewrite rowsLang_single, langOf_nil. split.
    + intros ->. exists []. split; [apply between_same; reflexivity|].
      split; [constructor | reflexivity].
    + intros (ds & Hd & _ & ->). apply between_same in Hd. subst ds. reflexivity.
  - cbn [hexRangeParts_from]. rewrite !hexText_length.
    rewrite <- Hlen, Nat.eqb_refl. cbn [negb].
    destruct (Str.eqb (hexText ls) (hexText hs)) eqn:Eeq.
    { apply Str_eqb_eq in Eeq. apply (hexText_inj ls hs Fl Fh) in Eeq. subst hs.
      exists [hexText ls]. split; [reflexivity|]. split; [discriminate|].
      split; [constructor; [apply Part_hexText; exact Fl | constructor]|].
      intros s. rewrite rowsLang_single.
      apply (HexLang_iff (langOf (hexText ls)) (fun ds => ds = ls) (between ls ls)).
      - intros ds. symmetry. apply between_same.
      - apply HexLang_hexText. exact Fl. }
    apply Str_eqb_neq in Eeq.
    assert (Hne : ls <> hs) by congruence.
    destruct (Str.eqb (hexText ls) (Str.repeat "0" (length ls))
              && Str.eqb (hexText hs) (Str.repeat "f" (length ls))) eqn:Ewild.
    { apply andb_true_iff in Ewild. destruct Ewild as [E0 Ef].
      apply Str_eqb_eq in E0, Ef.
      change "0"%char with (digitChar 0) in E0.
      change "f"%char with (digitChar 15) in Ef.
      rewrite <- hexText_repeat in E0, Ef.
      apply (hexText_inj ls _ Fl (Forall_digit_repeat 0 _ ltac:(lia))) in E0.
      apply (hexText_inj hs _ Fh (Forall_digit_repeat 15 _ ltac:(lia))) in Ef.
      destruct (hexWildcard_spec (length ls) H4) as [Pw Lw].
      exists [hexWildcard (length ls)]. split; [reflexivity|].
      split; [discriminate|]. split; [constructor; [exact Pw | constructor]|].
      assert (B : forall ds, Forall (fun d => 0 <= d <= 15) ds ->
                             (between ls hs ds <-> length ds = length ls)).
      { intros ds F. pose proof (between_all (length ls) ds F) as B.
        rewrite <- E0, <- Ef in B. exact B. }
      intros s. rewrite rowsLang_single, (Lw s).
      split; intros (ds & Hd & F & ->); exists ds.
      - split; [exact (proj2 (B ds F) Hd) | auto].
      - split; [exact (proj1 (B ds F) Hd) | auto]. }
    clear Ewild.
    destruct (commonPrefix_split ls hs Fl Fh Hlen Hne)
      as (pre & l & lt & h & ht & El & Eh & Hlh & Hc & Hlt).
    rewrite Hc.
    assert (Hlenls : length ls = (length pre + S (length lt))%nat).
    { rewrite El, length_app. reflexivity. }
    replace (length pre =? length ls)%nat with false
      by (symmetry; apply Nat.eqb_neq; lia).
    assert (Fpre : Forall (fun d => 0 <= d <= 15) pre).
    { rewrite El in Fl. apply Forall_app in Fl. tauto. }
    assert (Fl' : Forall (fun d => 0 <= d <= 15) (l :: lt)).
    { rewrite El in Fl. apply Forall_app in Fl. tauto. }
    assert (Fh' : Forall (fun d => 0 <= d <= 15) (h :: ht)).
    { rewrite Eh in Fh. apply Forall_app in Fh. tauto. }
    assert (Hl := Forall_inv Fl'). assert (Flt := Forall_inv_tail Fl').
    assert (Hh := Forall_inv Fh'). assert (Fht := Forall_inv_tail Fh').
    cbn beta in Hl, Hh.
    assert (Hlt_lh : l < h).
    { rewrite El, Eh in Hle.
      destruct (proj1 (interval_prefix pre (l :: lt) (h :: ht) (pre ++ h :: ht)))
        as (dt & E & A & _).
      { split; [exact Hle|]. split; [apply lexle_refl|].
        rewrite !length_app. cbn [length]. lia. }
      apply app_inv_head in E. subst dt. cbn in A. lia. }
    assert (Etl : hexText ls = hexText pre ++ digitChar l :: hexText lt).
    { rewrite El, hexText_app. reflexivity. }
    assert (Eth : hexText hs = hexText pre ++ digitChar h :: hexText ht).
    { rewrite Eh, hexText_app. reflexivity. }
    unfold charAt, Str.sliceTo, Str.sliceFrom.
    rewrite Etl, Eth.
    rewrite !nth_hexText, !firstn_hexText, !skipn_hexText. cbn [bind].
    rewrite (hexValue_digitChar l Hl), (hexValue_digitChar h Hh). cbn [bind].
    replace (length ls - length pre - 1)%nat with (length lt) by lia.
    change "f"%char with (digitChar 15). change "0"%char with (digitChar 0).
    rewrite <- !hexText_repeat.
    assert (Hlt4 : (length lt <= 4)%nat) by lia.
    assert (Hltb : (length lt <= budget)%nat) by lia.
    destruct (IH lt (repeat 15 (length lt)))
      as (lower & -> & NL & PL & LL);
      [rewrite repeat_length; reflexivity | exact Hltb | exact Hlt4 | exact Flt
      | apply Forall_digit_repeat; lia
      | apply lexle_repeat_max; eapply Forall_impl; [|exact Flt]; cbn; lia |].
    destruct (IH (repeat 0 (length lt)) ht)
      as (upper & EU & NU & PU & LU);
      [rewrite repeat_length; exact Hlt
      | rewrite repeat_length; exact Hltb
      | rewrite repeat_length; exact Hlt4
      | apply Forall_digit_repeat; lia | exact Fht
      | rewrite Hlt; apply lexle_repeat_min; eapply Forall_impl; [|exact Fht]; cbn; lia |].
    cbn [bind].
    rewrite (mapM_total _ (fun suffix => hexText pre ++ [digitChar l] ++ suffix))
      by (intros a; rewrite (hexDigitRange_single l Hl); reflexivity).
    cbn [bind].
    set (middle := if l + 1 <=? h - 1
                   then d <- hexDigitRange (l + 1) (h - 1) ;;
                        Ok [hexText pre ++ d ++ hexWildcard (length lt)]
                   else Ok []).
    assert (Hmid : exists mid,
               middle = Ok mid /\ Forall Part mid
               /\ HexLang (rowsLang mid)
                    (fun ds => l + 1 <= h - 1
                       /\ exists d1 d2, ds = d1 ++ d2
                            /\ (exists e1 e2, d1 = e1 ++ e2 /\ e1 = pre
                                  /\ exists v, l + 1 <= v <= h - 1 /\ e2 = [v])
                            /\ length d2 = length lt)).
    { subst middle. destruct (l + 1 <=? h - 1) eqn:Em.
      - apply Z.leb_le in Em.
        destruct (hexDigitRange_spec (l + 1) (h - 1)) as (d & -> & Pd & _ & Ld);
          [lia | lia | lia |].
        destruct (hexWildcard_spec (length lt) Hlt4) as [Pw Lw].
        cbn [bind]. eexists. split; [reflexivity|].
        assert (Pa : Part (hexText pre ++ d))
          by (apply Part_app; [apply Part_hexText; exact Fpre | exact Pd]).
        split.
        + constructor; [|constructor]. rewrite app_assoc.
          apply Part_app; assumption.
        + intros s. rewrite rowsLang_single, app_assoc.
          assert (HA := HexLang_app (hexText pre) d _ _
                          (proj1 (Part_hexText pre Fpre)) (proj1 Pd)
                          (HexLang_hexText pre Fpre) Ld).
          assert (HB := HexLang_app (hexText pre ++ d) (hexWildcard (length lt))
                          _ _ (proj1 Pa) (proj1 Pw) HA Lw).
          rewrite (HB s). split; intros (ds & Hd & R); exists ds; (split; [|exact R]).
          * split; [exact Em | exact Hd].
          * exact (proj2 Hd).
      - apply Z.leb_gt in Em. exists []. split; [reflexivity|].
        split; [constructor|].
        intros s. rewrite rowsLang_nil. split; [contradiction|].
        intros (ds & [Hd _] & _). lia. }
    destruct Hmid as (mid & -> & PM & LM). cbn [bind].
    rewrite EU. cbn [bind].
    rewrite (mapM_total _ (fun suffix => hexText pre ++ [digitChar h] ++ suffix))
      by (intros a; rewrite (hexDigitRange_single h Hh); reflexivity).
    cbn [bind].
    eexists. split; [reflexivity|].
    assert (Pal : Part (hexText pre ++ [digitChar l])).
    { change (hexText pre ++ [digitChar l]) with (hexText pre ++ hexText [l]).
      rewrite <- hexText_app. apply Part_hexText. apply Forall_app.
      split; [exact Fpre | constructor; [exact Hl | constructor]]. }
    assert (Pah : Part (hexText pre ++ [digitChar h])).
    { change (hexText pre ++ [digitChar h]) with (hexText pre ++ hexText [h]).
      rewrite <- hexText_app. apply Part_hexText. apply Forall_app.
      split; [exact Fpre | constructor; [exact Hh | constructor]]. }
    assert (Lal : HexLang (langOf (hexText pre ++ [digitChar l]))
                    (fun d1 => exists e1 e2, d1 = e1 ++ e2 /\ e1 = pre
                                 /\ exists v, l <= v <= l /\ e2 = [v])).
    { destruct (hexDigitRange_spec l l) as (d & Ed & Pd & _ & Ld); [lia|lia|lia|].
      rewrite (hexDigitRange_single l Hl) in Ed. injection Ed as <-.
      exact (HexLang_app (hexText pre) [digitChar l] _ _
               (proj1 (Part_hexText pre Fpre)) (proj1 Pd)
               (HexLang_hexText pre Fpre) Ld). }
    assert (Lah : HexLang (langOf (hexText pre ++ [digitChar h]))
                    (fun d1 => exists e1 e2, d1 = e1 ++ e2 /\ e1 = pre
                                 /\ exists v, h <= v <= h /\ e2 = [v])).
    { destruct (hexDigitRange_spec h h) as (d & Ed & Pd & _ & Ld); [lia|lia|lia|].
      rewrite (hexDigitRange_single h Hh) in Ed. injection Ed as <-.
      exact (HexLang_app (hexText pre) [digitChar h] _ _
               (proj1 (Part_hexText pre Fpre)) (proj1 Pd)
               (HexLang_hexText pre Fpre) Ld). }
    assert (Emapl : map (fun suffix => hexText pre ++ [digitChar l] ++ suffix) lower
                    = map (fun suffix => (hexText pre ++ [digitChar l]) ++ suffix) lower).
    { apply map_ext. intros a. apply app_assoc. }
    assert (Emaph : map (fun suffix => hexText pre ++ [digitChar h] ++ suffix) upper
                    = map (fun suffix => (hexText pre ++ [digitChar h]) ++ suffix) upper).
    { apply map_ext. intros a. apply app_assoc. }
    rewrite Emapl, Emaph.
    assert (PLp : Forall Pattern lower)
      by (eapply Forall_impl; [|exact PL]; intros a Ha; exact (proj1 Ha)).
    assert (PUp : Forall Pattern upper)
      by (eapply Forall_impl; [|exact PU]; intros a Ha; exact (proj1 Ha)).
    split; [|split].
    + apply uniquePatterns_nonempty. destruct lower; [congruence | discriminate].
    + apply Forall_forall. intros p Hp.
      apply (proj1 (uniquePatterns_In _ _)) in Hp.
      apply in_app_or in Hp. destruct Hp as [Hp | Hp];
        [|apply in_app_or in Hp; destruct Hp as [Hp | Hp]].
      * apply in_map_iff in Hp. destruct Hp as (suf & <- & Hin).
        apply Part_app; [exact Pal|]. exact (proj1 (Forall_forall _ _) PL suf Hin).
      * exact (proj1 (Forall_forall _ _) PM p Hp).
      * apply in_map_iff in Hp. destruct Hp as (suf & <- & Hin).
        apply Part_app; [exact Pah|]. exact (proj1 (Forall_forall _ _) PU suf Hin).
    + assert (HL := HexLang_prefix _ lower _ _ (proj1 Pal) PLp Lal LL).
      assert (HU := HexLang_prefix _ upper _ _ (proj1 Pah) PUp Lah LU).
      assert (HO := HexLang_or _ _ _ _ HL (HexLang_or _ _ _ _ LM HU)).
      intros s. rewrite rowsLang_unique, (HO s).
      split; intros (ds & Hd & F & ->); exists ds;
        (split; [|split; [exact F | reflexivity]]).
      * rewrite El, Eh. apply (between_split pre lt ht ds l h Hlt_lh Hlt F).
        exact Hd.
      * rewrite El, Eh in Hd.
        apply (between_split pre lt ht ds l h Hlt_lh Hlt F) in Hd. exact Hd.
Qed.

(** ** The hextet range compiler *)

Lemma between_hextets (lo hi : Z) (s : str) :
  0 <= lo -> lo <= hi -> hi <= 65535 ->
  ((exists ds, between (hexDigits4 lo) (hexDigits4 hi) ds
               /\ Forall (fun d => 0 <= d <= 15) ds /\ s = hexText ds)
   <-> exists v, lo <= v <= hi /\ s = hex4 v).
Proof.
  intros H0 Hle H1.
  destruct (hexDigits4_digits lo) as [Ll Fl].
  destruct (hexDigits4_digits hi) as [Lh Fh].
  assert (Fl' : Forall (fun v => 0 <= v <= 16 - 1) (hexDigits4 lo))
    by (eapply Forall_impl; [|exact Fl]; cbn; intros; lia).
  assert (Fh' : Forall (fun v => 0 <= v <= 16 - 1) (hexDigits4 hi))
    by (eapply Forall_impl; [|exact Fh]; cbn; intros; lia).
  split.
  - intros (ds & (Hlen & A & B) & F & ->).
    rewrite Ll in Hlen.
    assert (F' : Forall (fun v => 0 <= v <= 16 - 1) ds)
      by (eapply Forall_impl; [|exact F]; cbn; intros; lia).
    destruct (hexDigits4_of_value ds Hlen F) as [E R].
    assert (E1 : length (hexDigits4 lo) = length ds) by lia.
    assert (E2 : length ds = length (hexDigits4 hi)) by lia.
    apply (lexle_value 16 (hexDigits4 lo) ltac:(lia) ds E1 Fl' F') in A.
    apply (lexle_value 16 ds ltac:(lia) (hexDigits4 hi) E2 F' Fh') in B.
    rewrite hexDigits4_value in A by lia. rewrite hexDigits4_value in B by lia.
    exists (segmentsValue 16 ds). split; [lia|].
    rewrite (hex4_digits _ R), E. reflexivity.
  - intros (v & Hv & ->).
    destruct (hexDigits4_digits v) as [Lv Fv].
    assert (Fv' : Forall (fun v => 0 <= v <= 16 - 1) (hexDigits4 v))
      by (eapply Forall_impl; [|exact Fv]; cbn; intros; lia).
    exists (hexDigits4 v). split; [|split; [exact Fv | apply hex4_digits; lia]].
    assert (E1 : length (hexDigits4 lo) = length (hexDigits4 v)) by lia.
    assert (E2 : length (hexDigits4 v) = length (hexDigits4 hi)) by lia.
    split; [lia|]. split.
    + apply (lexle_value 16 (hexDigits4 lo) ltac:(lia) (hexDigits4 v) E1 Fl' Fv').
      rewrite !hexDigits4_value by lia. lia.
    + apply (lexle_value 16 (hexDigits4 v) ltac:(lia) (hexDigits4 hi) E2 Fv' Fh').
      rewrite !hexDigits4_value by lia. lia.
Qed.

Lemma hextetRangeCompute_spec (lo hi : Z) :
  0 <= lo -> lo <= hi -> hi <= 65535 ->
  exists p,
    hextetRangeCompute lo hi = Ok p
    /\ Frag ":"%char p
    /\ forall s, langOf p s <-> exists v, lo <= v <= hi /\ s = hex4 v.
Proof.
  intros H0 Hle H1. unfold hextetRangeCompute.
  destruct (hexDigits4_digits lo) as [Ll Fl].
  destruct (hexDigits4_digits hi) as [Lh Fh].
  destruct ((lo =? 0) && (hi =? 65535)) eqn:Efull.
  { apply andb_true_iff in Efull. destruct Efull as [E1 E2].
    apply Z.eqb_eq in E1, E2. subst lo hi.
    destruct (hexWildcard_spec 4 ltac:(lia)) as [[Pw Sw] Lw].
    exists IPV6_ANY_HEXTET. split; [reflexivity|].
    split; [split; [exact Pw | split; [exact Sw | discriminate]]|].
    intros s. change IPV6_ANY_HEXTET with (hexWildcard 4). rewrite (Lw s).
    rewrite <- (between_hextets 0 65535 s) by lia.
    split; intros (ds & Hd & F & ->); exists ds; (split; [|auto]).
    - apply (between_all 4 ds F). exact Hd.
    - exact (proj1 (between_all 4 ds F) Hd). }
  clear Efull.
  destruct (Z.eqb_spec lo hi) as [<-|Hne].
  { exists (hex4 lo). split; [reflexivity|].
    rewrite (hex4_digits lo) by lia.
    destruct (Part_hexText _ Fl) as [Pp Sp].
    split.
    - split; [exact Pp|]. split; [exact Sp|].
      destruct (hexDigits4 lo); [discriminate Ll | discriminate].
    - intros s. rewrite (HexLang_hexText _ Fl s).
      rewrite <- (between_hextets lo lo s) by lia.
      split; intros (ds & Hd & R); exists ds; (split; [|exact R]).
      + apply between_same. exact Hd.
      + apply between_same in Hd. exact Hd. }
  unfold hexRangeParts.
  rewrite (hex4_digits lo), (hex4_digits hi) by lia.
  rewrite hexText_length, Ll.
  assert (Hlex : lexle (hexDigits4 lo) (hexDigits4 hi)).
  { apply (lexle_value 16 (hexDigits4 lo) ltac:(lia) (hexDigits4 hi) ltac:(lia)).
    - eapply Forall_impl; [|exact Fl]; cbn; intros; lia.
    - eapply Forall_impl; [|exact Fh]; cbn; intros; lia.
    - rewrite !hexDigits4_value by lia. lia. }
  destruct (hexRangeParts_from_spec 4 (hexDigits4 lo) (hexDigits4 hi)
              ltac:(lia) ltac:(lia) ltac:(lia) Fl Fh Hlex)
    as (parts & -> & Nparts & Pparts & Lparts).
  cbn [bind].
  assert (Fparts : Forall (Frag ":"%char) parts).
  { apply Forall_forall. intros p Hp.
    destruct (proj1 (Forall_forall _ _) Pparts p Hp) as [Pp Sp].
    split; [exact Pp|]. split; [exact Sp|].
    intros ->.
    assert (L : rowsLang parts []).
    { exists []. split; [exact Hp | apply langOf_nil; reflexivity]. }
    apply Lparts in L. destruct L as (ds & (Hlen & _) & _ & E).
    destruct ds; [rewrite Ll in Hlen; discriminate | discriminate]. }
  destruct (Frag_orPattern ":"%char parts (or_intror eq_refl) Nparts Fparts)
    as [Fo Lo].
  eexists. split; [reflexivity|]. split; [exact Fo|].
  intros s. rewrite (Lo s). rewrite <- (between_hextets lo hi s) by lia.
  exact (Lparts s).
Qed.

Lemma hextetText_spec (lo hi : Z) :
  0 <= lo -> lo <= hi -> hi <= 65535 ->
  Frag ":"%char (hextetText lo hi)
  /\ forall s, langOf (hextetText lo hi) s
               <-> exists v, lo <= v <= hi /\ s = hex4 v.
Proof.
  intros H0 Hle H1. unfold hextetText.
  destruct (hextetRangeCompute_spec lo hi H0 Hle H1) as (p & -> & F & L).
  split; assumption.
Qed.

Lemma hextetText_compute (lo hi : Z) :
  0 <= lo -> lo <= hi -> hi <= 65535 ->
  hextetRangeCompute lo hi = Ok (hextetText lo hi)
  /\ hextetText lo hi <> [].
Proof.
  intros H0 Hle H1. unfold hextetText.
  destruct (hextetRangeCompute_spec lo hi H0 Hle H1) as (p & -> & F & L).
  split; [reflexivity | exact (proj2 (proj2 F))].
Qed.

(** ** IPv6 patterns *)

Lemma Pattern_colon : Pattern (lit ":").
Proof. apply Pattern_literal. reflexivity. Qed.

Lemma langOf_colon (s : str) : langOf (lit ":") s <-> s = lit ":".
Proof. apply langOf_literal. reflexivity. Qed.

Lemma IPV6_ANY_HEXTET_spec :
  Frag ":"%char IPV6_ANY_HEXTET
  /\ forall s, langOf IPV6_ANY_HEXTET s
               <-> exists v, 0 <= v <= 65535 /\ s = hex4 v.
Proof. exact (hextetText_spec 0 65535 ltac:(lia) ltac:(lia) ltac:(lia)). Qed.

Lemma ipv6AnySuffix_spec (k : nat) :
  Row (lit ":") ":"%char k (ipv6AnySuffix (Z.of_nat k))
  /\ forall s, langOf (ipv6AnySuffix (Z.of_nat k)) s
               <-> exists vs, length vs = k
                              /\ Forall (fun v => 0 <= v <= 65535) vs
                              /\ s = showRow hex4 (lit ":") vs.
Proof.
  assert (E : ipv6AnySuffix (Z.of_nat k)
              = Str.join (lit ":") (repeat IPV6_ANY_HEXTET k)).
  { unfold ipv6AnySuffix. destruct (Z.leb_spec (Z.of_nat k) 0) as [H|H].
    - destruct k; [reflexivity | lia].
    - rewrite Nat2Z.id. reflexivity. }
  rewrite E.
  apply (anyRows_spec (lit ":") ":"%char (lit ":") hex4 65535 IPV6_ANY_HEXTET
           Pattern_colon langOf_colon (proj1 IPV6_ANY_HEXTET_spec)
           (proj2 IPV6_ANY_HEXTET_spec)).
Qed.

Lemma buildRows_IPv6_spec (start end_ : list Z) :
  length start = 8%nat -> length end_ = 8%nat ->
  Forall (fun v => 0 <= v <= 65535) start ->
  Forall (fun v => 0 <= v <= 65535) end_ ->
  lexle start end_ ->
  let ps := buildRows 8 65535 (lit ":") ipv6AnySuffix hextetText 8 start end_ 0 in
  Forall (Row (lit ":") ":"%char 8) ps
  /\ ps <> []
  /\ forall s, rowsLang ps s
               <-> exists vs, length vs = 8%nat
                              /\ Forall (fun v => 0 <= v <= 65535) vs
                              /\ lexle start vs /\ lexle vs end_
                              /\ s = showRow hex4 (lit ":") vs.
Proof.
  intros Hs He Ss Se Hlex.
  apply (buildRows_spec 8 65535 (lit ":") ":"%char (lit ":") hex4
           ipv6AnySuffix hextetText
           Pattern_colon langOf_colon ltac:(lia)
           hextetText_spec
           (fun k _ => ipv6AnySuffix_spec k)
           8 [] [] start end_ eq_refl Hs He eq_refl Ss Se Hlex).
Qed.

(** ** The hextet pattern cache *)

Lemma decimal_hextet (v : Z) :
  0 <= v <= 65535 ->
  parseInt 10 (decimal v) = v /\ forallb Str.isDigit (decimal v) = true.
Proof.
  intros Hv.
  assert (H : (parseInt 10 (decimal v) =? v) && forallb Str.isDigit (decimal v)
              = true).
  { revert v Hv.
    apply (forall_hextets
             (fun v => (parseInt 10 (decimal v) =? v)
                       && forallb Str.isDigit (decimal v))).
    vm_compute. reflexivity. }
  apply andb_true_iff in H. destruct H as [H1 H2].
  apply Z.eqb_eq in H1. auto.
Qed.

Lemma decimal_hextet_inj (v w : Z) :
  0 <= v <= 65535 -> 0 <= w <= 65535 -> decimal v = decimal w -> v = w.
Proof.
  intros Hv Hw E.
  rewrite <- (proj1 (decimal_hextet v Hv)), <- (proj1 (decimal_hextet w Hw)), E.
  reflexivity.
Qed.

Lemma decimal_hextet_no_dash (v : Z) :
  0 <= v <= 65535 -> ~ In "-"%char (decimal v).
Proof.
  intros Hv Hin.
  pose proof (proj2 (decimal_hextet v Hv)) as D.
  rewrite forallb_forall in D. specialize (D _ Hin). discriminate D.
Qed.

Lemma hextetRangeKey_inj (lo hi lo' hi' : Z) :
  0 <= lo <= 65535 -> 0 <= hi <= 65535 ->
  0 <= lo' <= 65535 -> 0 <= hi' <= 65535 ->
  hextetRangeKey lo hi = hextetRangeKey lo' hi' -> lo = lo' /\ hi = hi'.
Proof.
  intros H1 H2 H3 H4 E. unfold hextetRangeKey in E.
  change (lit "-" ++ decimal hi) with ("-"%char :: decimal hi) in E.
  change (lit "-" ++ decimal hi') with ("-"%char :: decimal hi') in E.
  apply split_at_char in E;
    [|apply decimal_hextet_no_dash; assumption
     |apply decimal_hextet_no_dash; assumption].
  destruct E as [E1 E2].
  split; apply decimal_hextet_inj; assumption.
Qed.

Lemma cacheGet_set (key key' value : str) (cache : Cache) :
  cacheGet key' (cacheSet key value cache)
  = if Str.eqb key key' then Some value else cacheGet key' cache.
Proof.
  unfold cacheGet, cacheSet. cbn [find fst snd].
  destruct (Str.eqb key key'); reflexivity.
Qed.

Lemma Coherent_empty : Coherent [].
Proof. intros lo hi c cached _ _ _ H. discriminate H. Qed.

Lemma Coherent_set (lo hi : Z) (cache : Cache) :
  0 <= lo -> lo <= hi -> hi <= 65535 ->
  Coherent cache ->
  Coherent (cacheSet (hextetRangeKey lo hi) (hextetText lo hi) cache).
Proof.
  intros H0 Hle H1 C lo' hi' c cached H0' Hle' H1' G.
  rewrite cacheGet_set in G.
  destruct (Str.eqb (hextetRangeKey lo hi) (hextetRangeKey lo' hi')) eqn:E.
  - apply Str_eqb_eq in E.
    apply hextetRangeKey_inj in E; [|lia|lia|lia|lia]. destruct E as [<- <-].
    injection G as G. rewrite <- G.
    exact (proj1 (hextetText_compute lo hi H0 Hle H1)).
  - exact (C lo' hi' c cached H0' Hle' H1' G).
Qed.

Lemma hextetRangePattern_refines (lo hi : Z) (cache : Cache) :
  0 <= lo -> lo <= hi -> hi <= 65535 ->
  Coherent cache ->
  exists cache',
    hextetRangePattern lo hi cache = (Ok (hextetText lo hi), cache')
    /\ Coherent cache'.
Proof.
  intros H0 Hle H1 C. unfold hextetRangePattern.
  destruct (hextetText_compute lo hi H0 Hle H1) as [E N].
  destruct (cacheGet (hextetRangeKey lo hi) cache) as [[|c cached]|] eqn:G.
  - rewrite E. eexists. split; [reflexivity|]. apply Coherent_set; assumption.
  - pose proof (C lo hi c cached H0 Hle H1 G) as E'.
    rewrite E in E'. injection E' as E'. rewrite E'.
    exists cache. split; [reflexivity | exact C].
  - rewrite E. eexists. split; [reflexivity|]. apply Coherent_set; assumption.
Qed.

Lemma bindM_ok {A B : Type} (m : M A) (k : A -> M B) (cache cache' : Cache) (a : A) :
  m cache = (Ok a, cache') -> bindM m k cache = k a cache'.
Proof. intros H. unfold bindM. rewrite H. reflexivity. Qed.

(** The cached builder computes the rows of the builder without a cache. *)
Lemma buildIPv6Patterns_from_refines (remaining : nat) :
  forall pre pre' ss es cache,
    length pre = length pre' ->
    length ss = remaining -> length es = remaining ->
    (length pre + remaining = 8)%nat ->
    Forall (fun v => 0 <= v <= 65535) ss ->
    Forall (fun v => 0 <= v <= 65535) es ->
    lexle ss es ->
    Coherent cache ->
    exists cache',
      buildIPv6Patterns_from remaining (pre ++ ss) (pre' ++ es) (length pre) cache
      = (Ok (buildRows 8 65535 (lit ":") ipv6AnySuffix hextetText
                       remaining (pre ++ ss) (pre' ++ es) (length pre)),
         cache')
      /\ Coherent cache'.
Proof.
  induction remaining as [|r IH];
    intros pre pre' ss es cache Hpre Hss Hes Hcount Sss Ses Hlex C.
  - exists cache. split; [reflexivity | exact C].
  - destruct ss as [|s0 ss']; [discriminate Hss|].
    destruct es as [|e0 es']; [discriminate Hes|].
    injection Hss as Hss. injection Hes as Hes.
    pose proof (Forall_inv Sss) as Ss0. pose proof (Forall_inv_tail Sss) as Sss'.
    pose proof (Forall_inv Ses) as Se0. pose proof (Forall_inv_tail Ses) as Ses'.
    cbn beta in Ss0, Se0.
    cbn [buildIPv6Patterns_from buildRows].
    change (Z.of_nat 8) with 8.
    assert (Mx : lexle ss' (repeat 65535 r)).
    { rewrite <- Hss. apply lexle_repeat_max.
      eapply Forall_impl; [|exact Sss']. cbn. intros; lia. }
    assert (Mn : lexle (repeat 0 r) es').
    { rewrite <- Hes. apply lexle_repeat_min.
      eapply Forall_impl; [|exact Ses']. cbn. intros; lia. }
    destruct (isFullRange (pre ++ s0 :: ss') (pre' ++ e0 :: es') (length pre) 0 65535).
    { exists cache. split; [reflexivity | exact C]. }
    rewrite nth_at.
    assert (En : nth (length pre) (pre' ++ e0 :: es') 0 = e0)
      by (rewrite Hpre; apply nth_at).
    rewrite En. clear En.
    assert (V1 : forall l : list Z, pre ++ s0 :: l = (pre ++ [s0]) ++ l)
      by (intros l; rewrite <- app_assoc; reflexivity).
    assert (V2 : forall l : list Z, pre' ++ e0 :: l = (pre' ++ [e0]) ++ l)
      by (intros l; rewrite <- app_assoc; reflexivity).
    assert (I1 : (length pre + 1)%nat = length (pre ++ [s0]))
      by (rewrite length_app; reflexivity).
    assert (Hp1 : length (pre ++ [s0]) = length (pre' ++ [e0]))
      by (rewrite !length_app; cbn; lia).
    assert (Hc1 : (length (pre ++ [s0]) + r = 8)%nat)
      by (rewrite length_app; cbn; lia).
    destruct (Z.eqb_spec s0 e0) as [<-|Hne].
    + destruct (hextetRangePattern_refines s0 s0 cache) as (c1 & E1 & C1);
        [lia | lia | lia | exact C |].
      rewrite (bindM_ok _ _ _ _ _ E1).
      rewrite (V1 ss'), (V2 es'), I1.
      assert (Hlex' : lexle ss' es') by (cbn in Hlex; intuition lia).
      destruct (IH (pre ++ [s0]) (pre' ++ [s0]) ss' es' c1 Hp1 Hss Hes Hc1
                   Sss' Ses' Hlex' C1) as (c2 & E2 & C2).
      rewrite (bindM_ok _ _ _ _ _ E2).
      exists c2. split; [reflexivity | exact C2].
    + assert (Hlt : s0 < e0) by (cbn in Hlex; intuition lia).
      rewrite arraySet_at.
      rewrite fillFrom_at by (rewrite length_app; cbn; lia).
      assert (Ea : arraySet (length pre) e0 (pre' ++ e0 :: es') = pre' ++ e0 :: es')
        by (rewrite Hpre; apply arraySet_at).
      rewrite Ea. clear Ea.
      assert (Ef : fillFrom (length pre + 1) 8 0 (pre' ++ e0 :: es')
                   = pre' ++ e0 :: repeat 0 (length es')).
      { rewrite Hpre. apply fillFrom_at. rewrite length_app. cbn. lia. }
      rewrite Ef. clear Ef.
      rewrite Hss, Hes.
      rewrite (V1 ss'), (V1 (repeat 65535 r)), (V2 es'), (V2 (repeat 0 r)), I1.
      destruct (hextetRangePattern_refines s0 s0 cache) as (c1 & E1 & C1);
        [lia | lia | lia | exact C |].
      rewrite (bindM_ok _ _ _ _ _ E1).
      destruct (IH (pre ++ [s0]) (pre ++ [s0]) ss' (repeat 65535 r) c1
                   eq_refl Hss (repeat_length 65535 r) Hc1
                   Sss' (Forall_seg_repeat 65535 65535 r ltac:(lia)) Mx C1)
        as (c2 & E2 & C2).
      rewrite (bindM_ok _ _ _ _ _ E2).
      assert (HM : exists c3,
                 (if s0 + 1 <=? e0 - 1
                  then middle <~ hextetRangePattern (s0 + 1) (e0 - 1) ;;
                       retM [match ipv6AnySuffix (8 - Z.of_nat (length pre) - 1) with
                             | [] => middle
                             | _ :: _ => middle ++ lit ":"
                                         ++ ipv6AnySuffix (8 - Z.of_nat (length pre) - 1)
                             end]
                  else retM []) c2
                 = (Ok (if s0 + 1 <=? e0 - 1
                        then [match ipv6AnySuffix (8 - Z.of_nat (length pre) - 1) with
                              | [] => hextetText (s0 + 1) (e0 - 1)
                              | _ :: _ => hextetText (s0 + 1) (e0 - 1) ++ lit ":"
                                          ++ ipv6AnySuffix (8 - Z.of_nat (length pre) - 1)
                              end]
                        else []), c3)
                 /\ Coherent c3).
      { destruct (Z.leb_spec (s0 + 1) (e0 - 1)) as [Hm|Hm].
        - destruct (hextetRangePattern_refines (s0 + 1) (e0 - 1) c2)
            as (c3 & E3 & C3); [lia | lia | lia | exact C2 |].
          rewrite (bindM_ok _ _ _ _ _ E3).
          exists c3. split; [reflexivity | exact C3].
        - exists c2. split; [reflexivity | exact C2]. }
      destruct HM as (c3 & E3 & C3).
      rewrite (bindM_ok _ _ _ _ _ E3).
      destruct (hextetRangePattern_refines e0 e0 c3) as (c4 & E4 & C4);
        [lia | lia | lia | exact C3 |].
      rewrite (bindM_ok _ _ _ _ _ E4).
      assert (Hc2 : (length (pre' ++ [e0]) + r = 8)%nat)
        by (rewrite <- Hp1; exact Hc1).
      destruct (IH (pre' ++ [e0]) (pre' ++ [e0]) (repeat 0 r) es' c4
                   eq_refl (repeat_length 0 r) Hes Hc2
                   (Forall_seg_repeat 65535 0 r ltac:(lia)) Ses' Mn C4)
        as (c5 & E5 & C5).
      rewrite <- Hp1 in E5.
      rewrite (bindM_ok _ _ _ _ _ E5).
      exists c5. split; [reflexivity | exact C5].
Qed.

Lemma buildIPv6Patterns_spec (start end_ : list Z) (cache : Cache) :
  length start = 8%nat -> length end_ = 8%nat ->
  Forall (fun v => 0 <= v <= 65535) start ->
  Forall (fun v => 0 <= v <= 65535) end_ ->
  lexle start end_ ->
  Coherent cache ->
  exists ps cache',
    buildIPv6Patterns start end_ 0 cache = (Ok ps, cache')
    /\ Coherent cache'
    /\ Forall (Row (lit ":") ":"%char 8) ps
    /\ ps <> []
    /\ forall s, rowsLang ps s
                 <-> exists vs, length vs = 8%nat
                                /\ Forall (fun v => 0 <= v <= 65535) vs
                                /\ lexle start vs /\ lexle vs end_
                                /\ s = showRow hex4 (lit ":") vs.
Proof.
  intros Hs He Ss Se Hlex C. unfold buildIPv6Patterns.
  destruct (buildIPv6Patterns_from_refines 8 [] [] start end_ cache
              eq_refl Hs He eq_refl Ss Se Hlex C) as (cache' & E & C').
  cbn [app length] in E. cbn [Nat.sub].
  eexists. exists cache'. split; [exact E|]. split; [exact C'|].
  exact (buildRows_IPv6_spec start end_ Hs He Ss Se Hlex).
Qed.

(** ** Hextets of an address *)

Lemma ipv6ToHextets_div (a : Z) :
  ipv6ToHextets a
  = [ (a / 2 ^ 112) mod 65536; (a / 2 ^ 96) mod 65536;
      (a / 2 ^ 80) mod 65536; (a / 2 ^ 64) mod 65536;
      (a / 2 ^ 48) mod 65536; (a / 2 ^ 32) mod 65536;
      (a / 2 ^ 16) mod 65536; a mod 65536 ].
Proof.
  unfold ipv6ToHextets. cbn [map seq Nat.sub Nat.mul Nat.add].
  rewrite !land_65535, !Z.shiftr_div_pow2 by lia.
  change (2 ^ Z.of_nat 0) with 1. rewrite Z.div_1_r. reflexivity.
Qed.

Lemma ipv6ToHextets_hextets (a : Z) :
  length (ipv6ToHextets a) = 8%nat
  /\ Forall (fun v => 0 <= v <= 65535) (ipv6ToHextets a).
Proof.
  rewrite ipv6ToHextets_div. split; [reflexivity|].
  assert (B : forall x, 0 <= x mod 65536 <= 65535)
    by (intros x; pose proof (Z.mod_pos_bound x 65536 ltac:(lia)); lia).
  repeat (constructor; [apply B|]). constructor.
Qed.

Lemma ipv6ToHextets_value (a : Z) :
  0 <= a < 2 ^ 128 -> segmentsValue 65536 (ipv6ToHextets a) = a.
Proof.
  intros Ha. rewrite ipv6ToHextets_div. unfold segmentsValue. cbn [fold_left].
  change (2 ^ 128) with 340282366920938463463374607431768211456 in Ha.
  change (2 ^ 112) with 5192296858534827628530496329220096.
  change (2 ^ 96) with 79228162514264337593543950336.
  change (2 ^ 80) with 1208925819614629174706176.
  change (2 ^ 64) with 18446744073709551616.
  change (2 ^ 48) with 281474976710656.
  change (2 ^ 32) with 4294967296.
  change (2 ^ 16) with 65536.
  Z.div_mod_to_equations. lia.
Qed.

Lemma ipv6ToHextets_of_value (vs : list Z) :
  length vs = 8%nat -> Forall (fun v => 0 <= v <= 65535) vs ->
  ipv6ToHextets (segmentsValue 65536 vs) = vs
  /\ 0 <= segmentsValue 65536 vs < 2 ^ 128.
Proof.
  intros Hlen Hvs.
  destruct vs as [|a [|b [|c [|d [|e [|f [|g [|h [|? ?]]]]]]]]];
    try discriminate Hlen.
  pose proof (Forall_inv Hvs) as Ha. apply Forall_inv_tail in Hvs.
  pose proof (Forall_inv Hvs) as Hb. apply Forall_inv_tail in Hvs.
  pose proof (Forall_inv Hvs) as Hc. apply Forall_inv_tail in Hvs.
  pose proof (Forall_inv Hvs) as Hd. apply Forall_inv_tail in Hvs.
  pose proof (Forall_inv Hvs) as He. apply Forall_inv_tail in Hvs.
  pose proof (Forall_inv Hvs) as Hf. apply Forall_inv_tail in Hvs.
  pose proof (Forall_inv Hvs) as Hg. apply Forall_inv_tail in Hvs.
  pose proof (Forall_inv Hvs) as Hh.
  cbn beta in Ha, Hb, Hc, Hd, He, Hf, Hg, Hh. clear Hvs Hlen.
  rewrite ipv6ToHextets_div. unfold segmentsValue. cbn [fold_left].
  change (2 ^ 128) with 340282366920938463463374607431768211456.
  change (2 ^ 112) with 5192296858534827628530496329220096.
  change (2 ^ 96) with 79228162514264337593543950336.
  change (2 ^ 80) with 1208925819614629174706176.
  change (2 ^ 64) with 18446744073709551616.
  change (2 ^ 48) with 281474976710656.
  change (2 ^ 32) with 4294967296.
  change (2 ^ 16) with 65536.
  split; [|lia].
  repeat f_equal; Z.div_mod_to_equations; lia.
Qed.

(** ** Canonical IPv6 text *)

Lemma hex4_inj (v w : Z) :
  0 <= v <= 65535 -> 0 <= w <= 65535 -> hex4 v = hex4 w -> v = w.
Proof.
  intros Hv Hw E. rewrite (hex4_digits v Hv), (hex4_digits w Hw) in E.
  apply hexText_inj in E;
    [|exact (proj2 (hexDigits4_digits v)) | exact (proj2 (hexDigits4_digits w))].
  rewrite <- (hexDigits4_value v Hv), <- (hexDigits4_value w Hw), E. reflexivity.
Qed.

Lemma digitChar_plain (d : Z) :
  0 <= d <= 15 -> digitChar d <> ":"%char /\ Str.lower (digitChar d) = digitChar d.
Proof. intros Hd. digit_cases d Hd; split; (discriminate || reflexivity). Qed.

Lemma hex4_no_colon (v : Z) : 0 <= v <= 65535 -> ~ In ":"%char (hex4 v).
Proof.
  intros Hv Hin. rewrite (hex4_digits v Hv) in Hin.
  apply in_map_iff in Hin. destruct Hin as (d & E & Hd).
  pose proof (proj1 (Forall_forall _ _) (proj2 (hexDigits4_digits v)) d Hd) as Hd'.
  exact (proj1 (digitChar_plain d Hd') E).
Qed.

Lemma hex4_lower (v : Z) : 0 <= v <= 65535 -> map Str.lower (hex4 v) = hex4 v.
Proof.
  intros Hv. rewrite (hex4_digits v Hv).
  pose proof (proj2 (hexDigits4_digits v)) as F.
  induction F as [|d ds Hd _ IH]; [reflexivity|].
  cbn [hexText map]. rewrite (proj2 (digitChar_plain d Hd)). f_equal. exact IH.
Qed.

Lemma lower_join (sep : str) (parts : list str) :
  map Str.lower sep = sep ->
  Forall (fun p => map Str.lower p = p) parts ->
  map Str.lower (Str.join sep parts) = Str.join sep parts.
Proof.
  intros Hsep. induction 1 as [|p ps Hp _ IH]; [reflexivity|].
  destruct ps as [|q ps]; [exact Hp|].
  rewrite join_cons2, !map_app, Hp, Hsep, IH. reflexivity.
Qed.

Lemma canonicalIPv6_lower (a : Z) :
  map Str.lower (canonicalIPv6 a) = canonicalIPv6 a.
Proof.
  unfold canonicalIPv6, showRow. apply lower_join; [reflexivity|].
  apply Forall_forall. intros p Hp. apply in_map_iff in Hp.
  destruct Hp as (v & <- & Hv). apply hex4_lower.
  exact (proj1 (Forall_forall _ _) (proj2 (ipv6ToHextets_hextets a)) v Hv).
Qed.

Lemma canonicalIPv6_inj (a a' : Z) :
  0 <= a < 2 ^ 128 -> 0 <= a' < 2 ^ 128 ->
  canonicalIPv6 a = canonicalIPv6 a' -> a = a'.
Proof.
  intros Ha Ha' E. unfold canonicalIPv6 in E.
  destruct (ipv6ToHextets_hextets a) as [L O].
  destruct (ipv6ToHextets_hextets a') as [L' O'].
  apply (showRow_inj hex4 ":"%char (fun v => 0 <= v <= 65535)
                     hex4_inj hex4_no_colon
                     (ipv6ToHextets a) (ipv6ToHextets a')
                     (eq_trans L (eq_sym L')) O O') in E.
  rewrite <- (ipv6ToHextets_value a Ha), <- (ipv6ToHextets_value a' Ha'), E.
  reflexivity.
Qed.

(** ** IPv6: what the compiled expression matches *)

Lemma ipv6_interval_rows (start end_ : Z) (s : str) :
  0 <= start -> start <= end_ -> end_ < 2 ^ 128 ->
  (exists vs, length vs = 8%nat /\ Forall (fun v => 0 <= v <= 65535) vs
              /\ lexle (ipv6ToHextets start) vs /\ lexle vs (ipv6ToHextets end_)
              /\ s = showRow hex4 (lit ":") vs)
  <-> exists a, start <= a <= end_ /\ s = canonicalIPv6 a.
Proof.
  intros H0 Hle Hlt.
  destruct (ipv6ToHextets_hextets start) as [Ls Os].
  destruct (ipv6ToHextets_hextets end_) as [Le Oe].
  split.
  - intros (vs & Hlen & Hvs & Hl1 & Hl2 & ->).
    destruct (ipv6ToHextets_of_value vs Hlen Hvs) as [E B].
    exists (segmentsValue 65536 vs). split.
    + apply (lexle_value 65536) in Hl1; [|lia | congruence | assumption | assumption].
      apply (lexle_value 65536) in Hl2; [|lia | congruence | assumption | assumption].
      rewrite ipv6ToHextets_value in Hl1, Hl2 by lia. lia.
    + unfold canonicalIPv6. rewrite E. reflexivity.
  - intros (a & Ha & ->).
    destruct (ipv6ToHextets_hextets a) as [La Oa].
    exists (ipv6ToHextets a). split; [exact La|]. split; [exact Oa|].
    split; [|split; [|reflexivity]];
      apply (lexle_value 65536); try lia; try congruence; try assumption;
      rewrite !ipv6ToHextets_value by lia; lia.
Qed.

Lemma compileRange_IPv6 (start end_ : Z) (cache : Cache) :
  0 <= start -> start <= end_ -> end_ < 2 ^ 128 ->
  Coherent cache ->
  exists rx cache',
    (built <~ buildIPv6Patterns (ipv6ToHextets start) (ipv6ToHextets end_) 0 ;;
     patterns <~ liftR (minimizePatternSet (uniquePatterns built) (lit ":") 8) ;;
     liftR (buildRegex patterns (lit "i"))) cache = (Ok rx, cache')
    /\ Coherent cache'
    /\ flags rx = lit "i"
    /\ forall s, test rx s = true
                 <-> exists a, start <= a <= end_
                               /\ map Str.lower s = canonicalIPv6 a.
Proof.
  intros B0 B1 B2 C.
  destruct (ipv6ToHextets_hextets start) as [Ls Os].
  destruct (ipv6ToHextets_hextets end_) as [Le Oe].
  assert (Hlex : lexle (ipv6ToHextets start) (ipv6ToHextets end_)).
  { apply (lexle_value 65536 _ ltac:(lia) _ (eq_trans Ls (eq_sym Le)) Os Oe).
    rewrite !ipv6ToHextets_value by lia. exact B1. }
  destruct (buildIPv6Patterns_spec _ _ cache Ls Le Os Oe Hlex C)
    as (ps & cache' & Eb & C' & R & N & L).
  assert (Ru : Forall (Row (lit ":") ":"%char 8) (uniquePatterns ps)).
  { apply Forall_forall. intros p Hp'.
    apply (proj1 (uniquePatterns_In _ _)) in Hp'.
    rewrite Forall_forall in R. exact (R p Hp'). }
  assert (H08 : (0 < 8)%nat) by lia.
  destruct (minimizePatternSet_spec (lit ":") ":"%char (lit ":")
              Pattern_colon langOf_colon
              (or_intror (conj eq_refl eq_refl)) 8 (uniquePatterns ps)
              H08 Ru) as (out & E & Po & No & _ & Lo).
  destruct (buildRegex_test out (lit "i") (No (uniquePatterns_nonempty ps N)) Po)
    as (rx & Erx & _ & Hfl & Lrx).
  exists rx, cache'. rewrite (bindM_ok _ _ _ _ _ Eb).
  unfold bindM, liftR. rewrite E, Erx.
  split; [reflexivity|]. split; [exact C'|]. split; [exact Hfl|].
  intros s. rewrite Lrx.
  change (Str.includes (lit "i") (lit "i")) with true. cbv iota.
  rewrite Lo, rowsLang_unique, L.
  apply ipv6_interval_rows; assumption.
Qed.

Lemma compileParsed_IPv6 (addr plen : Z) (cache : Cache) :
  0 <= addr < 2 ^ 128 -> 0 <= plen <= 128 ->
  Coherent cache ->
  exists rx cache',
    compileParsed (mkParsed IPv6 addr plen) cache = (Ok rx, cache')
    /\ Coherent cache'
    /\ flags rx = lit "i"
    /\ forall s, test rx s = true
                 <-> exists a, fst (normalizeRange addr 128 plen) <= a
                                 <= snd (normalizeRange addr 128 plen)
                               /\ map Str.lower s = canonicalIPv6 a.
Proof.
  intros Ha Hp C.
  destruct (normalizeRange_bounds addr 128 plen Hp Ha) as (B0 & B1 & B2).
  exact (compileRange_IPv6 _ _ cache B0 B1 B2 C).
Qed.

(** ** What the parser returns *)

Lemma lor_shiftl_add (v o n : Z) :
  0 <= n -> 0 <= o < 2 ^ n -> Z.lor (Z.shiftl v n) o = v * 2 ^ n + o.
Proof.
  intros Hn Ho.
  assert (D : Z.land (Z.shiftl v n) o = 0).
  { apply Z.bits_inj'. intros m Hm. rewrite Z.land_spec, Z.bits_0.
    destruct (Z.lt_ge_cases m n) as [Hlt|Hge].
    - rewrite Z.shiftl_spec_low by lia. reflexivity.
    - rewrite (testbit_above o n m Ho Hge). apply andb_false_r. }
  rewrite <- Z.lxor_lor by exact D.
  rewrite <- Z.add_nocarry_lxor by exact D.
  rewrite Z.shiftl_mul_pow2 by lia. reflexivity.
Qed.

Lemma parseByte_go_bounds (part : str) :
  forall value o,
    0 <= value <= 255 -> parseByte_go value part = Some o -> 0 <= o <= 255.
Proof.
  induction part as [|c part IH]; intros value o Hv H; cbn [parseByte_go] in H.
  - injection H as <-. exact Hv.
  - destruct ((Str.code c <? 48) || (Str.code c >? 57)) eqn:E; [discriminate|].
    apply orb_false_iff in E. destruct E as [E1 E2].
    apply Z.ltb_ge in E1. rewrite Z.gtb_ltb in E2. apply Z.ltb_ge in E2.
    destruct (value * 10 + (Str.code c - 48) >? 255) eqn:E3; [discriminate|].
    rewrite Z.gtb_ltb in E3. apply Z.ltb_ge in E3.
    apply (IH (value * 10 + (Str.code c - 48)) o); [lia | exact H].
Qed.

Lemma parseByte_bounds (part : str) (o : Z) :
  parseByte part = Some o -> 0 <= o <= 255.
Proof.
  unfold parseByte. destruct part; [discriminate|].
  apply parseByte_go_bounds. lia.
Qed.

Lemma parseIPv4_go_value (parts : list str) :
  forall value a,
    parseIPv4_go value parts = Some a ->
    exists octets,
      length octets = length parts
      /\ Forall (fun v => 0 <= v <= 255) octets
      /\ a = fold_left (fun acc v => acc * 256 + v) octets value.
Proof.
  induction parts as [|part parts IH]; intros value a H; cbn [parseIPv4_go] in H.
  - injection H as <-. exists []. repeat split. constructor.
  - destruct (negb (Str.allDigits part)); [discriminate|].
    destruct (parseByte part) as [octet|] eqn:E; [|discriminate].
    apply parseByte_bounds in E.
    rewrite (lor_shiftl_add value octet 8) in H by lia.
    destruct (IH _ _ H) as (octets & Hlen & F & ->).
    exists (octet :: octets). split; [cbn; lia|].
    split; [constructor; assumption | reflexivity].
Qed.

Lemma parseIPv4_value (text : str) (a : Z) :
  parseIPv4 text = Some a ->
  exists octets,
    length octets = 4%nat /\ Forall (fun v => 0 <= v <= 255) octets
    /\ a = segmentsValue 256 octets.
Proof.
  unfold parseIPv4.
  destruct (length (Str.split (lit ".") text) =? 4)%nat eqn:E; [|discriminate].
  apply Nat.eqb_eq in E. cbn [negb]. intros H.
  destruct (parseIPv4_go_value _ _ _ H) as (octets & Hlen & F & ->).
  exists octets. split; [congruence|]. split; [exact F | reflexivity].
Qed.

Lemma parseIPv4_bounds (text : str) (a : Z) :
  parseIPv4 text = Some a -> 0 <= a < 2 ^ 32.
Proof.
  intros H. destruct (parseIPv4_value text a H) as (octets & Hlen & F & ->).
  exact (proj2 (ipv4ToOctets_of_value octets Hlen F)).
Qed.

Lemma digitValue_bounds (c : ascii) (d : Z) :
  digitValue c = Some d -> 0 <= d <= 15.
Proof.
  intros H.
  pose proof (forall_ascii
                (fun c => match digitValue c with
                          | Some d => (0 <=? d) && (d <=? 15)
                          | None => true
                          end)
                ltac:(vm_compute; reflexivity) c) as B.
  cbv beta in B. rewrite H in B. lia.
Qed.

Lemma parseInt_fold_bounds (radix : Z) (s : str) :
  16 <= radix \/ radix = 10 ->
  forall acc,
    0 <= acc ->
    0 <= fold_left (fun acc c =>
                      acc * radix + match digitValue c with
                                    | Some d => d
                                    | None => 0
                                    end) s acc
    /\ (16 <= radix ->
        fold_left (fun acc c =>
                     acc * radix + match digitValue c with
                                   | Some d => d
                                   | None => 0
                                   end) s acc
        < (acc + 1) * radix ^ Z.of_nat (length s)).
Proof.
  intros Hr. induction s as [|c s IH]; intros acc Hacc.
  - cbn [fold_left length]. change (radix ^ Z.of_nat 0) with 1. lia.
  - cbn [fold_left].
    assert (Hd : 0 <= match digitValue c with Some d => d | None => 0 end <= 15).
    { destruct (digitValue c) as [d|] eqn:E; [exact (digitValue_bounds c d E) | lia]. }
    destruct (IH (acc * radix + match digitValue c with Some d => d | None => 0 end)
                 ltac:(nia)) as [I1 I2].
    split; [exact I1|]. intros H16. specialize (I2 H16).
    rewrite length_cons, Nat2Z.inj_succ, Z.pow_succ_r by lia.
    assert (0 < radix ^ Z.of_nat (length s)) by (apply Z.pow_pos_nonneg; lia).
    nia.
Qed.

Lemma parseInt_nonneg (s : str) : 0 <= parseInt 10 s.
Proof.
  unfold parseInt.
  exact (proj1 (parseInt_fold_bounds 10 s (or_intror eq_refl) 0 (Z.le_refl 0))).
Qed.

Lemma parseInt_hextet (part : str) :
  isHextetText part = true -> 0 <= parseInt 16 part <= 65535.
Proof.
  unfold isHextetText. intros H.
  apply andb_true_iff in H. destruct H as [H _].
  apply andb_true_iff in H. destruct H as [_ H]. apply Nat.leb_le in H.
  unfold parseInt.
  destruct (parseInt_fold_bounds 16 part (or_introl (Z.le_refl 16)) 0 (Z.le_refl 0))
    as [I1 I2].
  specialize (I2 (Z.le_refl 16)).
  assert (16 ^ Z.of_nat (length part) <= 16 ^ 4)
    by (apply Z.pow_le_mono_r; lia).
  change (16 ^ 4) with 65536 in *. lia.
Qed.

Lemma parseHextetParts_hextets (parts : list str) :
  forall out,
    parseHextetParts parts = Some out ->
    length out = length parts /\ Forall (fun v => 0 <= v <= 65535) out.
Proof.
  induction parts as [|part parts IH]; intros out H; cbn [parseHextetParts] in H.
  - injection H as <-. split; [reflexivity | constructor].
  - destruct (isHextetText part) eqn:E; [|discriminate]. cbn [negb] in H.
    destruct (parseHextetParts parts) as [rest|]; [|discriminate].
    injection H as <-. destruct (IH rest eq_refl) as [L F].
    split; [cbn; lia|]. constructor; [apply parseInt_hextet; exact E | exact F].
Qed.

Lemma hextetsValue_fold (hextets : list Z) :
  Forall (fun v => 0 <= v <= 65535) hextets ->
  forall acc,
    fold_left (fun value hextet => Z.lor (Z.shiftl value 16) hextet) hextets acc
    = fold_left (fun acc v => acc * 65536 + v) hextets acc.
Proof.
  induction 1 as [|h hs Hh _ IH]; intros acc; [reflexivity|].
  cbn [fold_left]. rewrite (lor_shiftl_add acc h 16) by lia.
  change (2 ^ 16) with 65536. apply IH.
Qed.

Lemma hextetsValue_segments (hextets : list Z) :
  Forall (fun v => 0 <= v <= 65535) hextets ->
  hextetsValue hextets = segmentsValue 65536 hextets.
Proof. intros F. exact (hextetsValue_fold hextets F 0). Qed.

Lemma parseIPv6_value (text : str) (a : Z) :
  parseIPv6 text = Some a ->
  exists hextets,
    length hextets = 8%nat /\ Forall (fun v => 0 <= v <= 65535) hextets
    /\ a = segmentsValue 65536 hextets.
Proof.
  unfold parseIPv6.
  destruct (expandEmbeddedIPv4 (Str.toLowerCase text)) as [|c0 normalized];
    [discriminate|].
  set (n := c0 :: normalized).
  destruct (1 <? Str.countMatches (lit "::") n)%nat; [discriminate|].
  cbv zeta.
  destruct (existsb _ _ || existsb _ _); [discriminate|].
  destruct (parseHextetParts _) as [parsedLeft|] eqn:EL; [|discriminate].
  destruct (parseHextetParts _) as [parsedRight|] eqn:ER in |- *; [|discriminate].
  apply parseHextetParts_hextets in EL, ER.
  destruct EL as [_ FL]. destruct ER as [_ FR].
  assert (G : forall hextets,
             Forall (fun v => 0 <= v <= 65535) hextets ->
             (if negb (length hextets =? 8)%nat then None
              else Some (hextetsValue hextets)) = Some a ->
             exists hextets,
               length hextets = 8%nat /\ Forall (fun v => 0 <= v <= 65535) hextets
               /\ a = segmentsValue 65536 hextets).
  { intros hextets F H.
    destruct (length hextets =? 8)%nat eqn:E; [|discriminate].
    apply Nat.eqb_eq in E. cbn [negb] in H. injection H as <-.
    exists hextets. split; [exact E|]. split; [exact F|].
    apply hextetsValue_segments. exact F. }
  destruct (Str.includes (lit "::") n).
  - destruct (8 <=? length parsedLeft + length parsedRight)%nat; [discriminate|].
    apply G. apply Forall_app. split; [exact FL|]. apply Forall_app.
    split; [|exact FR]. apply Forall_forall. intros x Hx.
    apply repeat_spec in Hx. lia.
  - destruct (negb (length parsedLeft =? 8)%nat); [discriminate|].
    apply G. exact FL.
Qed.

Lemma parseIPv6_bounds (text : str) (a : Z) :
  parseIPv6 text = Some a -> 0 <= a < 2 ^ 128.
Proof.
  intros H. destruct (parseIPv6_value text a H) as (hextets & Hlen & F & ->).
  exact (proj2 (ipv6ToHextets_of_value hextets Hlen F)).
Qed.

Lemma parseCidrText_WellFormed (text : str) (parsed : ParsedCidr) :
  parseCidrText text = Ok parsed -> WellFormed parsed.
Proof.
  unfold parseCidrText.
  destruct (Str.split _ _) as [|addressText [|prefixText [|? ?]]]; try discriminate.
  destruct addressText as [|c0 addressText]; [discriminate|].
  destruct (negb (Str.allDigits prefixText)); [discriminate|].
  pose proof (parseInt_nonneg prefixText) as Hp.
  destruct (Str.includes (lit ":") (c0 :: addressText)).
  - destruct ((parseInt 10 prefixText <? 0) || (parseInt 10 prefixText >? IPV6_BITS))
      eqn:E; [discriminate|].
    apply orb_false_iff in E. destruct E as [_ E].
    rewrite Z.gtb_ltb in E. apply Z.ltb_ge in E.
    destruct (parseIPv6 (c0 :: addressText)) as [a|] eqn:Ea; [|discriminate].
    intros H. injection H as <-. apply parseIPv6_bounds in Ea.
    split; cbn; [exact Ea | lia].
  - destruct ((parseInt 10 prefixText <? 0) || (parseInt 10 prefixText >? IPV4_BITS))
      eqn:E; [discriminate|].
    apply orb_false_iff in E. destruct E as [_ E].
    rewrite Z.gtb_ltb in E. apply Z.ltb_ge in E.
    destruct (parseIPv4 (c0 :: addressText)) as [a|] eqn:Ea; [|discriminate].
    intros H. injection H as <-. apply parseIPv4_bounds in Ea.
    split; cbn; [exact Ea | lia].
Qed.

Lemma parseCidr_WellFormed (input : jsValue) (parsed : ParsedCidr) :
  parseCidr input = Ok parsed -> WellFormed parsed.
Proof.
  unfold parseCidr. destruct (negb _); [discriminate|].
  destruct input; try discriminate. apply parseCidrText_WellFormed.
Qed.

Lemma cidrToRegex_compileParsed (input : jsValue) (cache : Cache) :
  cidrToRegex input cache
  = match parseCidr input with
    | Ok parsed => compileParsed parsed cache
    | Throw e => (Throw e, cache)
    end.
Proof.
  unfold cidrToRegex, compileParsed, bindM at 1, liftR at 1.
  destruct (parseCidr input); reflexivity.
Qed.

(** ** The compiler as a whole *)

Lemma normalizeRange_idem (value bits prefix : Z) :
  0 <= prefix <= bits -> 0 <= value < 2 ^ bits ->
  normalizeRange (fst (normalizeRange value bits prefix)) bits prefix
  = normalizeRange value bits prefix.
Proof.
  intros Hp Hv.
  destruct (normalizeRange_bounds value bits prefix Hp Hv) as (B0 & B1 & B2).
  rewrite (normalizeRange_masks (fst (normalizeRange value bits prefix)) bits prefix Hp)
    by lia.
  rewrite (normalizeRange_masks value bits prefix Hp Hv). cbn [fst].
  rewrite <- Z.land_assoc, Z.land_diag. reflexivity.
Qed.

Lemma canonical_lower (f : family) (a : Z) :
  foldCase f (canonical f a) = canonical f a.
Proof. destruct f; [reflexivity | apply canonicalIPv6_lower]. Qed.

Lemma canonical_inj (f : family) (a a' : Z) :
  0 <= a < 2 ^ bitsOf f -> 0 <= a' < 2 ^ bitsOf f ->
  canonical f a = canonical f a' -> a = a'.
Proof. destruct f; [apply canonicalIPv4_inj | apply canonicalIPv6_inj]. Qed.

Lemma intervalOf_bounds (parsed : ParsedCidr) :
  WellFormed parsed ->
  0 <= fst (intervalOf parsed)
  /\ fst (intervalOf parsed) <= snd (intervalOf parsed)
  /\ snd (intervalOf parsed) < 2 ^ bitsOf (pfamily parsed).
Proof.
  intros [Ha Hp]. apply normalizeRange_bounds; assumption.
Qed.

(** After a successful parse the compiler returns an expression, and the
    expression matches the canonical texts of the interval and nothing
    else. *)
Lemma compileParsed_spec (parsed : ParsedCidr) (cache : Cache) :
  WellFormed parsed -> Coherent cache ->
  exists rx cache',
    compileParsed parsed cache = (Ok rx, cache')
    /\ Coherent cache'
    /\ (pfamily parsed = IPv4 -> cache' = cache)
    /\ forall s, test rx s = true
                 <-> exists a, fst (intervalOf parsed) <= a <= snd (intervalOf parsed)
                               /\ foldCase (pfamily parsed) s
                                  = canonical (pfamily parsed) a.
Proof.
  destruct parsed as [f addr plen]. intros [Ha Hp] C. cbn in Ha, Hp.
  destruct f.
  - destruct (compileParsed_IPv4 addr plen cache Ha Hp) as (rx & E & _ & L).
    exists rx, cache. split; [exact E|]. split; [exact C|].
    split; [reflexivity | exact L].
  - destruct (compileParsed_IPv6 addr plen cache Ha Hp C)
      as (rx & cache' & E & C' & _ & L).
    exists rx, cache'. split; [exact E|]. split; [exact C'|].
    split; [discriminate | exact L].
Qed.

Lemma cidrToRegex_spec (input : jsValue) (parsed : ParsedCidr) (cache : Cache) :
  Coherent cache -> parseCidr input = Ok parsed ->
  exists rx cache',
    cidrToRegex input cache = (Ok rx, cache')
    /\ Coherent cache'
    /\ (pfamily parsed = IPv4 -> cache' = cache)
    /\ forall s, test rx s = true
                 <-> exists a, fst (intervalOf parsed) <= a <= snd (intervalOf parsed)
                               /\ foldCase (pfamily parsed) s
                                  = canonical (pfamily parsed) a.
Proof.
  intros C E. rewrite cidrToRegex_compileParsed, E.
  apply compileParsed_spec; [exact (parseCidr_WellFormed input parsed E) | exact C].
Qed.

(** The cache stays coherent through every call, failed ones included. *)
Lemma cidrToRegex_Coherent (input : jsValue) (cache : Cache) :
  Coherent cache -> Coherent (snd (cidrToRegex input cache)).
Proof.
  intros C. destruct (parseCidr input) as [parsed|e] eqn:E.
  - destruct (cidrToRegex_spec input parsed cache C E) as (rx & cache' & -> & C' & _).
    exact C'.
  - rewrite cidrToRegex_compileParsed, E. exact C.
Qed.

(** Every cache the program can reach is coherent. *)
Lemma cacheAfter_Coherent (inputs : list jsValue) : Coherent (cacheAfter inputs).
Proof.
  unfold cacheAfter.
  assert (G : forall cache, Coherent cache ->
                            Coherent (fold_left
                                        (fun cache input => snd (cidrToRegex input cache))
                                        inputs cache)).
  { induction inputs as [|input inputs IH]; intros cache C; [exact C|].
    cbn [fold_left]. apply IH. apply cidrToRegex_Coherent. exact C. }
  apply G. exact Coherent_empty.
Qed.

(** C1.  Round-trip membership.  For a text [input] that the parser
    accepts, with Numeric Interval [s, e], [cidrToRegex] returns an
    expression, and for every address [a] of the family the expression
    matches the canonical text of [a] (four dotted decimal octets, or eight
    colon-separated groups of four lower-case hex digits) if and only if
    [s <= a <= e].  The cache is any coherent cache; by
    [cacheAfter_Coherent] that is every cache the module can hold. *)
Theorem round_trip_membership (input : jsValue) (parsed : ParsedCidr) (cache : Cache) :
  Coherent cache ->
  parseCidr input = Ok parsed ->
  exists rx cache',
    cidrToRegex input cache = (Ok rx, cache')
    /\ forall a, 0 <= a < 2 ^ bitsOf (pfamily parsed) ->
                 (test rx (canonical (pfamily parsed) a) = true
                  <-> fst (intervalOf parsed) <= a <= snd (intervalOf parsed)).
Proof.
  intros C E.
  destruct (cidrToRegex_spec input parsed cache C E) as (rx & cache' & Erx & _ & _ & L).
  exists rx, cache'. split; [exact Erx|].
  intros a Ha. rewrite (L (canonical (pfamily parsed) a)), canonical_lower.
  destruct (intervalOf_bounds parsed (parseCidr_WellFormed input parsed E))
    as (B0 & B1 & B2).
  split.
  - intros (a' & Ha' & Ec).
    apply canonical_inj in Ec; [subst a'; exact Ha' | exact Ha | lia].
  - intros Hin. exists a. split; [exact Hin | reflexivity].
Qed.

Lemma round_trip_membership_witness :
  Coherent []
  /\ parseCidr (JsString (lit "10.0.0.5/24")) = Ok (mkParsed IPv4 167772165 24)
  /\ exists rx cache',
       cidrToRegex (JsString (lit "10.0.0.5/24")) [] = (Ok rx, cache')
       /\ forall a, 0 <= a < 2 ^ 32 ->
                    (test rx (canonicalIPv4 a) = true
                     <-> 167772160 <= a <= 167772415).
Proof.
  split; [exact Coherent_empty|]. split; [reflexivity|].
  exact (round_trip_membership (JsString (lit "10.0.0.5/24"))
                               (mkParsed IPv4 167772165 24) []
                               Coherent_empty eq_refl).
Defined.

(** ** Normalization *)

Lemma networkForm_interval (parsed : ParsedCidr) :
  WellFormed parsed -> intervalOf (networkForm parsed) = intervalOf parsed.
Proof.
  intros [Ha Hp]. unfold networkForm, intervalOf. cbn [pfamily address prefix].
  apply normalizeRange_idem; assumption.
Qed.

Lemma bool_eq_iff (b c : bool) : (b = true <-> c = true) -> b = c.
Proof. destruct b, c; intros [H1 H2]; auto; symmetry; auto. Qed.

(** C6.  Idempotent normalization.  When [input] parses to a prefix and
    [input'] parses to its canonical network form (the same family and
    prefix length, the address with its host bits zeroed), [cidrToRegex]
    returns an expression for each and the two match exactly the same
    strings. *)
Theorem network_form_equivalent
        (input input' : jsValue) (parsed : ParsedCidr) (cache cache0 : Cache) :
  Coherent cache -> Coherent cache0 ->
  parseCidr input = Ok parsed ->
  parseCidr input' = Ok (networkForm parsed) ->
  exists rx rx' cache' cache0',
    cidrToRegex input cache = (Ok rx, cache')
    /\ cidrToRegex input' cache0 = (Ok rx', cache0')
    /\ forall s, test rx s = test rx' s.
Proof.
  intros C C0 E E'.
  destruct (cidrToRegex_spec input parsed cache C E)
    as (rx & cache' & Erx & _ & _ & L).
  destruct (cidrToRegex_spec input' (networkForm parsed) cache0 C0 E')
    as (rx' & cache0' & Erx' & _ & _ & L').
  exists rx, rx', cache', cache0'. split; [exact Erx|]. split; [exact Erx'|].
  intros s. apply bool_eq_iff.
  rewrite (L s), (L' s).
  rewrite (networkForm_interval parsed (parseCidr_WellFormed input parsed E)).
  reflexivity.
Qed.

Lemma network_form_equivalent_witness :
  Coherent []
  /\ parseCidr (JsString (lit "10.0.0.5/24")) = Ok (mkParsed IPv4 167772165 24)
  /\ parseCidr (JsString (lit "10.0.0.0/24"))
     = Ok (networkForm (mkParsed IPv4 167772165 24))
  /\ exists rx rx' cache' cache0',
       cidrToRegex (JsString (lit "10.0.0.5/24")) [] = (Ok rx, cache')
       /\ cidrToRegex (JsString (lit "10.0.0.0/24")) [] = (Ok rx', cache0')
       /\ forall s, test rx s = test rx' s.
Proof.
  split; [exact Coherent_empty|]. split; [reflexivity|]. split; [reflexivity|].
  exact (network_form_equivalent (JsString (lit "10.0.0.5/24"))
                                 (JsString (lit "10.0.0.0/24"))
                                 (mkParsed IPv4 167772165 24) [] []
                                 Coherent_empty Coherent_empty eq_refl eq_refl).
Defined.

(** ** Failures *)

(** C7.  The parser is the only failure point.  For a well-formed Parsed
    Prefix the stages after the parser return an expression: no [throw] of
    [splitPattern], [hexValue] or the regular-expression constructor is
    reached, and no loop runs out of its budget.  So a call of
    [cidrToRegex] that fails has failed in the parser, with the
    invalid-CIDR error and the cache untouched; any other call returns an
    expression that matches exactly the canonical texts of the interval. *)
Theorem parser_only_failure_point (parsed : ParsedCidr) (cache : Cache) :
  WellFormed parsed -> Coherent cache ->
  (exists rx cache',
      compileParsed parsed cache = (Ok rx, cache')
      /\ forall s, test rx s = true
                   <-> exists a, fst (intervalOf parsed) <= a <= snd (intervalOf parsed)
                                 /\ foldCase (pfamily parsed) s
                                    = canonical (pfamily parsed) a)
  /\ (forall input e cache',
         cidrToRegex input cache = (Throw e, cache') ->
         parseCidr input = Throw InvalidCIDR /\ e = InvalidCIDR /\ cache' = cache)
  /\ (forall input parsed',
         parseCidr input = Ok parsed' ->
         WellFormed parsed'
         /\ exists rx cache', cidrToRegex input cache = (Ok rx, cache')).
Proof.
  intros W C. split; [|split].
  - destruct (compileParsed_spec parsed cache W C) as (rx & cache' & E & _ & _ & L).
    exists rx, cache'. split; assumption.
  - intros input e cache' H.
    destruct (parseCidr input) as [parsed'|e'] eqn:E.
    + destruct (cidrToRegex_spec input parsed' cache C E) as (rx & c & Erx & _).
      rewrite Erx in H. discriminate H.
    + rewrite cidrToRegex_compileParsed, E in H. injection H as <- <-.
      pose proof (parseCidr_error input e' E) as ->. auto.
  - intros input parsed' E. split; [exact (parseCidr_WellFormed input parsed' E)|].
    destruct (cidrToRegex_spec input parsed' cache C E) as (rx & c & Erx & _).
    exists rx, c. exact Erx.
Qed.

Lemma parser_only_failure_point_witness :
  WellFormed (mkParsed IPv6 42540766411282592856903984951653826560 32)
  /\ Coherent []
  /\ exists rx cache',
       compileParsed (mkParsed IPv6 42540766411282592856903984951653826560 32) []
       = (Ok rx, cache').
Proof.
  assert (W : WellFormed (mkParsed IPv6 42540766411282592856903984951653826560 32)).
  { unfold WellFormed, bitsOf, IPV6_BITS. cbn [pfamily address prefix].
    change (2 ^ 128) with 340282366920938463463374607431768211456. lia. }
  split; [exact W|]. split; [exact Coherent_empty|].
  destruct (proj1 (parser_only_failure_point
                     (mkParsed IPv6 42540766411282592856903984951653826560 32) []
                     W Coherent_empty)) as (rx & cache' & E & _).
  exists rx, cache'. exact E.
Defined.

(** ** Minimal decimal octets *)





(** ** The minimizer on the rows of the builders *)

(** C2.  Set-equivalence after minimization.  For a candidate set whose
    members are rows of per-segment fragments (four fragments joined by an
    escaped dot, or eight joined by a colon), as the builders produce them,
    the minimizer returns a pattern set that matches exactly the strings
    the candidate set matches, with no more rows than the candidate set;
    the expressions assembled from the two sets accept the same inputs
    under every flag. *)
Theorem minimizer_preserves_language
        (sep : str) (sepc : ascii) (k : nat) (patterns : list str) :
  (sep = lit "\." /\ sepc = "\"%char /\ k = 4%nat)
  \/ (sep = lit ":" /\ sepc = ":"%char /\ k = 8%nat) ->
  Forall (Row sep sepc k) patterns ->
  exists out,
    minimizePatternSet patterns sep k = Ok out
    /\ (length out <= length patterns)%nat
    /\ (forall s, rowsLang out s <-> rowsLang patterns s)
    /\ (patterns <> [] ->
        forall fl, exists rx rx',
            buildRegex out fl = Ok rx /\ buildRegex patterns fl = Ok rx'
            /\ forall s, test rx s = test rx' s).
Proof.
  intros Hsep R.
  assert (G : exists dot,
             Pattern sep /\ (forall s, langOf sep s <-> s = dot)
             /\ ((sep = lit "\." /\ sepc = "\"%char)
                 \/ (sep = lit ":" /\ sepc = ":"%char))
             /\ (0 < k)%nat).
  { destruct Hsep as [(-> & -> & ->) | (-> & -> & ->)].
    - exists (lit "."). split; [exact Pattern_escaped_dot|].
      split; [exact langOf_escaped_dot|]. split; [left; auto | lia].
    - exists (lit ":"). split; [exact Pattern_colon|].
      split; [exact langOf_colon|]. split; [right; auto | lia]. }
  destruct G as (dot & Psep & Lsep & Hpair & Hk).
  destruct (minimizePatternSet_spec sep sepc dot Psep Lsep Hpair k patterns Hk R)
    as (out & E & Po & No & Hlen & L).
  exists out. split; [exact E|]. split; [exact Hlen|]. split; [exact L|].
  intros Hne fl.
  assert (Pp : Forall Pattern patterns).
  { eapply Forall_impl; [|exact R]. intros p Hp.
    exact (Row_Pattern sep sepc Psep k p Hp). }
  destruct (buildRegex_test out fl (No Hne) Po) as (rx & Erx & _ & _ & Lrx).
  destruct (buildRegex_test patterns fl Hne Pp) as (rx' & Erx' & _ & _ & Lrx').
  exists rx, rx'. split; [exact Erx|]. split; [exact Erx'|].
  intros s. apply bool_eq_iff. rewrite (Lrx s), (Lrx' s). apply L.
Qed.

Lemma minimizer_preserves_language_witness :
  Forall (Row (lit "\.") "\"%char 4)
         (buildIPv4Patterns [10; 0; 0; 0] [10; 0; 3; 255] 0)
  /\ exists out,
       minimizePatternSet (buildIPv4Patterns [10; 0; 0; 0] [10; 0; 3; 255] 0)
                          (lit "\.") 4 = Ok out
       /\ Nat.le (length out)
                 (length (buildIPv4Patterns [10; 0; 0; 0] [10; 0; 3; 255] 0)).
Proof.
  assert (R : Forall (Row (lit "\.") "\"%char 4)
                     (buildIPv4Patterns [10; 0; 0; 0] [10; 0; 3; 255] 0)).
  { assert (S1 : Forall (fun v => 0 <= v <= 255) [10; 0; 0; 0])
      by (repeat (apply Forall_cons; [lia|]); apply Forall_nil).
    assert (S2 : Forall (fun v => 0 <= v <= 255) [10; 0; 3; 255])
      by (repeat (apply Forall_cons; [lia|]); apply Forall_nil).
    assert (S3 : lexle [10; 0; 0; 0] [10; 0; 3; 255]) by (cbn; lia).
    exact (proj1 (buildIPv4Patterns_spec [10; 0; 0; 0] [10; 0; 3; 255]
                                         eq_refl eq_refl S1 S2 S3)). }
  split; [exact R|].
  destruct (minimizer_preserves_language
              (lit "\.") "\"%char 4
              (buildIPv4Patterns [10; 0; 0; 0] [10; 0; 3; 255] 0)
              (or_introl (conj eq_refl (conj eq_refl eq_refl))) R)
    as (out & E & Hlen & _).
  exists out. split; [exact E | exact Hlen].
Defined.

(** ** Termination *)

Lemma hexValue_bounds (c : ascii) (d : Z) : hexValue c = Ok d -> 0 <= d <= 15.
Proof.
  unfold hexValue. intros H.
  destruct (indexOf_go c 0 HEX_DIGITS) as [v|] eqn:E; [|discriminate].
  injection H as <-. exact (digitValue_bounds c v E).
Qed.

Lemma hexDigitRange_total (start end_ : Z) :
  end_ <= 15 -> exists p, hexDigitRange start end_ = Ok p.
Proof.
  intros H15. unfold hexDigitRange.
  destruct (start =? end_); [eexists; reflexivity|].
  cbn [hexDigitRange_loop].
  destruct (Z.leb_spec start end_) as [H1|H1]; [|eexists; reflexivity].
  destruct (Z.leb_spec start 9) as [H2|H2].
  - destruct (Z.leb_spec (Z.min end_ 9 + 1) end_) as [H3|H3]; [|eexists; reflexivity].
    destruct (Z.leb_spec (Z.min end_ 9 + 1) 9) as [H4|H4]; [lia|].
    destruct (Z.leb_spec (Z.min end_ 15 + 1) end_) as [H5|H5]; [lia|].
    eexists; reflexivity.
  - destruct (Z.leb_spec (Z.min end_ 15 + 1) end_) as [H3|H3]; [lia|].
    eexists; reflexivity.
Qed.

Lemma bind_no_budget {A B : Type} (m : result A) (k : A -> result B) :
  m <> Throw BudgetExhausted ->
  (forall a, m = Ok a -> k a <> Throw BudgetExhausted) ->
  bind m k <> Throw BudgetExhausted.
Proof.
  intros Hm Hk. destruct m as [a|e]; cbn [bind].
  - apply Hk. reflexivity.
  - intros H. injection H as ->. apply Hm. reflexivity.
Qed.

Lemma mapM_no_budget {A B : Type} (f : A -> result B) (l : list A) :
  (forall a, f a <> Throw BudgetExhausted) ->
  mapM f l <> Throw BudgetExhausted.
Proof.
  intros Hf. induction l as [|a l IH]; [discriminate|].
  cbn [mapM]. apply bind_no_budget; [apply Hf|]. intros b _.
  apply bind_no_budget; [exact IH|]. discriminate.
Qed.

Lemma commonPrefixLength_le (low : str) :
  forall high, (commonPrefixLength low high <= length low)%nat.
Proof.
  induction low as [|a low IH]; intros [|b high]; cbn; try lia.
  destruct (Ascii.eqb a b); [|lia]. specialize (IH high). lia.
Qed.

Lemma hexRangeParts_from_no_budget (budget : nat) :
  forall low high,
    (length low <= budget)%nat ->
    hexRangeParts_from budget low high <> Throw BudgetExhausted.
Proof.
  induction budget as [|budget IH]; intros low high Hb.
  - destruct low; [|cbn in Hb; lia].
    cbn [hexRangeParts_from length].
    destruct high; cbn; discriminate.
  - cbn [hexRangeParts_from].
    destruct (negb (length low =? length high)%nat); [discriminate|].
    destruct (Str.eqb low high); [discriminate|].
    destruct (Str.eqb low (Str.repeat "0" (length low))
              && Str.eqb high (Str.repeat "f" (length low))); [discriminate|].
    pose proof (commonPrefixLength_le low high) as Hc.
    destruct (commonPrefixLength low high =? length low)%nat eqn:Es; [discriminate|].
    apply Nat.eqb_neq in Es.
    assert (Hsuf : (length low - commonPrefixLength low high - 1 <= budget)%nat) by lia.
    apply bind_no_budget; [unfold charAt; destruct (nth_error _ _); discriminate|].
    intros lowChar _.
    apply bind_no_budget; [unfold hexValue; destruct (indexOf_go _ _ _); discriminate|].
    intros lowDigit Hl. apply hexValue_bounds in Hl.
    apply bind_no_budget; [unfold charAt; destruct (nth_error _ _); discriminate|].
    intros highChar _.
    apply bind_no_budget; [unfold hexValue; destruct (indexOf_go _ _ _); discriminate|].
    intros highDigit Hh. apply hexValue_bounds in Hh.
    apply bind_no_budget.
    { apply IH. unfold Str.sliceFrom. rewrite length_skipn. lia. }
    intros lowerSuffixes _.
    apply bind_no_budget.
    { apply mapM_no_budget. intros a.
      destruct (hexDigitRange_total lowDigit lowDigit ltac:(lia)) as (p & ->).
      discriminate. }
    intros lowerParts _.
    apply bind_no_budget.
    { destruct (lowDigit + 1 <=? highDigit - 1); [|discriminate].
      destruct (hexDigitRange_total (lowDigit + 1) (highDigit - 1) ltac:(lia))
        as (p & ->).
      discriminate. }
    intros middleParts _.
    apply bind_no_budget.
    { apply IH. unfold Str.repeat. rewrite repeat_length. exact Hsuf. }
    intros upperSuffixes _.
    apply bind_no_budget.
    { apply mapM_no_budget. intros a.
      destruct (hexDigitRange_total highDigit highDigit ltac:(lia)) as (p & ->).
      discriminate. }
    intros upperParts _. discriminate.
Qed.

Lemma hex4_length (v : Z) : 0 <= v <= 65535 -> length (hex4 v) = 4%nat.
Proof. intros Hv. rewrite (hex4_digits v Hv). reflexivity. Qed.

(** C8.  Termination.  A call of [cidrToRegex] on a text the parser
    accepts returns an expression: no loop of the model uses up its
    budget.  The budgets are the ones the claim names.  A pass of the
    minimizer that sets [changed] returns strictly fewer rows, so one pass
    per row and one more is enough, and a larger budget gives the same
    rows.  The hextet range splitter recurses on strictly shorter digit
    strings, so a budget of the length of its input (four for a hextet) is
    never used up, and the digit-range loop ends for every upper digit up
    to 15.  The segment builders recurse structurally on the number of
    segments left (four or eight). *)
Theorem cidrToRegex_terminates (input : jsValue) (parsed : ParsedCidr) (cache : Cache) :
  Coherent cache ->
  parseCidr input = Ok parsed ->
  (exists rx cache', cidrToRegex input cache = (Ok rx, cache'))
  /\ (forall k rows,
         (length (fst (minimizePass k rows)) <= length rows)%nat
         /\ (snd (minimizePass k rows) = true ->
             (length (fst (minimizePass k rows)) < length rows)%nat))
  /\ (forall k rows budget,
         (length rows < budget)%nat ->
         exists rows',
           minimizeLoop (S (length rows)) k rows = Ok rows'
           /\ minimizeLoop budget k rows = Ok rows'
           /\ (length rows' <= length rows)%nat)
  /\ (forall low high budget,
         (length low <= budget)%nat ->
         hexRangeParts_from budget low high <> Throw BudgetExhausted)
  /\ (forall v, 0 <= v <= 65535 -> length (hex4 v) = 4%nat)
  /\ (forall start end_, end_ <= 15 -> exists p, hexDigitRange start end_ = Ok p).
Proof.
  intros C E. split; [|split; [|split; [|split; [|split]]]].
  - destruct (cidrToRegex_spec input parsed cache C E) as (rx & cache' & Erx & _).
    exists rx, cache'. exact Erx.
  - intros k rows. apply minimizePass_length.
  - intros k rows budget Hb.
    destruct (minimizeLoop_terminates k (S (length rows)) rows (Nat.lt_succ_diag_r _))
      as (rows' & E1 & Hlen).
    exists rows'. split; [exact E1|]. split; [|exact Hlen].
    rewrite <- E1. apply minimizeLoop_stable; [lia | exact Hb].
  - intros low high budget Hb. apply hexRangeParts_from_no_budget. exact Hb.
  - exact hex4_length.
  - exact hexDigitRange_total.
Qed.

Lemma cidrToRegex_terminates_witness :
  Coherent []
  /\ parseCidr (JsString (lit "2001:db8::/32"))
     = Ok (mkParsed IPv6 42540766411282592856903984951653826560 32)
  /\ exists rx cache', cidrToRegex (JsString (lit "2001:db8::/32")) [] = (Ok rx, cache').
Proof.
  split; [exact Coherent_empty|]. split; [vm_compute; reflexivity|].
  exact (proj1 (cidrToRegex_terminates
                  (JsString (lit "2001:db8::/32"))
                  (mkParsed IPv6 42540766411282592856903984951653826560 32) []
                  Coherent_empty
                  ltac:(vm_compute; reflexivity))).
Defined.

(** ** Splitting at one character *)

Lemma split1_step (c x : ascii) (cur s : str) :
  Str.split_go [c] 0 cur (x :: s)
  = if Ascii.eqb c x then rev cur :: Str.split_go [c] 0 [] s
    else Str.split_go [c] 0 (x :: cur) s.
Proof.
  cbn [Str.split_go Str.startsWith length Nat.sub]. rewrite andb_true_r.
  reflexivity.
Qed.

Lemma split1_app (c : ascii) (x y : str) :
  forall cur,
    Str.split_go [c] 0 cur (x ++ c :: y)
    = Str.split_go [c] 0 cur x ++ Str.split_go [c] 0 [] y.
Proof.
  induction x as [|a x IH]; intros cur; cbn [app].
  - rewrite split1_step, Ascii.eqb_refl. reflexivity.
  - rewrite !split1_step. destruct (Ascii.eqb c a); [rewrite IH; reflexivity | apply IH].
Qed.

Lemma split1_free (c : ascii) (g : str) :
  ~ In c g -> forall cur, Str.split_go [c] 0 cur g = [rev cur ++ g].
Proof.
  induction g as [|a g IH]; intros H cur.
  - cbn. rewrite app_nil_r. reflexivity.
  - rewrite split1_step.
    destruct (Ascii.eqb_spec c a) as [->|Hne]; [exfalso; apply H; left; reflexivity|].
    rewrite IH by (intros Hin; apply H; right; exact Hin).
    cbn [rev]. rewrite <- app_assoc. reflexivity.
Qed.

Lemma split1_single (c : ascii) (g : str) : ~ In c g -> Str.split [c] g = [g].
Proof. intros H. unfold Str.split. rewrite (split1_free c g H []). reflexivity. Qed.

Lemma split_go_nonempty (sep : str) (s : str) :
  forall skip cur, Str.split_go sep skip cur s <> [].
Proof.
  induction s as [|x s IH]; intros skip cur; cbn [Str.split_go]; [discriminate|].
  destruct skip; [|apply IH].
  destruct (Str.startsWith sep (x :: s)); [discriminate | apply IH].
Qed.

Lemma join_cons_more (sep p : str) (ps : list str) :
  ps <> [] -> Str.join sep (p :: ps) = p ++ sep ++ Str.join sep ps.
Proof. destruct ps; [congruence | reflexivity]. Qed.

Lemma split1_join (c : ascii) (gs : list str) :
  gs <> [] -> Forall (fun g => ~ In c g) gs ->
  Str.split [c] (Str.join [c] gs) = gs.
Proof.
  induction gs as [|g gs IH]; [congruence|]. intros _ F.
  destruct gs as [|g' gs].
  - cbn [Str.join]. apply split1_single. exact (Forall_inv F).
  - rewrite join_cons2. unfold Str.split.
    change ([c] ++ Str.join [c] (g' :: gs)) with (c :: Str.join [c] (g' :: gs)).
    rewrite split1_app, (split1_free c g (Forall_inv F) []). cbn [rev app].
    f_equal. apply IH; [discriminate | exact (Forall_inv_tail F)].
Qed.

Lemma join_split1_go (c : ascii) (s : str) :
  forall cur, Str.join [c] (Str.split_go [c] 0 cur s) = rev cur ++ s.
Proof.
  induction s as [|x s IH]; intros cur.
  - cbn. rewrite app_nil_r. reflexivity.
  - rewrite split1_step. destruct (Ascii.eqb_spec c x) as [<-|Hne].
    + rewrite join_cons_more by apply split_go_nonempty. rewrite IH. reflexivity.
    + rewrite IH. cbn [rev]. rewrite <- app_assoc. reflexivity.
Qed.

Lemma join_split1 (c : ascii) (s : str) : Str.join [c] (Str.split [c] s) = s.
Proof. exact (join_split1_go c s []). Qed.

Lemma split1_pieces_go (c : ascii) (s : str) :
  forall cur, ~ In c cur -> Forall (fun g => ~ In c g) (Str.split_go [c] 0 cur s).
Proof.
  induction s as [|x s IH]; intros cur H.
  - cbn. constructor; [|constructor]. rewrite <- in_rev. exact H.
  - rewrite split1_step. destruct (Ascii.eqb_spec c x) as [<-|Hne].
    + constructor; [rewrite <- in_rev; exact H | apply IH; intros []].
    + apply IH. intros [E|Hin]; [congruence | exact (H Hin)].
Qed.

Lemma split1_pieces (c : ascii) (s : str) :
  Forall (fun g => ~ In c g) (Str.split [c] s).
Proof. apply split1_pieces_go. intros []. Qed.

Lemma split1_concat (c : ascii) (x y : str) :
  Str.split [c] (x ++ c :: y) = Str.split [c] x ++ Str.split [c] y.
Proof. apply split1_app. Qed.

Lemma in_join (sep : str) (ch : ascii) (gs : list str) :
  In ch (Str.join sep gs) -> In ch sep \/ exists g, In g gs /\ In ch g.
Proof.
  induction gs as [|g gs IH]; [intros []|].
  destruct gs as [|g' gs].
  - cbn [Str.join]. intros H. right. exists g. split; [left; reflexivity | exact H].
  - rewrite join_cons2. intros H.
    apply in_app_or in H. destruct H as [H|H].
    + right. exists g. split; [left; reflexivity | exact H].
    + apply in_app_or in H. destruct H as [H|H]; [left; exact H|].
      destruct (IH H) as [H'|(g0 & Hg0 & H')]; [left; exact H'|].
      right. exists g0. split; [right; exact Hg0 | exact H'].
Qed.

Lemma includes1 (c : ascii) (s : str) : Str.includes [c] s = true <-> In c s.
Proof.
  induction s as [|x s IH]; cbn [Str.includes Str.startsWith].
  - split; [discriminate | intros []].
  - rewrite andb_true_r, orb_true_iff, IH. split.
    + intros [H|H]; [left; apply Ascii.eqb_eq in H; auto | right; exact H].
    + intros [H|H]; [left; apply Ascii.eqb_eq; auto | right; exact H].
Qed.

Lemma includes1_false (c : ascii) (s : str) : Str.includes [c] s = false <-> ~ In c s.
Proof.
  rewrite <- (includes1 c s). destruct (Str.includes [c] s); split; congruence.
Qed.

(** ** Counting and splitting *)

Lemma split_go_length (sep : str) (s : str) :
  forall skip cur,
    length (Str.split_go sep skip cur s) = S (Str.count_go sep skip s).
Proof.
  induction s as [|x s IH]; intros skip cur; cbn [Str.split_go Str.count_go];
    [reflexivity|].
  destruct skip; [|apply IH].
  destruct (Str.startsWith sep (x :: s)); [cbn [length]; rewrite IH; reflexivity|].
  apply IH.
Qed.

Lemma split_length (sep s : str) :
  length (Str.split sep s) = S (Str.countMatches sep s).
Proof. apply split_go_length. Qed.

Lemma count_includes (sep : str) (s : str) :
  sep <> [] ->
  ((1 <= Str.countMatches sep s)%nat <-> Str.includes sep s = true).
Proof.
  intros Hsep. unfold Str.countMatches.
  induction s as [|x s IH]; cbn [Str.count_go Str.includes].
  - destruct sep; [congruence|]. cbn. split; [lia | discriminate].
  - destruct (Str.startsWith sep (x :: s)); cbn [orb].
    + split; [reflexivity | lia].
    + exact IH.
Qed.

(** ** Splitting at the compression token *)

Lemma split2_step_other (c x : ascii) (cur s : str) :
  x <> c ->
  Str.split_go [c; c] 0 cur (x :: s) = Str.split_go [c; c] 0 (x :: cur) s.
Proof.
  intros H. cbn [Str.split_go Str.startsWith].
  replace (Ascii.eqb c x) with false
    by (symmetry; apply Ascii.eqb_neq; congruence).
  reflexivity.
Qed.

Lemma split2_step_single (c y : ascii) (cur s : str) :
  y <> c ->
  Str.split_go [c; c] 0 cur (c :: y :: s)
  = Str.split_go [c; c] 0 (c :: cur) (y :: s).
Proof.
  intros H. cbn [Str.split_go Str.startsWith].
  replace (Ascii.eqb c y) with false
    by (symmetry; apply Ascii.eqb_neq; congruence).
  rewrite Ascii.eqb_refl. reflexivity.
Qed.

Lemma split2_step_token (c : ascii) (cur s : str) :
  Str.split_go [c; c] 0 cur (c :: c :: s)
  = rev cur :: Str.split_go [c; c] 0 [] s.
Proof.
  cbn [Str.split_go Str.startsWith length Nat.sub]. rewrite Ascii.eqb_refl.
  reflexivity.
Qed.

Lemma split2_free (c : ascii) (g : str) :
  ~ In c g ->
  forall cur rest,
    Str.split_go [c; c] 0 cur (g ++ rest)
    = Str.split_go [c; c] 0 (rev g ++ cur) rest.
Proof.
  induction g as [|a g IH]; intros H cur rest; [reflexivity|].
  cbn [app]. rewrite split2_step_other by (intros ->; apply H; left; reflexivity).
  rewrite IH by (intros Hin; apply H; right; exact Hin).
  cbn [rev]. rewrite <- app_assoc. reflexivity.
Qed.

Lemma join_head (c : ascii) (g : str) (gs : list str) :
  g <> [] -> ~ In c g ->
  exists y tl, Str.join [c] (g :: gs) = y :: tl /\ y <> c.
Proof.
  intros Hne Hc. destruct g as [|y g]; [congruence|].
  assert (Hy : y <> c) by (intros ->; apply Hc; left; reflexivity).
  destruct gs as [|g' gs].
  - exists y, g. split; [reflexivity | exact Hy].
  - rewrite join_cons2. eexists y, _. split; [reflexivity | exact Hy].
Qed.

Lemma split2_groups (c : ascii) (gs : list str) :
  Forall (fun g => g <> [] /\ ~ In c g) gs ->
  forall cur rest,
    Str.split_go [c; c] 0 cur (Str.join [c] gs ++ rest)
    = Str.split_go [c; c] 0 (rev (Str.join [c] gs) ++ cur) rest.
Proof.
  induction gs as [|g gs IH]; intros F cur rest; [reflexivity|].
  destruct gs as [|g' gs].
  - cbn [Str.join]. apply split2_free. exact (proj2 (Forall_inv F)).
  - pose proof (Forall_inv_tail F) as F'.
    specialize (IH F').
    destruct (join_head c g' gs (proj1 (Forall_inv F')) (proj2 (Forall_inv F')))
      as (y & tl & Ej & Hy).
    rewrite join_cons2, <- !app_assoc.
    rewrite (split2_free c g (proj2 (Forall_inv F))).
    change ([c] ++ Str.join [c] (g' :: gs) ++ rest)
      with (c :: (Str.join [c] (g' :: gs) ++ rest)).
    rewrite Ej at 1. cbn [app]. rewrite split2_step_single by exact Hy.
    change (y :: tl ++ rest) with ((y :: tl) ++ rest). rewrite <- Ej.
    rewrite IH. f_equal.
    rewrite !rev_app_distr. cbn [rev app]. rewrite <- !app_assoc. reflexivity.
Qed.

Lemma split2_uncompressed (c : ascii) (gs : list str) :
  Forall (fun g => g <> [] /\ ~ In c g) gs ->
  Str.split [c; c] (Str.join [c] gs) = [Str.join [c] gs].
Proof.
  intros F. unfold Str.split.
  rewrite <- (app_nil_r (Str.join [c] gs)) at 1.
  rewrite (split2_groups c gs F [] []). cbn [Str.split_go].
  rewrite app_nil_r, rev_involutive. reflexivity.
Qed.

Lemma split2_compressed (c : ascii) (ls rs : list str) :
  Forall (fun g => g <> [] /\ ~ In c g) ls ->
  Forall (fun g => g <> [] /\ ~ In c g) rs ->
  Str.split [c; c] (Str.join [c] ls ++ [c; c] ++ Str.join [c] rs)
  = [Str.join [c] ls; Str.join [c] rs].
Proof.
  intros Fl Fr. unfold Str.split.
  rewrite (split2_groups c ls Fl [] _). rewrite app_nil_r.
  cbn [app]. rewrite split2_step_token, rev_involutive. f_equal.
  exact (split2_uncompressed c rs Fr).
Qed.

Lemma join_split2 (c : ascii) (n : nat) :
  forall s cur,
    (length s <= n)%nat ->
    Str.join [c; c] (Str.split_go [c; c] 0 cur s) = rev cur ++ s.
Proof.
  induction n as [|n IH]; intros s cur Hn.
  - destruct s; [|cbn in Hn; lia]. cbn. rewrite app_nil_r. reflexivity.
  - destruct s as [|x s]; [cbn; rewrite app_nil_r; reflexivity|].
    cbn [length] in Hn.
    destruct (Ascii.eqb_spec x c) as [->|Hx].
    + destruct s as [|y s].
      * cbn. rewrite Ascii.eqb_refl. cbn. reflexivity.
      * destruct (Ascii.eqb_spec y c) as [->|Hy].
        -- rewrite split2_step_token.
           rewrite join_cons_more by apply split_go_nonempty.
           rewrite IH by (cbn [length] in Hn; lia). reflexivity.
        -- rewrite split2_step_single by exact Hy.
           rewrite IH by lia. cbn [rev]. rewrite <- app_assoc. reflexivity.
    + rewrite split2_step_other by exact Hx.
      rewrite IH by lia. cbn [rev]. rewrite <- app_assoc. reflexivity.
Qed.

Lemma split2_two (c : ascii) (s : str) :
  Str.includes [c; c] s = true ->
  (Str.countMatches [c; c] s <= 1)%nat ->
  exists l r, Str.split [c; c] s = [l; r] /\ s = l ++ [c; c] ++ r.
Proof.
  intros Hi Hc.
  apply (count_includes [c; c] s ltac:(discriminate)) in Hi.
  pose proof (split_length [c; c] s) as Hlen.
  pose proof (join_split2 c (length s) s [] (Nat.le_refl _)) as Hj.
  fold (Str.split [c; c] s) in Hj.
  destruct (Str.split [c; c] s) as [|l [|r [|? ?]]]; cbn [length] in Hlen; try lia.
  exists l, r. split; [reflexivity|]. cbn [Str.join rev app] in Hj.
  symmetry. exact Hj.
Qed.

(** ** The last colon *)

Lemma lastIndexOf_go_free (c : ascii) (s : str) :
  ~ In c s -> forall i best, Str.lastIndexOf_go c i best s = best.
Proof.
  induction s as [|x s IH]; intros H i best; [reflexivity|].
  cbn [Str.lastIndexOf_go].
  replace (Ascii.eqb x c) with false
    by (symmetry; apply Ascii.eqb_neq; intros ->; apply H; left; reflexivity).
  apply IH. intros Hin. apply H. right. exact Hin.
Qed.

Lemma lastIndexOf_go_last (c : ascii) (x t : str) :
  ~ In c t ->
  forall i best,
    Str.lastIndexOf_go c i best (x ++ c :: t) = Some (i + length x)%nat.
Proof.
  intros H. induction x as [|a x IH]; intros i best.
  - cbn [app Str.lastIndexOf_go length]. rewrite Ascii.eqb_refl.
    rewrite (lastIndexOf_go_free c t H). f_equal. lia.
  - cbn [app Str.lastIndexOf_go length]. rewrite IH. f_equal. lia.
Qed.

Lemma lastIndexOf_last (c : ascii) (x t : str) :
  ~ In c t -> Str.lastIndexOf c (x ++ c :: t) = Some (length x).
Proof. intros H. exact (lastIndexOf_go_last c x t H 0%nat None). Qed.

Lemma lastIndexOf_go_found (c : ascii) (s : str) :
  forall i best k,
    Str.lastIndexOf_go c i best s = Some k ->
    best = Some k \/ ((i <= k)%nat /\ nth_error s (k - i) = Some c).
Proof.
  induction s as [|x s IH]; intros i best k H; cbn [Str.lastIndexOf_go] in H.
  - left. exact H.
  - apply IH in H. destruct H as [H|[Hle Hn]].
    + destruct (Ascii.eqb_spec x c) as [->|Hne]; [|left; exact H].
      injection H as <-. right. split; [lia|]. rewrite Nat.sub_diag. reflexivity.
    + right. split; [lia|].
      replace (k - i)%nat with (S (k - S i)) by lia. exact Hn.
Qed.

Lemma lastIndexOf_found (c : ascii) (s : str) (k : nat) :
  Str.lastIndexOf c s = Some k ->
  s = firstn k s ++ c :: skipn (k + 1) s.
Proof.
  intros H. apply lastIndexOf_go_found in H.
  destruct H as [H|[_ H]]; [discriminate|].
  rewrite Nat.sub_0_r in H. clear - H.
  revert k H. induction s as [|x s IH]; intros k H.
  - destruct k; discriminate H.
  - destruct k as [|k].
    + injection H as ->. reflexivity.
    + cbn [nth_error] in H. cbn [firstn skipn Nat.add app]. f_equal.
      apply IH. exact H.
Qed.

(** ** Groups and literals *)

Lemma hextetText_facts (g : str) :
  isHextetText g = true ->
  g <> [] /\ ~ In ":"%char g /\ ~ In "."%char g.
Proof.
  unfold isHextetText. intros H.
  apply andb_true_iff in H. destruct H as [H F].
  apply andb_true_iff in H. destruct H as [H1 _]. apply Nat.leb_le in H1.
  rewrite forallb_forall in F.
  split; [destruct g; [cbn in H1; lia | discriminate]|].
  split; intros Hin; apply F in Hin; discriminate Hin.
Qed.

Lemma hextetText_groups (gs : list str) :
  Forall (fun g => isHextetText g = true) gs ->
  Forall (fun g => g <> [] /\ ~ In ":"%char g) gs
  /\ Forall (fun g => ~ In ":"%char g) gs.
Proof.
  intros F. split; eapply Forall_impl; try exact F; cbn beta; intros g Hg;
    destruct (hextetText_facts g Hg) as (A & B & _); auto.
Qed.

Lemma toString_go_nonempty (fuel : nat) :
  forall radix v acc, toString_go fuel radix v acc <> [].
Proof.
  induction fuel as [|f IH]; intros radix v acc; cbn [toString_go]; [discriminate|].
  destruct (v / radix =? 0); [discriminate | apply IH].
Qed.

Lemma hexString_hextet (v : Z) :
  0 <= v <= 65535 -> isHextetText (numberToString 16 v) = true.
Proof.
  intros Hv. pose proof (hex4_digits v Hv) as E.
  unfold hex4, Str.padStart in E.
  assert (Hlen : length (repeat "0"%char (4 - length (numberToString 16 v))
                         ++ numberToString 16 v) = 4%nat)
    by (rewrite E; reflexivity).
  rewrite length_app, repeat_length in Hlen.
  assert (Hne : numberToString 16 v <> []) by apply toString_go_nonempty.
  unfold isHextetText. apply andb_true_iff. split; [apply andb_true_iff; split|].
  - apply Nat.leb_le. destruct (numberToString 16 v); [congruence | cbn; lia].
  - apply Nat.leb_le. lia.
  - apply forallb_forall. intros c Hc.
    assert (Hin : In c (hexText (hexDigits4 v))).
    { rewrite <- E. apply in_or_app. right. exact Hc. }
    apply in_map_iff in Hin. destruct Hin as (d & <- & Hd).
    pose proof (proj1 (Forall_forall _ _) (proj2 (hexDigits4_digits v)) d Hd) as Hd'.
    cbn beta in Hd'. clear - Hd'. digit_cases d Hd'; reflexivity.
Qed.

Lemma parseIPv4_go_digits (parts : list str) :
  forall value a,
    parseIPv4_go value parts = Some a ->
    Forall (fun p => Str.allDigits p = true) parts.
Proof.
  induction parts as [|part parts IH]; intros value a H; [constructor|].
  cbn [parseIPv4_go] in H.
  destruct (Str.allDigits part) eqn:E; [|discriminate]. cbn [negb] in H.
  destruct (parseByte part); [|discriminate].
  constructor; [exact E | exact (IH _ _ H)].
Qed.

Lemma allDigits_chars (p : str) (c : ascii) :
  Str.allDigits p = true -> In c p -> Str.isDigit c = true.
Proof.
  unfold Str.allDigits. destruct p; [discriminate|]. intros H Hin.
  rewrite forallb_forall in H. exact (H c Hin).
Qed.

Lemma ipv4Literal_chars (t : str) :
  isIPv4Literal t = true ->
  In "."%char t
  /\ forall c, In c t -> Str.isDigit c = true \/ c = "."%char.
Proof.
  unfold isIPv4Literal, parseIPv4.
  destruct (length (Str.split (lit ".") t) =? 4)%nat eqn:E; [|discriminate].
  apply Nat.eqb_eq in E. cbn [negb].
  destruct (parseIPv4_go 0 (Str.split (lit ".") t)) as [a|] eqn:P; [|discriminate].
  intros _. apply parseIPv4_go_digits in P. split.
  - destruct (in_dec ascii_dec "."%char t) as [H|H]; [exact H|].
    change (lit ".") with ["."%char] in E.
    rewrite (split1_single "."%char t H) in E. discriminate E.
  - intros c Hc. rewrite <- (join_split1 "."%char t) in Hc.
    apply in_join in Hc. destruct Hc as [[<-|[]]|(g & Hg & Hc)]; [right; reflexivity|].
    left. rewrite Forall_forall in P. exact (allDigits_chars g c (P g Hg) Hc).
Qed.

Lemma ipv4Literal_facts (t : str) :
  isIPv4Literal t = true ->
  t <> [] /\ In "."%char t /\ ~ In ":"%char t /\ map Str.lower t = t.
Proof.
  intros H. destruct (ipv4Literal_chars t H) as [Hdot Hch].
  split; [intros ->; destruct Hdot|]. split; [exact Hdot|]. split.
  - intros Hc. destruct (Hch _ Hc) as [D|D]; discriminate D.
  - clear Hdot H. induction t as [|c t IH]; [reflexivity|].
    cbn [map]. f_equal.
    + pose proof (forall_ascii
                    (fun c => implb (Str.isDigit c || Ascii.eqb c "."%char)
                                    (Ascii.eqb (Str.lower c) c))
                    ltac:(vm_compute; reflexivity) c) as B.
      cbv beta in B.
      destruct (Hch c (or_introl eq_refl)) as [D| ->]; [|reflexivity].
      rewrite D in B. cbn [orb implb] in B. apply Ascii.eqb_eq in B. exact B.
    + apply IH. intros c' Hc'. apply Hch. right. exact Hc'.
Qed.

Lemma literal_halves (v : Z) :
  isHextetText (numberToString 16 (Z.land (Z.shiftr v 16) 65535)) = true
  /\ isHextetText (numberToString 16 (Z.land v 65535)) = true.
Proof.
  split; apply hexString_hextet; rewrite land_65535;
    match goal with
    | |- 0 <= ?x mod 65536 <= 65535 =>
        pose proof (Z.mod_pos_bound x 65536 ltac:(lia)); lia
    end.
Qed.

(** ** Joining groups *)

Lemma join_snoc (sep : str) (gs : list str) (g : str) :
  gs <> [] -> Str.join sep (gs ++ [g]) = Str.join sep gs ++ sep ++ g.
Proof.
  induction gs as [|a gs IH]; [congruence|]. intros _.
  destruct gs as [|b gs].
  - reflexivity.
  - cbn [app]. rewrite !join_cons2. cbn [app] in IH. rewrite IH by discriminate.
    rewrite <- !app_assoc. reflexivity.
Qed.

Lemma join_app (sep : str) (xs ys : list str) :
  xs <> [] -> ys <> [] ->
  Str.join sep (xs ++ ys) = Str.join sep xs ++ sep ++ Str.join sep ys.
Proof.
  induction xs as [|a xs IH]; [congruence|]. intros _ Hys.
  destruct xs as [|b xs].
  - cbn [app]. rewrite join_cons_more by exact Hys. reflexivity.
  - cbn [app]. rewrite !join_cons2. cbn [app] in IH. rewrite IH by (discriminate || exact Hys).
    rewrite <- !app_assoc. reflexivity.
Qed.

Lemma groups_join_nonempty (gs : list str) :
  gs <> [] -> Forall (fun g => isHextetText g = true) gs ->
  Str.join [":"%char] gs <> [].
Proof.
  intros Hne F. destruct gs as [|g gs]; [congruence|].
  destruct (hextetText_facts g (Forall_inv F)) as (Hg & _).
  destruct g as [|c g]; [congruence|].
  destruct gs; cbn; discriminate.
Qed.

Lemma parts_of_join (gs : list str) :
  Forall (fun g => isHextetText g = true) gs ->
  match Str.join [":"%char] gs with
  | [] => []
  | _ :: _ => Str.split [":"%char] (Str.join [":"%char] gs)
  end = gs.
Proof.
  intros F. destruct gs as [|g gs]; [reflexivity|].
  pose proof (groups_join_nonempty (g :: gs) ltac:(discriminate) F) as Hne.
  destruct (Str.join [":"%char] (g :: gs)) eqn:E; [congruence|].
  rewrite <- E.
  apply (split1_join ":"%char (g :: gs)); [discriminate|].
  exact (proj2 (hextetText_groups _ F)).
Qed.

Lemma join_of_parts (l : str) :
  Str.join [":"%char] match l with
                     | [] => []
                     | _ :: _ => Str.split [":"%char] l
                     end = l.
Proof. destruct l; [reflexivity | apply (join_split1 ":"%char)]. Qed.

Lemma parseHextetParts_ok (gs : list str) :
  Forall (fun g => isHextetText g = true) gs ->
  parseHextetParts gs = Some (map (parseInt 16) gs).
Proof.
  induction 1 as [|g gs Hg _ IH]; [reflexivity|].
  cbn [parseHextetParts map]. rewrite Hg, IH. reflexivity.
Qed.

Lemma parseHextetParts_inv (gs : list str) :
  forall out,
    parseHextetParts gs = Some out ->
    Forall (fun g => isHextetText g = true) gs /\ length out = length gs.
Proof.
  induction gs as [|g gs IH]; intros out H; cbn [parseHextetParts] in H.
  - injection H as <-. split; [constructor | reflexivity].
  - destruct (isHextetText g) eqn:E; [|discriminate]. cbn [negb] in H.
    destruct (parseHextetParts gs) as [rest|]; [|discriminate].
    injection H as <-. destruct (IH rest eq_refl) as [F L].
    split; [constructor; assumption | cbn; lia].
Qed.

Lemma no_empty_parts (gs : list str) :
  Forall (fun g => isHextetText g = true) gs ->
  existsb (fun part => (length part =? 0)%nat) gs = false.
Proof.
  induction 1 as [|g gs Hg _ IH]; [reflexivity|].
  cbn [existsb]. rewrite IH.
  destruct (hextetText_facts g Hg) as (Hne & _).
  destruct g; [congruence | reflexivity].
Qed.

(** ** The IPv6 parser after the expansion of the literal *)

Lemma match_nonempty {A B : Type} (n : list A) (X : option B) :
  n <> [] -> match n with [] => None | _ :: _ => X end = X.
Proof. destruct n; [congruence | reflexivity]. Qed.

Lemma match_nonempty_inv {A B : Type} (n : list A) (X : option B) (b : B) :
  match n with [] => None | _ :: _ => X end = Some b -> n <> [] /\ X = Some b.
Proof. destruct n; [discriminate|]. intros H. split; [discriminate | exact H]. Qed.

Lemma count_of_split (sep s : str) (pieces : list str) :
  Str.split sep s = pieces -> Str.countMatches sep s = Nat.pred (length pieces).
Proof. intros <-. rewrite split_length. reflexivity. Qed.

Lemma parseIPv6_plain (text n : str) :
  expandEmbeddedIPv4 (Str.toLowerCase text) = n ->
  PlainForm isHextetText n ->
  exists a, parseIPv6 text = Some a.
Proof.
  intros En (left & right & Fl & Fr & H).
  pose proof (proj1 (hextetText_groups _ Fl)) as Gl.
  pose proof (proj1 (hextetText_groups _ Fr)) as Gr.
  unfold parseIPv6. rewrite En. clear En.
  change (lit "::") with [":"%char; ":"%char] in *.
  change (lit ":") with [":"%char] in *.
  destruct H as [(-> & -> & Hlen) | (-> & Hlen)].
  - assert (Hne : Str.join [":"%char] right <> []).
    { apply (groups_join_nonempty right); [|exact Fr].
      destruct right; [discriminate Hlen | discriminate]. }
    rewrite (match_nonempty _ _ Hne). cbv zeta.
    pose proof (split2_uncompressed ":"%char right Gr) as S2.
    pose proof (count_of_split _ _ _ S2) as C2. cbn [length Nat.pred] in C2.
    rewrite C2.
    assert (I2 : Str.includes [":"%char; ":"%char] (Str.join [":"%char] right) = false).
    { destruct (Str.includes [":"%char; ":"%char] (Str.join [":"%char] right)) eqn:E;
        [|reflexivity].
      apply (count_includes [":"%char; ":"%char] _ ltac:(discriminate)) in E.
      rewrite C2 in E. lia. }
    rewrite I2. change (1 <? 0)%nat with false. cbn [nth].
    rewrite (parts_of_join right Fr).
    rewrite (no_empty_parts right Fr). cbn [existsb orb].
    rewrite (parseHextetParts_ok right Fr). cbn [parseHextetParts].
    rewrite length_map, Hlen. cbn [Nat.eqb negb].
    rewrite length_map, Hlen. cbn [Nat.eqb negb]. eexists. reflexivity.
  - assert (Hne : Str.join [":"%char] left ++ [":"%char; ":"%char]
                  ++ Str.join [":"%char] right <> []).
    { destruct (Str.join [":"%char] left); discriminate. }
    rewrite (match_nonempty _ _ Hne). cbv zeta.
    pose proof (split2_compressed ":"%char left right Gl Gr) as S2.
    pose proof (count_of_split _ _ _ S2) as C2. cbn [length Nat.pred] in C2.
    rewrite C2.
    assert (I2 : Str.includes [":"%char; ":"%char]
                   (Str.join [":"%char] left ++ [":"%char; ":"%char]
                    ++ Str.join [":"%char] right) = true).
    { apply (count_includes [":"%char; ":"%char] _ ltac:(discriminate)).
      rewrite C2. lia. }
    rewrite I2, S2. change (1 <? 1)%nat with false. cbn [nth].
    rewrite (parts_of_join left Fl).
    rewrite (parts_of_join right Fr).
    rewrite (no_empty_parts left Fl), (no_empty_parts right Fr). cbn [orb].
    rewrite (parseHextetParts_ok left Fl), (parseHextetParts_ok right Fr).
    rewrite !length_map.
    replace (8 <=? length left + length right)%nat with false
      by (symmetry; apply Nat.leb_gt; exact Hlen).
    rewrite !length_app, repeat_length, !length_map.
    replace (length left + (8 - (length left + length right) + length right) =? 8)%nat
      with true by (symmetry; apply Nat.eqb_eq; lia).
    cbn [negb]. eexists. reflexivity.
Qed.

Lemma parseIPv6_plain_inv (text : str) (a : Z) :
  parseIPv6 text = Some a ->
  PlainForm isHextetText (expandEmbeddedIPv4 (Str.toLowerCase text)).
Proof.
  unfold parseIPv6.
  remember (expandEmbeddedIPv4 (Str.toLowerCase text)) as n eqn:En. clear En.
  change (lit "::") with [":"%char; ":"%char] in *.
  change (lit ":") with [":"%char] in *.
  intros H. apply match_nonempty_inv in H. destruct H as [Hne H].
  cbv zeta in H.
  destruct (1 <? Str.countMatches [":"%char; ":"%char] n)%nat eqn:Ec; [discriminate|].
  apply Nat.ltb_ge in Ec.
  destruct (Str.includes [":"%char; ":"%char] n) eqn:Ei.
  - destruct (split2_two ":"%char n Ei Ec) as (l & r & S2 & E).
    rewrite S2 in H. cbn [nth] in H.
    destruct (existsb _ _ || existsb _ _); [discriminate|].
    destruct (parseHextetParts match l with
                               | [] => []
                               | _ :: _ => Str.split [":"%char] l
                               end) as [pl|] eqn:PL; [|discriminate].
    destruct (parseHextetParts match r with
                               | [] => []
                               | _ :: _ => Str.split [":"%char] r
                               end) as [pr|] eqn:PR; [|discriminate].
    apply parseHextetParts_inv in PL, PR.
    destruct PL as [Fl Ll]. destruct PR as [Fr Lr].
    destruct (8 <=? length pl + length pr)%nat eqn:E8; [discriminate|].
    apply Nat.leb_gt in E8.
    exists match l with [] => [] | _ :: _ => Str.split [":"%char] l end,
           match r with [] => [] | _ :: _ => Str.split [":"%char] r end.
    split; [exact Fl|]. split; [exact Fr|]. right. split; [|lia].
    change (lit "::") with [":"%char; ":"%char].
    change (lit ":") with [":"%char].
    rewrite (join_of_parts l), (join_of_parts r). exact E.
  - cbn [nth] in H.
    assert (LP : match n with [] => [] | _ :: _ => Str.split [":"%char] n end
                 = Str.split [":"%char] n) by (destruct n; [congruence | reflexivity]).
    rewrite LP in H.
    destruct (existsb _ _ || existsb _ _); [discriminate|].
    destruct (parseHextetParts (Str.split [":"%char] n)) as [pl|] eqn:PL; [|discriminate].
    cbn [parseHextetParts] in H.
    apply parseHextetParts_inv in PL. destruct PL as [Fl Ll].
    destruct (length pl =? 8)%nat eqn:E8; [|discriminate].
    apply Nat.eqb_eq in E8.
    exists [], (Str.split [":"%char] n).
    split; [constructor|]. split; [exact Fl|]. left.
    split; [reflexivity|]. split; [|lia].
    change (lit ":") with [":"%char]. symmetry. apply join_split1.
Qed.

(** ** The expansion of an embedded IPv4 literal *)

Lemma expand_none (t : str) : ~ In "."%char t -> expandEmbeddedIPv4 t = t.
Proof.
  intros H. unfold expandEmbeddedIPv4.
  change (lit ".") with ["."%char].
  rewrite (proj2 (includes1_false "."%char t) H). reflexivity.
Qed.

Lemma skipn_past (x : str) (c : ascii) (t : str) :
  skipn (length x + 1) (x ++ c :: t) = t.
Proof. induction x as [|a x IH]; [reflexivity | exact IH]. Qed.

Lemma firstn_upto (x : str) (t : str) : firstn (length x) (x ++ t) = x.
Proof.
  rewrite firstn_app, firstn_all, Nat.sub_diag. cbn [firstn]. apply app_nil_r.
Qed.

Lemma expand_tail (x t : str) :
  isIPv4Literal t = true ->
  exists h l,
    isHextetText h = true /\ isHextetText l = true
    /\ expandEmbeddedIPv4 (x ++ ":"%char :: t)
       = x ++ ":"%char :: h ++ ":"%char :: l.
Proof.
  intros Ht. destruct (ipv4Literal_facts t Ht) as (Hne & Hdot & Hcol & _).
  unfold expandEmbeddedIPv4.
  change (lit ".") with ["."%char]. change (lit ":") with [":"%char].
  assert (I1 : Str.includes ["."%char] (x ++ ":"%char :: t) = true).
  { apply includes1. apply in_or_app. right. right. exact Hdot. }
  rewrite I1. cbn [negb].
  rewrite (lastIndexOf_last ":"%char x t Hcol).
  unfold Str.sliceFrom, Str.sliceTo. rewrite skipn_past, firstn_upto.
  rewrite (proj2 (includes1_false ":"%char t) Hcol).
  unfold isIPv4Literal in Ht.
  destruct (parseIPv4 t) as [v|]; [|discriminate].
  destruct (literal_halves v) as [Hh Hl].
  destruct t as [|c0 t0]; [congruence|].
  eexists _, _. split; [exact Hh|]. split; [exact Hl|]. reflexivity.
Qed.

Lemma expand_inv (t : str) :
  expandEmbeddedIPv4 t <> [] -> In "."%char t ->
  exists x t' h l,
    t = x ++ ":"%char :: t'
    /\ isIPv4Literal t' = true
    /\ isHextetText h = true /\ isHextetText l = true
    /\ expandEmbeddedIPv4 t = x ++ ":"%char :: h ++ ":"%char :: l.
Proof.
  intros Hne Hdot.
  assert (G : exists x t', t = x ++ ":"%char :: t' /\ isIPv4Literal t' = true).
  { unfold expandEmbeddedIPv4 in Hne.
    change (lit ".") with ["."%char] in Hne. change (lit ":") with [":"%char] in Hne.
    rewrite (proj2 (includes1 "."%char t) Hdot) in Hne. cbn [negb] in Hne.
    destruct (Str.lastIndexOf ":"%char t) as [k|] eqn:Ek; [|congruence].
    apply lastIndexOf_found in Ek.
    unfold Str.sliceFrom in Hne.
    exists (firstn k t), (skipn (k + 1) t). split; [exact Ek|].
    destruct (skipn (k + 1) t) as [|c0 t0] eqn:Es; [congruence|].
    destruct (Str.includes [":"%char] (c0 :: t0)); [congruence|].
    unfold isIPv4Literal.
    destruct (parseIPv4 (c0 :: t0)); [reflexivity | congruence]. }
  destruct G as (x & t' & -> & Ht).
  destruct (expand_tail x t' Ht) as (h & l & Hh & Hl & E).
  exists x, t', h, l. auto.
Qed.

Lemma join_snoc2 (sep : str) (gs : list str) (h l : str) :
  gs <> [] ->
  Str.join sep (gs ++ [h; l]) = Str.join sep gs ++ sep ++ h ++ sep ++ l.
Proof.
  intros Hne.
  change (gs ++ [h; l]) with (gs ++ [h] ++ [l]).
  rewrite (app_assoc gs [h] [l]).
  rewrite (join_snoc sep (gs ++ [h]) l) by (destruct gs; discriminate).
  rewrite (join_snoc sep gs h Hne). rewrite <- !app_assoc. reflexivity.
Qed.

Lemma valid_no_dot (group : str -> bool) (left right : list str) :
  (forall g, group g = true -> ~ In "."%char g) ->
  Forall (fun g => group g = true) left ->
  Forall (fun g => group g = true) right ->
  ~ In "."%char (Str.join [":"%char] left)
  /\ ~ In "."%char (Str.join [":"%char] right).
Proof.
  intros Hg Fl Fr.
  assert (J : forall gs, Forall (fun g => group g = true) gs ->
                         ~ In "."%char (Str.join [":"%char] gs)).
  { intros gs F Hin. apply in_join in Hin.
    destruct Hin as [[E|[]]|(g & Hin & Hc)]; [discriminate E|].
    rewrite Forall_forall in F. exact (Hg g (F g Hin) Hc). }
  split; apply J; assumption.
Qed.

Lemma not_in_app {A : Type} (a : A) (x y : list A) :
  ~ In a x -> ~ In a y -> ~ In a (x ++ y).
Proof. intros Hx Hy H. apply in_app_or in H. tauto. Qed.

(** What the expansion makes of a text in the form of the rules. *)
Lemma expand_valid (t : str) :
  ValidForm isHextetText t -> PlainForm isHextetText (expandEmbeddedIPv4 t).
Proof.
  intros (left & right & tail & Fl & Fr & Ht & H).
  change (lit "::") with [":"%char; ":"%char] in H.
  change (lit ":") with [":"%char] in H.
  destruct (valid_no_dot isHextetText left right
              (fun g Hg => proj2 (proj2 (hextetText_facts g Hg))) Fl Fr)
    as [Dl Dr].
  destruct tail as [t'|]; cbn [tailTexts tailCount tailOK] in *.
  - destruct H as [(-> & -> & Hlen) | (-> & Hlen)].
    + destruct right as [|g right]; [discriminate Hlen|].
      rewrite join_snoc by discriminate.
      change ([":"%char] ++ t') with (":"%char :: t').
      destruct (expand_tail (Str.join [":"%char] (g :: right)) t' Ht)
        as (h & l & Hh & Hl & ->).
      exists [], ((g :: right) ++ [h; l]).
      split; [constructor|].
      split; [apply Forall_app; split; [exact Fr | repeat constructor; assumption]|].
      left. split; [reflexivity|]. split; [|rewrite length_app; cbn [length] in *; lia].
      change (lit ":") with [":"%char].
      rewrite join_snoc2 by discriminate. reflexivity.
    + destruct right as [|g right].
      * assert (E : Str.join [":"%char] left ++ [":"%char; ":"%char]
                      ++ Str.join [":"%char] ([] ++ [t'])
                    = (Str.join [":"%char] left ++ [":"%char]) ++ ":"%char :: t')
          by (rewrite <- app_assoc; reflexivity).
        rewrite E. clear E.
        destruct (expand_tail (Str.join [":"%char] left ++ [":"%char]) t' Ht)
          as (h & l & Hh & Hl & ->).
        exists left, [h; l].
        split; [exact Fl|]. split; [repeat constructor; assumption|].
        right. split; [|cbn [length] in *; lia].
        change (lit "::") with [":"%char; ":"%char].
        change (lit ":") with [":"%char].
        rewrite <- app_assoc. reflexivity.
      * assert (E : Str.join [":"%char] left ++ [":"%char; ":"%char]
                      ++ Str.join [":"%char] ((g :: right) ++ [t'])
                    = (Str.join [":"%char] left ++ [":"%char; ":"%char]
                       ++ Str.join [":"%char] (g :: right)) ++ ":"%char :: t')
          by (rewrite join_snoc by discriminate; rewrite <- !app_assoc; reflexivity).
        rewrite E. clear E.
        destruct (expand_tail (Str.join [":"%char] left ++ [":"%char; ":"%char]
                               ++ Str.join [":"%char] (g :: right)) t' Ht)
          as (h & l & Hh & Hl & ->).
        exists left, ((g :: right) ++ [h; l]).
        split; [exact Fl|].
        split; [apply Forall_app; split; [exact Fr | repeat constructor; assumption]|].
        right. split; [|rewrite length_app; cbn [length] in *; lia].
        change (lit "::") with [":"%char; ":"%char].
        change (lit ":") with [":"%char].
        rewrite join_snoc2 by discriminate.
        rewrite <- ?app_assoc. reflexivity.
  - rewrite !app_nil_r in H.
    assert (Hdot : ~ In "."%char t).
    { destruct H as [(_ & -> & _) | (-> & _)]; [exact Dr|].
      apply not_in_app; [exact Dl|]. apply not_in_app; [|exact Dr].
      intros [E|[E|[]]]; discriminate E. }
    rewrite (expand_none t Hdot).
    exists left, right. split; [exact Fl|]. split; [exact Fr|].
    change (lit "::") with [":"%char; ":"%char].
    change (lit ":") with [":"%char].
    rewrite !Nat.add_0_r in H. exact H.
Qed.

(** ** From the expanded text back to the address text *)

Lemma PlainForm_nonempty (n : str) : PlainForm isHextetText n -> n <> [].
Proof.
  intros (left & right & Fl & Fr & [(-> & -> & Hlen) | (-> & _)]).
  - apply groups_join_nonempty; [|exact Fr].
    destruct right; [discriminate Hlen | discriminate].
  - change (lit ":") with [":"%char]. destruct (Str.join [":"%char] left); discriminate.
Qed.

Lemma snoc2_cases {A : Type} (l : list A) :
  l = [] \/ (exists b, l = [b]) \/ exists rs a b, l = rs ++ [a; b].
Proof.
  induction l as [|x l IH]; [left; reflexivity|]. right.
  destruct IH as [->|[(b & ->)|(rs & a & b & ->)]].
  - left. exists x. reflexivity.
  - right. exists [], x, b. reflexivity.
  - right. exists (x :: rs), a, b. reflexivity.
Qed.

Lemma app_inj_tail2 {A : Type} (x y : list A) (a b c d : A) :
  x ++ [a; b] = y ++ [c; d] -> x = y /\ a = c /\ b = d.
Proof.
  intros H.
  change (x ++ [a; b]) with (x ++ [a] ++ [b]) in H.
  change (y ++ [c; d]) with (y ++ [c] ++ [d]) in H.
  rewrite !app_assoc in H. apply app_inj_tail in H. destruct H as [H ->].
  apply app_inj_tail in H. destruct H as [-> ->]. auto.
Qed.

Lemma split_tail_text (x h l : str) :
  isHextetText h = true -> isHextetText l = true ->
  Str.split [":"%char] (x ++ ":"%char :: h ++ ":"%char :: l)
  = Str.split [":"%char] x ++ [h; l].
Proof.
  intros Hh Hl.
  destruct (hextetText_facts h Hh) as (_ & Ch & _).
  destruct (hextetText_facts l Hl) as (_ & Cl & _).
  rewrite !split1_concat, (split1_single _ h Ch), (split1_single _ l Cl).
  reflexivity.
Qed.

Lemma split_of_groups (gs : list str) :
  Forall (fun g => isHextetText g = true) gs ->
  Str.split [":"%char] (Str.join [":"%char] gs)
  = match gs with [] => [[]] | _ :: _ => gs end.
Proof.
  intros F. destruct gs as [|g gs]; [reflexivity|].
  apply split1_join; [discriminate | exact (proj2 (hextetText_groups _ F))].
Qed.

Lemma expand_valid_inv (t : str) :
  PlainForm isHextetText (expandEmbeddedIPv4 t) -> ValidForm isHextetText t.
Proof.
  intros P.
  destruct (in_dec ascii_dec "."%char t) as [Hdot|Hdot].
  - pose proof (PlainForm_nonempty _ P) as Hne.
    destruct (expand_inv t Hne Hdot) as (x & t' & h & l & -> & Ht & Hh & Hl & E).
    rewrite E in P. clear E Hne Hdot.
    destruct P as (left & right & Fl & Fr & H).
    change (lit "::") with [":"%char; ":"%char] in H.
    change (lit ":") with [":"%char] in H.
    pose proof (split_tail_text x h l Hh Hl) as SL.
    destruct H as [(-> & En & Hlen) | (En & Hlen)].
    + rewrite En, (split_of_groups right Fr) in SL.
      destruct right as [|g right]; [discriminate Hlen|].
      exists [], (Str.split [":"%char] x), (Some t').
      rewrite SL in Fr, Hlen. apply Forall_app in Fr. destruct Fr as [Fx _].
      rewrite length_app in Hlen. cbn [length] in Hlen.
      split; [constructor|]. split; [exact Fx|]. split; [exact Ht|].
      left. split; [reflexivity|]. split; [|cbn [tailCount]; lia].
      change (lit ":") with [":"%char]. cbn [tailTexts].
      rewrite join_snoc by apply split_go_nonempty.
      rewrite join_split1. reflexivity.
    + assert (SR : Str.split [":"%char]
                     (Str.join [":"%char] left ++ [":"%char; ":"%char]
                      ++ Str.join [":"%char] right)
                   = Str.split [":"%char] (Str.join [":"%char] left)
                     ++ [[]] ++ Str.split [":"%char] (Str.join [":"%char] right)).
      { change (Str.join [":"%char] left ++ [":"%char; ":"%char]
                ++ Str.join [":"%char] right)
          with (Str.join [":"%char] left
                ++ ":"%char :: ([] ++ ":"%char :: Str.join [":"%char] right)).
        rewrite !split1_concat. reflexivity. }
      rewrite En, SR in SL. clear SR.
      rewrite (split_of_groups right Fr) in SL.
      assert (Jx : x = Str.join [":"%char] (Str.split [":"%char] x))
        by (symmetry; apply join_split1).
      destruct (snoc2_cases right) as [->|[(b & ->)|(rs & a & b & ->)]].
      * exfalso.
        change (Str.split [":"%char] (Str.join [":"%char] left) ++ [[]] ++ [[]])
          with (Str.split [":"%char] (Str.join [":"%char] left) ++ [[]; []]) in SL.
        apply app_inj_tail2 in SL. destruct SL as (_ & _ & E).
        destruct (hextetText_facts l Hl) as (N & _). congruence.
      * exfalso.
        change (Str.split [":"%char] (Str.join [":"%char] left) ++ [[]] ++ [b])
          with (Str.split [":"%char] (Str.join [":"%char] left) ++ [[]; b]) in SL.
        apply app_inj_tail2 in SL. destruct SL as (_ & E & _).
        destruct (hextetText_facts h Hh) as (N & _). congruence.
      * assert (Er : match rs ++ [a; b] with
                     | [] => [[]]
                     | _ :: _ => rs ++ [a; b]
                     end = rs ++ [a; b]) by (destruct rs; reflexivity).
        rewrite Er in SL. clear Er.
        rewrite (app_assoc [[]] rs [a; b]), app_assoc in SL.
        apply app_inj_tail2 in SL. destruct SL as (Sx & _ & _).
        apply Forall_app in Fr. destruct Fr as [Frs _].
        rewrite length_app in Hlen. cbn [length] in Hlen.
        rewrite <- Sx in Jx.
        rewrite join_app in Jx by (apply split_go_nonempty || discriminate).
        rewrite join_split1 in Jx.
        exists left, rs, (Some t').
        split; [exact Fl|]. split; [exact Frs|]. split; [exact Ht|].
        right. split; [|cbn [tailCount]; lia].
        change (lit "::") with [":"%char; ":"%char].
        change (lit ":") with [":"%char]. cbn [tailTexts].
        rewrite Jx. destruct rs as [|r0 rs].
        -- cbn [app Str.join]. rewrite <- !app_assoc. reflexivity.
        -- rewrite join_snoc by discriminate.
           change ([[]] ++ r0 :: rs) with ([] :: r0 :: rs).
           rewrite (join_cons_more [":"%char] [] (r0 :: rs)) by discriminate.
           rewrite <- !app_assoc. reflexivity.
  - rewrite (expand_none t Hdot) in P.
    destruct P as (left & right & Fl & Fr & H).
    exists left, right, None. split; [exact Fl|]. split; [exact Fr|].
    split; [exact I|]. cbn [tailTexts tailCount]. rewrite !app_nil_r, !Nat.add_0_r.
    exact H.
Qed.

(** ** Case *)

Lemma lower_hex (c : ascii) : isLowerHex (Str.lower c) = isHexDigit c.
Proof.
  apply eqb_prop.
  exact (forall_ascii (fun c => Bool.eqb (isLowerHex (Str.lower c)) (isHexDigit c))
                      ltac:(vm_compute; reflexivity) c).
Qed.

Lemma lower_colon (c : ascii) : Str.lower c = ":"%char -> c = ":"%char.
Proof.
  intros H.
  pose proof (forall_ascii
                (fun c => implb (Ascii.eqb (Str.lower c) ":"%char)
                                (Ascii.eqb c ":"%char))
                ltac:(vm_compute; reflexivity) c) as B.
  cbv beta in B. rewrite H in B. cbn in B. apply Ascii.eqb_eq in B. exact B.
Qed.

Lemma lower_literal_char (c : ascii) :
  Str.isDigit (Str.lower c) = true \/ Str.lower c = "."%char -> Str.lower c = c.
Proof.
  intros H.
  pose proof (forall_ascii
                (fun c => implb (Str.isDigit (Str.lower c)
                                 || Ascii.eqb (Str.lower c) "."%char)
                                (Ascii.eqb (Str.lower c) c))
                ltac:(vm_compute; reflexivity) c) as B.
  cbv beta in B.
  assert (E : Str.isDigit (Str.lower c) || Ascii.eqb (Str.lower c) "."%char = true).
  { destruct H as [H|H]; [rewrite H; reflexivity|].
    rewrite H. apply orb_true_r. }
  rewrite E in B. cbn [implb] in B. apply Ascii.eqb_eq in B. exact B.
Qed.

Lemma group_lower (g : str) : isHextetText (map Str.lower g) = isHexGroup g.
Proof.
  unfold isHextetText, isHexGroup, isGroupOf. rewrite length_map. f_equal.
  induction g as [|c g IH]; [reflexivity|].
  cbn [map forallb]. rewrite lower_hex, IH. reflexivity.
Qed.

Lemma groups_lower (gs : list str) :
  Forall (fun g => isHextetText g = true) (map (map Str.lower) gs)
  <-> Forall (fun g => isHexGroup g = true) gs.
Proof.
  rewrite Forall_map. split; intros F; eapply Forall_impl; try exact F;
    cbn beta; intros g Hg; [rewrite <- group_lower | rewrite group_lower]; exact Hg.
Qed.

Lemma map_lower_join (gs : list str) :
  map Str.lower (Str.join [":"%char] gs)
  = Str.join [":"%char] (map (map Str.lower) gs).
Proof.
  induction gs as [|g gs IH]; [reflexivity|].
  destruct gs as [|g' gs]; [reflexivity|].
  cbn [map]. rewrite !join_cons2, !map_app. cbn [map] in IH. rewrite IH.
  reflexivity.
Qed.

Lemma unjoin_lower (gs' : list str) :
  forall text,
    map Str.lower text = Str.join [":"%char] gs' ->
    exists gs, text = Str.join [":"%char] gs /\ map (map Str.lower) gs = gs'.
Proof.
  induction gs' as [|g' gs' IH]; intros text H.
  - apply map_eq_nil in H. subst text. exists []. split; reflexivity.
  - destruct gs' as [|g'' gs'].
    + exists [text]. split; [reflexivity|]. cbn [map Str.join] in *. rewrite H.
      reflexivity.
    + rewrite join_cons2 in H.
      apply map_eq_app in H. destruct H as (t1 & t2 & -> & E1 & E2).
      destruct t2 as [|c t2]; [discriminate E2|].
      cbn [map app] in E2. injection E2 as Ec E2.
      apply lower_colon in Ec. subst c.
      destruct (IH t2 E2) as (gs & -> & Eg).
      exists (t1 :: gs). split.
      * rewrite join_cons_more by (destruct gs; [discriminate Eg | discriminate]).
        reflexivity.
      * cbn [map]. rewrite E1, Eg. reflexivity.
Qed.

Lemma literal_unlower (t0 t' : str) :
  map Str.lower t0 = t' -> isIPv4Literal t' = true -> t0 = t'.
Proof.
  intros E Ht. destruct (ipv4Literal_chars t' Ht) as [_ Hch]. subst t'.
  clear Ht. induction t0 as [|c t0 IH]; [reflexivity|].
  cbn [map]. f_equal.
  - symmetry. apply lower_literal_char. apply Hch. left. reflexivity.
  - apply IH. intros c' Hc'. apply Hch. right. exact Hc'.
Qed.

Lemma tail_unlower (tl : list str) (tail : option str) :
  map (map Str.lower) tl = tailTexts tail -> tailOK tail -> tl = tailTexts tail.
Proof.
  destruct tail as [t'|]; cbn [tailTexts tailOK]; intros E Ht.
  - destruct tl as [|t0 [|? ?]]; try discriminate E.
    cbn [map] in E. injection E as E. f_equal.
    apply literal_unlower; assumption.
  - apply map_eq_nil in E. exact E.
Qed.

Lemma tail_lower (tail : option str) :
  tailOK tail -> map (map Str.lower) (tailTexts tail) = tailTexts tail.
Proof.
  destruct tail as [t'|]; cbn [tailTexts tailOK map]; intros Ht; [|reflexivity].
  rewrite (proj2 (proj2 (proj2 (ipv4Literal_facts t' Ht)))). reflexivity.
Qed.

(** The rules judge a text by its lower-case form. *)
Lemma valid_lower (text : str) :
  ValidForm isHexGroup text <-> ValidForm isHextetText (Str.toLowerCase text).
Proof.
  unfold Str.toLowerCase. split.
  - intros (left & right & tail & Fl & Fr & Ht & H).
    exists (map (map Str.lower) left), (map (map Str.lower) right), tail.
    split; [apply groups_lower; exact Fl|].
    split; [apply groups_lower; exact Fr|]. split; [exact Ht|].
    rewrite !length_map.
    change (lit "::") with [":"%char; ":"%char] in *.
    change (lit ":") with [":"%char] in *.
    assert (ET : map (map Str.lower) right ++ tailTexts tail
                 = map (map Str.lower) (right ++ tailTexts tail))
      by (rewrite map_app, (tail_lower tail Ht); reflexivity).
    rewrite ET, <- !map_lower_join.
    destruct H as [(-> & -> & Hlen) | (-> & Hlen)].
    + left. split; [reflexivity|]. split; [reflexivity | exact Hlen].
    + right. split; [|exact Hlen]. rewrite !map_app. reflexivity.
  - intros (left' & right' & tail & Fl & Fr & Ht & H).
    change (lit "::") with [":"%char; ":"%char] in *.
    change (lit ":") with [":"%char] in *.
    destruct H as [(-> & E & Hlen) | (E & Hlen)].
    + destruct (unjoin_lower _ _ E) as (gs & -> & Eg).
      apply map_eq_app in Eg. destruct Eg as (r & tl & -> & Er & Etl).
      apply (tail_unlower tl tail) in Etl; [|exact Ht]. subst tl right'.
      exists [], r, tail. split; [constructor|].
      split; [apply groups_lower; exact Fr|]. split; [exact Ht|].
      left. split; [reflexivity|]. split; [reflexivity|].
      rewrite length_map in Hlen. exact Hlen.
    + apply map_eq_app in E. destruct E as (tL & tR & -> & EL & ER).
      destruct tR as [|c1 [|c2 tR]]; try discriminate ER.
      cbn [map app] in ER. injection ER as E1 E2 ER.
      apply lower_colon in E1, E2. subst c1 c2.
      destruct (unjoin_lower _ _ EL) as (ls & -> & El).
      destruct (unjoin_lower _ _ ER) as (gs & -> & Eg).
      apply map_eq_app in Eg. destruct Eg as (r & tl & -> & Er & Etl).
      apply (tail_unlower tl tail) in Etl; [|exact Ht]. subst tl right' left'.
      exists ls, r, tail.
      split; [apply groups_lower; exact Fl|].
      split; [apply groups_lower; exact Fr|]. split; [exact Ht|].
      right. split; [reflexivity|].
      rewrite !length_map in Hlen. exact Hlen.
Qed.

(** ** The rules of IPv6 address text *)

Lemma parseIPv6_accepts_iff (text : str) :
  (exists a, parseIPv6 text = Some a) <-> ValidIPv6 text.
Proof.
  unfold ValidIPv6. rewrite valid_lower. split.
  - intros (a & H). apply expand_valid_inv. exact (parseIPv6_plain_inv text a H).
  - intros V. apply (parseIPv6_plain text _ eq_refl). apply expand_valid. exact V.
Qed.

Lemma parseIPv6_examples :
  parseIPv6 (lit "::") = Some 0
  /\ parseIPv6 (lit "::1") = Some 1
  /\ parseIPv6 (lit "2001:DB8::") = Some 42540766411282592856903984951653826560
  /\ parseIPv6 (lit "::ffff:1.2.3.4") = Some 281470698652420
  /\ parseIPv6 (lit "1:2:3:4:5:6:7:8") = Some 5192455318486707404433266433261576
  /\ parseIPv6 (lit "1:2:3:4:5:6:1.2.3.4") = Some 5192455318486707404433266449711876
  /\ parseIPv6 (lit "1::2::3") = None
  /\ parseIPv6 (lit "1:2:3:4:5:6:7:8::") = None
  /\ parseIPv6 (lit "1:2:3:4:5:6:7") = None
  /\ parseIPv6 (lit "12345::") = None
  /\ parseIPv6 (lit ":1:2:3:4:5:6:7") = None
  /\ parseIPv6 (lit "::1.2.3") = None
  /\ parseIPv6 (lit "g::") = None.
Proof. vm_compute. repeat split. Qed.

(** C5.  The IPv6 address parser fails exactly on the texts that violate
    one of the rules.  A text obeys the rules when it consists of groups
    of one to four hex digits of either case, joined by single colons,
    with at most one [::] token between a left and a right run of groups,
    the last text being possibly an IPv4 literal that stands for two
    groups; without the token the groups number exactly eight, with it
    fewer than eight.  On every other text the parser returns [null], and
    the only error [parseCidr] raises is the invalid-CIDR error. *)
Theorem parseIPv6_fails_iff (text : str) :
  (parseIPv6 text = None <-> ~ ValidIPv6 text)
  /\ ((exists a, parseIPv6 text = Some a /\ 0 <= a < 2 ^ 128) <-> ValidIPv6 text)
  /\ (forall input e, parseCidr input = Throw e -> e = InvalidCIDR).
Proof.
  pose proof (parseIPv6_accepts_iff text) as A.
  split; [|split].
  - split.
    + intros H V. apply A in V. destruct V as (a & E). congruence.
    + intros H. destruct (parseIPv6 text) as [a|] eqn:E; [|reflexivity].
      exfalso. apply H. apply A. exists a. reflexivity.
  - split.
    + intros (a & E & _). apply A. exists a. exact E.
    + intros V. apply A in V. destruct V as (a & E). exists a. split; [exact E|].
      exact (parseIPv6_bounds text a E).
  - exact parseCidr_error.
Qed.

(** * Further properties of the parser *)

(** ** Octet text *)

Lemma digitValue_digit (c : ascii) :
  Str.isDigit c = true -> digitValue c = Some (Str.code c - 48).
Proof.
  intros H.
  pose proof (forall_ascii
                (fun c => implb (Str.isDigit c)
                                match digitValue c with
                                | Some d => d =? Str.code c - 48
                                | None => false
                                end)
                ltac:(vm_compute; reflexivity) c) as B.
  cbv beta in B. rewrite H in B. cbn [implb] in B.
  destruct (digitValue c) as [d|]; [|discriminate B].
  apply Z.eqb_eq in B. congruence.
Qed.

Lemma decimalFold_ge (part : str) :
  forall acc,
    0 <= acc ->
    acc <= fold_left (fun acc c =>
                        acc * 10 + match digitValue c with
                                   | Some d => d
                                   | None => 0
                                   end) part acc.
Proof.
  induction part as [|c part IH]; intros acc Hacc; cbn [fold_left]; [lia|].
  assert (Hd : 0 <= match digitValue c with Some d => d | None => 0 end).
  { destruct (digitValue c) as [d|] eqn:E; [|lia].
    pose proof (digitValue_bounds c d E). lia. }
  specialize (IH (acc * 10 + match digitValue c with Some d => d | None => 0 end)
                 ltac:(lia)).
  lia.
Qed.

Lemma parseByte_go_iff (part : str) :
  forall value v,
    0 <= value <= 255 ->
    (parseByte_go value part = Some v
     <-> forallb Str.isDigit part = true
         /\ fold_left (fun acc c =>
                         acc * 10 + match digitValue c with
                                    | Some d => d
                                    | None => 0
                                    end) part value <= 255
         /\ v = fold_left (fun acc c =>
                             acc * 10 + match digitValue c with
                                        | Some d => d
                                        | None => 0
                                        end) part value).
Proof.
  induction part as [|c part IH]; intros value v Hv; cbn [parseByte_go forallb fold_left].
  - split.
    + intros H. injection H as <-. split; [reflexivity|]. split; [lia | reflexivity].
    + intros (_ & _ & ->). reflexivity.
  - destruct (Str.isDigit c) eqn:D.
    + pose proof D as D'. unfold Str.isDigit in D'.
      apply andb_true_iff in D'. destruct D' as [D1 D2].
      apply Z.leb_le in D1, D2.
      replace ((Str.code c <? 48) || (Str.code c >? 57)) with false
        by (symmetry; apply orb_false_iff; split;
            [apply Z.ltb_ge; lia | rewrite Z.gtb_ltb; apply Z.ltb_ge; lia]).
      rewrite (digitValue_digit c D). cbn [andb].
      destruct (value * 10 + (Str.code c - 48) >? 255) eqn:G.
      * rewrite Z.gtb_ltb in G. apply Z.ltb_lt in G. split; [discriminate|].
        intros (_ & Hle & _).
        pose proof (decimalFold_ge part (value * 10 + (Str.code c - 48)) ltac:(lia)).
        lia.
      * rewrite Z.gtb_ltb in G. apply Z.ltb_ge in G.
        apply IH. lia.
    + replace ((Str.code c <? 48) || (Str.code c >? 57)) with true.
      * cbn [andb]. split; [discriminate | intros (H & _); discriminate H].
      * symmetry. unfold Str.isDigit in D. apply andb_false_iff in D.
        apply orb_true_iff. destruct D as [D|D].
        -- left. apply Z.leb_gt in D. apply Z.ltb_lt. lia.
        -- right. apply Z.leb_gt in D. rewrite Z.gtb_ltb. apply Z.ltb_lt. lia.
Qed.

Lemma parseByte_iff (part : str) (v : Z) :
  parseByte part = Some v
  <-> Str.allDigits part = true /\ parseInt 10 part <= 255 /\ v = parseInt 10 part.
Proof.
  unfold parseByte, Str.allDigits, parseInt. destruct part as [|c part].
  - split; [discriminate | intros (H & _); discriminate H].
  - apply parseByte_go_iff. lia.
Qed.

(** X1.  [parseByte] accepts exactly the non-empty texts of decimal digits
    whose value is at most 255, leading zeros included, and returns that
    value; on every other text it returns [null]. *)
Theorem parseByte_decimal (part : str) :
  (forall v, parseByte part = Some v
             <-> Str.allDigits part = true /\ parseInt 10 part <= 255
                 /\ v = parseInt 10 part)
  /\ (parseByte part = None
      <-> Str.allDigits part = false \/ 255 < parseInt 10 part)
  /\ (forall v, parseByte part = Some v -> 0 <= v <= 255)
  /\ parseByte (lit "007") = Some 7
  /\ parseByte (lit "256") = None
  /\ parseByte [] = None.
Proof.
  split; [|split; [|split; [|split; [|split]]]]; try reflexivity.
  - intros v. apply parseByte_iff.
  - destruct (parseByte part) as [v|] eqn:E.
    + apply parseByte_iff in E. destruct E as (A & B & _).
      split; [discriminate|]. intros [H|H]; [congruence | lia].
    + split; [|reflexivity]. intros _.
      destruct (Str.allDigits part) eqn:A; [|left; reflexivity].
      right. destruct (Z.lt_ge_cases 255 (parseInt 10 part)) as [H|H]; [exact H|].
      assert (P : parseByte part = Some (parseInt 10 part))
        by (apply parseByte_iff; split; [exact A|]; split; [lia | reflexivity]).
      congruence.
  - intros v. apply parseByte_bounds.
Qed.

(** ** Dotted quads *)

Lemma parseByte_no_dot (p : str) (o : Z) :
  parseByte p = Some o -> ~ In "."%char p.
Proof.
  intros H Hin. apply parseByte_iff in H. destruct H as (A & _).
  pose proof (allDigits_chars p "."%char A Hin) as D. discriminate D.
Qed.

Lemma parseIPv4_go_iff (parts : list str) :
  forall value a,
    parseIPv4_go value parts = Some a
    <-> exists octets,
        Forall2 (fun p o => parseByte p = Some o) parts octets
        /\ a = fold_left (fun acc o => acc * 256 + o) octets value.
Proof.
  induction parts as [|p parts IH]; intros value a; cbn [parseIPv4_go].
  - split.
    + intros H. injection H as <-. exists []. split; [constructor | reflexivity].
    + intros (octets & F & ->). inversion F. reflexivity.
  - split.
    + destruct (Str.allDigits p) eqn:A; [|discriminate]. cbn [negb].
      destruct (parseByte p) as [o|] eqn:B; [|discriminate].
      pose proof (parseByte_bounds p o B) as Ho.
      rewrite (lor_shiftl_add value o 8) by lia. change (2 ^ 8) with 256.
      intros H. apply IH in H. destruct H as (octets & F & ->).
      exists (o :: octets). split; [constructor; assumption | reflexivity].
    + intros (octets & F & ->). inversion F as [|p' o ps os B F' E1 E2]. subst.
      pose proof (proj1 (parseByte_iff p o) B) as (A & _).
      rewrite A, B. cbn [negb].
      pose proof (parseByte_bounds p o B) as Ho.
      rewrite (lor_shiftl_add value o 8) by lia. change (2 ^ 8) with 256.
      apply IH. exists os. split; [exact F' | reflexivity].
Qed.

Lemma parseIPv4_of_quad (p1 p2 p3 p4 : str) (o1 o2 o3 o4 : Z) :
  parseByte p1 = Some o1 -> parseByte p2 = Some o2 ->
  parseByte p3 = Some o3 -> parseByte p4 = Some o4 ->
  parseIPv4 (p1 ++ lit "." ++ p2 ++ lit "." ++ p3 ++ lit "." ++ p4)
  = Some (((o1 * 256 + o2) * 256 + o3) * 256 + o4).
Proof.
  intros B1 B2 B3 B4. unfold parseIPv4.
  change (lit ".") with ["."%char].
  assert (S : Str.split ["."%char]
                (p1 ++ ["."%char] ++ p2 ++ ["."%char] ++ p3 ++ ["."%char] ++ p4)
              = [p1; p2; p3; p4]).
  { apply (split1_join "."%char [p1; p2; p3; p4]); [discriminate|].
    repeat (constructor; [eapply parseByte_no_dot; eassumption|]). constructor. }
  rewrite S. cbn [length Nat.eqb negb].
  apply parseIPv4_go_iff. exists [o1; o2; o3; o4].
  split; [repeat constructor; assumption|]. cbn [fold_left]. f_equal; lia.
Qed.

(** X2.  [parseIPv4] accepts exactly the texts of four parts joined by
    three dots, each part a text [parseByte] accepts, and returns the
    big-endian value of the four octets.  Fewer or more parts, an empty
    part, a sign, white space or an octet above 255 give [null]. *)
Theorem parseIPv4_dotted_quad (text : str) (a : Z) :
  parseIPv4 text = Some a
  <-> exists p1 p2 p3 p4 o1 o2 o3 o4,
      text = p1 ++ lit "." ++ p2 ++ lit "." ++ p3 ++ lit "." ++ p4
      /\ parseByte p1 = Some o1 /\ parseByte p2 = Some o2
      /\ parseByte p3 = Some o3 /\ parseByte p4 = Some o4
      /\ a = ((o1 * 256 + o2) * 256 + o3) * 256 + o4.
Proof.
  split.
  - unfold parseIPv4. intros H.
    pose proof (join_split1 "."%char text) as J.
    change (lit ".") with ["."%char] in *.
    destruct (Str.split ["."%char] text) as [|p1 [|p2 [|p3 [|p4 [|? ?]]]]];
      try discriminate H.
    cbn [length Nat.eqb negb] in H.
    apply parseIPv4_go_iff in H. destruct H as (octets & F & ->).
    inversion F as [|? o1 ? os1 B1 F1]; subst.
    inversion F1 as [|? o2 ? os2 B2 F2]; subst.
    inversion F2 as [|? o3 ? os3 B3 F3]; subst.
    inversion F3 as [|? o4 ? os4 B4 F4]; subst.
    inversion F4; subst.
    exists p1, p2, p3, p4, o1, o2, o3, o4.
    split; [first [symmetry; exact J | reflexivity]|]. repeat (split; [assumption|]).
    cbn [fold_left]. lia.
  - intros (p1 & p2 & p3 & p4 & o1 & o2 & o3 & o4 & -> & B1 & B2 & B3 & B4 & ->).
    apply parseIPv4_of_quad; assumption.
Qed.

Lemma parseByte_decimal_octet (v : Z) :
  0 <= v <= 255 -> parseByte (decimal v) = Some v.
Proof.
  intros Hv.
  pose proof (forall_values
                (fun v => match parseByte (decimal v) with
                          | Some w => w =? v
                          | None => false
                          end)
                0 255 ltac:(vm_compute; reflexivity) v Hv) as B.
  cbv beta in B. destruct (parseByte (decimal v)) as [w|]; [|discriminate B].
  apply Z.eqb_eq in B. congruence.
Qed.

(** X3.  Parsing undoes printing for IPv4: the canonical dotted text of
    every 32-bit address is accepted by [parseIPv4], which returns the
    address. *)
Theorem parseIPv4_canonical (a : Z) :
  0 <= a < 2 ^ 32 -> parseIPv4 (canonicalIPv4 a) = Some a.
Proof.
  intros Ha.
  destruct (ipv4ToOctets_octets a) as [_ F].
  pose proof (ipv4ToOctets_value a Ha) as V.
  unfold canonicalIPv4. rewrite ipv4ToOctets_div in *.
  pose proof (Forall_inv F) as H1. apply Forall_inv_tail in F.
  pose proof (Forall_inv F) as H2. apply Forall_inv_tail in F.
  pose proof (Forall_inv F) as H3. apply Forall_inv_tail in F.
  pose proof (Forall_inv F) as H4. cbn beta in H1, H2, H3, H4.
  unfold segmentsValue in V. cbn [fold_left] in V.
  cbn [showRow map Str.join].
  rewrite (parseIPv4_of_quad _ _ _ _ _ _ _ _
             (parseByte_decimal_octet _ H1) (parseByte_decimal_octet _ H2)
             (parseByte_decimal_octet _ H3) (parseByte_decimal_octet _ H4)).
  f_equal. lia.
Qed.

Lemma parseIPv4_canonical_witness :
  0 <= 3232235853 < 2 ^ 32
  /\ canonicalIPv4 3232235853 = lit "192.168.1.77"
  /\ parseIPv4 (lit "192.168.1.77") = Some 3232235853.
Proof.
  assert (H : 0 <= 3232235853 < 2 ^ 32) by lia.
  split; [exact H|]. split; [reflexivity|].
  exact (parseIPv4_canonical 3232235853 H).
Defined.

(** ** Hextet text *)

(** X4.  [parseHextetParts] returns the values of its parts exactly when
    every part is one to four lower-case hex digits, and then every value
    is a hextet; one part that is empty, too long or holds another
    character makes the whole result [null]. *)
Theorem parseHextetParts_iff (parts : list str) :
  (forall out, parseHextetParts parts = Some out
               <-> Forall (fun p => isHextetText p = true) parts
                   /\ out = map (parseInt 16) parts)
  /\ (parseHextetParts parts = None
      <-> Exists (fun p => isHextetText p = false) parts)
  /\ (forall out, parseHextetParts parts = Some out ->
                  length out = length parts
                  /\ Forall (fun v => 0 <= v <= 65535) out).
Proof.
  assert (A : forall out, parseHextetParts parts = Some out
                          <-> Forall (fun p => isHextetText p = true) parts
                              /\ out = map (parseInt 16) parts).
  { intros out. split.
    - intros H. destruct (parseHextetParts_inv parts out H) as [F _].
      split; [exact F|]. rewrite (parseHextetParts_ok parts F) in H. congruence.
    - intros (F & ->). apply parseHextetParts_ok. exact F. }
  split; [exact A|]. split.
  - split.
    + intros H. induction parts as [|p parts IH]; [discriminate H|].
      cbn [parseHextetParts] in H.
      destruct (isHextetText p) eqn:E; [|left; exact E].
      cbn [negb] in H. right. apply IH.
      * intros out. split.
        -- intros Hp. destruct (parseHextetParts_inv parts out Hp) as [F _].
           split; [exact F|]. rewrite (parseHextetParts_ok parts F) in Hp. congruence.
        -- intros (F & ->). apply parseHextetParts_ok. exact F.
      * destruct (parseHextetParts parts); [discriminate H | reflexivity].
    + intros H. destruct (parseHextetParts parts) as [out|] eqn:E; [|reflexivity].
      exfalso. destruct (parseHextetParts_inv parts out E) as [F _].
      apply Exists_exists in H. destruct H as (p & Hin & Hp).
      rewrite Forall_forall in F. rewrite (F p Hin) in Hp. discriminate Hp.
  - intros out H. apply parseHextetParts_hextets. exact H.
Qed.

Lemma digitValue_digitChar (d : Z) : 0 <= d <= 15 -> digitValue (digitChar d) = Some d.
Proof. intros Hd. digit_cases d Hd; reflexivity. Qed.

Lemma parseInt_hexText (ds : list Z) :
  Forall (fun d => 0 <= d <= 15) ds ->
  parseInt 16 (hexText ds) = segmentsValue 16 ds.
Proof.
  intros F. unfold parseInt, segmentsValue.
  assert (G : forall acc,
             fold_left (fun acc c =>
                          acc * 16 + match digitValue c with
                                     | Some d => d
                                     | None => 0
                                     end) (hexText ds) acc
             = fold_left (fun acc v => acc * 16 + v) ds acc).
  { induction F as [|d ds Hd _ IH]; intros acc; [reflexivity|].
    cbn [hexText map fold_left]. rewrite (digitValue_digitChar d Hd). apply IH. }
  apply G.
Qed.

Lemma hex4_hextet (v : Z) :
  0 <= v <= 65535 -> isHextetText (hex4 v) = true /\ parseInt 16 (hex4 v) = v.
Proof.
  intros Hv. rewrite (hex4_digits v Hv).
  destruct (hexDigits4_digits v) as [L F]. split.
  - unfold isHextetText. rewrite hexText_length, L. cbn [Nat.leb andb].
    apply forallb_forall. intros c Hc. apply in_map_iff in Hc.
    destruct Hc as (d & <- & Hd).
    pose proof (proj1 (Forall_forall _ _) F d Hd) as Hd'. cbn beta in Hd'.
    clear - Hd'. digit_cases d Hd'; reflexivity.
  - rewrite (parseInt_hexText _ F). apply hexDigits4_value. exact Hv.
Qed.

(** ** The value of an IPv6 address text *)

Lemma parseIPv6_uncompressed_value (text : str) (right : list str) :
  expandEmbeddedIPv4 (Str.toLowerCase text) = Str.join [":"%char] right ->
  Forall (fun g => isHextetText g = true) right ->
  length right = 8%nat ->
  parseIPv6 text = Some (hextetsValue (map (parseInt 16) right)).
Proof.
  intros En Fr Hlen.
  pose proof (proj1 (hextetText_groups _ Fr)) as Gr.
  unfold parseIPv6. rewrite En. clear En.
  change (lit "::") with [":"%char; ":"%char] in *.
  change (lit ":") with [":"%char] in *.
  assert (Hne : Str.join [":"%char] right <> []).
  { apply (groups_join_nonempty right); [|exact Fr].
    destruct right; [discriminate Hlen | discriminate]. }
  rewrite (match_nonempty _ _ Hne). cbv zeta.
  pose proof (split2_uncompressed ":"%char right Gr) as S2.
  pose proof (count_of_split _ _ _ S2) as C2. cbn [length Nat.pred] in C2.
  rewrite C2.
  assert (I2 : Str.includes [":"%char; ":"%char] (Str.join [":"%char] right) = false).
  { destruct (Str.includes [":"%char; ":"%char] (Str.join [":"%char] right)) eqn:E;
      [|reflexivity].
    apply (count_includes [":"%char; ":"%char] _ ltac:(discriminate)) in E.
    rewrite C2 in E. lia. }
  rewrite I2. change (1 <? 0)%nat with false. cbn [nth].
  rewrite (parts_of_join right Fr).
  rewrite (no_empty_parts right Fr). cbn [existsb orb].
  rewrite (parseHextetParts_ok right Fr). cbn [parseHextetParts].
  rewrite length_map, Hlen. cbn [Nat.eqb negb].
  rewrite length_map, Hlen. cbn [Nat.eqb negb]. reflexivity.
Qed.

Lemma parseIPv6_compressed_value (text : str) (left right : list str) :
  expandEmbeddedIPv4 (Str.toLowerCase text)
  = Str.join [":"%char] left ++ [":"%char; ":"%char] ++ Str.join [":"%char] right ->
  Forall (fun g => isHextetText g = true) left ->
  Forall (fun g => isHextetText g = true) right ->
  (length left + length right < 8)%nat ->
  parseIPv6 text
  = Some (hextetsValue (map (parseInt 16) left
                        ++ repeat 0 (8 - (length left + length right))
                        ++ map (parseInt 16) right)).
Proof.
  intros En Fl Fr Hlen.
  pose proof (proj1 (hextetText_groups _ Fl)) as Gl.
  pose proof (proj1 (hextetText_groups _ Fr)) as Gr.
  unfold parseIPv6. rewrite En. clear En.
  change (lit "::") with [":"%char; ":"%char] in *.
  change (lit ":") with [":"%char] in *.
  assert (Hne : Str.join [":"%char] left ++ [":"%char; ":"%char]
                ++ Str.join [":"%char] right <> []).
  { destruct (Str.join [":"%char] left); discriminate. }
  rewrite (match_nonempty _ _ Hne). cbv zeta.
  pose proof (split2_compressed ":"%char left right Gl Gr) as S2.
  pose proof (count_of_split _ _ _ S2) as C2. cbn [length Nat.pred] in C2.
  rewrite C2.
  assert (I2 : Str.includes [":"%char; ":"%char]
                 (Str.join [":"%char] left ++ [":"%char; ":"%char]
                  ++ Str.join [":"%char] right) = true).
  { apply (count_includes [":"%char; ":"%char] _ ltac:(discriminate)).
    rewrite C2. lia. }
  rewrite I2, S2. change (1 <? 1)%nat with false. cbn [nth].
  rewrite (parts_of_join left Fl).
  rewrite (parts_of_join right Fr).
  rewrite (no_empty_parts left Fl), (no_empty_parts right Fr). cbn [orb].
  rewrite (parseHextetParts_ok left Fl), (parseHextetParts_ok right Fr).
  rewrite !length_map.
  replace (8 <=? length left + length right)%nat with false
    by (symmetry; apply Nat.leb_gt; exact Hlen).
  rewrite !length_app, repeat_length, !length_map.
  replace (length left + (8 - (length left + length right) + length right) =? 8)%nat
    with true by (symmetry; apply Nat.eqb_eq; lia).
  cbn [negb]. reflexivity.
Qed.

Lemma hex4_groups (hs : list Z) :
  Forall (fun v => 0 <= v <= 65535) hs ->
  Forall (fun g => isHextetText g = true) (map hex4 hs)
  /\ map (parseInt 16) (map hex4 hs) = hs.
Proof.
  induction 1 as [|v hs Hv _ [IH1 IH2]]; [split; [constructor | reflexivity]|].
  destruct (hex4_hextet v Hv) as [A B].
  split; [constructor; assumption|]. cbn [map]. rewrite B, IH2. reflexivity.
Qed.

(** X5.  Parsing undoes printing for IPv6: the canonical text of every
    128-bit address, eight groups of four lower-case hex digits, is
    accepted by [parseIPv6], which returns the address. *)
Theorem parseIPv6_canonical (a : Z) :
  0 <= a < 2 ^ 128 -> parseIPv6 (canonicalIPv6 a) = Some a.
Proof.
  intros Ha.
  destruct (ipv6ToHextets_hextets a) as [L F].
  destruct (hex4_groups _ F) as [G V].
  assert (Hdot : ~ In "."%char (canonicalIPv6 a)).
  { unfold canonicalIPv6, showRow. change (lit ":") with [":"%char].
    intros Hin. apply in_join in Hin.
    destruct Hin as [[E|[]]|(g & Hg & Hc)]; [discriminate E|].
    rewrite Forall_forall in G.
    exact (proj2 (proj2 (hextetText_facts g (G g Hg))) Hc). }
  rewrite (parseIPv6_uncompressed_value (canonicalIPv6 a) (map hex4 (ipv6ToHextets a))).
  - rewrite V, (hextetsValue_segments _ F), (ipv6ToHextets_value a Ha). reflexivity.
  - unfold Str.toLowerCase. rewrite canonicalIPv6_lower.
    rewrite (expand_none _ Hdot). reflexivity.
  - exact G.
  - rewrite length_map. exact L.
Qed.

Lemma parseIPv6_canonical_witness :
  0 <= 42540766411282592856903984951653826561 < 2 ^ 128
  /\ canonicalIPv6 42540766411282592856903984951653826561
     = lit "2001:0db8:0000:0000:0000:0000:0000:0001"
  /\ parseIPv6 (lit "2001:0db8:0000:0000:0000:0000:0000:0001")
     = Some 42540766411282592856903984951653826561.
Proof.
  assert (H : 0 <= 42540766411282592856903984951653826561 < 2 ^ 128).
  { change (2 ^ 128) with 340282366920938463463374607431768211456. lia. }
  split; [exact H|]. split; [vm_compute; reflexivity|].
  exact (parseIPv6_canonical 42540766411282592856903984951653826561 H).
Defined.

Lemma groups_values (gs : list str) :
  Forall (fun g => isHexGroup g = true) gs ->
  Forall (fun g => isHextetText g = true) (map (map Str.lower) gs)
  /\ Forall (fun v => 0 <= v <= 65535)
            (map (parseInt 16) (map (map Str.lower) gs)).
Proof.
  intros F. pose proof (proj2 (groups_lower gs) F) as G. split; [exact G|].
  apply Forall_map. eapply Forall_impl; [|exact G].
  intros g Hg. apply parseInt_hextet. exact Hg.
Qed.

(** X6.  The value of an address text without an IPv4 literal.  Groups
    are one to four hex digits of either case.  With the token [::]
    between [left] and [right], fewer than eight groups in all, the
    address has the left groups first, the right groups last and zero
    hextets between them; eight groups joined by single colons give the
    address of those eight hextets. *)
Theorem parseIPv6_group_values (left right : list str) :
  Forall (fun g => isHexGroup g = true) left ->
  Forall (fun g => isHexGroup g = true) right ->
  ((length left + length right < 8)%nat ->
   parseIPv6 (Str.join (lit ":") left ++ lit "::" ++ Str.join (lit ":") right)
   = Some (segmentsValue 65536
             (map (fun g => parseInt 16 (Str.toLowerCase g)) left
              ++ repeat 0 (8 - (length left + length right))
              ++ map (fun g => parseInt 16 (Str.toLowerCase g)) right)))
  /\ (length right = 8%nat ->
      parseIPv6 (Str.join (lit ":") right)
      = Some (segmentsValue 65536
                (map (fun g => parseInt 16 (Str.toLowerCase g)) right))).
Proof.
  intros Fl Fr.
  destruct (groups_values left Fl) as [Gl Vl].
  destruct (groups_values right Fr) as [Gr Vr].
  change (lit "::") with [":"%char; ":"%char].
  change (lit ":") with [":"%char].
  unfold Str.toLowerCase.
  destruct (valid_no_dot isHextetText _ _
              (fun g Hg => proj2 (proj2 (hextetText_facts g Hg))) Gl Gr)
    as [Dl Dr].
  split.
  - intros Hlen.
    rewrite (parseIPv6_compressed_value _ (map (map Str.lower) left)
                                        (map (map Str.lower) right)).
    + rewrite !length_map, !map_map.
      rewrite hextetsValue_segments; [reflexivity|].
      rewrite !map_map in Vl, Vr.
      apply Forall_app. split; [exact Vl|]. apply Forall_app. split; [|exact Vr].
      apply Forall_forall. intros x Hx. apply repeat_spec in Hx. lia.
    + unfold Str.toLowerCase. rewrite !map_app, !map_lower_join. cbn [map].
      apply expand_none.
      apply not_in_app; [exact Dl|]. apply not_in_app; [|exact Dr].
      intros [E|[E|[]]]; discriminate E.
    + exact Gl.
    + exact Gr.
    + rewrite !length_map. exact Hlen.
  - intros Hlen.
    rewrite (parseIPv6_uncompressed_value _ (map (map Str.lower) right)).
    + rewrite !map_map. rewrite hextetsValue_segments; [reflexivity|].
      rewrite !map_map in Vr. exact Vr.
    + unfold Str.toLowerCase. rewrite map_lower_join. apply expand_none. exact Dr.
    + exact Gr.
    + rewrite length_map. exact Hlen.
Qed.

Lemma parseIPv6_group_values_witness :
  Forall (fun g => isHexGroup g = true) [lit "2001"; lit "DB8"]
  /\ Forall (fun g => isHexGroup g = true) [lit "ff"; lit "1"]
  /\ parseIPv6 (lit "2001:DB8::ff:1")
     = Some (segmentsValue 65536 [8193; 3512; 0; 0; 0; 0; 255; 1]).
Proof.
  assert (Fl : Forall (fun g => isHexGroup g = true) [lit "2001"; lit "DB8"])
    by (repeat (constructor; [reflexivity|]); constructor).
  assert (Fr : Forall (fun g => isHexGroup g = true) [lit "ff"; lit "1"])
    by (repeat (constructor; [reflexivity|]); constructor).
  split; [exact Fl|]. split; [exact Fr|].
  exact (proj1 (parseIPv6_group_values [lit "2001"; lit "DB8"] [lit "ff"; lit "1"]
                                       Fl Fr)
               ltac:(cbn; lia)).
Defined.

(** ** The embedded IPv4 literal *)

Lemma literal_half_values (v : Z) :
  0 <= v < 2 ^ 32 ->
  Z.land (Z.shiftr v 16) 65535 = v / 65536
  /\ Z.land v 65535 = v mod 65536.
Proof.
  intros Hv. rewrite !land_65535, Z.shiftr_div_pow2 by lia.
  change (2 ^ 16) with 65536. change (2 ^ 32) with 4294967296 in Hv.
  split; [|reflexivity]. apply Z.mod_small. split.
  - apply Z.div_pos; lia.
  - apply Z.div_lt_upper_bound; lia.
Qed.

(** X7.  [expandEmbeddedIPv4] leaves a text without a dot as it is.  A
    text whose part after the last colon is an IPv4 literal has that
    literal replaced by two hex groups, its upper and its lower sixteen
    bits, written without padding.  Every other text with a dot (no
    colon at all, nothing after the last colon, or a part after it that
    [parseIPv4] refuses) gives the empty text. *)
Theorem expandEmbeddedIPv4_cases (text : str) :
  (~ In "."%char text -> expandEmbeddedIPv4 text = text)
  /\ (forall x t v,
         text = x ++ lit ":" ++ t -> ~ In ":"%char t -> parseIPv4 t = Some v ->
         expandEmbeddedIPv4 text
         = x ++ lit ":" ++ numberToString 16 (v / 65536)
             ++ lit ":" ++ numberToString 16 (v mod 65536))
  /\ (In "."%char text -> expandEmbeddedIPv4 text <> [] ->
      exists x t v,
        text = x ++ lit ":" ++ t /\ ~ In ":"%char t /\ parseIPv4 t = Some v).
Proof.
  split; [apply expand_none|]. split.
  - intros x t v -> Hcol Hv.
    assert (Ht : isIPv4Literal t = true) by (unfold isIPv4Literal; rewrite Hv; reflexivity).
    destruct (ipv4Literal_facts t Ht) as (Hne & Hdot & _ & _).
    destruct (literal_half_values v (parseIPv4_bounds t v Hv)) as [E1 E2].
    unfold expandEmbeddedIPv4.
    change (lit ".") with ["."%char]. change (lit ":") with [":"%char].
    change ([":"%char] ++ t) with (":"%char :: t).
    assert (I1 : Str.includes ["."%char] (x ++ ":"%char :: t) = true).
    { apply includes1. apply in_or_app. right. right. exact Hdot. }
    rewrite I1. cbn [negb].
    rewrite (lastIndexOf_last ":"%char x t Hcol).
    unfold Str.sliceFrom, Str.sliceTo. rewrite skipn_past, firstn_upto.
    rewrite (proj2 (includes1_false ":"%char t) Hcol).
    rewrite Hv, E1, E2.
    destruct t as [|c0 t0]; [congruence|]. reflexivity.
  - intros Hdot Hne.
    destruct (expand_inv text Hne Hdot) as (x & t & h & l & -> & Ht & _).
    destruct (ipv4Literal_facts t Ht) as (_ & _ & Hcol & _).
    unfold isIPv4Literal in Ht.
    destruct (parseIPv4 t) as [v|] eqn:Ev; [|discriminate].
    exists x, t, v. split; [reflexivity|]. split; [exact Hcol | exact Ev].
Qed.

(** ** White space around a CIDR text *)









(** ** What a CIDR text is *)

Lemma allDigits_no_slash (p : str) : Str.allDigits p = true -> ~ In "/"%char p.
Proof. intros A Hin. pose proof (allDigits_chars p _ A Hin) as D. discriminate D. Qed.

Lemma prefix_check (p bits : Z) :
  0 <= p -> ((p <? 0) || (p >? bits) = false <-> p <= bits).
Proof.
  intros Hp. rewrite orb_false_iff, Z.gtb_ltb, !Z.ltb_ge. split; [tauto | split; lia].
Qed.

(** X9.  [parseCidr] accepts exactly the texts that, once trimmed, are an
    address text and a prefix text joined by the only slash, where the
    prefix text is decimal digits only and the address text is accepted
    by the parser of its family: IPv6 with a prefix of at most 128 when
    the address text holds a colon, IPv4 with a prefix of at most 32
    otherwise.  The Parsed Prefix holds the family, the parsed address
    and the value of the prefix text. *)
Theorem parseCidrText_accepts (text : str) (parsed : ParsedCidr) :
  parseCidrText text = Ok parsed
  <-> exists addr pre a,
      Str.trim text = addr ++ lit "/" ++ pre
      /\ ~ In "/"%char addr /\ Str.allDigits pre = true
      /\ ((In ":"%char addr /\ parseIPv6 addr = Some a
           /\ parseInt 10 pre <= 128
           /\ parsed = mkParsed IPv6 a (parseInt 10 pre))
          \/ (~ In ":"%char addr /\ parseIPv4 addr = Some a
              /\ parseInt 10 pre <= 32
              /\ parsed = mkParsed IPv4 a (parseInt 10 pre))).
Proof.
  unfold parseCidrText.
  change (lit "/") with ["/"%char]. change (lit ":") with [":"%char].
  split.
  - intros H.
    pose proof (join_split1 "/"%char (Str.trim text)) as J.
    pose proof (split1_pieces "/"%char (Str.trim text)) as F.
    destruct (Str.split ["/"%char] (Str.trim text)) as [|addr [|pre [|? ?]]];
      try discriminate H.
    destruct addr as [|c0 addr0]; [discriminate H|].
    destruct (Str.allDigits pre) eqn:A; [|discriminate H]. cbn [negb] in H.
    pose proof (parseInt_nonneg pre) as Hp.
    destruct (Str.includes [":"%char] (c0 :: addr0)) eqn:I.
    + destruct ((parseInt 10 pre <? 0) || (parseInt 10 pre >? IPV6_BITS)) eqn:R;
        [discriminate H|].
      apply (prefix_check _ _ Hp) in R.
      destruct (parseIPv6 (c0 :: addr0)) as [a|] eqn:Ea; [|discriminate H].
      injection H as <-.
      exists (c0 :: addr0), pre, a. split; [symmetry; exact J|].
      split; [exact (Forall_inv F)|]. split; [exact A|]. left.
      split; [apply includes1; exact I|]. auto.
    + destruct ((parseInt 10 pre <? 0) || (parseInt 10 pre >? IPV4_BITS)) eqn:R;
        [discriminate H|].
      apply (prefix_check _ _ Hp) in R.
      destruct (parseIPv4 (c0 :: addr0)) as [a|] eqn:Ea; [|discriminate H].
      injection H as <-.
      exists (c0 :: addr0), pre, a. split; [symmetry; exact J|].
      split; [exact (Forall_inv F)|]. split; [exact A|]. right.
      split; [apply includes1_false; exact I|]. auto.
  - intros (addr & pre & a & -> & Hs & A & H).
    pose proof (parseInt_nonneg pre) as Hp.
    assert (S : Str.split ["/"%char] (addr ++ ["/"%char] ++ pre) = [addr; pre]).
    { apply (split1_join "/"%char [addr; pre]); [discriminate|].
      constructor; [exact Hs|]. constructor; [|constructor].
      apply allDigits_no_slash. exact A. }
    rewrite S, A. cbn [negb].
    destruct H as [(Hc & Ea & R & ->) | (Hc & Ea & R & ->)].
    + destruct addr as [|c0 addr0]; [destruct Hc|].
      rewrite (proj2 (includes1 ":"%char _) Hc).
      rewrite (proj2 (prefix_check _ IPV6_BITS Hp) R), Ea. reflexivity.
    + destruct addr as [|c0 addr0]; [discriminate Ea|].
      rewrite (proj2 (includes1_false ":"%char _) Hc).
      rewrite (proj2 (prefix_check _ IPV4_BITS Hp) R), Ea. reflexivity.
Qed.

(** * Further properties of the numeric stages *)

(** ** The block of a prefix *)

Lemma normalizeRange_div (value bits prefix : Z) :
  0 <= prefix <= bits -> 0 <= value < 2 ^ bits ->
  normalizeRange value bits prefix
  = (value / 2 ^ (bits - prefix) * 2 ^ (bits - prefix),
     value / 2 ^ (bits - prefix) * 2 ^ (bits - prefix) + 2 ^ (bits - prefix) - 1).
Proof.
  intros Hp Hv. rewrite (normalizeRange_masks value bits prefix Hp Hv).
  set (h := bits - prefix). assert (Hh : 0 <= h) by (subst h; lia).
  assert (E : Z.land value (Z.lnot (Z.ones h)) = Z.shiftl (value / 2 ^ h) h).
  { rewrite <- Z.ldiff_land, Z.ldiff_ones_r by exact Hh.
    rewrite Z.shiftr_div_pow2 by exact Hh. reflexivity. }
  rewrite E.
  assert (P : 0 < 2 ^ h) by (apply Z.pow_pos_nonneg; lia).
  rewrite (lor_shiftl_add (value / 2 ^ h) (Z.ones h) h Hh)
    by (rewrite Z.ones_equiv; lia).
  rewrite Z.shiftl_mul_pow2 by exact Hh. rewrite Z.ones_equiv.
  f_equal. lia.
Qed.

(** X10.  The interval of a prefix is the aligned block that holds the
    address: for an address of [bits] bits and a prefix length in
    [0, bits], the start is the address rounded down to a multiple of the
    block size [2 ^ (bits - prefix)], the end is the last address of that
    block, the address lies between them, and every address of the block
    has the same interval. *)
Theorem normalizeRange_block (value bits prefix : Z) :
  0 <= prefix <= bits -> 0 <= value < 2 ^ bits ->
  let size := 2 ^ (bits - prefix) in
  let start := fst (normalizeRange value bits prefix) in
  let end_ := snd (normalizeRange value bits prefix) in
  start = value / size * size
  /\ end_ = start + size - 1
  /\ start <= value <= end_
  /\ (forall other, start <= other <= end_ ->
                    normalizeRange other bits prefix = (start, end_)).
Proof.
  intros Hp Hv size start end_. subst start end_.
  destruct (normalizeRange_bounds value bits prefix Hp Hv) as (B0 & B1 & B2).
  rewrite (normalizeRange_div value bits prefix Hp Hv) in *. cbn [fst snd] in *.
  fold size in B0, B1, B2 |- *.
  assert (P : 0 < size) by (apply Z.pow_pos_nonneg; lia).
  pose proof (Z.div_mod value size ltac:(lia)) as DM.
  pose proof (Z.mod_pos_bound value size P) as MB.
  split; [reflexivity|]. split; [lia|]. split; [lia|].
  intros other Ho.
  rewrite (normalizeRange_div other bits prefix Hp) by lia. fold size.
  assert (E : other / size = value / size).
  { symmetry. apply (Z.div_unique other size (value / size)
                                  (other - value / size * size)); lia. }
  rewrite E. f_equal; lia.
Qed.

Lemma normalizeRange_block_witness :
  0 <= 20 <= 32 /\ 0 <= 3232235853 < 2 ^ 32
  /\ normalizeRange 3232235853 32 20 = (3232235520, 3232239615)
  /\ normalizeRange 3232239000 32 20 = (3232235520, 3232239615).
Proof.
  assert (H1 : 0 <= 20 <= 32) by lia.
  assert (H2 : 0 <= 3232235853 < 2 ^ 32) by lia.
  split; [exact H1|]. split; [exact H2|]. split; [reflexivity|].
  exact (proj2 (proj2 (proj2 (normalizeRange_block 3232235853 32 20 H1 H2)))
               3232239000 ltac:(cbn; lia)).
Defined.

(** ** Segments of an address *)

(** X11.  [ipv4ToOctets] writes a 32-bit address in base 256, most
    significant octet first: four values from 0 to 255 whose big-endian
    value is the address, and no other four octets have that value. *)
Theorem ipv4ToOctets_digits (a : Z) :
  0 <= a < 2 ^ 32 ->
  length (ipv4ToOctets a) = 4%nat
  /\ Forall (fun v => 0 <= v <= 255) (ipv4ToOctets a)
  /\ segmentsValue 256 (ipv4ToOctets a) = a
  /\ (forall vs, length vs = 4%nat -> Forall (fun v => 0 <= v <= 255) vs ->
                 segmentsValue 256 vs = a -> vs = ipv4ToOctets a).
Proof.
  intros Ha. destruct (ipv4ToOctets_octets a) as [L F].
  split; [exact L|]. split; [exact F|]. split; [exact (ipv4ToOctets_value a Ha)|].
  intros vs Hlen Hvs <-. symmetry.
  exact (proj1 (ipv4ToOctets_of_value vs Hlen Hvs)).
Qed.

Lemma ipv4ToOctets_digits_witness :
  0 <= 3232235853 < 2 ^ 32 /\ ipv4ToOctets 3232235853 = [192; 168; 1; 77]
  /\ segmentsValue 256 (ipv4ToOctets 3232235853) = 3232235853.
Proof.
  assert (H : 0 <= 3232235853 < 2 ^ 32) by lia.
  split; [exact H|]. split; [reflexivity|].
  exact (proj1 (proj2 (proj2 (ipv4ToOctets_digits 3232235853 H)))).
Defined.

(** X12.  [ipv6ToHextets] writes a 128-bit address in base 65536, most
    significant hextet first: eight values from 0 to 65535 whose
    big-endian value is the address, and no other eight hextets have that
    value. *)
Theorem ipv6ToHextets_digits (a : Z) :
  0 <= a < 2 ^ 128 ->
  length (ipv6ToHextets a) = 8%nat
  /\ Forall (fun v => 0 <= v <= 65535) (ipv6ToHextets a)
  /\ segmentsValue 65536 (ipv6ToHextets a) = a
  /\ (forall vs, length vs = 8%nat -> Forall (fun v => 0 <= v <= 65535) vs ->
                 segmentsValue 65536 vs = a -> vs = ipv6ToHextets a).
Proof.
  intros Ha. destruct (ipv6ToHextets_hextets a) as [L F].
  split; [exact L|]. split; [exact F|]. split; [exact (ipv6ToHextets_value a Ha)|].
  intros vs Hlen Hvs <-. symmetry.
  exact (proj1 (ipv6ToHextets_of_value vs Hlen Hvs)).
Qed.

Lemma ipv6ToHextets_digits_witness :
  0 <= 42540766411282592856903984951653826561 < 2 ^ 128
  /\ ipv6ToHextets 42540766411282592856903984951653826561
     = [8193; 3512; 0; 0; 0; 0; 0; 1]
  /\ segmentsValue 65536 (ipv6ToHextets 42540766411282592856903984951653826561)
     = 42540766411282592856903984951653826561.
Proof.
  assert (H : 0 <= 42540766411282592856903984951653826561 < 2 ^ 128).
  { change (2 ^ 128) with 340282366920938463463374607431768211456. lia. }
  split; [exact H|]. split; [reflexivity|].
  exact (proj1 (proj2 (proj2 (ipv6ToHextets_digits _ H)))).
Defined.

(** ** Full ranges *)

(** X13.  [isFullRange] holds exactly when, from [fromIndex] to the end
    of [start], every entry of [start] is the least value and the entry of
    [end] at the same place exists and is the greatest value; from an
    index at or past the end of [start] it holds of every pair of
    arrays. *)
Theorem isFullRange_iff (start end_ : list Z) (fromIndex : nat) (lo hi : Z) :
  (isFullRange start end_ fromIndex lo hi = true
   <-> forall i, (fromIndex <= i < length start)%nat ->
                 nth_error start i = Some lo /\ nth_error end_ i = Some hi)
  /\ ((length start <= fromIndex)%nat ->
      isFullRange start end_ fromIndex lo hi = true).
Proof.
  assert (A : isFullRange start end_ fromIndex lo hi = true
              <-> forall i, (fromIndex <= i < length start)%nat ->
                            nth_error start i = Some lo
                            /\ nth_error end_ i = Some hi).
  { unfold isFullRange. rewrite forallb_forall. split.
    - intros H i Hi. specialize (H i). rewrite in_seq in H.
      specialize (H ltac:(lia)).
      destruct (nth_error start i) as [s|]; [|discriminate H].
      destruct (nth_error end_ i) as [e|]; [|discriminate H].
      apply andb_true_iff in H. destruct H as [E1 E2].
      apply Z.eqb_eq in E1, E2. subst. auto.
    - intros H i Hi. apply in_seq in Hi.
      destruct (H i ltac:(lia)) as [-> ->]. rewrite !Z.eqb_refl. reflexivity. }
  split; [exact A|]. intros Hlen. apply A. intros i Hi. lia.
Qed.

(** * Further properties of the pattern stages *)

(** The expression assembled from one pattern matches what the pattern
    means. *)
Lemma single_pattern_test (p : str) :
  Pattern p ->
  exists rx,
    buildRegex [p] [] = Ok rx
    /\ forall s, test rx s = true <-> langOf p s.
Proof.
  intros P.
  destruct (buildRegex_test [p] [] ltac:(discriminate)
                            ltac:(constructor; [exact P | constructor]))
    as (rx & E & _ & _ & L).
  exists rx. split; [exact E|]. intros s. rewrite (L s).
  change (Str.includes (lit "i") []) with false. cbv iota.
  apply rowsLang_single.
Qed.

(** ** Octet ranges *)

(** X14.  For octets [lo <= hi], [octetRangePattern] gives a fragment
    that, anchored, matches exactly the decimal texts of the octets from
    [lo] to [hi], each written without padding. *)
Theorem octetRangePattern_matches (lo hi : Z) :
  0 <= lo -> lo <= hi -> hi <= 255 ->
  exists rx,
    buildRegex [octetRangePattern lo hi] [] = Ok rx
    /\ forall s, test rx s = true <-> exists v, lo <= v <= hi /\ s = decimal v.
Proof.
  intros H0 Hle H1.
  destruct (octetRangePattern_spec lo hi H0 Hle H1) as [(P & _) L].
  destruct (single_pattern_test _ P) as (rx & E & T).
  exists rx. split; [exact E|]. intros s. rewrite (T s). apply L.
Qed.

Lemma octetRangePattern_matches_witness :
  0 <= 8 /\ 8 <= 11 /\ 11 <= 255
  /\ octetRangePattern 8 11 = lit "(?:8|9|10|11)"
  /\ exists rx,
       buildRegex [lit "(?:8|9|10|11)"] [] = Ok rx
       /\ forall s, test rx s = true <-> exists v, 8 <= v <= 11 /\ s = decimal v.
Proof.
  split; [lia|]. split; [lia|]. split; [lia|]. split; [reflexivity|].
  exact (octetRangePattern_matches 8 11 ltac:(lia) ltac:(lia) ltac:(lia)).
Defined.

(** ** Hex digits *)

(** X15.  [hexValue] and [HEX_DIGITS] are inverse to each other: the
    value of a character is [d] exactly when the character is the digit
    of [d], for [d] from 0 to 15; on every other character, an upper-case
    hex letter included, [hexValue] throws the invalid-hex-digit error. *)
Theorem hexValue_digit (c : ascii) :
  (forall d, hexValue c = Ok d <-> 0 <= d <= 15 /\ c = digitChar d)
  /\ (hexValue c = Throw InvalidHexDigit <-> isLowerHex c = false)
  /\ hexValue "A"%char = Throw InvalidHexDigit.
Proof.
  pose proof (forall_ascii
                (fun c => match hexValue c with
                          | Ok d => Ascii.eqb (digitChar d) c && isLowerHex c
                          | Throw InvalidHexDigit => negb (isLowerHex c)
                          | Throw _ => false
                          end)
                ltac:(vm_compute; reflexivity) c) as B.
  cbv beta in B. split; [|split; [|reflexivity]].
  - intros d. split.
    + intros H. rewrite H in B. apply andb_true_iff in B. destruct B as [B _].
      apply Ascii.eqb_eq in B. split; [exact (hexValue_bounds c d H) | auto].
    + intros (Hd & ->). apply hexValue_digitChar. exact Hd.
  - destruct (hexValue c) as [d|e].
    + apply andb_true_iff in B. destruct B as [_ B]. rewrite B.
      split; discriminate.
    + destruct e; try discriminate B. apply negb_true_iff in B.
      split; [intros _; exact B | reflexivity].
Qed.

(** X16.  For hex digit values [lo <= hi], [hexDigitRange] gives a single
    digit or a bracket expression that, anchored, matches exactly the
    one-character texts of the lower-case digits from [lo] to [hi]. *)
Theorem hexDigitRange_matches (lo hi : Z) :
  0 <= lo -> lo <= hi -> hi <= 15 ->
  exists p rx,
    hexDigitRange lo hi = Ok p
    /\ buildRegex [p] [] = Ok rx
    /\ forall s, test rx s = true <-> exists d, lo <= d <= hi /\ s = [digitChar d].
Proof.
  intros H0 Hle H1.
  destruct (hexDigitRange_spec lo hi H0 Hle H1) as (p & E & (P & _) & _ & L).
  destruct (single_pattern_test p P) as (rx & Erx & T).
  exists p, rx. split; [exact E|]. split; [exact Erx|].
  intros s. rewrite (T s), (L s). split.
  - intros (ds & (v & Hv & ->) & _ & ->). exists v. auto.
  - intros (d & Hd & ->). exists [d]. split; [exists d; auto|].
    split; [constructor; [lia | constructor] | reflexivity].
Qed.

Lemma hexDigitRange_matches_witness :
  0 <= 3 /\ 3 <= 12 /\ 12 <= 15
  /\ exists p rx,
       hexDigitRange 3 12 = Ok p
       /\ buildRegex [p] [] = Ok rx
       /\ forall s, test rx s = true <-> exists d, 3 <= d <= 12 /\ s = [digitChar d].
Proof.
  split; [lia|]. split; [lia|]. split; [lia|].
  exact (hexDigitRange_matches 3 12 ltac:(lia) ltac:(lia) ltac:(lia)).
Defined.

(** ** Hextet ranges *)

(** X17.  For hextets [lo <= hi], [hexRangeParts] on their four-digit
    texts returns a non-empty list of alternatives without duplicates
    that, joined by [orPattern] and anchored, match exactly the four-digit
    lower-case texts of the hextets from [lo] to [hi]. *)
Theorem hexRangeParts_matches (lo hi : Z) :
  0 <= lo -> lo <= hi -> hi <= 65535 ->
  exists parts rx,
    hexRangeParts (hex4 lo) (hex4 hi) = Ok parts
    /\ parts <> []
    /\ buildRegex parts [] = Ok rx
    /\ forall s, test rx s = true <-> exists v, lo <= v <= hi /\ s = hex4 v.
Proof.
  intros H0 Hle H1.
  destruct (hexDigits4_digits lo) as [Ll Fl].
  destruct (hexDigits4_digits hi) as [Lh Fh].
  assert (Hlex : lexle (hexDigits4 lo) (hexDigits4 hi)).
  { apply (lexle_value 16 (hexDigits4 lo) ltac:(lia) (hexDigits4 hi) ltac:(lia)).
    - eapply Forall_impl; [|exact Fl]; cbn; intros; lia.
    - eapply Forall_impl; [|exact Fh]; cbn; intros; lia.
    - rewrite !hexDigits4_value by lia. lia. }
  destruct (hexRangeParts_from_spec 4 (hexDigits4 lo) (hexDigits4 hi)
              ltac:(lia) ltac:(lia) ltac:(lia) Fl Fh Hlex)
    as (parts & E & N & P & L).
  assert (Pp : Forall Pattern parts)
    by (eapply Forall_impl; [|exact P]; intros p Hp; exact (proj1 Hp)).
  destruct (buildRegex_test parts [] N Pp) as (rx & Erx & _ & _ & T).
  exists parts, rx. split.
  - unfold hexRangeParts. rewrite (hex4_digits lo), (hex4_digits hi) by lia.
    rewrite hexText_length, Ll. exact E.
  - split; [exact N|]. split; [exact Erx|].
    intros s. rewrite (T s).
    change (Str.includes (lit "i") []) with false. cbv iota.
    rewrite (L s). apply between_hextets; assumption.
Qed.

Lemma hexRangeParts_matches_witness :
  0 <= 4660 /\ 4660 <= 43981 /\ 43981 <= 65535
  /\ exists parts rx,
       hexRangeParts (lit "1234") (lit "abcd") = Ok parts
       /\ parts <> []
       /\ buildRegex parts [] = Ok rx
       /\ forall s, test rx s = true <-> exists v, 4660 <= v <= 43981 /\ s = hex4 v.
Proof.
  split; [lia|]. split; [lia|]. split; [lia|].
  exact (hexRangeParts_matches 4660 43981 ltac:(lia) ltac:(lia) ltac:(lia)).
Defined.

(** X18.  [hextetRangePattern] and its cache.  For hextets [lo <= hi] and
    a coherent cache the call returns the pattern it would compute with
    an empty cache, leaves a coherent cache that holds the pattern under
    the key of the range, and a second call returns the same pattern and
    leaves the cache as it is.  Anchored, the pattern matches exactly the
    four-digit lower-case texts of the hextets from [lo] to [hi]. *)
Theorem hextetRangePattern_memo (lo hi : Z) (cache : Cache) :
  0 <= lo -> lo <= hi -> hi <= 65535 -> Coherent cache ->
  exists p cache' rx,
    hextetRangePattern lo hi cache = (Ok p, cache')
    /\ fst (hextetRangePattern lo hi []) = Ok p
    /\ Coherent cache'
    /\ cacheGet (hextetRangeKey lo hi) cache' = Some p
    /\ hextetRangePattern lo hi cache' = (Ok p, cache')
    /\ buildRegex [p] [] = Ok rx
    /\ forall s, test rx s = true <-> exists v, lo <= v <= hi /\ s = hex4 v.
Proof.
  intros H0 Hle H1 C.
  destruct (hextetText_compute lo hi H0 Hle H1) as [E N].
  destruct (hextetText_spec lo hi H0 Hle H1) as [(P & _) L].
  destruct (single_pattern_test _ P) as (rx & Erx & T).
  assert (G : forall c, cacheGet (hextetRangeKey lo hi) c = Some (hextetText lo hi) ->
                        hextetRangePattern lo hi c = (Ok (hextetText lo hi), c)).
  { intros c Hc. unfold hextetRangePattern. rewrite Hc.
    destruct (hextetText lo hi); [congruence | reflexivity]. }
  assert (F : fst (hextetRangePattern lo hi []) = Ok (hextetText lo hi)).
  { unfold hextetRangePattern. cbn [cacheGet find]. rewrite E. reflexivity. }
  assert (R : exists cache',
             hextetRangePattern lo hi cache = (Ok (hextetText lo hi), cache')
             /\ Coherent cache'
             /\ cacheGet (hextetRangeKey lo hi) cache' = Some (hextetText lo hi)).
  { unfold hextetRangePattern.
    destruct (cacheGet (hextetRangeKey lo hi) cache) as [[|c cached]|] eqn:Gc.
    - rewrite E. eexists. split; [reflexivity|].
      split; [apply Coherent_set; assumption|].
      rewrite cacheGet_set, Str_eqb_refl. reflexivity.
    - pose proof (C lo hi c cached H0 Hle H1 Gc) as E'.
      rewrite E in E'. injection E' as E'. rewrite <- E' in *.
      exists cache. split; [reflexivity|]. split; [exact C | exact Gc].
    - rewrite E. eexists. split; [reflexivity|].
      split; [apply Coherent_set; assumption|].
      rewrite cacheGet_set, Str_eqb_refl. reflexivity. }
  destruct R as (cache' & Ec & C' & Gc').
  exists (hextetText lo hi), cache', rx.
  split; [exact Ec|]. split; [exact F|]. split; [exact C'|]. split; [exact Gc'|].
  split; [exact (G cache' Gc')|]. split; [exact Erx|].
  intros s. rewrite (T s). apply L.
Qed.

Lemma hextetRangePattern_memo_witness :
  0 <= 256 /\ 256 <= 4095 /\ 4095 <= 65535 /\ Coherent []
  /\ exists p cache',
       hextetRangePattern 256 4095 [] = (Ok p, cache')
       /\ hextetRangePattern 256 4095 cache' = (Ok p, cache').
Proof.
  split; [lia|]. split; [lia|]. split; [lia|]. split; [exact Coherent_empty|].
  destruct (hextetRangePattern_memo 256 4095 [] ltac:(lia) ltac:(lia) ltac:(lia)
                                    Coherent_empty)
    as (p & cache' & rx & E1 & _ & _ & _ & E2 & _).
  exists p, cache'. split; [exact E1 | exact E2].
Defined.

(** ** Lists of patterns without duplicates *)

Lemma uniqueBy_seen_ext (l : list str) :
  forall s1 s2,
    (forall x, existsb (Str.eqb x) s1 = existsb (Str.eqb x) s2) ->
    uniqueBy (fun part => part) s1 l = uniqueBy (fun part => part) s2 l.
Proof.
  induction l as [|a l IH]; intros s1 s2 H; [reflexivity|].
  cbn [uniqueBy]. rewrite (H a).
  destruct (existsb (Str.eqb a) s2); [apply IH; exact H|].
  f_equal. apply IH. intros x. cbn [existsb]. rewrite (H x). reflexivity.
Qed.

Lemma uniqueBy_seen_filter (k : str) (l : list str) :
  forall seen,
    uniqueBy (fun part => part) (k :: seen) l
    = uniqueBy (fun part => part) seen
               (filter (fun x => negb (Str.eqb x k)) l).
Proof.
  induction l as [|a l IH]; intros seen; [reflexivity|].
  cbn [uniqueBy filter existsb].
  destruct (Str.eqb a k) eqn:E; cbn [orb negb].
  - apply IH.
  - cbn [uniqueBy].
    destruct (existsb (Str.eqb a) seen); [apply IH|].
    f_equal. rewrite <- IH. apply uniqueBy_seen_ext.
    intros x. cbn [existsb]. destruct (Str.eqb x a), (Str.eqb x k); reflexivity.
Qed.

Lemma filter_absent (k : str) (l : list str) :
  ~ In k l -> filter (fun x => negb (Str.eqb x k)) l = l.
Proof.
  induction l as [|a l IH]; intros H; [reflexivity|].
  cbn [filter]. destruct (Str.eqb a k) eqn:E.
  - apply Str_eqb_eq in E. subst. exfalso. apply H. left. reflexivity.
  - cbn [negb]. f_equal. apply IH. intros Hin. apply H. right. exact Hin.
Qed.

Lemma uniquePatterns_of_NoDup (parts : list str) :
  NoDup parts -> uniquePatterns parts = parts.
Proof.
  unfold uniquePatterns. induction 1 as [|p l Hp _ IH]; [reflexivity|].
  cbn [uniqueBy existsb]. f_equal.
  rewrite uniqueBy_seen_filter, (filter_absent p l Hp). exact IH.
Qed.

(** X19.  [uniquePatterns] keeps one copy of every pattern, the first, in
    the order of first occurrence: the result has no duplicates and the
    same members as the input, is no longer than the input, starts with
    the first pattern followed by the unique patterns of the rest without
    it, and a list without duplicates is returned as it is. *)
Theorem uniquePatterns_set (parts : list str) :
  NoDup (uniquePatterns parts)
  /\ (forall p, In p (uniquePatterns parts) <-> In p parts)
  /\ (length (uniquePatterns parts) <= length parts)%nat
  /\ (forall p rest,
         parts = p :: rest ->
         uniquePatterns parts
         = p :: uniquePatterns (filter (fun x => negb (Str.eqb x p)) rest))
  /\ (NoDup parts -> uniquePatterns parts = parts)
  /\ uniquePatterns (uniquePatterns parts) = uniquePatterns parts.
Proof.
  split; [apply uniquePatterns_NoDup|].
  split; [intros p; apply uniquePatterns_In|].
  split; [apply uniquePatterns_length|].
  split; [|split].
  - intros p rest ->. unfold uniquePatterns. cbn [uniqueBy existsb]. f_equal.
    apply uniqueBy_seen_filter.
  - apply uniquePatterns_of_NoDup.
  - apply uniquePatterns_of_NoDup. apply uniquePatterns_NoDup.
Qed.

(** ** Alternation *)

(** X20.  [orPattern] joins alternatives.  Of no alternative it makes the
    pattern [(?!)], and the expression assembled from it matches no input
    at all.  Of one alternative, repeated or not, it makes that
    alternative.  Of well-formed alternatives it makes a pattern that
    matches exactly the strings that one of them matches. *)
Theorem orPattern_cases (parts : list str) :
  orPattern [] = lit "(?!)"
  /\ (exists rx, buildRegex [] [] = Ok rx /\ forall s, test rx s = false)
  /\ (forall p n, orPattern (repeat p (S n)) = p)
  /\ (parts <> [] -> Forall Pattern parts ->
      exists rx,
        buildRegex [orPattern parts] [] = Ok rx
        /\ forall s, test rx s = true <-> exists p, In p parts /\ langOf p s).
Proof.
  split; [reflexivity|]. split; [|split].
  - eexists. split; [reflexivity|]. intros s. unfold test.
    cbn [program ignoreCase flags].
    generalize (seq 0 (S (length s))) as l.
    induction l as [|i l IH]; [reflexivity|].
    cbn [existsb]. rewrite IH. destruct i; reflexivity.
  - intros p n. unfold orPattern, uniquePatterns. cbn [repeat uniqueBy existsb].
    assert (E : forall m, uniqueBy (fun part => part) [p] (repeat p m) = []).
    { induction m as [|m IH]; [reflexivity|].
      cbn [repeat uniqueBy existsb]. rewrite Str_eqb_refl. exact IH. }
    rewrite E. reflexivity.
  - intros Hne F. destruct (orPattern_spec parts Hne F) as [P L].
    destruct (single_pattern_test _ P) as (rx & E & T).
    exists rx. split; [exact E|]. intros s. rewrite (T s). apply L.
Qed.

Lemma orPattern_cases_witness :
  orPattern [lit "10"; lit "192"; lit "10"] = lit "(?:10|192)"
  /\ exists rx,
      buildRegex [orPattern [lit "10"; lit "192"; lit "10"]] [] = Ok rx
      /\ forall s, test rx s = true
                   <-> exists p, In p [lit "10"; lit "192"; lit "10"] /\ langOf p s.
Proof.
  split; [reflexivity|].
  apply (proj2 (proj2 (proj2 (orPattern_cases [lit "10"; lit "192"; lit "10"])))).
  - discriminate.
  - repeat (constructor; [apply Pattern_literal; reflexivity|]). constructor.
Defined.

(** ** Splitting a row *)

(** X21.  [splitPattern] undoes the joining of a row.  For fragments in
    which no escape occurs, every bracket class and group is closed and
    the first character of the separator occurs only inside them, the
    row of the fragments joined by the separator is split into exactly
    those fragments when their number is the expected one, and the
    internal split error is thrown when it is not. *)
Theorem splitPattern_join (sep : str) (sepc : ascii) (frags : list str) (k : nat) :
  (sep = lit "\." /\ sepc = "\"%char) \/ (sep = lit ":" /\ sepc = ":"%char) ->
  Forall (Splittable sepc) frags -> frags <> [] ->
  splitPattern (Str.join sep frags) sep k
  = if (length frags =? k)%nat then Ok frags else Throw InternalPatternSplit.
Proof.
  intros Hsep F Hne. unfold splitPattern.
  rewrite (splitPattern_go_join sep sepc frags Hsep F Hne).
  destruct (length frags =? k)%nat; reflexivity.
Qed.

Lemma splitPattern_join_witness :
  Forall (Splittable "\"%char) [lit "10"; lit "(?:0|1)"; IPV4_ANY_OCTET; lit "[0-9]"]
  /\ splitPattern (lit "10\.(?:0|1)\." ++ IPV4_ANY_OCTET ++ lit "\.[0-9]") (lit "\.") 4
     = Ok [lit "10"; lit "(?:0|1)"; IPV4_ANY_OCTET; lit "[0-9]"]
  /\ splitPattern (lit "10\.(?:0|1)\." ++ IPV4_ANY_OCTET ++ lit "\.[0-9]") (lit "\.") 3
     = Throw InternalPatternSplit.
Proof.
  assert (F : Forall (Splittable "\"%char)
                     [lit "10"; lit "(?:0|1)"; IPV4_ANY_OCTET; lit "[0-9]"])
    by (repeat (constructor; [reflexivity|]); constructor).
  split; [exact F|]. split.
  - exact (splitPattern_join (lit "\.") "\"%char
                             [lit "10"; lit "(?:0|1)"; IPV4_ANY_OCTET; lit "[0-9]"] 4
                             (or_introl (conj eq_refl eq_refl)) F ltac:(discriminate)).
  - exact (splitPattern_join (lit "\.") "\"%char
                             [lit "10"; lit "(?:0|1)"; IPV4_ANY_OCTET; lit "[0-9]"] 3
                             (or_introl (conj eq_refl eq_refl)) F ltac:(discriminate)).
Defined.

(** ** Wildcard suffixes *)

(** X22.  The wildcard suffixes.  For a count of zero or less both are
    the empty pattern.  For a positive count [k], [ipv4AnySuffix] matches,
    anchored, exactly the texts of [k] octets in decimal joined by dots,
    and [ipv6AnySuffix] exactly the texts of [k] hextets of four
    lower-case hex digits joined by colons. *)
Theorem anySuffix_matches (k : nat) :
  (forall count, count <= 0 -> ipv4AnySuffix count = [] /\ ipv6AnySuffix count = [])
  /\ (exists rx,
         buildRegex [ipv4AnySuffix (Z.of_nat k)] [] = Ok rx
         /\ forall s, test rx s = true
                      <-> exists vs, length vs = k
                                     /\ Forall (fun v => 0 <= v <= 255) vs
                                     /\ s = showRow decimal (lit ".") vs)
  /\ (exists rx,
         buildRegex [ipv6AnySuffix (Z.of_nat k)] [] = Ok rx
         /\ forall s, test rx s = true
                      <-> exists vs, length vs = k
                                     /\ Forall (fun v => 0 <= v <= 65535) vs
                                     /\ s = showRow hex4 (lit ":") vs).
Proof.
  split; [|split].
  - intros count Hc. unfold ipv4AnySuffix, ipv6AnySuffix.
    replace (count <=? 0) with true by (symmetry; apply Z.leb_le; exact Hc).
    split; reflexivity.
  - destruct (ipv4AnySuffix_spec k) as [R L].
    pose proof (Row_Pattern (lit "\.") "\"%char Pattern_escaped_dot k _ R) as P.
    destruct (single_pattern_test _ P) as (rx & E & T).
    exists rx. split; [exact E|]. intros s. rewrite (T s). apply L.
  - destruct (ipv6AnySuffix_spec k) as [R L].
    pose proof (Row_Pattern (lit ":") ":"%char Pattern_colon k _ R) as P.
    destruct (single_pattern_test _ P) as (rx & E & T).
    exists rx. split; [exact E|]. intros s. rewrite (T s). apply L.
Qed.

(** ** The builders on arbitrary ranges *)

Lemma rows_split (sep : str) (sepc : ascii) (k : nat) (ps : list str) :
  (sep = lit "\." /\ sepc = "\"%char) \/ (sep = lit ":" /\ sepc = ":"%char) ->
  (0 < k)%nat ->
  Forall (Row sep sepc k) ps ->
  forall p, In p ps ->
            exists frags, splitPattern p sep k = Ok frags
                          /\ length frags = k /\ Str.join sep frags = p.
Proof.
  intros Hsep Hk R p Hp. rewrite Forall_forall in R.
  destruct (splitPattern_Row sep sepc Hsep k p Hk (R p Hp)) as (frags & E & J & L & _).
  exists frags. split; [exact E|]. split; [exact L | exact J].
Qed.

(** X23.  The IPv4 builder on an arbitrary range.  For any two addresses
    [start <= end_], aligned to a prefix or not, the patterns that
    [buildIPv4Patterns] makes of their octets are not empty, each splits
    at the escaped dots into four fragments, and the expression assembled
    from them, before any minimization, matches exactly the canonical
    dotted texts of the addresses from [start] to [end_]. *)
Theorem buildIPv4Patterns_range (start end_ : Z) :
  0 <= start -> start <= end_ -> end_ < 2 ^ 32 ->
  let ps := buildIPv4Patterns (ipv4ToOctets start) (ipv4ToOctets end_) 0 in
  ps <> []
  /\ (forall p, In p ps ->
                exists frags, splitPattern p (lit "\.") 4 = Ok frags
                              /\ length frags = 4%nat
                              /\ Str.join (lit "\.") frags = p)
  /\ exists rx,
      buildRegex ps [] = Ok rx
      /\ forall s, test rx s = true
                   <-> exists a, start <= a <= end_ /\ s = canonicalIPv4 a.
Proof.
  intros B0 B1 B2.
  destruct (ipv4ToOctets_octets start) as [Ls Os].
  destruct (ipv4ToOctets_octets end_) as [Le Oe].
  assert (Hlex : lexle (ipv4ToOctets start) (ipv4ToOctets end_)).
  { apply (lexle_value 256 _ ltac:(lia) _ (eq_trans Ls (eq_sym Le)) Os Oe).
    rewrite !ipv4ToOctets_value by lia. exact B1. }
  destruct (buildIPv4Patterns_spec _ _ Ls Le Os Oe Hlex) as (R & N & L).
  cbv zeta. split; [exact N|]. split.
  - apply (rows_split (lit "\.") "\"%char 4 _ (or_introl (conj eq_refl eq_refl))
                      ltac:(lia) R).
  - assert (P : Forall Pattern
                       (buildIPv4Patterns (ipv4ToOctets start) (ipv4ToOctets end_) 0)).
    { eapply Forall_impl; [|exact R].
      intros p Hp. exact (Row_Pattern (lit "\.") "\"%char Pattern_escaped_dot 4 p Hp). }
    destruct (buildRegex_test _ [] N P) as (rx & Erx & _ & _ & Lrx).
    exists rx. split; [exact Erx|]. intros s. rewrite (Lrx s).
    change (Str.includes (lit "i") []) with false. cbv iota.
    rewrite (L s). apply ipv4_interval_rows; assumption.
Qed.

Lemma buildIPv4Patterns_range_witness :
  exists rx,
    buildRegex (buildIPv4Patterns (ipv4ToOctets 167772415) (ipv4ToOctets 167772930) 0) []
    = Ok rx
    /\ forall s, test rx s = true
                 <-> exists a, 167772415 <= a <= 167772930 /\ s = canonicalIPv4 a.
Proof.
  exact (proj2 (proj2 (buildIPv4Patterns_range 167772415 167772930
                         ltac:(lia) ltac:(lia) ltac:(lia)))).
Defined.

Lemma buildIPv6Patterns_pure (start end_ : list Z) (cache : Cache) :
  length start = 8%nat -> length end_ = 8%nat ->
  Forall (fun v => 0 <= v <= 65535) start ->
  Forall (fun v => 0 <= v <= 65535) end_ ->
  lexle start end_ ->
  Coherent cache ->
  exists cache',
    buildIPv6Patterns start end_ 0 cache
    = (Ok (buildRows 8 65535 (lit ":") ipv6AnySuffix hextetText 8 start end_ 0), cache')
    /\ Coherent cache'.
Proof.
  intros Hs He Ss Se Hlex C. unfold buildIPv6Patterns.
  destruct (buildIPv6Patterns_from_refines 8 [] [] start end_ cache
              eq_refl Hs He eq_refl Ss Se Hlex C) as (cache' & E & C').
  cbn [app length] in E. cbn [Nat.sub].
  exists cache'. split; [exact E | exact C'].
Qed.

(** X24.  The IPv6 builder on an arbitrary range.  With a cache that holds
    only what the compiler computes, [buildIPv6Patterns] returns patterns
    for any two addresses [start <= end_]: they are not empty, each splits
    at the colons into eight fragments, and the expression assembled from
    them with the flag [i] matches exactly the texts that are, up to the
    case of the letters, the canonical text of an address from [start] to
    [end_]. *)
Theorem buildIPv6Patterns_range (start end_ : Z) (cache : Cache) :
  0 <= start -> start <= end_ -> end_ < 2 ^ 128 ->
  Coherent cache ->
  exists ps cache',
    buildIPv6Patterns (ipv6ToHextets start) (ipv6ToHextets end_) 0 cache = (Ok ps, cache')
    /\ Coherent cache'
    /\ ps <> []
    /\ (forall p, In p ps ->
                  exists frags, splitPattern p (lit ":") 8 = Ok frags
                                /\ length frags = 8%nat
                                /\ Str.join (lit ":") frags = p)
    /\ exists rx,
        buildRegex ps (lit "i") = Ok rx
        /\ forall s, test rx s = true
                     <-> exists a, start <= a <= end_
                                   /\ map Str.lower s = canonicalIPv6 a.
Proof.
  intros B0 B1 B2 C.
  destruct (ipv6ToHextets_hextets start) as [Ls Os].
  destruct (ipv6ToHextets_hextets end_) as [Le Oe].
  assert (Hlex : lexle (ipv6ToHextets start) (ipv6ToHextets end_)).
  { apply (lexle_value 65536 _ ltac:(lia) _ (eq_trans Ls (eq_sym Le)) Os Oe).
    rewrite !ipv6ToHextets_value by lia. exact B1. }
  destruct (buildIPv6Patterns_spec _ _ cache Ls Le Os Oe Hlex C)
    as (ps & cache' & Eb & C' & R & N & L).
  exists ps, cache'. split; [exact Eb|]. split; [exact C'|]. split; [exact N|].
  split.
  - apply (rows_split (lit ":") ":"%char 8 _ (or_intror (conj eq_refl eq_refl))
                      ltac:(lia) R).
  - assert (P : Forall Pattern ps).
    { eapply Forall_impl; [|exact R].
      intros p Hp. exact (Row_Pattern (lit ":") ":"%char Pattern_colon 8 p Hp). }
    destruct (buildRegex_test _ (lit "i") N P) as (rx & Erx & _ & _ & Lrx).
    exists rx. split; [exact Erx|]. intros s. rewrite (Lrx s).
    change (Str.includes (lit "i") (lit "i")) with true. cbv iota.
    rewrite (L (map Str.lower s)). apply ipv6_interval_rows; assumption.
Qed.

Lemma buildIPv6Patterns_range_witness :
  exists ps cache',
    buildIPv6Patterns (ipv6ToHextets 65000) (ipv6ToHextets 70000) 0 [] = (Ok ps, cache')
    /\ Coherent cache'
    /\ ps <> []
    /\ (forall p, In p ps ->
                  exists frags, splitPattern p (lit ":") 8 = Ok frags
                                /\ length frags = 8%nat
                                /\ Str.join (lit ":") frags = p)
    /\ exists rx,
        buildRegex ps (lit "i") = Ok rx
        /\ forall s, test rx s = true
                     <-> exists a, 65000 <= a <= 70000
                                   /\ map Str.lower s = canonicalIPv6 a.
Proof.
  assert (H : 70000 < 2 ^ 128).
  { change (2 ^ 128) with 340282366920938463463374607431768211456. lia. }
  exact (buildIPv6Patterns_range 65000 70000 [] ltac:(lia) ltac:(lia) H Coherent_empty).
Defined.

(** ** What a compiled expression matches, read back by the parser *)

Lemma parseIPv4_of_canonical (a : Z) :
  0 <= a < 2 ^ 32 -> parseIPv4 (canonicalIPv4 a) = Some a.
Proof.
  intros Ha.
  destruct (ipv4ToOctets_octets a) as [_ F].
  pose proof (ipv4ToOctets_value a Ha) as V.
  unfold canonicalIPv4. rewrite ipv4ToOctets_div in *.
  pose proof (Forall_inv F) as H1. apply Forall_inv_tail in F.
  pose proof (Forall_inv F) as H2. apply Forall_inv_tail in F.
  pose proof (Forall_inv F) as H3. apply Forall_inv_tail in F.
  pose proof (Forall_inv F) as H4. cbn beta in H1, H2, H3, H4.
  unfold segmentsValue in V. cbn [fold_left] in V.
  cbn [showRow map Str.join].
  rewrite (parseIPv4_of_quad _ _ _ _ _ _ _ _
             (parseByte_decimal_octet _ H1) (parseByte_decimal_octet _ H2)
             (parseByte_decimal_octet _ H3) (parseByte_decimal_octet _ H4)).
  f_equal; lia.
Qed.

Lemma parseIPv6_any_case (s : str) (a : Z) :
  0 <= a < 2 ^ 128 -> map Str.lower s = canonicalIPv6 a -> parseIPv6 s = Some a.
Proof.
  intros Ha Es.
  destruct (ipv6ToHextets_hextets a) as [L F].
  destruct (hex4_groups _ F) as [G V].
  assert (Hdot : ~ In "."%char (canonicalIPv6 a)).
  { unfold canonicalIPv6, showRow. change (lit ":") with [":"%char].
    intros Hin. apply in_join in Hin.
    destruct Hin as [[E|[]]|(g & Hg & Hc)]; [discriminate E|].
    rewrite Forall_forall in G.
    exact (proj2 (proj2 (hextetText_facts g (G g Hg))) Hc). }
  rewrite (parseIPv6_uncompressed_value s (map hex4 (ipv6ToHextets a))).
  - rewrite V, (hextetsValue_segments _ F), (ipv6ToHextets_value a Ha). reflexivity.
  - unfold Str.toLowerCase. rewrite Es.
    rewrite (expand_none _ Hdot). reflexivity.
  - exact G.
  - rewrite length_map. exact L.
Qed.

(** X25.  The expression matches nothing outside the block.  Every text
    that the expression compiled for an accepted CIDR matches is read by
    the address parser of the same family, [parseIPv4] or [parseIPv6], as
    an address of the Numeric Interval of the block. *)
Theorem matched_text_parses_back
        (input : jsValue) (parsed : ParsedCidr) (cache cache' : Cache)
        (rx : RegExp) (s : str) :
  Coherent cache ->
  parseCidr input = Ok parsed ->
  cidrToRegex input cache = (Ok rx, cache') ->
  test rx s = true ->
  exists a,
    match pfamily parsed with
    | IPv4 => parseIPv4 s
    | IPv6 => parseIPv6 s
    end = Some a
    /\ fst (intervalOf parsed) <= a <= snd (intervalOf parsed).
Proof.
  intros C E Erx T.
  destruct (cidrToRegex_spec input parsed cache C E) as (rx0 & c0 & E0 & _ & _ & L).
  rewrite E0 in Erx. injection Erx as <- <-.
  apply (proj1 (L s)) in T. destruct T as (a & Ha & Ec).
  destruct (intervalOf_bounds parsed (parseCidr_WellFormed input parsed E))
    as (B0 & B1 & B2).
  exists a. split; [|exact Ha].
  destruct (pfamily parsed); cbn [foldCase canonical bitsOf] in *.
  - rewrite Ec. apply parseIPv4_of_canonical.
    change IPV4_BITS with 32 in B2. lia.
  - apply parseIPv6_any_case; [|exact Ec].
    change IPV6_BITS with 128 in B2. lia.
Qed.

Lemma matched_text_parses_back_witness :
  exists a,
    parseIPv6 (lit "2001:0DB8:0000:0000:0000:0000:0000:00fF") = Some a
    /\ fst (intervalOf (mkParsed IPv6 42540766411282592856903984951653826560 120)) <= a
       <= snd (intervalOf (mkParsed IPv6 42540766411282592856903984951653826560 120)).
Proof.
  exact (matched_text_parses_back
           (JsString (lit "2001:db8::/120"))
           (mkParsed IPv6 42540766411282592856903984951653826560 120)
           [] (snd (cidrToRegex (JsString (lit "2001:db8::/120")) []))
           (match fst (cidrToRegex (JsString (lit "2001:db8::/120")) []) with
            | Ok rx => rx
            | Throw _ => mkRegExp [] [] REmpty
            end)
           (lit "2001:0DB8:0000:0000:0000:0000:0000:00fF")
           Coherent_empty
           ltac:(vm_compute; reflexivity)
           ltac:(vm_compute; reflexivity)
           ltac:(vm_compute; reflexivity)).
Defined.

(** ** Flags, anchors and case *)






(** ** The cache is invisible *)

Lemma compileParsed_any_cache (parsed : ParsedCidr) (c1 c2 : Cache) :
  WellFormed parsed -> Coherent c1 -> Coherent c2 ->
  fst (compileParsed parsed c1) = fst (compileParsed parsed c2).
Proof.
  intros W C1 C2. unfold compileParsed.
  destruct (pfamily parsed) eqn:F; cbv zeta.
  - unfold bindM, liftR.
    destruct (minimizePatternSet _ _ _); [|reflexivity].
    destruct (buildRegex _ _); reflexivity.
  - destruct (intervalOf_bounds parsed W) as (B0 & B1 & B2).
    unfold intervalOf in B0, B1, B2. rewrite F in B0, B1, B2.
    cbn [bitsOf] in B0, B1, B2.
    set (range := normalizeRange (address parsed) IPV6_BITS (prefix parsed)) in *.
    destruct (ipv6ToHextets_hextets (fst range)) as [Ls Os].
    destruct (ipv6ToHextets_hextets (snd range)) as [Le Oe].
    assert (Hlex : lexle (ipv6ToHextets (fst range)) (ipv6ToHextets (snd range))).
    { apply (lexle_value 65536 _ ltac:(lia) _ (eq_trans Ls (eq_sym Le)) Os Oe).
      change IPV6_BITS with 128 in B2.
      rewrite !ipv6ToHextets_value by lia. exact B1. }
    destruct (buildIPv6Patterns_pure _ _ c1 Ls Le Os Oe Hlex C1) as (c1' & E1 & _).
    destruct (buildIPv6Patterns_pure _ _ c2 Ls Le Os Oe Hlex C2) as (c2' & E2 & _).
    rewrite (bindM_ok _ _ _ _ _ E1), (bindM_ok _ _ _ _ _ E2).
    unfold bindM, liftR.
    destruct (minimizePatternSet _ _ _); [|reflexivity].
    destruct (buildRegex _ _); reflexivity.
Qed.

(** X27.  The cache of hextet ranges cannot be observed.  Whatever calls
    were made before, [cidrToRegex] returns for an input what it returns
    with the empty cache of a freshly loaded module, the same expression
    or the same error.  A call whose input is rejected, or is an IPv4
    CIDR, leaves the cache as it was. *)
Theorem cidrToRegex_cache_invisible (history : list jsValue) (input : jsValue) :
  fst (cidrToRegex input (cacheAfter history)) = fst (cidrToRegex input [])
  /\ (forall cache,
         match parseCidr input with
         | Ok parsed => pfamily parsed = IPv4
         | Throw _ => True
         end ->
         snd (cidrToRegex input cache) = cache).
Proof.
  split.
  - rewrite !cidrToRegex_compileParsed.
    destruct (parseCidr input) as [parsed|e] eqn:E; [|reflexivity].
    apply compileParsed_any_cache.
    + exact (parseCidr_WellFormed input parsed E).
    + apply cacheAfter_Coherent.
    + exact Coherent_empty.
  - intros cache H. rewrite cidrToRegex_compileParsed.
    destruct (parseCidr input) as [parsed|e]; [|reflexivity].
    unfold compileParsed. rewrite H. cbv zeta. unfold bindM, liftR.
    destruct (minimizePatternSet _ _ _); [|reflexivity].
    destruct (buildRegex _ _); reflexivity.
Qed.

(** ** Wildcards of hex digits *)

(** X28.  [hexWildcard n], for the lengths the compiler uses, matches,
    anchored, exactly the texts of [n] lower-case hex digits; for [n = 0]
    that is the empty text alone. *)
Theorem hexWildcard_matches (n : nat) :
  (n <= 4)%nat ->
  exists rx,
    buildRegex [hexWildcard n] [] = Ok rx
    /\ forall s, test rx s = true
                 <-> exists ds, length ds = n
                                /\ Forall (fun d => 0 <= d <= 15) ds
                                /\ s = hexText ds.
Proof.
  intros Hn. destruct (hexWildcard_spec n Hn) as [[P _] L].
  destruct (single_pattern_test _ P) as (rx & E & T).
  exists rx. split; [exact E|]. intros s. rewrite (T s). apply L.
Qed.

Lemma hexWildcard_matches_witness :
  hexWildcard 3 = lit "[0-9a-f]{3}"
  /\ exists rx,
      buildRegex [hexWildcard 3] [] = Ok rx
      /\ forall s, test rx s = true
                   <-> exists ds, length ds = 3%nat
                                  /\ Forall (fun d => 0 <= d <= 15) ds
                                  /\ s = hexText ds.
Proof.
  split; [reflexivity|].
  exact (hexWildcard_matches 3 ltac:(lia)).
Defined.

(** ** Rows without duplicates *)

(** X29.  [uniquePatternRows] keys a row by its fragments joined with the
    character U+0002.  On rows of one length whose fragments do not hold
    that character the key tells rows apart: the result has no duplicate,
    has the same members as the input, and is no longer than the input. *)
Theorem uniquePatternRows_set (k : nat) (rows : list (list str)) :
  Forall (fun row => length row = k /\ Forall (fun f => ~ In U0002 f) row) rows ->
  NoDup (uniquePatternRows rows)
  /\ (forall row, In row (uniquePatternRows rows) <-> In row rows)
  /\ (length (uniquePatternRows rows) <= length rows)%nat.
Proof.
  intros Hall. unfold uniquePatternRows. split; [|split].
  - apply (NoDup_map_inv (fun row => Str.join [U0002] row)).
    apply uniqueBy_keys_NoDup.
  - intros row. split; [apply uniqueBy_In|].
    intros Hin.
    destruct (uniqueBy_complete (fun row => Str.join [U0002] row) rows [] row Hin)
      as (row' & Hin' & E); [intros []|].
    assert (row' = row); [|subst; exact Hin'].
    pose proof (uniqueBy_In _ _ _ _ Hin') as Hin''.
    rewrite Forall_forall in Hall.
    destruct (Hall row Hin) as (L1 & G1). destruct (Hall row' Hin'') as (L2 & G2).
    assert (Hlen : length row' = length row) by lia.
    exact (join_char_inj U0002 _ _ Hlen G2 G1 E).
  - apply uniqueBy_length.
Qed.

Lemma uniquePatternRows_set_witness :
  uniquePatternRows [[lit "10"; lit "0"]; [lit "10"; lit "1"]; [lit "10"; lit "0"]]
  = [[lit "10"; lit "0"]; [lit "10"; lit "1"]]
  /\ NoDup (uniquePatternRows
              [[lit "10"; lit "0"]; [lit "10"; lit "1"]; [lit "10"; lit "0"]]).
Proof.
  split; [reflexivity|].
  refine (proj1 (uniquePatternRows_set 2
                   [[lit "10"; lit "0"]; [lit "10"; lit "1"]; [lit "10"; lit "0"]] _)).
  assert (N : forall f, forallb (fun c => negb (Ascii.eqb c U0002)) f = true ->
                        ~ In U0002 f).
  { intros f H Hin. rewrite forallb_forall in H. specialize (H _ Hin).
    rewrite Ascii.eqb_refl in H. discriminate H. }
  repeat (constructor;
          [split; [reflexivity|];
           repeat (constructor; [apply N; reflexivity|]); constructor|]).
  constructor.
Defined.
